(** * Word adder: normalizer, transcription checks, action compiler and
    homophone linker of [mytools/frequency_db_utils/word_adder.py].

    The development is a shallow embedding of the Python module.

    - A Python [str] is a sequence of Unicode code points: [list N].
      Literals are written as UTF-8 text and decoded by [u8].
    - [str.lower] is written out for the alphabets of the two supported
      languages ([lower_char]); [lower_exact] gives the code points on
      which it is [str.lower], and a statement that depends on the
      lower case of a text is made for texts of these code points.
    - [None] is [None]; a value that can be [None] or a string is an
      [option str].
    - The completion service is an explicit argument (a record of
      functions giving the already parsed replies), so that every
      function of the pipeline stays a total, executable function.
    - The table [words] is a list of rows; SQL statements are the
      constructors of [stmt], rendered to the exact text and parameter
      tuple of the source by [render] and executed by [exec_stmt]. *)

From Stdlib Require Import Ascii String.
From Stdlib Require Import List NArith ZArith Bool Lia.
Import ListNotations.

(* ===================================================================== *)
(** * 1. Python strings                                                   *)
(* ===================================================================== *)

Definition char := N.
Definition str := list char.

(** UTF-8 decoding of a literal (one to four bytes per code point). *)
Fixpoint utf8_decode (bs : list N) : str :=
  match bs with
  | [] => []
  | b0 :: r =>
    if (b0 <? 128)%N then b0 :: utf8_decode r
    else if (b0 <? 224)%N then
      match r with
      | b1 :: r1 => ((b0 - 192) * 64 + (b1 - 128))%N :: utf8_decode r1
      | _ => []
      end
    else if (b0 <? 240)%N then
      match r with
      | b1 :: b2 :: r2 =>
        ((b0 - 224) * 4096 + (b1 - 128) * 64 + (b2 - 128))%N :: utf8_decode r2
      | _ => []
      end
    else
      match r with
      | b1 :: b2 :: b3 :: r3 =>
        ((b0 - 240) * 262144 + (b1 - 128) * 4096 + (b2 - 128) * 64 + (b3 - 128))%N
          :: utf8_decode r3
      | _ => []
      end
  end.

Definition u8 (s : string) : str :=
  utf8_decode (map N_of_ascii (list_ascii_of_string s)).

Definition str_eqb (a b : str) : bool :=
  if list_eq_dec N.eq_dec a b then true else false.

Definition opt_str_eqb (a b : option str) : bool :=
  match a, b with
  | None, None => true
  | Some x, Some y => str_eqb x y
  | _, _ => false
  end.

Definition mem_char (c : char) (cs : str) : bool := existsb (N.eqb c) cs.

Definition mem_str (s : str) (l : list str) : bool := existsb (str_eqb s) l.

(** [str.isspace] on one code point (the Unicode white-space code points
    and the four information separators). *)
Definition is_space (c : char) : bool :=
  ((9 <=? c) && (c <=? 13) || (28 <=? c) && (c <=? 32)
   || (c =? 133) || (c =? 160) || (c =? 5760)
   || (8192 <=? c) && (c <=? 8202)
   || (c =? 8232) || (c =? 8233) || (c =? 8239) || (c =? 8287)
   || (c =? 12288))%N.

(** [s.lstrip(chars)], [s.rstrip(chars)] and [s.strip(chars)] for a
    predicate on characters. *)
Fixpoint lstrip_by (p : char -> bool) (s : str) : str :=
  match s with
  | [] => []
  | c :: r => if p c then lstrip_by p r else s
  end.

Definition rstrip_by (p : char -> bool) (s : str) : str :=
  rev (lstrip_by p (rev s)).

Definition strip_by (p : char -> bool) (s : str) : str :=
  rstrip_by p (lstrip_by p s).

(** [s.strip()] *)
Definition strip (s : str) : str := strip_by is_space s.

(** [s.strip(chars)] *)
Definition strip_chars (chars : str) (s : str) : str :=
  strip_by (fun c => mem_char c chars) s.

(** [s.replace(ch, by)] for a one-character pattern. *)
Definition replace_char (ch : char) (by_ : str) (s : str) : str :=
  flat_map (fun c => if N.eqb c ch then by_ else [c]) s.

(** [str.lower] on one code point.  The mapping is written out for the
    Basic Latin and Latin-1 Supplement blocks and for the letters
    [Œ], [Ÿ] and [ẞ], the alphabets of the two supported languages;
    every other code point is left as it is ([str.lower] also lowers
    the capitals of the other alphabets: see [lower_exact]). *)
Definition lower_char (c : char) : char :=
  if ((65 <=? c) && (c <=? 90))%N then (c + 32)%N
  else if ((192 <=? c) && (c <=? 222) && negb (c =? 215))%N then (c + 32)%N
  else if (c =? 338)%N then 339%N
  else if (c =? 376)%N then 255%N
  else if (c =? 7838)%N then 223%N
  else c.

Definition lower (s : str) : str := map lower_char s.

(** The code points on which [lower_char] is [str.lower]: the Basic
    Latin and Latin-1 Supplement blocks, the letters Œ, œ, Ÿ and ẞ, the
    blocks from IPA Extensions to Combining Diacritical Marks (U+0250
    to U+036F), the blocks from General Punctuation to Currency Symbols
    (U+2000 to U+20CF), and white space.  Elsewhere [str.lower] lowers
    the capitals of the other alphabets as well, and gives two code
    points for U+0130; the statements that depend on lower case are
    made for texts of these code points. *)
Definition lower_exact (c : char) : bool :=
  ((c <? 256) || mem_char c [338; 339; 376; 7838]
   || (592 <=? c) && (c <=? 879)
   || (8192 <=? c) && (c <=? 8399))%N
  || is_space c.

Definition lower_exact_text (s : str) : bool := forallb lower_exact s.

(** [re.sub(r"\s+", " ", s)]: every maximal run of white space becomes
    one space.  The flag tells whether the previous character was white
    space. *)
Fixpoint collapse_ws_from (in_ws : bool) (s : str) : str :=
  match s with
  | [] => []
  | c :: r =>
    if is_space c then
      if in_ws then collapse_ws_from true r
      else 32%N :: collapse_ws_from true r
    else c :: collapse_ws_from false r
  end.

Definition collapse_ws (s : str) : str := collapse_ws_from false s.

(** [re.split(r"[...]+", s)] for a character class [p]: the pieces
    between maximal runs of characters of the class ([cur] is the
    current piece, reversed). *)
Fixpoint re_split_runs_from (p : char -> bool) (in_run : bool) (cur : str)
    (s : str) : list str :=
  match s with
  | [] => [rev cur]
  | c :: r =>
    if p c then
      if in_run then re_split_runs_from p true cur r
      else rev cur :: re_split_runs_from p true [] r
    else re_split_runs_from p false (c :: cur) r
  end.

Definition re_split_runs (p : char -> bool) (s : str) : list str :=
  re_split_runs_from p false [] s.

(** [re.split(r"\s+", s)] *)
Definition re_split_ws (s : str) : list str := re_split_runs is_space s.

Definition nonempty (s : str) : bool :=
  match s with [] => false | _ => true end.

Definition nonempty_list {A} (l : list A) : bool :=
  match l with [] => false | _ => true end.

(** [s.split()] *)
Definition split_ws (s : str) : list str := filter nonempty (re_split_ws s).

(** [s.startswith(p)] *)
Fixpoint startswith (p s : str) : bool :=
  match p, s with
  | [], _ => true
  | _ :: _, [] => false
  | a :: p', b :: s' => N.eqb a b && startswith p' s'
  end.

(** [s.endswith(p)] *)
Definition endswith (p s : str) : bool := startswith (rev p) (rev s).

(** [p in s] for strings. *)
Fixpoint contains (p s : str) : bool :=
  startswith p s ||
  match s with
  | [] => false
  | _ :: r => contains p r
  end.

(** [s.split(sep, 1)]: [None] when [sep] does not occur, otherwise the
    text before and after its first occurrence. *)
Fixpoint split_once (sep s : str) : option (str * str) :=
  if startswith sep s then Some ([], skipn (length sep) s)
  else
    match s with
    | [] => None
    | c :: r =>
      match split_once sep r with
      | Some (a, b) => Some (c :: a, b)
      | None => None
      end
    end.

(** [s.split(ch)] for a one-character separator. *)
Fixpoint split_char_from (ch : char) (cur : str) (s : str) : list str :=
  match s with
  | [] => [rev cur]
  | c :: r =>
    if N.eqb c ch then rev cur :: split_char_from ch [] r
    else split_char_from ch (c :: cur) r
  end.

Definition split_char (ch : char) (s : str) : list str :=
  split_char_from ch [] s.

(** [sep.join(items)] *)
Fixpoint join (sep : str) (items : list str) : str :=
  match items with
  | [] => []
  | [x] => x
  | x :: r => x ++ sep ++ join sep r
  end.

(** [s[:-1]] *)
Definition drop_last (s : str) : str := removelast s.

(* ===================================================================== *)
(** * 2. Normalizer                                                       *)
(* ===================================================================== *)

(** [_UNICODE_APOSTROPHES] *)
Definition _UNICODE_APOSTROPHES : str := [8217; 700; 8242; 8216]%N.

Definition apostrophe : char := 39%N.

(** [_normalize_apostrophes] *)
Definition _normalize_apostrophes (text : str) : str :=
  map (fun c => if mem_char c _UNICODE_APOSTROPHES then apostrophe else c) text.

(** [string.punctuation] without the ASCII apostrophe, followed by the
    typographic quotes, guillemets, inverted marks, ellipsis, dashes and
    the middle dot. *)
Definition punct_no_apostrophe : str :=
  Eval vm_compute in
    (u8 "!" ++ [34%N] ++ u8 "#$%&()*+,-./:;<=>?@[\]^_`{|}~"
     ++ u8 "“”‘’«»¿¡…–—·").

(** The [strip_chars] of [_strip_edge_punctuation]. *)
Definition edge_strip_chars : str := punct_no_apostrophe ++ [9; 10; 13]%N.

(** [_strip_edge_punctuation] *)
Definition _strip_edge_punctuation (text : str) : str :=
  let s := strip text in
  match s with
  | [] => []
  | _ => strip_chars edge_strip_chars s
  end.

Definition lang_fr : str := Eval vm_compute in u8 "fr".
Definition lang_de : str := Eval vm_compute in u8 "de".

(** [x in {"fr", "de"}] *)
Definition is_fr_or_de (l : str) : bool := str_eqb l lang_fr || str_eqb l lang_de.

(** [_normalize_user_text] *)
Definition _normalize_user_text (language : str) (text : str) : str :=
  let s := _normalize_apostrophes text in
  let s := _strip_edge_punctuation s in
  let s := strip (collapse_ws s) in
  if is_fr_or_de (lower language) then lower s else s.

(** [re.match(r"^(d|l)'(.+)$", w, flags=re.IGNORECASE)], returning group 2.
    [.] does not match a line feed, and [$] also matches just before a
    final line feed. *)
Definition match_contraction (w : str) : option str :=
  match w with
  | c0 :: c1 :: rest =>
    if ((c0 =? 100) || (c0 =? 68) || (c0 =? 108) || (c0 =? 76))%N
       && (c1 =? apostrophe)%N then
      match split_once [10%N] rest with
      | None => if nonempty rest then Some rest else None
      | Some (a, b) =>
        if nonempty a && negb (nonempty b) then Some a else None
      end
    else None
  | _ => None
  end.

(** [_fr_drop_contraction_prefix] *)
Definition _fr_drop_contraction_prefix (token : str) : str :=
  let w := strip token in
  match w with
  | [] => []
  | _ =>
    match match_contraction w with
    | None => w
    | Some g2 =>
      let rhs := strip g2 in
      match rhs with [] => w | _ => rhs end
    end
  end.

(** [_normalize_phrase_for_tts_storage] *)
Definition _normalize_phrase_for_tts_storage (language : str) (phrase : str) : str :=
  let lang := lower (strip language) in
  let s := _normalize_user_text lang phrase in
  match s with
  | [] => []
  | _ =>
    let s := replace_char apostrophe [] s in
    let s := map (fun c => if mem_char c punct_no_apostrophe then 32%N else c) s in
    let s := strip (collapse_ws s) in
    if is_fr_or_de lang then lower s else s
  end.

(** The characters stripped around each token in [_tokenize_phrase]:
    the double quote, the typographic quotes, brackets and [.,;:!?«»]. *)
Definition token_strip_chars : str :=
  Eval vm_compute in ([34%N] ++ u8 "“”‘’()[]{}.,;:!?«»").

(** [_tokenize_phrase]: the loop body applied to one part; [None] when
    the part is skipped. *)
Definition tokenize_part (language : str) (part : str) : option str :=
  let p := _normalize_apostrophes (strip part) in
  match p with
  | [] => None
  | _ =>
    let p := strip_chars token_strip_chars p in
    match p with
    | [] => None
    | _ =>
      let p := if is_fr_or_de (lower language) then lower p else p in
      let p := if str_eqb (lower language) lang_fr
               then _fr_drop_contraction_prefix p else p in
      Some p
    end
  end.

Fixpoint filter_map {A B} (f : A -> option B) (l : list A) : list B :=
  match l with
  | [] => []
  | x :: r =>
    match f x with
    | Some y => y :: filter_map f r
    | None => filter_map f r
    end
  end.

(** [_tokenize_phrase] *)
Definition _tokenize_phrase (language : str) (phrase : str) : list str :=
  let text := _normalize_user_text language phrase in
  match text with
  | [] => []
  | _ => filter_map (tokenize_part language) (re_split_ws text)
  end.

(* ===================================================================== *)
(** * 3. Transcription format                                             *)
(* ===================================================================== *)

Definition slash : char := 47%N.
Definition liaison : char := 8255%N.

(** [s[1:-1]] *)
Definition interior (s : str) : str := drop_last (tl s).

(** [re.fullmatch(r"/[^/]+/", raw)] *)
Definition is_single_segment (raw : str) : bool :=
  match raw with
  | c :: r =>
    N.eqb c slash &&
    match rev r with
    | e :: mid =>
      N.eqb e slash && nonempty mid
      && forallb (fun x => negb (N.eqb x slash)) mid
    | [] => false
    end
  | [] => false
  end.

(** [_normalize_ipa_wrapping] *)
Definition _normalize_ipa_wrapping (ipa : str) : option str :=
  let raw := strip ipa in
  match raw with
  | [] => None
  | _ =>
    if is_single_segment raw then
      let inside := interior raw in
      if mem_char 91%N inside || mem_char 93%N inside then None
      else Some raw
    else None
  end.

(** [_simple_ipa_from_text] *)
Definition _simple_ipa_from_text (content : str) : option str :=
  let raw := strip content in
  _normalize_ipa_wrapping raw.

(** [_ipa_is_reasonably_well_formed] *)
Definition _ipa_is_reasonably_well_formed (ipa : option str) : bool :=
  match ipa with
  | None | Some [] => false
  | Some ipa =>
    let s := strip ipa in
    if contains [slash; slash] s then false
    else if negb (startswith [slash] s && endswith [slash] s) then false
    else
      let inside := strip (interior s) in
      match inside with
      | [] => false
      | _ =>
        if existsb (fun ch => mem_char ch inside) [10; 13; 9]%N then false
        else if contains [32%N; liaison] inside
                || contains [liaison; 32%N] inside then false
        else if contains [liaison; liaison] inside then false
        else true
      end
  end.

(** The segments of [_ipa_is_reasonably_well_formed_for_phrase]:
    the non-empty pieces of the interior split on runs of spaces and
    liaison markers. *)
Definition ipa_segments (ipa : str) : list str :=
  let inside := strip (interior (strip ipa)) in
  filter nonempty
    (re_split_runs (fun c => N.eqb c 32%N || N.eqb c liaison) inside).

Definition opt_get (o : option str) : str :=
  match o with Some s => s | None => [] end.

(** [_ipa_is_reasonably_well_formed_for_phrase] *)
Definition _ipa_is_reasonably_well_formed_for_phrase
    (language : str) (phrase : str) (ipa : option str) : bool :=
  if negb (_ipa_is_reasonably_well_formed ipa) then false
  else
    let lang := strip (lower language) in
    if negb (str_eqb lang lang_fr) then true
    else
      let tokens := _tokenize_phrase lang phrase in
      match tokens with
      | [] => true
      | _ =>
        if (length tokens <=? 1)%nat then true
        else (length (ipa_segments (opt_get ipa)) =? length tokens)%nat
      end.

(** A reply of the completion service to a transcription request:
    the raw content, and the fields [phrase] and [ipa] of the JSON
    object found in it ([None] when [_extract_json_from_text] finds no
    non-empty object; a field is [None] when it is missing or not a
    string). *)
Record ipa_reply := {
  ir_raw : str;
  ir_parsed : option (option str * option str)
}.

(** The part of [_get_phrase_ipa] after the request. *)
Definition _get_phrase_ipa (reply : ipa_reply) : option str :=
  match ir_parsed reply with
  | Some (_, Some maybe_ipa) =>
    if nonempty (strip maybe_ipa) then _simple_ipa_from_text maybe_ipa
    else _simple_ipa_from_text (ir_raw reply)
  | _ => _simple_ipa_from_text (ir_raw reply)
  end.

(* ===================================================================== *)
(** * 4. Plural nouns and ambiguous pronouns                              *)
(* ===================================================================== *)

Definition str_eaux : str := Eval vm_compute in u8 "eaux".
Definition str_s : str := Eval vm_compute in u8 "s".

(** [_fr_singular_candidate_for_plural_noun] *)
Definition _fr_singular_candidate_for_plural_noun (word : str) : option str :=
  let w := strip word in
  match w with
  | [] => None
  | _ =>
    if existsb is_space w then None
    else
      let low := lower w in
      if endswith str_eaux low && (4 <? length w)%nat then Some (drop_last w)
      else if endswith str_s low && (3 <? length w)%nat then Some (drop_last w)
      else None
  end.

(** The entries of a verb paradigm: dictionaries with the keys
    [pronoun], [phrase], [translation] and, once resolved, [ipa] and
    [association] ([None]: the key is absent). *)
Record verb_entry := {
  ve_pronoun : str;
  ve_phrase : str;
  ve_translation : str;
  ve_ipa : option str;
  ve_association : option str
}.

Definition grp_il : str := Eval vm_compute in u8 "il/elle/on".
Definition grp_ils : str := Eval vm_compute in u8 "ils/elles".
Definition grp_er : str := Eval vm_compute in u8 "er/sie/man".

(** [group_map.get(pron)] of [_group_ambiguous_pronouns]. *)
Definition group_map (lang : str) (pron : str) : option str :=
  if str_eqb lang lang_fr then
    if mem_str pron [u8 "il"; u8 "elle"; u8 "on"] then Some grp_il
    else if mem_str pron [u8 "ils"; u8 "elles"] then Some grp_ils
    else None
  else if str_eqb lang lang_de then
    if mem_str pron [u8 "er"; u8 "sie"; u8 "man"] then Some grp_er
    else None
  else None.

Definition pron_key := (str * str)%type.

Definition key_eqb (a b : pron_key) : bool :=
  str_eqb (fst a) (fst b) && str_eqb (snd a) (snd b).

(** The dictionary [merged] together with the list [order]: keys in
    first-seen order with their entries. *)
Definition merged_map := list (pron_key * verb_entry).

Definition has_key (k : pron_key) (m : merged_map) : bool :=
  existsb (fun kv => key_eqb k (fst kv)) m.

(** [merged[key]["translation"] = tr] when the stored translation is
    blank. *)
Fixpoint fill_translation (k : pron_key) (tr : str) (m : merged_map)
    : merged_map :=
  match m with
  | [] => []
  | (k', e) :: r =>
    if key_eqb k k' then
      (k', if nonempty (strip (ve_translation e)) then e
           else {| ve_pronoun := ve_pronoun e; ve_phrase := ve_phrase e;
                   ve_translation := tr; ve_ipa := ve_ipa e;
                   ve_association := ve_association e |}) :: r
    else (k', e) :: fill_translation k tr r
  end.

(** One iteration of the loop of [_group_ambiguous_pronouns]. *)
Definition group_step (lang : str) (m : merged_map) (entry : verb_entry)
    : merged_map :=
  let phrase := strip (ve_phrase entry) in
  match phrase with
  | [] => m
  | _ =>
    match split_once [32%N] phrase with
    | None =>
      let key := ([], phrase) in
      if has_key key m then m else m ++ [(key, entry)]
    | Some (p0, p1) =>
      let pron := lower (strip p0) in
      let rest := strip p1 in
      match group_map lang pron with
      | None =>
        let key := (pron, rest) in
        if has_key key m then m else m ++ [(key, entry)]
      | Some group =>
        let key := (group, rest) in
        if has_key key m then
          fill_translation key (strip (ve_translation entry)) m
        else
          m ++ [(key, {| ve_pronoun := group;
                         ve_phrase := group ++ [32%N] ++ rest;
                         ve_translation := ve_translation entry;
                         ve_ipa := None;
                         ve_association := ve_association entry |})]
      end
    end
  end.

Definition group_merge (lang : str) (verb_entries : list verb_entry)
    : merged_map :=
  fold_left (group_step lang) verb_entries [].

(** [_group_ambiguous_pronouns] *)
Definition _group_ambiguous_pronouns (language : str)
    (verb_entries : list verb_entry) : list verb_entry :=
  let lang := lower language in
  if negb (is_fr_or_de lang) then verb_entries
  else
    match verb_entries with
    | [] => verb_entries
    | _ => map snd (group_merge lang verb_entries)
    end.

(* ===================================================================== *)
(** * 5. Compiled statements                                              *)
(* ===================================================================== *)

(** The values of a parameter tuple. *)
Inductive value :=
| VNone
| VStr (s : str)
| VInt (z : Z).

Definition value_of_opt (o : option str) : value :=
  match o with Some s => VStr s | None => VNone end.

(** The rejected-words guard of a statement: the validated registry
    name, the user identity and the normalized language.  User
    identities are strings; the code only tests them against [None] and
    passes them on as parameters. *)
Record guard := {
  g_table : str;
  g_user : str;
  g_lang : str
}.

(** The statements the action compiler emits.  [render] gives the
    statement text and the parameter tuple of each.
    - [InsertWord]: [insert_sql];
    - [UpdateIpa]: [upd_ipa];
    - [UpdateAssoc repair]: [upd_assoc], with the repair pattern
      [LIKE '%,%,%'] when [repair] is set ([prepare_word_actions]) and
      without it ([_prepare_phrase_actions]);
    - [LinkSelf], [LinkOthers]: the two statements of
      [_append_homophone_link_queries]. *)
Inductive stmt :=
| InsertWord (g : option guard) (word : str) (association : option str)
    (list_id : Z) (ipa : option str)
| UpdateIpa (g : option guard) (ipa : str) (word : str) (list_id : Z)
| UpdateAssoc (repair : bool) (g : option guard) (association : str)
    (word : str) (list_id : Z)
| LinkSelf (list_id : Z) (word : str) (ipa : str)
| LinkOthers (list_id : Z) (word : str) (ipa : str).

(** [insert_sql] with the guard, up to the table name. *)
Definition insert_sql_guarded_head : str :=
  Eval vm_compute in
  (u8 "INSERT INTO words (word, used, association, state, list_id, successes, " ++ [34%N] ++ u8 "IPA_word" ++ [34%N] ++ u8 ", added)
SELECT %s, FALSE, %s, 'New', %s, 0, %s, TRUE
WHERE NOT EXISTS (SELECT 1 FROM ").

(** [insert_sql] with the guard, after the table name. *)
Definition insert_sql_guarded_tail : str :=
  Eval vm_compute in
  (u8 " r WHERE r.user_id = %s AND r.language = %s AND r.palabra = %s)
ON CONFLICT (word, list_id) DO NOTHING;").

(** [insert_sql] without the guard. *)
Definition insert_sql_plain : str :=
  Eval vm_compute in
  (u8 "INSERT INTO words (word, used, association, state, list_id, successes, " ++ [34%N] ++ u8 "IPA_word" ++ [34%N] ++ u8 ", added)
        VALUES (%s, FALSE, %s, 'New', %s, 0, %s, TRUE)
        ON CONFLICT (word, list_id) DO NOTHING;").

(** [upd_ipa] before the guard or the final semicolon. *)
Definition upd_ipa_sql : str :=
  Eval vm_compute in
  (u8 "UPDATE words SET " ++ [34%N] ++ u8 "IPA_word" ++ [34%N] ++ u8 " = %s
            WHERE word = %s AND list_id = %s AND " ++ [34%N] ++ u8 "IPA_word" ++ [34%N] ++ u8 " IS NULL").

(** [upd_assoc] of [prepare_word_actions] (with the repair pattern). *)
Definition upd_assoc_sql : str :=
  Eval vm_compute in
  (u8 "UPDATE words SET association = %s
            WHERE word = %s AND list_id = %s AND (association IS NULL OR association = '' OR association LIKE '%%,%%,%%')").

(** [upd_assoc] of [_prepare_phrase_actions]. *)
Definition upd_assoc_sql_phrase : str :=
  Eval vm_compute in
  (u8 "UPDATE words SET association = %s
            WHERE word = %s AND list_id = %s AND (association IS NULL OR association = '')").

(** The guard appended to an update, up to the table name. *)
Definition guard_sql_head : str :=
  Eval vm_compute in
  (u8 "
              AND NOT EXISTS (SELECT 1 FROM ").

(** The guard appended to an update, after the table name. *)
Definition guard_sql_tail : str :=
  Eval vm_compute in
  (u8 " r WHERE r.user_id = %s AND r.language = %s AND r.palabra = %s);").

(** First statement of [_append_homophone_link_queries]. *)
Definition link_self_sql : str :=
  Eval vm_compute in
  (u8 "UPDATE words w1
			SET association = CASE
				WHEN w1.association IS NULL OR w1.association = '' THEN
					(
						SELECT string_agg(w2.word, '; ')
						FROM words w2
						WHERE w2.list_id = w1.list_id
						  AND w2." ++ [34%N] ++ u8 "IPA_word" ++ [34%N] ++ u8 " = w1." ++ [34%N] ++ u8 "IPA_word" ++ [34%N] ++ u8 "
						  AND w2.word <> w1.word
						  AND w2.word NOT LIKE '%% %%'
						  -- Exclude non-lexical variants (contraction prefixes / trailing punctuation)
						  AND w2.word NOT LIKE 'd''%%'
						  AND w2.word NOT LIKE 'l''%%'
						  AND w2.word NOT LIKE '%%.'
						  AND w2.word NOT LIKE '%%,'
						  AND w2.word NOT LIKE '%%;'
						  AND w2.word NOT LIKE '%%:'
					)
				WHEN position(' | homófonos: ' in w1.association) > 0 THEN
					w1.association || '; ' || (
						SELECT string_agg(w2.word, '; ')
						FROM words w2
						WHERE w2.list_id = w1.list_id
						  AND w2." ++ [34%N] ++ u8 "IPA_word" ++ [34%N] ++ u8 " = w1." ++ [34%N] ++ u8 "IPA_word" ++ [34%N] ++ u8 "
						  AND w2.word <> w1.word
						  AND w2.word NOT LIKE '%% %%'
						  AND w2.word NOT LIKE 'd''%%'
						  AND w2.word NOT LIKE 'l''%%'
						  AND w2.word NOT LIKE '%%.'
						  AND w2.word NOT LIKE '%%,'
						  AND w2.word NOT LIKE '%%;'
						  AND w2.word NOT LIKE '%%:'
						  AND NOT (
							w2.word = ANY(
								regexp_split_to_array(
									CASE
										WHEN position(' | homófonos: ' in w1.association) > 0 THEN split_part(w1.association, ' | homófonos: ', 2)
										ELSE ''
									END,
									'\s*;\s*'
								)
							)
						  )
					)
				ELSE
					w1.association || ' | homófonos: ' || (
						SELECT string_agg(w2.word, '; ')
						FROM words w2
						WHERE w2.list_id = w1.list_id
						  AND w2." ++ [34%N] ++ u8 "IPA_word" ++ [34%N] ++ u8 " = w1." ++ [34%N] ++ u8 "IPA_word" ++ [34%N] ++ u8 "
						  AND w2.word <> w1.word
						  AND w2.word NOT LIKE '%% %%'
						  AND w2.word NOT LIKE 'd''%%'
						  AND w2.word NOT LIKE 'l''%%'
						  AND w2.word NOT LIKE '%%.'
						  AND w2.word NOT LIKE '%%,'
						  AND w2.word NOT LIKE '%%;'
						  AND w2.word NOT LIKE '%%:'
						  AND NOT (
							w2.word = ANY(
								regexp_split_to_array(
									CASE
										WHEN position(' | homófonos: ' in w1.association) > 0 THEN split_part(w1.association, ' | homófonos: ', 2)
										ELSE ''
									END,
									'\s*;\s*'
								)
							)
						  )
					)
			END
			WHERE w1.list_id = %s
			  AND w1.word = %s
			  AND w1." ++ [34%N] ++ u8 "IPA_word" ++ [34%N] ++ u8 " = %s
			  AND EXISTS (
				SELECT 1
				FROM words w2
				WHERE w2.list_id = w1.list_id
				  AND w2." ++ [34%N] ++ u8 "IPA_word" ++ [34%N] ++ u8 " = w1." ++ [34%N] ++ u8 "IPA_word" ++ [34%N] ++ u8 "
				  AND w2.word <> w1.word
				  AND w2.word NOT LIKE '%% %%'
				  AND w2.word NOT LIKE 'd''%%'
				  AND w2.word NOT LIKE 'l''%%'
				  AND w2.word NOT LIKE '%%.'
				  AND w2.word NOT LIKE '%%,'
				  AND w2.word NOT LIKE '%%;'
				  AND w2.word NOT LIKE '%%:'
				  AND NOT (
					w2.word = ANY(
						regexp_split_to_array(
							CASE
								WHEN position(' | homófonos: ' in COALESCE(w1.association, '')) > 0 THEN split_part(COALESCE(w1.association, ''), ' | homófonos: ', 2)
								ELSE ''
							END,
							'\s*;\s*'
						)
					)
				  )
			  );").

(** Second statement of [_append_homophone_link_queries]. *)
Definition link_others_sql : str :=
  Eval vm_compute in
  (u8 "UPDATE words w
			SET association = CASE
				WHEN w.association IS NULL OR w.association = '' THEN %s
				WHEN position(' | homófonos: ' in w.association) > 0 THEN w.association || '; ' || %s
				ELSE w.association || ' | homófonos: ' || %s
			END
			WHERE w.list_id = %s
			  AND w." ++ [34%N] ++ u8 "IPA_word" ++ [34%N] ++ u8 " = %s
			  AND w.word <> %s
			  AND w.word NOT LIKE '%% %%'
			  AND w.word NOT LIKE 'd''%%'
			  AND w.word NOT LIKE 'l''%%'
			  AND w.word NOT LIKE '%%.'
			  AND w.word NOT LIKE '%%,'
			  AND w.word NOT LIKE '%%;'
			  AND w.word NOT LIKE '%%:'
			  AND NOT (
				%s = ANY(
					regexp_split_to_array(
						CASE
							WHEN position(' | homófonos: ' in COALESCE(w.association, '')) > 0 THEN split_part(COALESCE(w.association, ''), ' | homófonos: ', 2)
							ELSE ''
						END,
						'\s*;\s*'
					)
				)
			  );").

Definition guard_params (g : guard) (word : str) : list value :=
  [VStr (g_user g); VStr (g_lang g); VStr word].

(** The pair [(sql, params)] appended to [queries] for a statement. *)
Definition render (q : stmt) : str * list value :=
  match q with
  | InsertWord None w a l i =>
    (insert_sql_plain, [VStr w; value_of_opt a; VInt l; value_of_opt i])
  | InsertWord (Some g) w a l i =>
    (insert_sql_guarded_head ++ g_table g ++ insert_sql_guarded_tail,
     [VStr w; value_of_opt a; VInt l; value_of_opt i] ++ guard_params g w)
  | UpdateIpa None i w l =>
    (upd_ipa_sql ++ [59%N], [VStr i; VStr w; VInt l])
  | UpdateIpa (Some g) i w l =>
    (upd_ipa_sql ++ guard_sql_head ++ g_table g ++ guard_sql_tail,
     [VStr i; VStr w; VInt l] ++ guard_params g w)
  | UpdateAssoc repair None a w l =>
    ((if repair then upd_assoc_sql else upd_assoc_sql_phrase) ++ [59%N],
     [VStr a; VStr w; VInt l])
  | UpdateAssoc repair (Some g) a w l =>
    ((if repair then upd_assoc_sql else upd_assoc_sql_phrase)
       ++ guard_sql_head ++ g_table g ++ guard_sql_tail,
     [VStr a; VStr w; VInt l] ++ guard_params g w)
  | LinkSelf l w i => (link_self_sql, [VInt l; VStr w; VStr i])
  | LinkOthers l w i =>
    (link_others_sql,
     [VStr w; VStr w; VStr w; VInt l; VStr i; VStr w; VStr w])
  end.

(** [sql.count('%s')]: the non-overlapping occurrences of the
    placeholder, from left to right. *)
Definition percent : char := 37%N.
Definition letter_s : char := 115%N.

Fixpoint count_placeholders (sql : str) : nat :=
  match sql with
  | [] => 0
  | c :: r =>
    if N.eqb c percent then
      match r with
      | d :: r' =>
        if N.eqb d letter_s then S (count_placeholders r')
        else count_placeholders r
      | [] => 0
      end
    else count_placeholders r
  end.

(** [has_invalid_percent] of the regression test: a percent sign must be
    followed by [s] (a placeholder) or by a second percent sign (an
    escaped literal). *)
Fixpoint has_invalid_percent (sql : str) : bool :=
  match sql with
  | [] => false
  | c :: r =>
    if N.eqb c percent then
      match r with
      | d :: r' =>
        if N.eqb d letter_s || N.eqb d percent then has_invalid_percent r'
        else true
      | [] => true
      end
    else has_invalid_percent r
  end.

(** The identifier pattern of the registry name: a letter or an
    underscore followed by letters, digits and underscores, optionally
    followed by a dot and a second such name (matched with
    [re.fullmatch]). *)
Definition ident_start (c : char) : bool :=
  ((65 <=? c) && (c <=? 90) || (97 <=? c) && (c <=? 122) || (c =? 95))%N.

Definition ident_char (c : char) : bool :=
  ident_start c || ((48 <=? c) && (c <=? 57))%N.

Definition is_simple_ident (t : str) : bool :=
  match t with
  | c :: r => ident_start c && forallb ident_char r
  | [] => false
  end.

Definition is_table_identifier (t : str) : bool :=
  match split_once [46%N] t with
  | None => is_simple_ident t
  | Some (a, b) => is_simple_ident a && is_simple_ident b
  end.

(* ===================================================================== *)
(** * 6. The table [words] and the execution of statements                *)
(* ===================================================================== *)

(** A row of [words]: the columns the statements read or write.  The
    other columns ([used], [state], [successes], [added]) receive
    constants on insertion and are never touched again. *)
Record row := {
  r_id : Z;
  r_word : str;
  r_list : Z;
  r_assoc : option str;
  r_ipa : option str
}.

(** A row of a rejected-words registry. *)
Record rejected_row := {
  rj_user : str;
  rj_lang : str;
  rj_word : str
}.

(** The database: the rows of [words] in storage order, and the
    registries by name. *)
Record database := {
  words : list row;
  registries : str -> list rejected_row
}.

Definition with_words (db : database) (ws : list row) : database :=
  {| words := ws; registries := registries db |}.

Definition key_match (w : str) (l : Z) (r : row) : bool :=
  str_eqb (r_word r) w && Z.eqb (r_list r) l.

Definition set_assoc (a : option str) (r : row) : row :=
  {| r_id := r_id r; r_word := r_word r; r_list := r_list r;
     r_assoc := a; r_ipa := r_ipa r |}.

Definition set_ipa (i : option str) (r : row) : row :=
  {| r_id := r_id r; r_word := r_word r; r_list := r_list r;
     r_assoc := r_assoc r; r_ipa := i |}.

(** The next value of the [id] sequence. *)
Definition next_id (ws : list row) : Z :=
  (1 + fold_right (fun r m => Z.max (r_id r) m) 0 ws)%Z.

(** [EXISTS (SELECT 1 FROM table r WHERE r.user_id = %s AND
    r.language = %s AND r.palabra = %s)] *)
Definition is_rejected (db : database) (g : guard) (w : str) : bool :=
  existsb (fun r => str_eqb (rj_user r) (g_user g)
                    && str_eqb (rj_lang r) (g_lang g)
                    && str_eqb (rj_word r) w)
          (registries db (g_table g)).

Definition guard_passes (db : database) (g : option guard) (w : str) : bool :=
  match g with
  | None => true
  | Some g => negb (is_rejected db g w)
  end.

Definition comma : char := 44%N.
Definition semicolon : char := 59%N.

(** [association LIKE '%,%,%']: at least two commas. *)
Definition like_two_commas (a : str) : bool :=
  (2 <=? length (filter (N.eqb comma) a))%nat.

(** [association IS NULL OR association = ''] and, with [repair],
    [OR association LIKE '%,%,%']. *)
Definition assoc_updatable (repair : bool) (a : option str) : bool :=
  match a with
  | None => true
  | Some [] => true
  | Some s => repair && like_two_commas s
  end.

(** [_HOMOPHONE_SECTION_SEPARATOR] *)
Definition _HOMOPHONE_SECTION_SEPARATOR : str :=
  Eval vm_compute in u8 " | homófonos: ".

(** [_HOMOPHONE_ITEM_SEPARATOR] *)
Definition _HOMOPHONE_ITEM_SEPARATOR : str := [semicolon; 32%N].

(** White space of the regular expressions of the database ([\s]):
    the ASCII white-space characters. *)
Definition pg_space (c : char) : bool :=
  ((9 <=? c) && (c <=? 13) || (c =? 32))%N.

(** [split_part(a, sep, 2)]: the text between the first and the second
    occurrence of [sep], empty when [sep] does not occur. *)
Definition pg_split_part_2 (sep a : str) : str :=
  match split_once sep a with
  | None => []
  | Some (_, rest) =>
    match split_once sep rest with
    | None => rest
    | Some (field, _) => field
    end
  end.

(** The pieces of [regexp_split_to_array(t, '\s*;\s*')]: [t] is cut at
    each semicolon together with the white space around it, so the
    first piece loses its trailing white space, the last piece its
    leading white space, and the pieces in between both. *)
Fixpoint pg_trim_pieces (first : bool) (pieces : list str) : list str :=
  match pieces with
  | [] => []
  | [x] => [if first then x else lstrip_by pg_space x]
  | x :: r =>
    (if first then rstrip_by pg_space x else strip_by pg_space x)
      :: pg_trim_pieces false r
  end.

Definition pg_regexp_split_semicolons (t : str) : list str :=
  pg_trim_pieces true (split_char semicolon t).

(** The array of the [NOT (word = ANY(regexp_split_to_array(...)))]
    conditions: the items of the homophone section of [COALESCE(a, '')]. *)
Definition pg_section_items (a : option str) : list str :=
  let a := opt_get a in
  pg_regexp_split_semicolons
    (if contains _HOMOPHONE_SECTION_SEPARATOR a
     then pg_split_part_2 _HOMOPHONE_SECTION_SEPARATOR a
     else []).

(** [string_agg(word, '; ')]: [NULL] over no row. *)
Definition pg_string_agg (items : list str) : option str :=
  match items with
  | [] => None
  | _ => Some (join _HOMOPHONE_ITEM_SEPARATOR items)
  end.

(** [a || b] with [NULL] operands. *)
Definition pg_concat (a b : option str) : option str :=
  match a, b with
  | Some x, Some y => Some (x ++ y)
  | _, _ => None
  end.

(** The [NOT LIKE] conditions on a homophone's word: no space, no
    contraction prefix [d'] or [l'], no final [.], [,], [;] or [:]. *)
Definition lexical_word (w : str) : bool :=
  negb (mem_char 32%N w)
  && negb (startswith [100%N; apostrophe] w)
  && negb (startswith [108%N; apostrophe] w)
  && negb (endswith [46%N] w)
  && negb (endswith [comma] w)
  && negb (endswith [semicolon] w)
  && negb (endswith [58%N] w).

(** The rows [w2] of the sub-queries of the first linking statement,
    for the row [w1]. *)
Definition homophone_rows (ws : list row) (w1 : row) : list row :=
  filter (fun w2 =>
            Z.eqb (r_list w2) (r_list w1)
            && match r_ipa w2, r_ipa w1 with
               | Some i2, Some i1 => str_eqb i2 i1
               | _, _ => false
               end
            && negb (str_eqb (r_word w2) (r_word w1))
            && lexical_word (r_word w2))
         ws.

Definition missing_homophones (ws : list row) (w1 : row) : list str :=
  filter (fun w => negb (mem_str w (pg_section_items (r_assoc w1))))
         (map r_word (homophone_rows ws w1)).

(** The [CASE] expression of the first linking statement. *)
Definition link_self_value (ws : list row) (w1 : row) : option str :=
  match r_assoc w1 with
  | None | Some [] => pg_string_agg (map r_word (homophone_rows ws w1))
  | Some a =>
    if contains _HOMOPHONE_SECTION_SEPARATOR a then
      pg_concat (Some (a ++ _HOMOPHONE_ITEM_SEPARATOR))
                (pg_string_agg (missing_homophones ws w1))
    else
      pg_concat (Some (a ++ _HOMOPHONE_SECTION_SEPARATOR))
                (pg_string_agg (missing_homophones ws w1))
  end.

(** The [CASE] expression of the second linking statement. *)
Definition link_others_value (word : str) (w : row) : option str :=
  match r_assoc w with
  | None | Some [] => Some word
  | Some a =>
    if contains _HOMOPHONE_SECTION_SEPARATOR a then
      Some (a ++ _HOMOPHONE_ITEM_SEPARATOR ++ word)
    else Some (a ++ _HOMOPHONE_SECTION_SEPARATOR ++ word)
  end.

(** Execution of one statement. *)
Definition exec_stmt (db : database) (q : stmt) : database :=
  let ws := words db in
  match q with
  | InsertWord g w a l i =>
    if guard_passes db g w && negb (existsb (key_match w l) ws) then
      with_words db
        (ws ++ [{| r_id := next_id ws; r_word := w; r_list := l;
                   r_assoc := a; r_ipa := i |}])
    else db
  | UpdateIpa g i w l =>
    with_words db
      (map (fun r =>
              if key_match w l r
                 && match r_ipa r with None => true | Some _ => false end
                 && guard_passes db g w
              then set_ipa (Some i) r else r) ws)
  | UpdateAssoc repair g a w l =>
    with_words db
      (map (fun r =>
              if key_match w l r && assoc_updatable repair (r_assoc r)
                 && guard_passes db g w
              then set_assoc (Some a) r else r) ws)
  | LinkSelf l w i =>
    with_words db
      (map (fun w1 =>
              if key_match w l w1 && opt_str_eqb (r_ipa w1) (Some i)
                 && nonempty_list (missing_homophones ws w1)
              then set_assoc (link_self_value ws w1) w1 else w1) ws)
  | LinkOthers l w i =>
    with_words db
      (map (fun r =>
              if Z.eqb (r_list r) l && opt_str_eqb (r_ipa r) (Some i)
                 && negb (str_eqb (r_word r) w)
                 && lexical_word (r_word r)
                 && negb (mem_str w (pg_section_items (r_assoc r)))
              then set_assoc (link_others_value w r) r else r) ws)
  end.

(** [for sql, params in queries: cur.execute(sql, params)] *)
Definition exec_all (db : database) (qs : list stmt) : database :=
  fold_left exec_stmt qs db.

(* ===================================================================== *)
(** * 7. Homophone linker                                                 *)
(* ===================================================================== *)

(** [_canonical_word_for_homophones] *)
Definition _canonical_word_for_homophones (language : str) (word : str) : str :=
  let lang := lower (strip language) in
  let s := _normalize_user_text lang word in
  if str_eqb lang lang_fr then _fr_drop_contraction_prefix s else s.

(** [_should_link_homophones_for_word]; [enabled] is false when the
    environment variable [WORD_ADDER_LINK_HOMOPHONES] switches linking
    off. *)
Definition _should_link_homophones_for_word (enabled : bool) (word : str)
    : bool :=
  if negb enabled then false
  else if negb (nonempty word) then false
  else if mem_char 32%N (strip word) then false
  else str_eqb (_canonical_word_for_homophones lang_fr word) (strip word).

(** The items of the homophone section of a stripped association:
    [tail.split(";")], each part stripped, empty parts dropped. *)
Definition section_items (tail : str) : list str :=
  filter nonempty (map strip (split_char semicolon tail)).

(** [_append_homophone_to_association] *)
Definition _append_homophone_to_association (association : option str)
    (homophone_word : str) : str :=
  let assoc := strip (opt_get association) in
  let h := strip homophone_word in
  match h with
  | [] => assoc
  | _ =>
    match assoc with
    | [] => h
    | _ =>
      let '(base, items) :=
        match split_once _HOMOPHONE_SECTION_SEPARATOR assoc with
        | Some (base, tail) => (strip base, section_items tail)
        | None => (assoc, [])
        end in
      if mem_str h items then assoc
      else base ++ _HOMOPHONE_SECTION_SEPARATOR
             ++ join _HOMOPHONE_ITEM_SEPARATOR (items ++ [h])
    end
  end.

(** [_append_homophone_link_queries]: the statements appended to
    [queries]. *)
Definition _append_homophone_link_queries (enabled : bool) (list_id : Z)
    (word : str) (ipa_word : option str) : list stmt :=
  match ipa_word with
  | None | Some [] => []
  | Some ipa_word =>
    if negb (_should_link_homophones_for_word enabled word) then []
    else
      let ipa := strip ipa_word in
      match ipa with
      | [] => []
      | _ => [LinkSelf list_id word ipa; LinkOthers list_id word ipa]
      end
  end.

(** [UPDATE words SET association = %s WHERE word = %s AND list_id = %s] *)
Definition update_association (ws : list row) (a : str) (w : str) (l : Z)
    : list row :=
  map (fun r => if key_match w l r then set_assoc (Some a) r else r) ws.

(** The first [SELECT] of [_link_homophones_in_db]: the other rows of
    the list with the same transcription and no space in the word. *)
Definition select_candidates (ws : list row) (l : Z) (ipa : str) (word : str)
    : list (str * option str) :=
  map (fun r => (r_word r, r_assoc r))
      (filter (fun r => Z.eqb (r_list r) l
                        && opt_str_eqb (r_ipa r) (Some ipa)
                        && negb (str_eqb (r_word r) word)
                        && negb (mem_char 32%N (r_word r)))
              ws).

(** The second [SELECT] with [fetchone]: the association of the first
    row of the word, [None] when there is no row. *)
Definition select_association (ws : list row) (l : Z) (word : str)
    : option str :=
  match find (fun r => Z.eqb (r_list r) l && str_eqb (r_word r) word) ws with
  | Some r => r_assoc r
  | None => None
  end.

(** One iteration of the loop over the candidates; the state is the
    table and [current_assoc]. *)
Definition link_candidate (l : Z) (word : str)
    (st : list row * option str) (cand : str * option str)
    : list row * option str :=
  let '(ws, current_assoc) := st in
  let '(other_word, other_assoc) := cand in
  let other_w := strip other_word in
  if negb (nonempty other_w) || str_eqb other_w word then st
  else if negb (str_eqb (_canonical_word_for_homophones lang_fr other_w) other_w)
  then st
  else
    let new_current_assoc :=
      _append_homophone_to_association current_assoc other_w in
    let '(ws, current_assoc) :=
      if negb (str_eqb new_current_assoc (strip (opt_get current_assoc)))
      then (update_association ws new_current_assoc word l,
            Some new_current_assoc)
      else (ws, current_assoc) in
    let new_other_assoc := _append_homophone_to_association other_assoc word in
    let ws :=
      if negb (str_eqb new_other_assoc (strip (opt_get other_assoc)))
      then update_association ws new_other_assoc other_w l
      else ws in
    (ws, current_assoc).

(** [_link_homophones_in_db] on the table. *)
Definition _link_homophones_in_db (ws : list row) (list_id : Z) (word : str)
    (ipa_word : str) : list row :=
  match ipa_word with
  | [] => ws
  | _ =>
    if negb (str_eqb (_canonical_word_for_homophones lang_fr word) word) then ws
    else
      let ipa := strip ipa_word in
      match ipa with
      | [] => ws
      | _ =>
        let candidates := select_candidates ws list_id ipa word in
        match candidates with
        | [] => ws
        | _ =>
          let current_assoc := select_association ws list_id word in
          fst (fold_left (link_candidate list_id word) candidates
                         (ws, current_assoc))
        end
      end
  end.

(* ===================================================================== *)
(** * 8. The pipeline of [prepare_word_actions]                           *)
(* ===================================================================== *)

(** The errors the pipeline raises ([ValueError]). [NestedPhrase] does
    not exist in the source: it marks the recursion of the phrase mode
    into itself, which [nested_phrase_unreachable] excludes. *)
Inductive error :=
| UserIdRequired
| InvalidRejectedWordsTable
| AddWordRequiresListAndLanguage
| NestedPhrase.

Inductive res (A : Type) :=
| Ok (a : A)
| Err (e : error).

Arguments Ok {A} a.
Arguments Err {A} e.

Definition bind {A B} (r : res A) (f : A -> res B) : res B :=
  match r with
  | Ok a => f a
  | Err e => Err e
  end.

Notation "x <- r ;; k" := (bind r (fun x => k))
  (at level 61, r at next level, right associativity).

(** Truth value of an optional string ([if x:]). *)
Definition truthy (o : option str) : bool :=
  match o with
  | Some (_ :: _) => true
  | _ => false
  end.

(** [x or None] for a string. *)
Definition or_none (s : str) : option str :=
  match s with [] => None | _ => Some s end.

Definition palabras_rechazadas : str :=
  Eval vm_compute in u8 "palabras_rechazadas".

(** [_resolve_rejected_words_config] *)
Definition _resolve_rejected_words_config (user_id : option str)
    (rejected_words_table : option str) (language : str)
    : res (str * str * str) :=
  let lang_norm := lower (strip language) in
  match user_id with
  | None => Err UserIdRequired
  | Some uid =>
    let table :=
      match rejected_words_table with
      | Some t => strip t
      | None => []
      end in
    let table := match table with [] => palabras_rechazadas | _ => table end in
    Ok (uid, table, lang_norm)
  end.

(** The guard of the compiled statements: [reject_enabled], the check
    of the registry name and [table]. *)
Definition compile_guard (user_id : option str)
    (rejected_words_table : option str) (language_norm : str)
    : res (option guard) :=
  let reject_enabled :=
    nonempty (strip (opt_get rejected_words_table))
    && match user_id with Some _ => true | None => false end in
  match reject_enabled, user_id with
  | true, Some uid =>
    let table := strip (opt_get rejected_words_table) in
    if negb (is_table_identifier table) then Err InvalidRejectedWordsTable
    else Ok (Some {| g_table := table; g_user := uid; g_lang := language_norm |})
  | _, _ => Ok None
  end.

(** The outcome of the classification of a token (the part-of-speech
    request, the verb check and the overrides). *)
Record classification := {
  is_noun : bool;
  is_verb : bool;
  is_adjective : bool;
  pos : str;
  lemma : str
}.

Definition no_classification : classification :=
  {| is_noun := false; is_verb := false; is_adjective := false;
     pos := []; lemma := [] |}.

(** What the noun, adjective and other branches resolve for a word: the
    flags and tag after the adverb override, the translation, the
    association [phrase_for_storage, translation] ([None] without
    translation) and the extra derived entries (word, association). *)
Record details := {
  dt_is_noun : bool;
  dt_is_adjective : bool;
  dt_pos : str;
  dt_translation : str;
  dt_association : option str;
  dt_extra_entries : list (str * option str)
}.

(** An item of the field [forms] of the verb reply; a field is [None]
    when it is missing. *)
Record form_item := {
  fi_pronoun : option str;
  fi_phrase : option str;
  fi_translation : option str
}.

(** The parsed verb reply; an item of [forms] that is no object is
    [None]. *)
Record verb_reply := {
  vr_tense : option str;
  vr_infinitive_translation : option str;
  vr_forms : option (list (option form_item))
}.

(** The completion service and the dictionary look-up, as functions of
    what the request is about. *)
Record service := {
  srv_classify : str -> classification;
  srv_details : str -> classification -> details;
  srv_verb : str -> option verb_reply;
  srv_word_ipa : str -> ipa_reply;
  srv_entry_ipa : str -> ipa_reply;
  srv_phrase_ipa : str -> ipa_reply;
  srv_phrase_translation : str -> str;
  srv_dictionary : str -> option str
}.

(** The environment: whether an API key is available, and the
    homophone-linking toggle. *)
Record environment := {
  env_api_key : bool;
  env_link_homophones : bool
}.

(** The plural normalization of [prepare_word_actions] (FR nouns:
    store singular by default). *)
Definition noun_plural_step (language : str) (c : classification)
    (palabra : str) : str :=
  let is_noun_and_verb := is_noun c && is_verb c in
  if str_eqb (lower (strip language)) lang_fr
     && is_noun c && negb (is_verb c) && negb is_noun_and_verb then
    let plural_original := strip palabra in
    match _fr_singular_candidate_for_plural_noun plural_original with
    | Some singular_candidate =>
      if nonempty singular_candidate
         && negb (str_eqb singular_candidate plural_original)
      then singular_candidate else palabra
    | None => palabra
    end
  else palabra.

Definition mk_entry (pronoun phrase translation : str) : verb_entry :=
  {| ve_pronoun := pronoun; ve_phrase := phrase;
     ve_translation := translation; ve_ipa := None;
     ve_association := None |}.

Definition str_infinitive : str := Eval vm_compute in u8 "infinitive".
Definition str_infinitivo_tag : str := Eval vm_compute in u8 "(infinitivo)".

(** The forms of a verb reply ([parsed.get("forms") or []]). *)
Definition reply_forms (reply : option verb_reply)
    : list (option form_item) :=
  match reply with
  | Some r => match vr_forms r with Some l => l | None => [] end
  | None => []
  end.

(** The body of the loop over the forms: an item that is no object or
    has no phrase is skipped. *)
Definition entry_of_form (item : option form_item) : option verb_entry :=
  match item with
  | None => None
  | Some it =>
    let pron := strip (opt_get (fi_pronoun it)) in
    let phrase_item := strip (opt_get (fi_phrase it)) in
    let tr_item := strip (opt_get (fi_translation it)) in
    if nonempty phrase_item then Some (mk_entry pron phrase_item tr_item)
    else None
  end.

(** The verb branch with [expand_verbs]: one entry per returned form
    with a phrase, the explicit infinitive entry, and the fall-back
    entry. *)
Definition verb_branch_entries (reply : option verb_reply)
    (verb_infinitive : str) (palabra : str) : list verb_entry :=
  let verb_inf_translation :=
    match reply with
    | Some r => strip (opt_get (vr_infinitive_translation r))
    | None => []
    end in
  let forms := reply_forms reply in
  let from_forms := filter_map entry_of_form forms in
  let inf := strip verb_infinitive in
  let with_inf :=
    match inf with
    | [] => from_forms
    | _ =>
      let inf_tr := strip verb_inf_translation in
      let tagged_tr :=
        strip (match inf_tr with
               | [] => str_infinitivo_tag
               | _ => inf_tr ++ [32%N] ++ str_infinitivo_tag
               end) in
      from_forms ++ [mk_entry str_infinitive inf tagged_tr]
    end in
  match with_inf with
  | [] => [mk_entry [] palabra []]
  | _ => with_inf
  end.

Definition elision_sounds : str :=
  Eval vm_compute in u8 "aeiouyàâäéèêëîïôöùûüœæh".

(** [_starts_with_french_elision_sound]: the first character of the
    lowered word is searched in the string of sounds (an empty word
    gives the empty string, found in every string). *)
Definition _starts_with_french_elision_sound (word : str) : bool :=
  match lower (strip word) with
  | [] => true
  | c :: _ => mem_char c elision_sounds
  end.

(** [_accept_verb_phrase_correction] *)
Definition _accept_verb_phrase_correction (language : str)
    (original_phrase : str) (candidate : str) : bool :=
  let cand := strip candidate in
  match cand with
  | [] => false
  | _ =>
    if str_eqb cand (strip original_phrase) then true
    else if negb (str_eqb (lower language) lang_fr) then false
    else
      let orig := strip original_phrase in
      if startswith [106; 101; 32]%N (lower orig) then
        let rest := strip (skipn 3 orig) in
        _starts_with_french_elision_sound rest
        && (str_eqb cand ([106%N; apostrophe] ++ rest)
            || str_eqb cand ([106; 8217]%N ++ rest))
      else false
  end.

(** The transcription of the word taken from the reply (section 2 of
    [prepare_word_actions]). *)
Definition word_ipa_from_reply (reply : ipa_reply) : option str :=
  match ir_parsed reply with
  | Some (_, maybe_ipa) =>
    match maybe_ipa with
    | Some i => if nonempty (strip i) then _simple_ipa_from_text i else None
    | None => None
    end
  | None => _simple_ipa_from_text (ir_raw reply)
  end.

(** The transcription loop over the verb entries: the phrase is kept or
    replaced by a safe correction, and [ipa] is set. *)
Definition resolve_entry_ipa (srv : service) (language : str)
    (entry : verb_entry) : verb_entry :=
  let phrase_for_ipa := strip (ve_phrase entry) in
  match phrase_for_ipa with
  | [] => entry
  | _ =>
    let reply := srv_entry_ipa srv phrase_for_ipa in
    let '(phrase_for_ipa, entry_ipa) :=
      match ir_parsed reply with
      | Some (maybe_phrase, maybe_ipa) =>
        let candidate_phrase := strip (opt_get maybe_phrase) in
        let ph :=
          if nonempty candidate_phrase
             && _accept_verb_phrase_correction language phrase_for_ipa
                  candidate_phrase
          then candidate_phrase else phrase_for_ipa in
        let ip :=
          match maybe_ipa with
          | Some i =>
            if nonempty (strip i) then _simple_ipa_from_text i else None
          | None => None
          end in
        (ph, ip)
      | None => (phrase_for_ipa, _simple_ipa_from_text (ir_raw reply))
      end in
    {| ve_pronoun := ve_pronoun entry; ve_phrase := phrase_for_ipa;
       ve_translation := ve_translation entry;
       ve_ipa := Some (opt_get entry_ipa);
       ve_association := ve_association entry |}
  end.

(** The association of a verb entry. *)
Definition resolve_entry_association (translation : str)
    (entry : verb_entry) : verb_entry :=
  let tr_item :=
    strip (match ve_translation entry with
           | [] => translation
           | t => t
           end) in
  {| ve_pronoun := ve_pronoun entry; ve_phrase := ve_phrase entry;
     ve_translation := tr_item; ve_ipa := ve_ipa entry;
     ve_association :=
       Some (match tr_item with
             | [] => []
             | _ => ve_phrase entry ++ [comma; 32%N] ++ tr_item
             end) |}.

(** The conditional updates of an entry. *)
Definition update_queries (repair : bool) (g : option guard) (word : str)
    (list_id : Z) (association ipa_word : option str) : list stmt :=
  (if truthy ipa_word then [UpdateIpa g (opt_get ipa_word) word list_id]
   else [])
  ++ (if truthy association
      then [UpdateAssoc repair g (opt_get association) word list_id]
      else []).

(** The inserts of the extra derived entries. *)
Definition extra_inserts (g : option guard) (list_id : Z)
    (extra_entries : list (str * option str * option str)) : list stmt :=
  filter_map
    (fun entry =>
       let '(word, assoc_extra, ipa_extra) := entry in
       let w := strip word in
       match w with
       | [] => None
       | _ => Some (InsertWord g w assoc_extra list_id ipa_extra)
       end)
    extra_entries.

(** The inserts of the verb entries (one row per pronoun phrase). *)
Definition verb_inserts (g : option guard) (list_id : Z)
    (verb_entries : list verb_entry) : list stmt :=
  filter_map
    (fun entry =>
       let phrase_item := strip (ve_phrase entry) in
       let assoc_item := or_none (strip (opt_get (ve_association entry))) in
       let ipa_item := or_none (strip (opt_get (ve_ipa entry))) in
       match phrase_item with
       | [] => None
       | _ => Some (InsertWord g phrase_item assoc_item list_id ipa_item)
       end)
    verb_entries.

(** The statement list [queries] of [prepare_word_actions] for a
    resolved entry. *)
Definition compile_word_queries (link_enabled : bool) (g : option guard)
    (palabra : str) (list_id : Z) (association ipa_word : option str)
    (is_verb is_noun_and_verb : bool)
    (extra_entries : list (str * option str * option str))
    (verb_entries : list verb_entry) : list stmt :=
  if negb is_verb && negb is_noun_and_verb then
    [InsertWord g palabra association list_id ipa_word]
    ++ extra_inserts g list_id extra_entries
    ++ update_queries true g palabra list_id association ipa_word
    ++ _append_homophone_link_queries link_enabled list_id palabra ipa_word
  else
    (if is_noun_and_verb then
       [InsertWord g palabra association list_id ipa_word]
       ++ update_queries true g palabra list_id association ipa_word
       ++ _append_homophone_link_queries link_enabled list_id palabra ipa_word
     else [])
    ++ verb_inserts g list_id verb_entries.

(** The dictionary returned by [prepare_word_actions] and
    [_prepare_phrase_actions]; [a_queries] renders to the field
    [queries]. *)
Record actions := {
  a_word : str;
  a_list_id : Z;
  a_pos : str;
  a_is_phrase : bool;
  a_is_verb : bool;
  a_is_noun : bool;
  a_is_noun_and_verb : bool;
  a_verb_infinitive : str;
  a_tense : str;
  a_entries : list verb_entry;
  a_tokens : list str;
  a_association : option str;
  a_ipa_word : option str;
  a_queries : list stmt
}.

Definition queries (a : actions) : list (str * list value) :=
  map render (a_queries a).

(** [prepare_word_actions] after the phrase-mode test: the single-token
    pipeline on the normalized [palabra]. *)
Definition prepare_single_token (env : environment) (srv : service)
    (palabra : str) (list_id : Z) (language : str)
    (user_id : option str) (rejected_words_table : option str)
    (language_norm : str) (expand_verbs : bool) : res actions :=
  let api_key := env_api_key env in
  (* 1) POS detection *)
  let c := if api_key then srv_classify srv palabra else no_classification in
  let is_verb := is_verb c in
  let is_noun_and_verb := is_noun c && is_verb in
  let verb_infinitive := if is_verb then lemma c else [] in
  (* FR nouns: store singular by default *)
  let palabra := if api_key then noun_plural_step language c palabra
                 else palabra in
  (* details of the noun, adjective and other branches *)
  let dt :=
    if api_key then srv_details srv palabra c
    else {| dt_is_noun := false; dt_is_adjective := false; dt_pos := [];
            dt_translation := []; dt_association := None;
            dt_extra_entries := [] |} in
  let translation := dt_translation dt in
  let verb_reply := if api_key && is_verb && expand_verbs
                    then srv_verb srv palabra else None in
  let tense :=
    match verb_reply with
    | Some r => strip (opt_get (vr_tense r))
    | None => []
    end in
  let verb_entries :=
    if api_key && is_verb then
      if expand_verbs then verb_branch_entries verb_reply verb_infinitive palabra
      else [mk_entry [] palabra []]
    else [] in
  (* 2) IPA *)
  let main_ipa := api_key && (negb is_verb || is_noun_and_verb) in
  let ipa_word :=
    if main_ipa then word_ipa_from_reply (srv_word_ipa srv palabra)
    else None in
  let extra_entries :=
    map (fun e : str * option str =>
           let '(w, a) := e in
           (w, a,
            if main_ipa && nonempty (strip w)
            then _get_phrase_ipa (srv_phrase_ipa srv (strip w)) else None))
        (dt_extra_entries dt) in
  let verb_entries :=
    if api_key && is_verb then map (resolve_entry_ipa srv language) verb_entries
    else verb_entries in
  (* fallback IPA *)
  let ipa_word :=
    if negb (truthy ipa_word) && (negb is_verb && negb is_noun_and_verb) then
      match srv_dictionary srv palabra with
      | Some text => if nonempty text then Some text else ipa_word
      | None => ipa_word
      end
    else ipa_word in
  let association :=
    if (negb is_verb || is_noun_and_verb) && nonempty translation
    then dt_association dt else None in
  let verb_entries :=
    if is_verb then map (resolve_entry_association translation) verb_entries
    else verb_entries in
  let '(association, ipa_word) :=
    match is_verb, verb_entries with
    | true, first :: _ =>
      if negb is_noun_and_verb then
        (or_none (opt_get (ve_association first)),
         if negb (truthy ipa_word) then or_none (opt_get (ve_ipa first))
         else ipa_word)
      else (association, ipa_word)
    | _, _ => (association, ipa_word)
    end in
  g <- compile_guard user_id rejected_words_table language_norm ;;
  Ok {| a_word := palabra;
        a_list_id := list_id;
        a_pos := dt_pos dt;
        a_is_phrase := false;
        a_is_verb := is_verb;
        a_is_noun := dt_is_noun dt;
        a_is_noun_and_verb := is_noun_and_verb;
        a_verb_infinitive := verb_infinitive;
        a_tense := tense;
        a_entries := if is_verb then verb_entries else [];
        a_tokens := [];
        a_association := association;
        a_ipa_word := ipa_word;
        a_queries :=
          compile_word_queries (env_link_homophones env) g palabra list_id
            association ipa_word is_verb is_noun_and_verb extra_entries
            verb_entries |}.

(** [unique_tokens] of [_prepare_phrase_actions]: first occurrences,
    compared in lower case ([seen] holds the lowered tokens). *)
Fixpoint dedupe_tokens (seen : list str) (tokens : list str) : list str :=
  match tokens with
  | [] => []
  | t :: r =>
    let key := lower t in
    if mem_str key seen then dedupe_tokens seen r
    else t :: dedupe_tokens (key :: seen) r
  end.

(** [_already_inserts_word]: the test on the statement text (the text
    contains [INSERT INTO words]) is the test for an [InsertWord]
    statement; the parameters 0 and 2 are its word and list. *)
Definition _already_inserts_word (qs : list stmt) (w : str) (lid : Z) : bool :=
  existsb (fun q =>
             match q with
             | InsertWord _ pw _ plid _ => str_eqb pw w && Z.eqb plid lid
             | _ => false
             end) qs.

(** The loop of [_prepare_phrase_actions] over the tokens: the
    statements of each token, in order; an error of a token ends it. *)
Fixpoint token_queries (per_token : str -> res actions) (tokens : list str)
    : res (list stmt) :=
  match tokens with
  | [] => Ok []
  | token :: r =>
    if negb (nonempty token) || mem_char 32%N token then
      token_queries per_token r
    else
      action <- per_token token ;;
      rest <- token_queries per_token r ;;
      Ok (a_queries action ++ rest)
  end.

(** [_prepare_phrase_actions]; [per_token] is the call of
    [prepare_word_actions] on a token. *)
Definition _prepare_phrase_actions (env : environment) (srv : service)
    (per_token : str -> res actions)
    (phrase : str) (list_id : Z) (language : str)
    (user_id : option str) (rejected_words_table : option str)
    : res actions :=
  let api_key := env_api_key env in
  let clean_phrase := _normalize_user_text language phrase in
  let phrase_for_storage :=
    _normalize_phrase_for_tts_storage language clean_phrase in
  let tokens := _tokenize_phrase language clean_phrase in
  let unique_tokens := dedupe_tokens [] tokens in
  queries <- token_queries per_token unique_tokens ;;
  let phrase_translation :=
    if api_key then srv_phrase_translation srv clean_phrase else [] in
  let phrase_ipa :=
    if api_key then _get_phrase_ipa (srv_phrase_ipa srv clean_phrase)
    else None in
  let phrase_association :=
    match phrase_translation with
    | [] => None
    | _ => Some (phrase_for_storage ++ [comma; 32%N] ++ phrase_translation)
    end in
  cfg <- _resolve_rejected_words_config user_id rejected_words_table language ;;
  let '(uid, table, language_norm) := cfg in
  let phrase_insert_already_present :=
    _already_inserts_word queries phrase_for_storage list_id in
  g <- compile_guard (Some uid) (Some table) language_norm ;;
  let insert :=
    if phrase_insert_already_present then []
    else [InsertWord g phrase_for_storage phrase_association list_id phrase_ipa] in
  Ok {| a_word := phrase_for_storage;
        a_list_id := list_id;
        a_pos := u8 "phrase";
        a_is_phrase := true;
        a_is_verb := false;
        a_is_noun := false;
        a_is_noun_and_verb := false;
        a_verb_infinitive := [];
        a_tense := [];
        a_entries := [];
        a_tokens := unique_tokens;
        a_association := phrase_association;
        a_ipa_word := phrase_ipa;
        a_queries :=
          queries ++ insert
          ++ update_queries false g phrase_for_storage list_id
               phrase_association phrase_ipa |}.

(** The phrase-mode test of [prepare_word_actions] on the normalized
    text. *)
Definition is_phrase_input (clean : str) : bool :=
  nonempty clean && existsb is_space clean
  && (2 <=? length (split_ws clean))%nat.

(** [prepare_word_actions], with the depth of the calls it may still
    make to itself through [_prepare_phrase_actions]. *)
Fixpoint prepare_word_actions_at (depth : nat) (env : environment)
    (srv : service) (palabra : str) (list_id : Z) (language : str)
    (user_id : option str) (rejected_words_table : option str)
    (expand_verbs : bool) : res actions :=
  cfg <- _resolve_rejected_words_config user_id rejected_words_table language ;;
  let '(uid, table, language_norm) := cfg in
  let clean := _normalize_user_text language palabra in
  if is_phrase_input clean then
    match depth with
    | O => Err NestedPhrase
    | S d =>
      _prepare_phrase_actions env srv
        (fun token =>
           prepare_word_actions_at d env srv token list_id language
             (Some uid) (Some table) true)
        clean list_id language (Some uid) (Some table)
    end
  else
    let palabra :=
      match clean with
      | [] => palabra
      | _ =>
        if str_eqb (lower language) lang_fr
        then _fr_drop_contraction_prefix clean else clean
      end in
    prepare_single_token env srv palabra list_id language
      (Some uid) (Some table) language_norm expand_verbs.

(** [prepare_word_actions]: a phrase calls it once more on each token,
    and a token is never a phrase. *)
Definition prepare_word_actions (env : environment) (srv : service)
    (palabra : str) (list_id : Z) (language : str)
    (user_id : option str) (rejected_words_table : option str)
    (expand_verbs : bool) : res actions :=
  prepare_word_actions_at 1 env srv palabra list_id language user_id
    rejected_words_table expand_verbs.

(** The dictionary returned by [add_word]. *)
Record added := {
  word_db_id : option Z;
  ad_association : option str;
  ad_ipa_word : option str;
  ad_is_verb : bool
}.

(** [add_word]: the compiled statements are executed, the homophones
    are linked on the live table, and the row is looked up. *)
Definition add_word (env : environment) (srv : service) (db : database)
    (palabra : str) (list_id : option Z) (language : option str)
    (user_id : option str) (rejected_words_table : option str)
    : res (database * added) :=
  match list_id, language with
  | Some list_id, Some language =>
    actions <- prepare_word_actions env srv palabra list_id language
                 user_id rejected_words_table true ;;
    let db := exec_all db (a_queries actions) in
    let primary_word :=
      if a_is_verb actions && negb (a_is_noun_and_verb actions) then
        match a_entries actions with
        | first :: _ =>
          match strip (match ve_phrase first with
                       | [] => palabra
                       | p => p
                       end) with
          | [] => palabra
          | p => p
          end
        | [] => palabra
        end
      else palabra in
    let ws := _link_homophones_in_db (words db) list_id primary_word
                (opt_get (a_ipa_word actions)) in
    let id :=
      match find (fun r => str_eqb (r_word r) primary_word
                           && Z.eqb (r_list r) list_id) ws with
      | Some r => Some (r_id r)
      | None => None
      end in
    Ok (with_words db ws,
        {| word_db_id := id;
           ad_association := a_association actions;
           ad_ipa_word := a_ipa_word actions;
           ad_is_verb := a_is_verb actions |})
  | _, _ => Err AddWordRequiresListAndLanguage
  end.

(* ===================================================================== *)
(** * 9. Sample data                                                      *)
(* ===================================================================== *)

Definition sample_env : environment :=
  {| env_api_key := true; env_link_homophones := true |}.

Definition sample_verb_reply : verb_reply :=
  {| vr_tense := Some (u8 "present");
     vr_infinitive_translation := None;
     vr_forms :=
       Some [ Some {| fi_pronoun := Some (u8 "il");
                      fi_phrase := Some (u8 "il est");
                      fi_translation := Some (u8 "es") |};
              Some {| fi_pronoun := Some (u8 "elle");
                      fi_phrase := Some (u8 "elle est");
                      fi_translation := Some (u8 "es") |};
              Some {| fi_pronoun := Some (u8 "on");
                      fi_phrase := Some (u8 "on est");
                      fi_translation := Some (u8 "es") |} ] |}.

(** A completion service with fixed replies: [est] is a verb, [mes],
    [nous] and [avons] are classified as other, everything else is a
    noun; transcriptions are the word between slashes, except for the
    phrases listed. *)
Definition sample_service : service :=
  {| srv_classify := fun w =>
       if str_eqb w (u8 "est") then
         {| is_noun := false; is_verb := true; is_adjective := false;
            pos := u8 "verb"; lemma := u8 "être" |}
       else if mem_str w [u8 "mes"; u8 "nous"; u8 "avons"] then
         {| is_noun := false; is_verb := false; is_adjective := false;
            pos := u8 "other"; lemma := [] |}
       else
         {| is_noun := true; is_verb := false; is_adjective := false;
            pos := u8 "noun"; lemma := [] |};
     srv_details := fun w c =>
       {| dt_is_noun := is_noun c; dt_is_adjective := false; dt_pos := pos c;
          dt_translation := if is_verb c then [] else u8 "amigo";
          dt_association :=
            if str_eqb w (u8 "ami") then Some (u8 "l'ami (m), amigo")
            else Some (w ++ u8 ", amigo");
          dt_extra_entries := [] |};
     srv_verb := fun _ => Some sample_verb_reply;
     srv_word_ipa := fun w =>
       {| ir_raw := [];
          ir_parsed :=
            Some (None,
                  Some (if str_eqb w (u8 "ami") then u8 "/l‿ami/"
                        else [slash] ++ w ++ [slash])) |};
     srv_entry_ipa := fun p =>
       {| ir_raw := []; ir_parsed := Some (Some p, Some (u8 "/ɛ/")) |};
     srv_phrase_ipa := fun p =>
       {| ir_raw := [];
          ir_parsed :=
            Some (None,
                  Some (if str_eqb p (u8 "nous avons") then u8 "/nu‿z‿avɔ̃/"
                        else u8 "/me z‿ami/")) |};
     srv_phrase_translation := fun _ => u8 "mis amigos";
     srv_dictionary := fun _ => None |}.

Definition no_registry : str -> list rejected_row := fun _ => [].

(** Two homophones of list 22; [verre] has no association yet. *)
Definition sample_rows : list row :=
  [ {| r_id := 1; r_word := u8 "vers"; r_list := 22;
       r_assoc := Some (u8 "vers, hacia"); r_ipa := Some (u8 "/vɛʁ/") |};
    {| r_id := 2; r_word := u8 "verre"; r_list := 22;
       r_assoc := None; r_ipa := Some (u8 "/vɛʁ/") |} ].

(** A legacy row of [ami] with a corrupted association. *)
Definition legacy_rows : list row :=
  [ {| r_id := 1; r_word := u8 "ami"; r_list := 22;
       r_assoc := Some (u8 "l'ami, amigo, ami"); r_ipa := Some (u8 "/ami/") |} ].

Definition empty_actions : actions :=
  {| a_word := []; a_list_id := 0; a_pos := []; a_is_phrase := false;
     a_is_verb := false; a_is_noun := false; a_is_noun_and_verb := false;
     a_verb_infinitive := []; a_tense := []; a_entries := [];
     a_tokens := []; a_association := None; a_ipa_word := None;
     a_queries := [] |}.

Definition get_actions (r : res actions) : actions :=
  match r with Ok a => a | Err _ => empty_actions end.

Definition user_123 : str := Eval vm_compute in u8 "user-123".

(** The action set of the phrase [mes amis] (list 22, French, user
    [user-123], default registry). *)
Definition mes_amis_actions : actions :=
  Eval vm_compute in
    get_actions
      (prepare_word_actions sample_env sample_service (u8 "mes amis") 22
         lang_fr (Some user_123) None true).

(* ===================================================================== *)
(** * 9b. Properties of statement sequences                               *)
(* ===================================================================== *)

(** The insert-or-skip statement of the entry [(w, l)]. *)
Definition inserts_entry (w : str) (l : Z) (q : stmt) : bool :=
  match q with
  | InsertWord _ w' _ l' _ => str_eqb w' w && Z.eqb l' l
  | _ => false
  end.

(** An [UPDATE] of the row of the entry [(w, l)]: the conditional
    updates and the first linking statement. *)
Definition updates_entry (w : str) (l : Z) (q : stmt) : bool :=
  match q with
  | UpdateIpa _ _ w' l' => str_eqb w' w && Z.eqb l' l
  | UpdateAssoc _ _ _ w' l' => str_eqb w' w && Z.eqb l' l
  | LinkSelf l' w' _ => str_eqb w' w && Z.eqb l' l
  | _ => false
  end.

Definition is_ipa_update (q : stmt) : bool :=
  match q with UpdateIpa _ _ _ _ => true | _ => false end.

Definition is_assoc_update (q : stmt) : bool :=
  match q with UpdateAssoc _ _ _ _ _ => true | _ => false end.

(** Every update of an entry comes after an insert of that entry. *)
Definition insert_before_update (qs : list stmt) : Prop :=
  forall pre q post w l,
    qs = pre ++ q :: post ->
    updates_entry w l q = true ->
    existsb (inserts_entry w l) pre = true.

(** No update of the transcription comes after an update of the
    association. *)
Definition ipa_before_assoc (qs : list stmt) : Prop :=
  forall pre q post,
    qs = pre ++ q :: post ->
    is_assoc_update q = true ->
    forallb (fun q' => negb (is_ipa_update q')) post = true.

(** The statement is an insert or a conditional update of the entry
    [(w, l)]. *)
Definition concerns_entry (w : str) (l : Z) (q : stmt) : bool :=
  inserts_entry w l q
  || (updates_entry w l q && (is_ipa_update q || is_assoc_update q)).

(** The key [(word, list_id)] of a row. *)
Definition row_key (r : row) : str * Z := (r_word r, r_list r).

(** The unique constraint of [words]. *)
Definition keys_unique (ws : list row) : Prop := NoDup (map row_key ws).

(** A row after some statements: it is the same row, and a
    transcription that was not [NULL] is unchanged. *)
Definition row_kept (r r' : row) : Prop :=
  r_id r' = r_id r /\ r_word r' = r_word r /\ r_list r' = r_list r
  /\ (forall t, r_ipa r = Some t -> r_ipa r' = Some t).

(** A row after one statement: moreover a non-empty association without
    two commas is kept, possibly with more text after it. *)
Definition row_step (r r' : row) : Prop :=
  row_kept r r'
  /\ (forall s, r_assoc r = Some s -> s <> [] -> like_two_commas s = false ->
       exists suffix, r_assoc r' = Some (s ++ suffix)).

(** The table after some statements: the rows it had, related by [R],
    followed by the rows added. *)
Definition rows_extend (R : row -> row -> Prop) (ws ws' : list row) : Prop :=
  exists kept added, ws' = kept ++ added /\ Forall2 R ws kept.

(** The action set of the single token [ami]. *)
Definition ami_actions : actions :=
  Eval vm_compute in
    get_actions
      (prepare_word_actions sample_env sample_service (u8 "ami") 22
         lang_fr (Some user_123) None true).

Definition legacy_db : database :=
  {| words := legacy_rows; registries := no_registry |}.

(** The registry name the guard uses: the caller's name stripped, or
    the default [palabras_rechazadas] when it is missing or blank. *)
Definition effective_table (rejected_words_table : option str) : str :=
  match strip (opt_get rejected_words_table) with
  | [] => palabras_rechazadas
  | t => t
  end.

(** The guard attached for a user identity. *)
Definition attached_guard (uid : str) (rejected_words_table : option str)
    (language : str) : guard :=
  {| g_table := effective_table rejected_words_table;
     g_user := uid;
     g_lang := lower (strip language) |}.

(** Every insert statement of the sequence carries the guard [g]. *)
Definition inserts_guarded_by (g : option guard) (qs : list stmt) : Prop :=
  forall g' w a l i, In (InsertWord g' w a l i) qs -> g' = g.

Definition is_insert (q : stmt) : bool :=
  match q with InsertWord _ _ _ _ _ => true | _ => false end.

(** The safe plural suffix rule: the token ends in [eaux] and is longer
    than 4, or ends in [s] and is longer than 3. *)
Definition matches_plural_rule (token : str) : bool :=
  (endswith str_eaux token && (4 <? length token)%nat)
  || (endswith str_s token && (3 <? length token)%nat).

(** The action set of the single token [amis]. *)
Definition amis_actions : actions :=
  Eval vm_compute in
    get_actions
      (prepare_word_actions sample_env sample_service (u8 "amis") 22
         lang_fr (Some user_123) None true).

(** The format of an accepted transcription: one segment between two
    slashes, with a non-empty interior that holds no slash and no
    square bracket. *)
Definition ipa_format (t : str) : Prop :=
  exists inside,
    t = slash :: inside ++ [slash]
    /\ inside <> []
    /\ ~ In slash inside
    /\ ~ In 91%N inside
    /\ ~ In 93%N inside.

(** A reply whose transcription has a space before the liaison marker. *)
Definition spaced_liaison_ipa : str := Eval vm_compute in u8 "/nu ‿avɔ̃/".

Definition spaced_liaison_reply : ipa_reply :=
  {| ir_raw := []; ir_parsed := Some (None, Some spaced_liaison_ipa) |}.

Definition nous_avons : str := Eval vm_compute in u8 "nous avons".

(** The action set of the phrase [nous avons]; the sample service
    transcribes it with three segments. *)
Definition nous_avons_actions : actions :=
  Eval vm_compute in
    get_actions
      (prepare_word_actions sample_env sample_service nous_avons 22
         lang_fr (Some user_123) None true).

Definition mes_amis : str := Eval vm_compute in u8 "mes amis".
Definition mes_amis_ipa : str := Eval vm_compute in u8 "/me zami/".
Definition nous_avons_ipa : str := Eval vm_compute in u8 "/nu‿z‿avɔ̃/".

(** The key [(group or pronoun, verb form)] under which
    [_group_ambiguous_pronouns] files an entry; [None] for an entry
    without phrase. *)
Definition entry_key (lang : str) (entry : verb_entry) : option pron_key :=
  let phrase := strip (ve_phrase entry) in
  match phrase with
  | [] => None
  | _ =>
    match split_once [32%N] phrase with
    | None => Some ([], phrase)
    | Some (p0, p1) =>
      let pron := lower (strip p0) in
      match group_map lang pron with
      | None => Some (pron, strip p1)
      | Some group => Some (group, strip p1)
      end
    end
  end.

(** The entry belongs to an ambiguous group. *)
Definition entry_group (lang : str) (entry : verb_entry) : option str :=
  match split_once [32%N] (strip (ve_phrase entry)) with
  | Some (p0, _) => group_map lang (lower (strip p0))
  | None => None
  end.

(** The action set of the verb form [est]. *)
Definition est_actions : actions :=
  Eval vm_compute in
    get_actions
      (prepare_word_actions sample_env sample_service (u8 "est") 22
         lang_fr (Some user_123) None true).

Definition entry_il_est : verb_entry :=
  Eval vm_compute in mk_entry (u8 "il") (u8 "il est") (u8 "es").

Definition entry_elle_est : verb_entry :=
  Eval vm_compute in mk_entry (u8 "elle") (u8 "elle est") (u8 "ella es").

Definition str_est : str := Eval vm_compute in u8 "est".

Definition str_vers : str := Eval vm_compute in u8 "vers".
Definition str_verre : str := Eval vm_compute in u8 "verre".
Definition ipa_vers : str := Eval vm_compute in u8 "/vɛʁ/".

(** The table of the two homophones. *)
Definition sample_db : database :=
  {| words := sample_rows; registries := no_registry |}.

(** The live linking of [vers], once and twice. *)
Definition linked_once : list row :=
  _link_homophones_in_db sample_rows 22 str_vers ipa_vers.

Definition linked_twice : list row :=
  _link_homophones_in_db linked_once 22 str_vers ipa_vers.

(** The compiled linking statements of [vers]. *)
Definition link_vers_queries : list stmt :=
  _append_homophone_link_queries true 22 str_vers (Some ipa_vers).

Definition str_quoi : str := Eval vm_compute in u8 "quoi".
Definition str_quoi_1 : str := Eval vm_compute in u8 "quoi ?".
Definition str_quoi_2 : str := Eval vm_compute in u8 "quoi ? !".

(** A text without percent sign. *)
Definition no_percent (t : str) : bool :=
  forallb (fun c => negb (N.eqb c percent)) t.

(** A statement is well guarded when its registry name, if any, passed
    the identifier check. *)
Definition stmt_guard (q : stmt) : option guard :=
  match q with
  | InsertWord g _ _ _ _ => g
  | UpdateIpa g _ _ _ => g
  | UpdateAssoc _ g _ _ _ => g
  | LinkSelf _ _ _ => None
  | LinkOthers _ _ _ => None
  end.

Definition guard_valid (g : option guard) : Prop :=
  match g with
  | Some g => is_table_identifier (g_table g) = true
  | None => True
  end.

Definition render_matches (q : stmt) : Prop :=
  count_placeholders (fst (render q)) = length (snd (render q))
  /\ has_invalid_percent (fst (render q)) = false.

(** The classification and the stored word of the single-token
    pipeline. *)
Definition token_classification (env : environment) (srv : service)
    (palabra : str) : classification :=
  if env_api_key env then srv_classify srv palabra else no_classification.

Definition stored_word (env : environment) (srv : service) (language : str)
    (palabra : str) : str :=
  if env_api_key env
  then noun_plural_step language (token_classification env srv palabra) palabra
  else palabra.

(** The code points below 8000: facts on single characters are checked
    on them by evaluation; above, [lower_char] is the identity. *)
Definition small_chars : list char :=
  map N.of_nat (seq 0 (N.to_nat 8000)).

(** Texts without white space. *)
Definition no_space (s : str) : Prop := forall c, In c s -> is_space c = false.

(* ===================================================================== *)
(** * 9c. Further parts of the word adder                                 *)
(* ===================================================================== *)

(** The characters [_normalize_phrase_for_tts_storage] removes or
    replaces by a space: the ASCII apostrophe, the punctuation of
    [punct_no_apostrophe] and the typographic apostrophes. *)
Definition tts_removed (c : char) : bool :=
  N.eqb c apostrophe || mem_char c punct_no_apostrophe
  || mem_char c _UNICODE_APOSTROPHES.

(** The phrase [nous avons] as a user may type it. *)
Definition nous_avons_typed : str := Eval vm_compute in u8 "Nous  avons !".

Definition nous_avons_typed_actions : actions :=
  Eval vm_compute in
    get_actions
      (prepare_word_actions sample_env sample_service nous_avons_typed 22
         lang_fr (Some user_123) None true).

(** The base of an association, in front of the homophone section: not
    empty, stripped, and without vertical bar. *)
Definition association_base_ok (base : str) : Prop :=
  base <> [] /\ strip base = base /\ mem_char 124%N base = false.

(** A word that can stand in the homophone section: not empty,
    stripped, and without semicolon. *)
Definition homophone_item_ok (w : str) : Prop :=
  w <> [] /\ strip w = w /\ mem_char semicolon w = false.

(** An association with its homophone section:
    [base | homófonos: w1; w2]. *)
Definition with_homophones (base : str) (items : list str) : str :=
  match items with
  | [] => base
  | _ => base ++ _HOMOPHONE_SECTION_SEPARATOR
           ++ join _HOMOPHONE_ITEM_SEPARATOR items
  end.

Definition str_vers_hacia : str := Eval vm_compute in u8 "vers, hacia".
Definition str_ver : str := Eval vm_compute in u8 "ver".

(** The words whose rows [_link_homophones_in_db] may update: the word
    itself and the stripped words of the candidates. *)
Definition link_targets (ws : list row) (l : Z) (word ipa_word : str)
    : list str :=
  word :: map (fun cand => strip (fst cand))
              (select_candidates ws l (strip ipa_word) word).

(** A row after the live linking: only its association may differ, and
    only when it belongs to the list and to one of the targets. *)
Definition association_only (l : Z) (targets : list str) (r r' : row)
    : Prop :=
  r_id r' = r_id r /\ r_word r' = r_word r /\ r_list r' = r_list r
  /\ r_ipa r' = r_ipa r
  /\ (r' = r \/ (r_list r = l /\ In (r_word r) targets)).

(** The list a statement writes to ([list_id] in its parameters). *)
Definition stmt_list (q : stmt) : Z :=
  match q with
  | InsertWord _ _ _ l _ => l
  | UpdateIpa _ _ _ l => l
  | UpdateAssoc _ _ _ _ l => l
  | LinkSelf l _ _ => l
  | LinkOthers l _ _ => l
  end.

(** The table after some statements: the rows it had, related by [R],
    followed by added rows that satisfy [P]. *)
Definition rows_added (R : row -> row -> Prop) (P : row -> Prop)
    (ws ws' : list row) : Prop :=
  exists kept added,
    ws' = kept ++ added /\ Forall2 R ws kept /\ Forall P added.

(** A row seen from another list than [l]: it is unchanged. *)
Definition other_list_row (l : Z) (r r' : row) : Prop :=
  r_list r' = r_list r /\ (r_list r <> l -> r' = r).

(** The result of [add_word] of the word [ami] on the table of the two
    homophones. *)
Definition added_ami : database * added :=
  Eval vm_compute in
    match add_word sample_env sample_service sample_db (u8 "ami") (Some 22%Z)
            (Some lang_fr) (Some user_123) None with
    | Ok p => p
    | Err _ => (sample_db,
                {| word_db_id := None; ad_association := None;
                   ad_ipa_word := None; ad_is_verb := false |})
    end.

(** An environment without API key. *)
Definition offline_env : environment :=
  {| env_api_key := false; env_link_homophones := true |}.

(** A service that classifies nothing and translates nothing, with the
    dictionary of the sample service. *)
Definition silent_service : service :=
  {| srv_classify := fun _ => no_classification;
     srv_details := fun _ _ =>
       {| dt_is_noun := false; dt_is_adjective := false; dt_pos := [];
          dt_translation := []; dt_association := None;
          dt_extra_entries := [] |};
     srv_verb := fun _ => None;
     srv_word_ipa := fun _ => {| ir_raw := []; ir_parsed := None |};
     srv_entry_ipa := fun _ => {| ir_raw := []; ir_parsed := None |};
     srv_phrase_ipa := fun _ => {| ir_raw := []; ir_parsed := None |};
     srv_phrase_translation := fun _ => [];
     srv_dictionary := srv_dictionary sample_service |}.

Definition offline_ami_actions : actions :=
  Eval vm_compute in
    get_actions
      (prepare_word_actions offline_env sample_service (u8 "ami") 22
         lang_fr (Some user_123) None true).

(* ----- helpers of the noun and adjective branches ----- *)

Definition str_m : str := Eval vm_compute in u8 "m".
Definition str_f : str := Eval vm_compute in u8 "f".

Definition masculine_markers : list str :=
  Eval vm_compute in [u8 "m"; u8 "masc"; u8 "masculin"; u8 "masculine"].

Definition feminine_markers : list str :=
  Eval vm_compute in
    [u8 "f"; u8 "fem"; u8 "féminin"; u8 "feminine"; u8 "femenin";
     u8 "femenino"].

(** [_normalize_fr_gender]; the value is [None] or a string. *)
Definition _normalize_fr_gender (value : option str) : str :=
  match value with
  | None => []
  | Some v =>
    let raw := lower (strip v) in
    match raw with
    | [] => []
    | _ =>
      if mem_str raw masculine_markers then str_m
      else if mem_str raw feminine_markers then str_f
      else []
    end
  end.

Definition str_le : str := Eval vm_compute in u8 "le".
Definition str_la : str := Eval vm_compute in u8 "la".
Definition str_les : str := Eval vm_compute in u8 "les".
Definition str_l_apostrophe : str := Eval vm_compute in u8 "l'".
Definition str_l_typographic : str := Eval vm_compute in u8 "l’".

(** [_normalize_fr_base_article]; the value is [None] or a string. *)
Definition _normalize_fr_base_article (value : option str) : str :=
  match value with
  | None => []
  | Some v =>
    let raw := lower (strip v) in
    if mem_str raw [str_le; str_la; str_les] then raw else []
  end.

(** The articles [_normalize_article] accepts for French and German. *)
Definition fr_articles : list str :=
  [str_le; str_la; str_les; str_l_apostrophe; str_l_typographic].

Definition de_articles : list str :=
  Eval vm_compute in [u8 "der"; u8 "die"; u8 "das"; u8 "ein"; u8 "eine"].

(** [_normalize_article] after the choice of the accepted articles. *)
Definition normalize_article_in (allowed : list str) (article raw : str)
    : str :=
  let has_trailing_space := endswith [32%N] article in
  let lowered := lower raw in
  if negb (mem_str lowered allowed) then []
  else if mem_str lowered [str_l_apostrophe; str_l_typographic] then lowered
  else if has_trailing_space || (length raw =? length lowered)%nat
       then lowered ++ [32%N]
       else raw ++ [32%N].

(** [_normalize_article] *)
Definition _normalize_article (article language : str) : str :=
  match article with
  | [] => []
  | _ =>
    let raw := strip article in
    match raw with
    | [] => []
    | _ =>
      let lang := lower language in
      if str_eqb lang lang_fr then normalize_article_in fr_articles article raw
      else if str_eqb lang lang_de
           then normalize_article_in de_articles article raw
           else article
    end
  end.

(** [_build_phrase] *)
Definition _build_phrase (article palabra : str) : str :=
  let article := strip_chars [10%N] article in
  match article with
  | [] => palabra
  | _ =>
    if endswith [apostrophe] article || endswith [8217%N] article
    then article ++ palabra
    else if endswith [32%N] article || endswith [9%N] article
         then article ++ palabra
         else article ++ [32%N] ++ palabra
  end.

(** The search of the gender marker at the end of a phrase, without
    regard to case: after the white space at the end, the text ends
    with a white-space character followed by [(m)] or [(f)]. *)
Definition has_gender_marker (p : str) : bool :=
  match rev (rstrip_by is_space p) with
  | c3 :: c2 :: c1 :: c0 :: _ =>
    (c3 =? 41)%N
    && ((c2 =? 109) || (c2 =? 102) || (c2 =? 77) || (c2 =? 70))%N
    && (c1 =? 40)%N && is_space c0
  | _ => false
  end.

(** [_maybe_append_fr_gender_marker] *)
Definition _maybe_append_fr_gender_marker (language phrase gender : str)
    : str :=
  if negb (str_eqb (lower (strip language)) lang_fr) then strip phrase
  else
    let p := strip phrase in
    match p with
    | [] => p
    | _ =>
      let low := lower p in
      if negb (startswith str_l_apostrophe low
               || startswith str_l_typographic low) then p
      else
        let marker := _normalize_fr_gender (Some gender) in
        if negb (mem_str marker [str_m; str_f]) then p
        else if has_gender_marker p then p
        else p ++ [32%N; 40%N] ++ marker ++ [41%N]
    end.

(** [_accept_phrase_correction]; the candidate is a string. *)
Definition _accept_phrase_correction (language original_phrase
    original_article palabra candidate : str) : bool :=
  let cand := strip candidate in
  match cand with
  | [] => false
  | _ =>
    if str_eqb cand original_phrase then true
    else if negb (str_eqb (lower language) lang_fr) then false
    else
      let orig := lower (strip original_article) in
      if negb (mem_str orig [str_le; str_la; str_le ++ [32%N];
                             str_la ++ [32%N]]) then false
      else if negb (_starts_with_french_elision_sound palabra) then false
      else mem_str cand [str_l_apostrophe ++ palabra;
                         str_l_typographic ++ palabra]
  end.

Definition lang_es : str := Eval vm_compute in u8 "es".

(** [_default_feminine_by_suffix] *)
Definition _default_feminine_by_suffix (language adjective : str) : str :=
  let lang := lower (strip language) in
  let w := strip adjective in
  match w with
  | [] => []
  | _ =>
    if str_eqb lang lang_fr then
      if endswith [101%N] (lower w) then w else w ++ [101%N]
    else if str_eqb lang lang_es then
      if endswith [97%N] (lower w) then w else w ++ [97%N]
    else []
  end.


(* ----- the translation of a noun ----- *)

(** The separators of the first step of
    [_normalize_spanish_noun_translation]: comma, semicolon and
    vertical bar. *)
Definition is_note_separator (c : char) : bool :=
  ((c =? 44) || (c =? 59) || (c =? 124))%N.

(** The text before the first character of a class. *)
Fixpoint before_first (p : char -> bool) (s : str) : str :=
  match s with
  | [] => []
  | c :: r => if p c then [] else c :: before_first p r
  end.

(** The search of the parenthetical at the end of a text, on the
    reversed text after its final closing parenthesis: up to the next
    closing parenthesis, the last opening parenthesis met is the
    leftmost one of the text from which no closing parenthesis comes
    before the final one; the result is the reversed text in front of
    it. *)
Fixpoint scan_parenthetical (found : option str) (s : str) : option str :=
  match s with
  | [] => found
  | c :: r =>
    if (c =? 41)%N then found
    else if (c =? 40)%N then scan_parenthetical (Some r) r
    else scan_parenthetical found r
  end.

(** The second step, on a stripped text: the parenthetical at the end
    of the text is removed with the white space in front of it, and
    the text is stripped. *)
Definition drop_trailing_parenthetical (text : str) : str :=
  match rev text with
  | c :: rest =>
    if (c =? 41)%N then
      match scan_parenthetical None rest with
      | Some r => strip (rev r)
      | None => text
      end
    else text
  | [] => text
  end.

(** A letter of a pattern matched without regard to case: the letter,
    its capital, and for [s] also the long s. *)
Definition ci_letter (p c : char) : bool :=
  ((c =? p) || (c =? p - 32) || ((p =? 115) && (c =? 383)))%N.

Fixpoint ci_startswith (p s : str) : bool :=
  match p, s with
  | [], _ => true
  | _ :: _, [] => false
  | a :: p', b :: s' => ci_letter a b && ci_startswith p' s'
  end.

Definition spanish_determiners : list str :=
  Eval vm_compute in
    [u8 "un"; u8 "una"; u8 "unos"; u8 "unas"; u8 "el"; u8 "la"; u8 "los";
     u8 "las"].

(** The fourth step: a determiner at the start of the text, followed by
    white space, is removed with that white space. *)
Fixpoint drop_determiner (dets : list str) (text : str) : str :=
  match dets with
  | [] => text
  | d :: r =>
    let after := skipn (length d) text in
    if ci_startswith d text
       && match after with c :: _ => is_space c | [] => false end
    then lstrip_by is_space after
    else drop_determiner r text
  end.

Definition wrapping_quotes : str :=
  Eval vm_compute in ([34%N; 39%N] ++ u8 "“”‘’").

(** [_normalize_spanish_noun_translation] *)
Definition _normalize_spanish_noun_translation (translation : str) : str :=
  let text := strip translation in
  match text with
  | [] => []
  | _ =>
    let text := strip (before_first is_note_separator text) in
    let text := drop_trailing_parenthetical text in
    let text := strip_chars wrapping_quotes text in
    let text := strip (drop_determiner spanish_determiners text) in
    let text := _strip_edge_punctuation text in
    strip (collapse_ws text)
  end.

(* ----- verb phrases ----- *)

Definition str_je : str := Eval vm_compute in u8 "je".

(** The dictionary [aliases] of [_normalize_fr_pronoun]. *)
Definition pronoun_aliases : list (str * str) :=
  Eval vm_compute in
    [([106%N], u8 "je"); ([106%N; 39%N], u8 "je"); (u8 "j’", u8 "je");
     (u8 "je", u8 "je"); (u8 "tu", u8 "tu"); (u8 "il", u8 "il");
     (u8 "elle", u8 "elle"); (u8 "on", u8 "on"); (u8 "nous", u8 "nous");
     (u8 "vous", u8 "vous"); (u8 "ils", u8 "ils"); (u8 "elles", u8 "elles")].

(** [dict.get(key, default)] *)
Fixpoint dict_get (d : list (str * str)) (key default : str) : str :=
  match d with
  | [] => default
  | (k, v) :: r => if str_eqb k key then v else dict_get r key default
  end.

(** [_normalize_fr_pronoun] *)
Definition _normalize_fr_pronoun (pronoun : str) : str :=
  let raw := lower (strip pronoun) in
  match raw with
  | [] => []
  | _ => dict_get pronoun_aliases raw raw
  end.

(** [_build_verb_phrase] *)
Definition _build_verb_phrase (language pronoun verb_form : str) : str :=
  let pronoun_norm := strip pronoun in
  let verb_form := strip verb_form in
  match pronoun_norm, verb_form with
  | [], _ => verb_form
  | _, [] => pronoun_norm
  | _, _ =>
    if str_eqb (lower language) lang_fr then
      let p := _normalize_fr_pronoun pronoun_norm in
      if str_eqb p str_je && _starts_with_french_elision_sound verb_form
      then [106%N; apostrophe] ++ verb_form
      else p ++ [32%N] ++ verb_form
    else pronoun_norm ++ [32%N] ++ verb_form
  end.

(** The phrase of a first person singular form before elision. *)
Definition je_phrase (verb_form : str) : str :=
  [106; 101; 32]%N ++ verb_form.

(** The elided phrase, with the apostrophe given. *)
Definition elided_phrase (apos : char) (original : str) : str :=
  [106%N; apos] ++ strip (skipn 3 original).

(* ----- the part of speech ----- *)

(** [s.replace(old, by)] for a pattern that is not empty: the
    occurrences are replaced from left to right; [skip] counts the
    characters of an occurrence still to pass over. *)
Fixpoint replace_from (old by_ : str) (skip : nat) (s : str) : str :=
  match s with
  | [] => []
  | c :: r =>
    match skip with
    | S k => replace_from old by_ k r
    | O =>
      if startswith old s
      then by_ ++ replace_from old by_ (length old - 1) r
      else c :: replace_from old by_ 0 r
    end
  end.

Definition replace_str (old by_ : str) (s : str) : str :=
  replace_from old by_ 0 s.

(** The value of the field [pos] of the reply: a string, a list (an
    item that is no string is [None]), or anything else. *)
Inductive json_pos :=
| PosStr (s : str)
| PosList (items : list (option str))
| PosOther.

Definition adjective_tags : list str :=
  Eval vm_compute in
    [u8 "adjective"; u8 "adj"; u8 "adjetivo"; u8 "adjetive"].
Definition noun_tags : list str :=
  Eval vm_compute in [u8 "noun"; u8 "n"; u8 "sustantivo"; u8 "sustantive"].
Definition verb_tags : list str :=
  Eval vm_compute in [u8 "verb"; u8 "v"; u8 "verbo"].
Definition combined_markers : list str :=
  Eval vm_compute in
    [u8 "noun_verb"; u8 "nounverb"; u8 "noun verb"; u8 "verb noun";
     u8 "both"].

Definition str_and : str := Eval vm_compute in u8 "and".
Definition pos_adjective : str := Eval vm_compute in u8 "adjective".
Definition pos_noun_verb : str := Eval vm_compute in u8 "noun_verb".
Definition pos_noun : str := Eval vm_compute in u8 "noun".
Definition pos_verb : str := Eval vm_compute in u8 "verb".
Definition pos_other : str := Eval vm_compute in u8 "other".

(** The list [tokens] of [_parse_pos_field]. *)
Definition pos_tokens (pos_value : json_pos) : list str :=
  match pos_value with
  | PosList items =>
    filter_map
      (fun item =>
         match item with
         | Some s => if nonempty (strip s) then Some (lower (strip s))
                     else None
         | None => None
         end)
      items
  | PosStr s =>
    let raw := lower (strip s) in
    let raw :=
      replace_char 95%N [32%N] (replace_char 47%N [32%N]
        (replace_char 43%N [32%N] raw)) in
    let raw := replace_str str_and [32%N] raw in
    filter nonempty (split_ws raw)
  | PosOther => []
  end.

(** [_parse_pos_field]: (is_noun, is_verb, is_adjective,
    normalized_pos). *)
Definition _parse_pos_field (pos_value : json_pos)
    : bool * bool * bool * str :=
  let tokens := pos_tokens pos_value in
  let is_adjective := existsb (fun t => mem_str t adjective_tags) tokens in
  let is_noun := existsb (fun t => mem_str t noun_tags) tokens in
  let is_verb := existsb (fun t => mem_str t verb_tags) tokens in
  let combined :=
    match pos_value with
    | PosStr s =>
      let low := lower (strip s) in
      existsb (fun m => contains m low) combined_markers
    | _ => false
    end in
  let is_noun := is_noun || combined in
  let is_verb := is_verb || combined in
  if is_adjective then (false, false, true, pos_adjective)
  else if is_noun && is_verb then (true, true, false, pos_noun_verb)
  else if is_noun then (true, false, false, pos_noun)
  else if is_verb then (false, true, false, pos_verb)
  else if nonempty_list tokens then (false, false, false, pos_other)
  else (false, false, false, []).

Definition str_ete : str := Eval vm_compute in u8 "été".
Definition str_ment : str := Eval vm_compute in u8 "ment".
Definition common_suffixes : list str :=
  Eval vm_compute in [u8 "e"; u8 "es"; u8 "ent"; u8 "ons"; u8 "ez"].
Definition irregular_present_forms : list str :=
  Eval vm_compute in
    [u8 "suis"; u8 "es"; u8 "est"; u8 "sommes"; u8 "êtes"; u8 "sont";
     u8 "ai"; u8 "as"; u8 "a"; u8 "avons"; u8 "avez"; u8 "ont"].

(** [_looks_like_fr_conjugated_verb_form] *)
Definition _looks_like_fr_conjugated_verb_form (word : str) : bool :=
  let w := lower (strip word) in
  if negb (nonempty w) || mem_char 32%N w then false
  else if mem_str w [str_ete] then true
  else if (length w <? 4)%nat then false
  else if endswith str_ment w then false
  else if existsb (fun suffix => endswith suffix w) common_suffixes then true
  else if mem_str w irregular_present_forms then true
  else false.

(** [_is_fr_ambiguous_noun_verb_token] *)
Definition _is_fr_ambiguous_noun_verb_token (word : str) : bool :=
  mem_str (lower (strip word)) [str_ete].

Definition common_adverbs : list str :=
  Eval vm_compute in
    [u8 "tard"; u8 "tôt"; u8 "ici"; u8 "là"; u8 "hier"; u8 "demain";
     u8 "aujourd'hui"; u8 "toujours"; u8 "jamais"; u8 "souvent";
     u8 "parfois"; u8 "déjà"; u8 "encore"; u8 "très"; u8 "trop";
     u8 "assez"; u8 "bien"; u8 "mal"; u8 "vite"].

(** [_is_fr_common_adverb] *)
Definition _is_fr_common_adverb (word : str) : bool :=
  mem_str (lower (strip word)) common_adverbs.

Definition default_lemmas : list (str * str) :=
  Eval vm_compute in [(u8 "été", u8 "être")].

(** [_fr_default_lemma_for_ambiguous_token] *)
Definition _fr_default_lemma_for_ambiguous_token (word : str) : str :=
  dict_get default_lemmas (lower (strip word)) [].

(** The reply to the second, explicit verb check: the truth value of
    its field [is_verb] and its field [lemma]. *)
Record verb_check := {
  vc_is_verb : bool;
  vc_lemma : option str
}.

(** The part of speech stage of [prepare_word_actions] (1a): the field
    [pos] of the first reply is parsed, an ambiguous token is forced to
    noun and verb, a noun that looks like a conjugated form is checked
    a second time, and a common adverb overrides everything.
    [lemma_field] is the field [lemma] of the first reply ([or] with the empty text);
    the second reply is used only when the check is triggered. *)
Definition classification_stage (language palabra : str)
    (pos_field : json_pos) (lemma_field : str) (check : verb_check)
    : classification :=
  let fr := str_eqb (lower language) lang_fr in
  let lemma0 := strip lemma_field in
  let '(is_noun0, is_verb0, is_adjective0, pos0) :=
    _parse_pos_field pos_field in
  let forced :=
    fr && _is_fr_ambiguous_noun_verb_token palabra
    && is_verb0 && negb is_noun0 in
  let is_noun1 := if forced then true else is_noun0 in
  let pos1 := if forced then pos_noun_verb else pos0 in
  let lemma1 :=
    if forced && negb (nonempty lemma0)
    then _fr_default_lemma_for_ambiguous_token palabra else lemma0 in
  let fallback_trigger :=
    fr && is_noun1 && negb is_verb0
    && _looks_like_fr_conjugated_verb_form palabra in
  let checked := fallback_trigger && vc_is_verb check in
  let ambiguous := _is_fr_ambiguous_noun_verb_token palabra in
  let lemma2 :=
    if checked
    then strip (if truthy (vc_lemma check) then opt_get (vc_lemma check)
                else lemma1)
    else lemma1 in
  let is_verb2 := if checked then true else is_verb0 in
  let is_noun2 := if checked then ambiguous else is_noun1 in
  let pos2 :=
    if checked then (if ambiguous then pos_noun_verb else pos_verb)
    else pos1 in
  if fr && _is_fr_common_adverb palabra then
    {| is_noun := false; is_verb := false; is_adjective := false;
       pos := pos_other; lemma := [] |}
  else
    {| is_noun := is_noun2; is_verb := is_verb2;
       is_adjective := is_adjective0; pos := pos2; lemma := lemma2 |}.

(** The tag that goes with the flags; without a flag the tag is
    [other] or empty. *)
Definition label_agrees (c : classification) : bool :=
  if is_adjective c then
    negb (is_noun c) && negb (is_verb c) && str_eqb (pos c) pos_adjective
  else if is_noun c && is_verb c then str_eqb (pos c) pos_noun_verb
  else if is_noun c then str_eqb (pos c) pos_noun
  else if is_verb c then str_eqb (pos c) pos_verb
  else mem_str (pos c) [pos_other; []].

(* ----- the details of a noun ----- *)

(** The fields of the reply about a noun that the noun branch reads (a
    field is [None] when it is missing or null).  The reply to the
    retry is read through the same fields, except the translation. *)
Record noun_reply := {
  nr_translation : option str;
  nr_article : option str;
  nr_base_article : option str;
  nr_article_base : option str;
  nr_gender : option str;
  nr_genre : option str
}.

(** [a or b] for two optional strings, and for two strings. *)
Definition opt_or (a b : option str) : option str :=
  if truthy a then a else b.

Definition str_or (a b : str) : str :=
  match a with [] => b | _ => a end.

(** The gender read off the underlying article. *)
Definition gender_from_base_article (base : str) : str :=
  if str_eqb base str_le then str_m
  else if str_eqb base str_la then str_f else [].

(** The elision of the article in front of a vowel or h. *)
Definition enforce_elision (palabra article : str) : str :=
  if mem_str (lower (strip article)) [str_le; str_la]
     && _starts_with_french_elision_sound palabra
  then str_l_apostrophe else article.

Definition str_mente : str := Eval vm_compute in u8 "mente".

(** What the noun branch settles. *)
Record noun_details := {
  nd_translation : str;
  nd_article : str;
  nd_gender : str;
  nd_is_noun : bool;
  nd_is_adjective : bool;
  nd_pos : str
}.

(** The noun branch of [prepare_word_actions] (1b-noun), entered with
    [is_noun] true: the translation, the article and the gender are
    read from the reply, the elision is enforced, a missing article is
    asked for once more, and a translation in -mente withdraws the
    article.  [reply] is [None] when the reply holds no object, and the
    second reply, used only when the retry is triggered, is [None] when
    it holds none or an empty one. *)
Definition noun_details_stage (language palabra : str) (pos_label : str)
    (adjective : bool) (reply retry : option noun_reply) : noun_details :=
  match reply with
  | None =>
    {| nd_translation := []; nd_article := []; nd_gender := [];
       nd_is_noun := true; nd_is_adjective := adjective;
       nd_pos := pos_label |}
  | Some parsed_noun =>
    let fr := str_eqb (lower language) lang_fr in
    let translation :=
      _normalize_spanish_noun_translation
        (strip (opt_get (nr_translation parsed_noun))) in
    let raw_article := opt_get (nr_article parsed_noun) in
    let raw_article_norm := lower (strip raw_article) in
    let article := _normalize_article raw_article language in
    let gender_fr :=
      if fr then
        let base_article_fr :=
          _normalize_fr_base_article
            (opt_or (nr_base_article parsed_noun)
                    (nr_article_base parsed_noun)) in
        let gender_from_base := gender_from_base_article base_article_fr in
        let gender_fr :=
          str_or gender_from_base
            (_normalize_fr_gender
               (opt_or (nr_gender parsed_noun) (nr_genre parsed_noun))) in
        if negb (nonempty gender_fr)
           && mem_str raw_article_norm [str_le; str_la]
        then (if str_eqb raw_article_norm str_le then str_m else str_f)
        else gender_fr
      else [] in
    let '(article, gender_fr) :=
      if fr then
        let art := lower (strip article) in
        let '(article, gender_fr) :=
          if mem_str art [str_le; str_la]
             || mem_str (lower (strip article)) [str_le; str_la]
          then (art ++ [32%N],
                if negb (nonempty gender_fr)
                then (if str_eqb art str_le then str_m else str_f)
                else gender_fr)
          else (article, gender_fr) in
        (enforce_elision palabra article, gender_fr)
      else (article, gender_fr) in
    let '(article, gender_fr) :=
      if fr && negb (nonempty (strip article)) then
        match retry with
        | Some parsed_retry =>
          let article :=
            _normalize_article (opt_get (nr_article parsed_retry))
              language in
          let base_retry :=
            _normalize_fr_base_article
              (opt_or (nr_base_article parsed_retry)
                      (nr_article_base parsed_retry)) in
          let gender_from_base_retry :=
            gender_from_base_article base_retry in
          let gender_retry :=
            _normalize_fr_gender
              (opt_or (nr_gender parsed_retry) (nr_genre parsed_retry)) in
          (enforce_elision palabra article,
           str_or gender_from_base_retry (str_or gender_retry gender_fr))
        | None => (article, gender_fr)
        end
      else (article, gender_fr) in
    if str_eqb (lower (strip language)) lang_fr
       && endswith str_mente (lower (strip translation))
       && mem_str (lower (strip article))
            [str_le; str_la; str_les; str_l_apostrophe]
    then
      {| nd_translation := translation; nd_article := []; nd_gender := [];
         nd_is_noun := false; nd_is_adjective := false;
         nd_pos := pos_other |}
    else
      {| nd_translation := translation; nd_article := article;
         nd_gender := gender_fr; nd_is_noun := true;
         nd_is_adjective := adjective; nd_pos := pos_label |}
  end.

(** The articles a French noun is stored with. *)
Definition fr_stored_articles : list str :=
  [[]; str_le ++ [32%N]; str_la ++ [32%N]; str_les ++ [32%N];
   str_l_apostrophe; str_l_typographic].

(** An article of the closed set that respects the elision in front of
    [palabra]. *)
Definition article_fits (palabra article : str) : Prop :=
  In article fr_stored_articles
  /\ (_starts_with_french_elision_sound palabra = true ->
      article <> str_le ++ [32%N] /\ article <> str_la ++ [32%N]).

Definition gender_value (g : str) : Prop := In g [[]; str_m; str_f].

(** A reply that gives the article le for a noun. *)
Definition reply_le_verano : noun_reply :=
  Eval vm_compute in
  {| nr_translation := Some (u8 "el verano"); nr_article := Some str_le;
     nr_base_article := None; nr_article_base := None;
     nr_gender := None; nr_genre := None |}.

(* ===================================================================== *)
(** * 9d. Sample texts, transcriptions and slots                          *)
(* ===================================================================== *)

(** Texts as a user may type them. *)
Definition typed_ecole : str := Eval vm_compute in u8 " « L’École » ".
Definition typed_mes_amis : str := Eval vm_compute in u8 "Mes  amis !".

(** Tokens with a repetition that differs in case only. *)
Definition repeated_tokens : list str :=
  Eval vm_compute in [u8 "Le"; u8 "chat"; u8 "le"].

(** The sample service with a phrase transcription that has a space
    before the liaison marker. *)
Definition spaced_liaison_service : service :=
  {| srv_classify := srv_classify sample_service;
     srv_details := srv_details sample_service;
     srv_verb := srv_verb sample_service;
     srv_word_ipa := srv_word_ipa sample_service;
     srv_entry_ipa := srv_entry_ipa sample_service;
     srv_phrase_ipa := fun _ => spaced_liaison_reply;
     srv_phrase_translation := srv_phrase_translation sample_service;
     srv_dictionary := srv_dictionary sample_service |}.

(** A dictionary text between square brackets, and a service whose
    dictionary look-up gives it. *)
Definition bracketed_text : str := Eval vm_compute in u8 "[ami]".

Definition bracket_dictionary_service : service :=
  {| srv_classify := srv_classify sample_service;
     srv_details := srv_details sample_service;
     srv_verb := srv_verb sample_service;
     srv_word_ipa := srv_word_ipa sample_service;
     srv_entry_ipa := srv_entry_ipa sample_service;
     srv_phrase_ipa := srv_phrase_ipa sample_service;
     srv_phrase_translation := srv_phrase_translation sample_service;
     srv_dictionary := fun _ => Some bracketed_text |}.

(** The format the accepting helpers enforce: [ipa_format] and no
    double slash. *)
Definition checked_format (t : str) : Prop :=
  ipa_format t /\ contains [slash; slash] t = false.

(** The transcription of a verb entry: absent, empty or checked. *)
Definition entry_ipa_ok (entry : verb_entry) : Prop :=
  forall t, ve_ipa entry = Some t -> t = [] \/ checked_format t.

(** The slot [_group_ambiguous_pronouns] makes of the first entry of a
    group with a verb form, with the translation it holds. *)
Definition group_slot (group rest : str) (entry : verb_entry)
    (translation : str) : verb_entry :=
  {| ve_pronoun := group;
     ve_phrase := group ++ [32%N] ++ rest;
     ve_translation := translation;
     ve_ipa := None;
     ve_association := ve_association entry |}.

(** An entry without translation. *)
Definition blank_translation (entry : verb_entry) : bool :=
  negb (nonempty (strip (ve_translation entry))).

(** The entry is filed under the key [k] as a member of a group. *)
Definition grouped_under (lang : str) (k : pron_key) (entry : verb_entry)
    : Prop :=
  entry_group lang entry = Some (fst k) /\ entry_key lang entry = Some k.

(** The entry of [il est] without translation. *)
Definition entry_il_blank : verb_entry :=
  Eval vm_compute in mk_entry (u8 "il") (u8 "il est") [].

(* ===================================================================== *)
(** * 10. Basic facts on strings and lists                                *)
(* ===================================================================== *)

Lemma str_eqb_eq (a b : str) : str_eqb a b = true <-> a = b.
Proof.
  unfold str_eqb. destruct (list_eq_dec N.eq_dec a b); split; intros; auto;
    try discriminate; contradiction.
Qed.

Lemma str_eqb_refl (a : str) : str_eqb a a = true.
Proof. apply str_eqb_eq. reflexivity. Qed.

Lemma str_eqb_neq (a b : str) : str_eqb a b = false <-> a <> b.
Proof.
  unfold str_eqb. destruct (list_eq_dec N.eq_dec a b); split; intros; auto;
    try discriminate; contradiction.
Qed.

Lemma mem_char_In (c : char) (cs : str) : mem_char c cs = true <-> In c cs.
Proof.
  unfold mem_char. rewrite existsb_exists. split.
  - intros [x [Hin Heq]]. apply N.eqb_eq in Heq. subst. exact Hin.
  - intros Hin. exists c. split; [exact Hin | apply N.eqb_refl].
Qed.

Lemma in_filter_map {A B} (f : A -> option B) (l : list A) (y : B) :
  In y (filter_map f l) <-> exists x, In x l /\ f x = Some y.
Proof.
  induction l as [|x l IH]; simpl.
  - split; [intros [] | intros [x [[] _]]].
  - destruct (f x) as [z|] eqn:Hfx; simpl; rewrite IH; split.
    + intros [Hz | [x' [Hin Hf]]].
      * subst. exists x. auto.
      * exists x'. auto.
    + intros [x' [[Hx | Hin] Hf]].
      * subst. left. congruence.
      * right. exists x'. auto.
    + intros [x' [Hin Hf]]. exists x'. auto.
    + intros [x' [[Hx | Hin] Hf]].
      * subst. congruence.
      * exists x'. auto.
Qed.

Lemma startswith_app (p s : str) :
  startswith p s = true <-> exists r, s = p ++ r.
Proof.
  revert s. induction p as [|a p IH]; intros s; simpl.
  - split; [intros _; exists s; reflexivity | reflexivity].
  - destruct s as [|b s].
    + split; [discriminate | intros [r Hr]; discriminate].
    + rewrite andb_true_iff, N.eqb_eq, IH. split.
      * intros [-> [r ->]]. exists r. reflexivity.
      * intros [r Hr]. injection Hr as -> ->. split; [reflexivity | eauto].
Qed.

Lemma split_once_spec (sep s a b : str) :
  split_once sep s = Some (a, b) -> s = a ++ sep ++ b.
Proof.
  revert a b. induction s as [|c s IH]; intros a b; simpl.
  - destruct (startswith sep []) eqn:Hs.
    + intros H. injection H as <- <-.
      apply startswith_app in Hs. destruct Hs as [r Hr].
      symmetry in Hr. apply app_eq_nil in Hr. destruct Hr as [-> ->].
      reflexivity.
    + discriminate.
  - destruct (startswith sep (c :: s)) eqn:Hs.
    + intros H. injection H as <- <-.
      apply startswith_app in Hs. destruct Hs as [r Hr].
      rewrite Hr at 1. simpl. f_equal.
      rewrite Hr. rewrite skipn_app, skipn_all, Nat.sub_diag. reflexivity.
    + destruct (split_once sep s) as [[a' b']|] eqn:Hsp; [|discriminate].
      intros H. injection H as <- <-.
      simpl. f_equal. apply IH. reflexivity.
Qed.

(* ===================================================================== *)
(** * 11. Placeholders of the compiled statements                         *)
(* ===================================================================== *)

Lemma count_placeholders_clean (t b : str) :
  no_percent t = true ->
  count_placeholders (t ++ b) = count_placeholders b.
Proof.
  induction t as [|c t IH]; simpl; intros H; [reflexivity|].
  apply andb_true_iff in H. destruct H as [Hc Ht].
  apply negb_true_iff in Hc. rewrite Hc. apply IH. exact Ht.
Qed.

Lemma has_invalid_percent_clean (t b : str) :
  no_percent t = true ->
  has_invalid_percent (t ++ b) = has_invalid_percent b.
Proof.
  induction t as [|c t IH]; simpl; intros H; [reflexivity|].
  apply andb_true_iff in H. destruct H as [Hc Ht].
  apply negb_true_iff in Hc. rewrite Hc. apply IH. exact Ht.
Qed.

(** A text whose scan ends between two tokens: what follows is scanned
    on its own. *)
Lemma has_invalid_percent_app (a b : str) :
  has_invalid_percent a = false ->
  has_invalid_percent (a ++ b) = has_invalid_percent b.
Proof.
  remember (length a) as n eqn:Hn. revert a Hn.
  induction n as [n IH] using lt_wf_ind. intros a Hn Ha.
  destruct a as [|c a]; [reflexivity|].
  simpl in *. destruct (N.eqb c percent).
  - destruct a as [|d a]; [discriminate|]. simpl.
    destruct (N.eqb d letter_s || N.eqb d percent); [|discriminate].
    apply (IH (length a)); [subst; simpl; lia | reflexivity | exact Ha].
  - apply (IH (length a)); [subst; simpl; lia | reflexivity | exact Ha].
Qed.

Lemma count_placeholders_cons (c : char) (r : str) :
  count_placeholders (c :: r) =
  if N.eqb c percent then
    match r with
    | d :: r' =>
      if N.eqb d letter_s then S (count_placeholders r')
      else count_placeholders r
    | [] => 0
    end
  else count_placeholders r.
Proof. reflexivity. Qed.

Lemma count_placeholders_app (a b : str) :
  last a 0%N <> percent ->
  count_placeholders (a ++ b) = count_placeholders a + count_placeholders b.
Proof.
  remember (length a) as n eqn:Hn. revert a Hn.
  induction n as [n IH] using lt_wf_ind. intros a Hn Ha.
  destruct a as [|c a]; [reflexivity|].
  destruct a as [|d a].
  - simpl app. rewrite !count_placeholders_cons.
    destruct (N.eqb c percent) eqn:Hc; [|reflexivity].
    apply N.eqb_eq in Hc. simpl in Ha. contradiction.
  - change ((c :: d :: a) ++ b) with (c :: d :: (a ++ b)).
    rewrite (count_placeholders_cons c (d :: a ++ b)).
    rewrite (count_placeholders_cons c (d :: a)).
    assert (Hrec : count_placeholders (d :: a ++ b)
                   = count_placeholders (d :: a) + count_placeholders b).
    { apply (IH (length (d :: a))) with (a := d :: a);
        [subst; simpl; lia | reflexivity | exact Ha]. }
    destruct (N.eqb c percent); [|exact Hrec].
    destruct (N.eqb d letter_s) eqn:Hd; [|exact Hrec].
    simpl. f_equal.
    apply (IH (length a)); [subst; simpl; lia | reflexivity |].
    destruct a as [|e a].
    + simpl. unfold percent. discriminate.
    + exact Ha.
Qed.

Lemma ident_char_no_percent (c : char) :
  ident_char c = true -> N.eqb c percent = false.
Proof.
  unfold ident_char, ident_start, percent. intros H.
  apply N.eqb_neq. intros ->. vm_compute in H. discriminate.
Qed.

Lemma simple_ident_no_percent (t : str) :
  is_simple_ident t = true -> no_percent t = true.
Proof.
  destruct t as [|c r]; simpl; [discriminate|].
  intros H. apply andb_true_iff in H. destruct H as [Hc Hr].
  rewrite (ident_char_no_percent c); [|unfold ident_char; rewrite Hc; reflexivity].
  simpl. unfold no_percent. rewrite forallb_forall in *.
  intros x Hx. rewrite ident_char_no_percent; [reflexivity | apply Hr, Hx].
Qed.

Lemma no_percent_app (a b : str) :
  no_percent (a ++ b) = no_percent a && no_percent b.
Proof. unfold no_percent. apply forallb_app. Qed.

Lemma table_identifier_no_percent (t : str) :
  is_table_identifier t = true -> no_percent t = true.
Proof.
  unfold is_table_identifier.
  destruct (split_once [46%N] t) as [[a b]|] eqn:Hs.
  - intros H. apply andb_true_iff in H. destruct H as [Ha Hb].
    apply split_once_spec in Hs. subst t.
    rewrite !no_percent_app, (simple_ident_no_percent _ Ha),
      (simple_ident_no_percent _ Hb). reflexivity.
  - apply simple_ident_no_percent.
Qed.

Lemma guarded_text_matches (head tail t : str) (n m : nat) :
  no_percent t = true ->
  last head 0%N <> percent ->
  has_invalid_percent head = false ->
  has_invalid_percent tail = false ->
  count_placeholders head = n ->
  count_placeholders tail = m ->
  count_placeholders (head ++ t ++ tail) = n + m
  /\ has_invalid_percent (head ++ t ++ tail) = false.
Proof.
  intros Ht Hl Hh Htl Hn Hm. split.
  - rewrite count_placeholders_app by exact Hl.
    rewrite count_placeholders_clean by exact Ht. congruence.
  - rewrite has_invalid_percent_app by exact Hh.
    rewrite has_invalid_percent_clean by exact Ht. exact Htl.
Qed.

Lemma render_matches_guarded (q : stmt) :
  guard_valid (stmt_guard q) -> render_matches q.
Proof.
  unfold render_matches.
  destruct q as [g w a l i | g i w l | repair g a w l | l w i | l w i];
    cbn [stmt_guard]; intros Hg.
  - destruct g as [g|]; cbn [render fst snd].
    + apply table_identifier_no_percent in Hg.
      change (length ([VStr w; value_of_opt a; VInt l; value_of_opt i]
                        ++ guard_params g w)) with (4 + 3).
      apply guarded_text_matches; try exact Hg; try reflexivity.
      vm_compute. discriminate.
    + split; reflexivity.
  - destruct g as [g|]; cbn [render fst snd].
    + apply table_identifier_no_percent in Hg.
      change (length ([VStr i; VStr w; VInt l] ++ guard_params g w))
        with (3 + 3).
      rewrite app_assoc.
      apply guarded_text_matches; try exact Hg; try reflexivity.
      vm_compute. discriminate.
    + split; reflexivity.
  - destruct g as [g|]; cbn [render fst snd].
    + apply table_identifier_no_percent in Hg.
      change (length ([VStr a; VStr w; VInt l] ++ guard_params g w))
        with (3 + 3).
      rewrite app_assoc.
      destruct repair;
        (apply guarded_text_matches;
           [exact Hg | vm_compute; discriminate | reflexivity ..]).
    + destruct repair; split; reflexivity.
  - split; reflexivity.
  - split; reflexivity.
Qed.

(* ===================================================================== *)
(** * 12. Shape of the compiled action sets                               *)
(* ===================================================================== *)

Lemma bind_ok {A B} (r : res A) (f : A -> res B) (b : B) :
  bind r f = Ok b -> exists a, r = Ok a /\ f a = Ok b.
Proof. destruct r as [a|e]; simpl; [eauto | discriminate]. Qed.

Lemma compile_guard_valid (u t : option str) (ln : str) (g : option guard) :
  compile_guard u t ln = Ok g -> guard_valid g.
Proof.
  unfold compile_guard.
  destruct (nonempty (strip (opt_get t))), u as [uid|]; simpl;
    try (intros H; injection H as <-; exact I).
  destruct (is_table_identifier (strip (opt_get t))) eqn:Hid; simpl;
    [|discriminate].
  intros H. injection H as <-. exact Hid.
Qed.

Lemma prepare_single_token_shape env srv p l lang u t ln ev a :
  prepare_single_token env srv p l lang u t ln ev = Ok a ->
  exists g ex ve,
    compile_guard u t ln = Ok g
    /\ a_word a = stored_word env srv lang p
    /\ a_list_id a = l
    /\ a_is_phrase a = false
    /\ a_queries a =
        compile_word_queries (env_link_homophones env) g (a_word a) l
          (a_association a) (a_ipa_word a) (a_is_verb a)
          (a_is_noun_and_verb a) ex ve.
Proof.
  unfold prepare_single_token, stored_word, token_classification.
  intros H.
  match type of H with
  | context [let '(x, y) := ?E in _] => destruct E as [assoc ipa]
  end.
  apply bind_ok in H. destruct H as [g [Hg H]].
  injection H as <-. cbn.
  eexists g, _, _. repeat split. exact Hg.
Qed.

Lemma token_queries_forall (P : stmt -> Prop) per_token tokens qs :
  (forall tok a, per_token tok = Ok a -> Forall P (a_queries a)) ->
  token_queries per_token tokens = Ok qs ->
  Forall P qs.
Proof.
  intros Hp. revert qs. induction tokens as [|tok r IH]; simpl; intros qs H.
  - injection H as <-. constructor.
  - destruct (negb (nonempty tok) || mem_char 32%N tok); [apply IH, H|].
    apply bind_ok in H. destruct H as [a [Ha H]].
    apply bind_ok in H. destruct H as [rest [Hrest H]].
    injection H as <-. apply Forall_app. split; [eapply Hp, Ha | apply IH, Hrest].
Qed.

Lemma prepare_phrase_shape env srv per_token p l lang u t a :
  _prepare_phrase_actions env srv per_token p l lang u t = Ok a ->
  exists tq g,
    token_queries per_token (a_tokens a) = Ok tq
    /\ guard_valid g
    /\ a_list_id a = l
    /\ a_is_phrase a = true
    /\ a_ipa_word a =
        (if env_api_key env
         then _get_phrase_ipa (srv_phrase_ipa srv (_normalize_user_text lang p))
         else None)
    /\ a_queries a =
        tq ++ (if _already_inserts_word tq (a_word a) l then []
               else [InsertWord g (a_word a) (a_association a) l
                       (a_ipa_word a)])
           ++ update_queries false g (a_word a) l (a_association a)
                (a_ipa_word a).
Proof.
  unfold _prepare_phrase_actions. intros H.
  apply bind_ok in H. destruct H as [tq [Htq H]].
  apply bind_ok in H. destruct H as [[[uid table] ln] [Hcfg H]].
  apply bind_ok in H. destruct H as [g [Hg H]].
  injection H as <-. cbn.
  exists tq, g. repeat split; try assumption.
  eapply compile_guard_valid, Hg.
Qed.

Lemma update_queries_guard repair g w l a i q :
  In q (update_queries repair g w l a i) -> stmt_guard q = g.
Proof.
  unfold update_queries. intros H. apply in_app_or in H.
  destruct (truthy i), (truthy a); simpl in H;
    intuition (subst; reflexivity).
Qed.

Lemma link_queries_guard enabled l w i q :
  In q (_append_homophone_link_queries enabled l w i) -> stmt_guard q = None.
Proof.
  unfold _append_homophone_link_queries.
  destruct i as [[|c i]|]; try (intros []).
  destruct (negb (_should_link_homophones_for_word enabled w)); [intros []|].
  destruct (strip (c :: i)); simpl; intuition (subst; reflexivity).
Qed.

Lemma compile_word_queries_guard link g p l a i v nv ex ve q :
  In q (compile_word_queries link g p l a i v nv ex ve) ->
  stmt_guard q = g \/ stmt_guard q = None.
Proof.
  unfold compile_word_queries, extra_inserts, verb_inserts.
  destruct (negb v && negb nv); [|destruct nv];
    rewrite ?in_app_iff; simpl;
    rewrite ?in_app_iff, ?in_filter_map; intros H;
    repeat match goal with
           | H : _ \/ _ |- _ => destruct H as [H | H]
           | H : False |- _ => destruct H
           | H : InsertWord _ _ _ _ _ = _ |- _ => subst; left; reflexivity
           | H : In _ (update_queries _ _ _ _ _ _) |- _ =>
             left; eapply update_queries_guard, H
           | H : In _ (_append_homophone_link_queries _ _ _ _) |- _ =>
             right; eapply link_queries_guard, H
           end.
  - destruct H as [[[w0 a0] i0] [_ H]].
    destruct (strip w0); [discriminate|]. injection H as <-. left. reflexivity.
  - destruct H as [e [_ H]].
    destruct (strip (ve_phrase e)); [discriminate|].
    injection H as <-. left. reflexivity.
  - destruct H as [e [_ H]].
    destruct (strip (ve_phrase e)); [discriminate|].
    injection H as <-. left. reflexivity.
Qed.

Lemma single_token_guards env srv p l lang u t ln ev a :
  prepare_single_token env srv p l lang u t ln ev = Ok a ->
  Forall (fun q => guard_valid (stmt_guard q)) (a_queries a).
Proof.
  intros H. apply prepare_single_token_shape in H.
  destruct H as [g [ex [ve [Hg [_ [_ [_ Hq]]]]]]].
  apply compile_guard_valid in Hg.
  rewrite Hq. apply Forall_forall. intros q Hin.
  apply compile_word_queries_guard in Hin.
  destruct Hin as [-> | ->]; [exact Hg | exact I].
Qed.

Lemma prepare_word_actions_at_guards depth env srv p l lang u t ev a :
  prepare_word_actions_at depth env srv p l lang u t ev = Ok a ->
  Forall (fun q => guard_valid (stmt_guard q)) (a_queries a).
Proof.
  revert p ev u t a. induction depth as [|d IH]; intros p ev u t a H; simpl in H;
    apply bind_ok in H; destruct H as [[[uid table] ln] [Hcfg H]];
    destruct (is_phrase_input (_normalize_user_text lang p)).
  - discriminate.
  - eapply single_token_guards, H.
  - apply prepare_phrase_shape in H.
    destruct H as [tq [g [Htq [Hg [_ [_ [_ Hq]]]]]]].
    rewrite Hq. rewrite !Forall_app. repeat split.
    + eapply token_queries_forall; [|exact Htq].
      intros tok a' Ha'. eapply IH, Ha'.
    + destruct (_already_inserts_word tq (a_word a) l); repeat constructor.
      exact Hg.
    + apply Forall_forall. intros q Hin.
      apply update_queries_guard in Hin. rewrite Hin. exact Hg.
  - eapply single_token_guards, H.
Qed.

(** C3: for every (statement, parameters) pair of the [queries] list of
    [prepare_word_actions] (single-token mode, phrase mode and the
    appended homophone-link statements), the number of [%s]
    placeholders of the statement text equals the length of the
    parameter tuple, and every other percent sign of the text is
    doubled. *)
Theorem compiled_queries_match_placeholders
    env srv palabra list_id language user_id rejected_words_table
    expand_verbs a :
  prepare_word_actions env srv palabra list_id language user_id
    rejected_words_table expand_verbs = Ok a ->
  forall sql params,
    In (sql, params) (queries a) ->
    count_placeholders sql = length params
    /\ has_invalid_percent sql = false.
Proof.
  intros H sql params Hin.
  apply prepare_word_actions_at_guards in H.
  unfold queries in Hin. apply in_map_iff in Hin.
  destruct Hin as [q [Hr Hq]].
  rewrite Forall_forall in H. specialize (H q Hq).
  apply render_matches_guarded in H. unfold render_matches in H.
  rewrite Hr in H. exact H.
Qed.

Lemma compiled_queries_match_placeholders_witness :
  prepare_word_actions sample_env sample_service (u8 "mes amis") 22
    lang_fr (Some user_123) None true = Ok mes_amis_actions
  /\ (forall sql params,
         In (sql, params) (queries mes_amis_actions) ->
         count_placeholders sql = length params
         /\ has_invalid_percent sql = false).
Proof.
  split.
  - vm_compute. reflexivity.
  - apply (compiled_queries_match_placeholders sample_env sample_service
             (u8 "mes amis") 22 lang_fr (Some user_123) None true).
    vm_compute. reflexivity.
Defined.

(* ===================================================================== *)
(** * 13. Order of the compiled statements                                *)
(* ===================================================================== *)

Lemma app_split_cases {A} (a b pre post : list A) (q : A) :
  a ++ b = pre ++ q :: post ->
  (exists post', a = pre ++ q :: post' /\ post = post' ++ b)
  \/ (exists pre', b = pre' ++ q :: post /\ pre = a ++ pre').
Proof.
  intros H. apply app_eq_app in H. destruct H as [m [[Ha Hb] | [Hp Hb]]].
  - destruct m as [|x m].
    + right. exists []. rewrite app_nil_r in Ha. simpl in Hb.
      split; [symmetry; exact Hb | rewrite app_nil_r; symmetry; exact Ha].
    + left. injection Hb as <- ->. exists m. split; [exact Ha | reflexivity].
  - right. exists m. split; [exact Hb | exact Hp].
Qed.

Lemma insert_before_update_app (a b : list stmt) :
  insert_before_update a -> insert_before_update b ->
  insert_before_update (a ++ b).
Proof.
  intros Ha Hb pre q post w l Heq Hq.
  apply app_split_cases in Heq.
  destruct Heq as [[post' [Heq _]] | [pre' [Heq ->]]].
  - eapply Ha; eassumption.
  - rewrite existsb_app. erewrite (Hb pre'); [apply orb_true_r | eassumption ..].
Qed.

Lemma insert_before_update_no_updates (qs : list stmt) :
  (forall q w l, In q qs -> updates_entry w l q = false) ->
  insert_before_update qs.
Proof.
  intros H pre q post w l Heq Hq. subst qs.
  rewrite H in Hq; [discriminate | apply in_elt].
Qed.

Lemma insert_before_update_after (a b : list stmt) (w : str) (l : Z) :
  insert_before_update a ->
  existsb (inserts_entry w l) a = true ->
  (forall q w' l', In q b -> updates_entry w' l' q = true -> w' = w /\ l' = l) ->
  insert_before_update (a ++ b).
Proof.
  intros Ha Hins Hb pre q post w' l' Heq Hq.
  apply app_split_cases in Heq.
  destruct Heq as [[post' [Heq _]] | [pre' [Heq ->]]].
  - eapply Ha; eassumption.
  - destruct (Hb q w' l') as [-> ->]; [subst b; apply in_elt | exact Hq |].
    rewrite existsb_app, Hins. reflexivity.
Qed.

Lemma inserts_entry_refl g w a l i :
  inserts_entry w l (InsertWord g w a l i) = true.
Proof. simpl. rewrite str_eqb_refl, Z.eqb_refl. reflexivity. Qed.

Lemma updates_entry_inj w l w' l' q :
  updates_entry w l q = true -> updates_entry w' l' q = true ->
  w' = w /\ l' = l.
Proof.
  destruct q; simpl; try discriminate;
    rewrite !andb_true_iff, !str_eqb_eq, !Z.eqb_eq;
    intros [<- <-] [<- <-]; split; reflexivity.
Qed.

Lemma update_queries_target repair g w l a i q :
  In q (update_queries repair g w l a i) ->
  updates_entry w l q = true /\ concerns_entry w l q = true.
Proof.
  unfold update_queries, concerns_entry. intros H. apply in_app_or in H.
  destruct (truthy i), (truthy a); simpl in H;
    intuition (subst; simpl; rewrite str_eqb_refl, Z.eqb_refl; simpl;
               rewrite ?orb_true_r; reflexivity).
Qed.

Lemma link_queries_target enabled l w i q w' l' :
  In q (_append_homophone_link_queries enabled l w i) ->
  updates_entry w' l' q = true -> w' = w /\ l' = l.
Proof.
  unfold _append_homophone_link_queries.
  destruct i as [[|c i]|]; try (intros []).
  destruct (negb (_should_link_homophones_for_word enabled w)); [intros []|].
  destruct (strip (c :: i)); simpl; [intros []|].
  intros [<- | [<- | []]]; simpl; [|discriminate].
  rewrite andb_true_iff, str_eqb_eq, Z.eqb_eq. intros [<- <-]. auto.
Qed.

Lemma link_queries_kind enabled l w i q :
  In q (_append_homophone_link_queries enabled l w i) ->
  is_ipa_update q = false /\ is_assoc_update q = false.
Proof.
  unfold _append_homophone_link_queries.
  destruct i as [[|c i]|]; try (intros []).
  destruct (negb (_should_link_homophones_for_word enabled w)); [intros []|].
  destruct (strip (c :: i)); simpl; [intros []|].
  intros [<- | [<- | []]]; split; reflexivity.
Qed.

Lemma extra_inserts_kind g l ex q :
  In q (extra_inserts g l ex) -> exists w a i, q = InsertWord g w a l i.
Proof.
  unfold extra_inserts. rewrite in_filter_map.
  intros [[[w a] i] [_ H]]. destruct (strip w); [discriminate|].
  injection H as <-. eauto.
Qed.

Lemma verb_inserts_kind g l ve q :
  In q (verb_inserts g l ve) -> exists w a i, q = InsertWord g w a l i.
Proof.
  unfold verb_inserts. rewrite in_filter_map.
  intros [e [_ H]]. destruct (strip (ve_phrase e)); [discriminate|].
  injection H as <-. eauto.
Qed.

(** The statements of one entry: its insert, inserts of other entries,
    its conditional updates, the linking statements, further inserts. *)
Lemma entry_sequence_ordered g w a l i repair enabled mid tail_ :
  (forall q, In q mid -> exists w' a' i', q = InsertWord g w' a' l i') ->
  (forall q, In q tail_ -> exists w' a' i', q = InsertWord g w' a' l i') ->
  let qs := [InsertWord g w a l i] ++ mid
            ++ update_queries repair g w l a i
            ++ _append_homophone_link_queries enabled l w i
            ++ tail_ in
  insert_before_update qs /\ ipa_before_assoc qs.
Proof.
  intros Hmid Htail qs. subst qs. split.
  - apply insert_before_update_after with (w := w) (l := l).
    + apply insert_before_update_no_updates.
      intros q w' l' [<- | []]. reflexivity.
    + simpl. rewrite str_eqb_refl, Z.eqb_refl. reflexivity.
    + intros q w' l' Hin Hq. rewrite !in_app_iff in Hin.
      destruct Hin as [Hin | [Hin | [Hin | Hin]]].
      * apply Hmid in Hin. destruct Hin as [? [? [? ->]]]. discriminate.
      * apply update_queries_target in Hin. destruct Hin as [Hin _].
        eapply updates_entry_inj; eassumption.
      * eapply link_queries_target; eassumption.
      * apply Htail in Hin. destruct Hin as [? [? [? ->]]]. discriminate.
  - intros pre q post Heq Hq.
    assert (Hafter : forall q', In q' (_append_homophone_link_queries enabled l w i
                                        ++ tail_) -> is_ipa_update q' = false).
    { intros q' Hin. apply in_app_or in Hin. destruct Hin as [Hin | Hin].
      - apply link_queries_kind in Hin. apply Hin.
      - apply Htail in Hin. destruct Hin as [? [? [? ->]]]. reflexivity. }
    apply app_split_cases in Heq.
    destruct Heq as [[post' [Heq _]] | [pre1 [Heq _]]].
    { destruct pre as [|x pre]; simpl in Heq.
      - injection Heq as <- _. discriminate.
      - injection Heq as _ Heq. destruct pre; discriminate. }
    apply app_split_cases in Heq.
    destruct Heq as [[post' [Heq _]] | [pre2 [Heq _]]].
    { assert (Hin : In q mid) by (rewrite Heq; apply in_elt).
      apply Hmid in Hin. destruct Hin as [? [? [? ->]]]. discriminate. }
    apply app_split_cases in Heq.
    destruct Heq as [[post' [Heq ->]] | [pre3 [Heq _]]].
    + rewrite forallb_app. apply andb_true_iff. split.
      * unfold update_queries in Heq.
        destruct (truthy i), (truthy a); simpl in Heq.
        -- destruct pre2 as [|x [|y pre2]]; simpl in Heq.
           ++ injection Heq as <- _. discriminate.
           ++ injection Heq as _ _ <-. reflexivity.
           ++ injection Heq as _ _ Heq. destruct pre2; discriminate.
        -- destruct pre2 as [|x pre2]; simpl in Heq.
           ++ injection Heq as <- _. discriminate.
           ++ injection Heq as _ Heq. destruct pre2; discriminate.
        -- destruct pre2 as [|x pre2]; simpl in Heq.
           ++ injection Heq as _ <-. reflexivity.
           ++ injection Heq as _ Heq. destruct pre2; discriminate.
        -- destruct pre2; discriminate.
      * apply forallb_forall. intros q' Hin. rewrite Hafter by exact Hin.
        reflexivity.
    + apply forallb_forall. intros q' Hin. rewrite Hafter; [reflexivity|].
      rewrite Heq. apply in_or_app. right. right. exact Hin.
Qed.

Lemma ipa_before_assoc_tail (x : stmt) (qs : list stmt) :
  ipa_before_assoc (x :: qs) -> ipa_before_assoc qs.
Proof.
  intros H pre q post Heq Hq. apply (H (x :: pre) q post); [|exact Hq].
  rewrite Heq. reflexivity.
Qed.

Lemma only_inserts_ordered (qs : list stmt) :
  (forall q, In q qs -> exists g w a l i, q = InsertWord g w a l i) ->
  insert_before_update qs /\ ipa_before_assoc qs.
Proof.
  intros H. split.
  - apply insert_before_update_no_updates. intros q w l Hin.
    apply H in Hin. destruct Hin as [? [? [? [? [? ->]]]]]. reflexivity.
  - intros pre q post Heq Hq.
    assert (Hin : In q qs) by (rewrite Heq; apply in_elt).
    apply H in Hin. destruct Hin as [? [? [? [? [? ->]]]]]. discriminate.
Qed.

Lemma compile_word_queries_ordered link g p l a i v nv ex ve :
  insert_before_update (compile_word_queries link g p l a i v nv ex ve)
  /\ ipa_before_assoc (compile_word_queries link g p l a i v nv ex ve).
Proof.
  unfold compile_word_queries.
  destruct (negb v && negb nv); [|destruct nv].
  - pose proof (entry_sequence_ordered g p a l i true link
                  (extra_inserts g l ex) []
                  (extra_inserts_kind g l ex)) as H.
    rewrite app_nil_r in H. apply H. intros q [].
  - pose proof (entry_sequence_ordered g p a l i true link []
                  (verb_inserts g l ve)) as H.
    simpl in H. rewrite <- !app_assoc. simpl. apply H.
    + intros q [].
    + apply verb_inserts_kind.
  - simpl. apply only_inserts_ordered. intros q Hin.
    apply verb_inserts_kind in Hin. destruct Hin as [w [a' [i' ->]]]. eauto 6.
Qed.

Lemma link_queries_disabled l w i :
  _append_homophone_link_queries false l w i = [].
Proof. destruct i as [[|c i]|]; reflexivity. Qed.

Lemma phrase_entry_ordered g w l a i (present : bool) :
  ipa_before_assoc
    ((if present then [] else [InsertWord g w a l i])
       ++ update_queries false g w l a i)
  /\ insert_before_update
       ([InsertWord g w a l i] ++ update_queries false g w l a i).
Proof.
  pose proof (entry_sequence_ordered g w a l i false false [] []) as H.
  rewrite link_queries_disabled in H. simpl in H. rewrite app_nil_r in H.
  destruct H as [Hi Ho]; try (intros q []).
  split; [|exact Hi].
  destruct present; [|exact Ho].
  simpl. eapply ipa_before_assoc_tail, Ho.
Qed.

Lemma token_queries_blocks per_token tokens tq :
  token_queries per_token tokens = Ok tq ->
  exists blocks,
    tq = concat blocks
    /\ Forall (fun b => exists tok a, per_token tok = Ok a /\ a_queries a = b)
         blocks.
Proof.
  revert tq. induction tokens as [|tok r IH]; simpl; intros tq H.
  - injection H as <-. exists []. split; [reflexivity | constructor].
  - destruct (negb (nonempty tok) || mem_char 32%N tok); [apply IH, H|].
    apply bind_ok in H. destruct H as [a [Ha H]].
    apply bind_ok in H. destruct H as [rest [Hrest H]].
    injection H as <-. destruct (IH rest Hrest) as [blocks [-> Hb]].
    exists (a_queries a :: blocks). split; [reflexivity|].
    constructor; [exists tok, a; auto | exact Hb].
Qed.

Lemma insert_before_update_concat (blocks : list (list stmt)) :
  Forall insert_before_update blocks -> insert_before_update (concat blocks).
Proof.
  induction 1 as [|b blocks Hb _ IH]; simpl.
  - intros pre q post w l Heq. destruct pre; discriminate.
  - apply insert_before_update_app; assumption.
Qed.

Lemma prepare_word_actions_unfold env srv p l lang u t ev :
  prepare_word_actions env srv p l lang u t ev =
  (cfg <- _resolve_rejected_words_config u t lang ;;
   let '(uid, table, language_norm) := cfg in
   let clean := _normalize_user_text lang p in
   if is_phrase_input clean then
     _prepare_phrase_actions env srv
       (fun token =>
          prepare_word_actions_at 0 env srv token l lang
            (Some uid) (Some table) true)
       clean l lang (Some uid) (Some table)
   else
     let palabra :=
       match clean with
       | [] => p
       | _ =>
         if str_eqb (lower lang) lang_fr
         then _fr_drop_contraction_prefix clean else clean
       end in
     prepare_single_token env srv palabra l lang
       (Some uid) (Some table) language_norm ev).
Proof. reflexivity. Qed.

Lemma single_token_ordered env srv p l lang u t ln ev a :
  prepare_single_token env srv p l lang u t ln ev = Ok a ->
  insert_before_update (a_queries a) /\ ipa_before_assoc (a_queries a)
  /\ a_is_phrase a = false.
Proof.
  intros H. apply prepare_single_token_shape in H.
  destruct H as [g [ex [ve [_ [_ [_ [Hp Hq]]]]]]].
  rewrite Hq. split; [|split]; [| |exact Hp];
    apply compile_word_queries_ordered.
Qed.

Lemma token_run_ordered env srv p l lang u t ev a :
  prepare_word_actions_at 0 env srv p l lang u t ev = Ok a ->
  insert_before_update (a_queries a) /\ ipa_before_assoc (a_queries a)
  /\ a_is_phrase a = false.
Proof.
  simpl. intros H. apply bind_ok in H.
  destruct H as [[[uid table] ln] [_ H]].
  destruct (is_phrase_input (_normalize_user_text lang p)); [discriminate|].
  eapply single_token_ordered, H.
Qed.

(** C7: in the compiled sequence the insert-or-skip statement of an
    entry comes before every update of that entry, and the update of
    the transcription comes before the update of the association.
    The sequence is the concatenation of the blocks of the tokens
    (none in single-token mode) followed by the block of the entry
    itself (the word with its extra entries, or the phrase). *)
Theorem compiled_statements_ordered
    env srv palabra list_id language user_id rejected_words_table
    expand_verbs a :
  prepare_word_actions env srv palabra list_id language user_id
    rejected_words_table expand_verbs = Ok a ->
  insert_before_update (a_queries a)
  /\ exists token_blocks entry_block,
       a_queries a = concat token_blocks ++ entry_block
       /\ ipa_before_assoc entry_block
       /\ Forall (fun b => insert_before_update b /\ ipa_before_assoc b)
            token_blocks
       /\ (a_is_phrase a = false -> token_blocks = [])
       /\ (a_is_phrase a = true ->
            Forall (fun q => concerns_entry (a_word a) list_id q = true)
                   entry_block
            /\ Forall (fun b => exists token uid table a',
                          prepare_word_actions_at 0 env srv token list_id
                            language uid table true = Ok a'
                          /\ a_is_phrase a' = false
                          /\ a_queries a' = b)
                 token_blocks).
Proof.
  rewrite prepare_word_actions_unfold. intros H.
  apply bind_ok in H. destruct H as [[[uid table] ln] [_ H]].
  cbv zeta in H.
  destruct (is_phrase_input (_normalize_user_text language palabra)).
  - apply prepare_phrase_shape in H.
    destruct H as [tq [g [Htq [_ [_ [Hp [_ Hq]]]]]]].
    apply token_queries_blocks in Htq. destruct Htq as [blocks [-> Hb]].
    assert (Hblocks : Forall (fun b => insert_before_update b
                                       /\ ipa_before_assoc b) blocks).
    { eapply Forall_impl; [|exact Hb]. cbn beta.
      intros b [tok [a' [Ha' <-]]]. apply token_run_ordered in Ha'.
      split; apply Ha'. }
    assert (Htq : insert_before_update (concat blocks)).
    { apply insert_before_update_concat.
      eapply Forall_impl; [|exact Hblocks]. cbn beta. intros b Hb'. apply Hb'. }
    destruct (phrase_entry_ordered g (a_word a) list_id (a_association a)
                (a_ipa_word a)
                (_already_inserts_word (concat blocks) (a_word a) list_id))
      as [Hord Hins].
    split.
    + rewrite Hq.
      destruct (_already_inserts_word (concat blocks) (a_word a) list_id)
        eqn:Hpresent.
      * apply insert_before_update_after with (w := a_word a) (l := list_id).
        -- exact Htq.
        -- exact Hpresent.
        -- intros q w' l' Hin Hu. simpl in Hin.
           apply update_queries_target in Hin. destruct Hin as [Hin _].
           eapply updates_entry_inj; eassumption.
      * apply insert_before_update_app; [exact Htq | exact Hins].
    + eexists blocks, _. split; [exact Hq|].
      split; [exact Hord|]. split; [exact Hblocks|].
      split; [rewrite Hp; discriminate|].
      intros _. split.
      * apply Forall_app. split.
        -- destruct (_already_inserts_word (concat blocks) (a_word a) list_id);
             repeat constructor.
           unfold concerns_entry. rewrite inserts_entry_refl. reflexivity.
        -- apply Forall_forall. intros q Hin.
           apply update_queries_target in Hin. apply Hin.
      * eapply Forall_impl; [|exact Hb]. cbn beta.
        intros b [tok [a' [Ha' <-]]].
        exists tok, (Some uid), (Some table), a'.
        split; [exact Ha'|]. split; [|reflexivity].
        apply token_run_ordered in Ha'. apply Ha'.
  - apply single_token_ordered in H. destruct H as [Hi [Ho Hp]].
    split; [exact Hi|].
    exists [], (a_queries a). simpl.
    split; [reflexivity|]. split; [exact Ho|]. split; [constructor|].
    split; [reflexivity|]. rewrite Hp. discriminate.
Qed.

Lemma compiled_statements_ordered_witness :
  prepare_word_actions sample_env sample_service (u8 "mes amis") 22
    lang_fr (Some user_123) None true = Ok mes_amis_actions
  /\ insert_before_update (a_queries mes_amis_actions)
  /\ exists token_blocks entry_block,
       a_queries mes_amis_actions = concat token_blocks ++ entry_block
       /\ ipa_before_assoc entry_block
       /\ Forall (fun b => insert_before_update b /\ ipa_before_assoc b)
            token_blocks
       /\ (a_is_phrase mes_amis_actions = false -> token_blocks = [])
       /\ (a_is_phrase mes_amis_actions = true ->
            Forall (fun q => concerns_entry (a_word mes_amis_actions) 22 q = true)
                   entry_block
            /\ Forall (fun b => exists token uid table a',
                          prepare_word_actions_at 0 sample_env sample_service
                            token 22 lang_fr uid table true = Ok a'
                          /\ a_is_phrase a' = false
                          /\ a_queries a' = b)
                 token_blocks).
Proof.
  split.
  - vm_compute. reflexivity.
  - apply (compiled_statements_ordered sample_env sample_service
             (u8 "mes amis") 22 lang_fr (Some user_123) None true).
    vm_compute. reflexivity.
Defined.

(* ===================================================================== *)
(** * 14. Execution of the compiled statements                            *)
(* ===================================================================== *)

Lemma row_kept_refl (r : row) : row_kept r r.
Proof. unfold row_kept. auto. Qed.

Lemma row_kept_trans (a b c : row) :
  row_kept a b -> row_kept b c -> row_kept a c.
Proof.
  unfold row_kept. intros [H1 [H2 [H3 H4]]] [K1 [K2 [K3 K4]]].
  repeat split; try congruence. intros t Ht. apply K4, H4, Ht.
Qed.

Lemma row_step_refl (r : row) : row_step r r.
Proof.
  split; [apply row_kept_refl|]. intros s Hs _ _. exists [].
  rewrite app_nil_r. exact Hs.
Qed.

Lemma Forall2_refl_map (R : row -> row -> Prop) (f : row -> row)
    (ws : list row) :
  (forall r, R r (f r)) -> Forall2 R ws (map f ws).
Proof. intros H. induction ws; simpl; constructor; auto. Qed.

Lemma Forall2_trans_rows (R : row -> row -> Prop) (a b c : list row) :
  (forall x y z, R x y -> R y z -> R x z) ->
  Forall2 R a b -> Forall2 R b c -> Forall2 R a c.
Proof.
  intros HR H. revert c. induction H as [|x y a b Hxy _ IH]; intros c Hc.
  - inversion Hc. constructor.
  - inversion Hc as [|y' z b' c' Hyz Hbc]; subst.
    constructor; [eapply HR; eassumption | apply IH, Hbc].
Qed.

Lemma Forall2_same (R : row -> row -> Prop) (ws : list row) :
  (forall r, R r r) -> Forall2 R ws ws.
Proof. intros HR. induction ws; constructor; auto. Qed.

Lemma rows_extend_refl (R : row -> row -> Prop) (ws : list row) :
  (forall r, R r r) -> rows_extend R ws ws.
Proof.
  intros HR. exists ws, []. split; [symmetry; apply app_nil_r|].
  apply Forall2_same, HR.
Qed.

Lemma rows_extend_trans (R : row -> row -> Prop) (a b c : list row) :
  (forall x y z, R x y -> R y z -> R x z) ->
  rows_extend R a b -> rows_extend R b c -> rows_extend R a c.
Proof.
  intros HR [kb [ab [-> Hab]]] [kc [ac [-> Hbc]]].
  apply Forall2_app_inv_l in Hbc.
  destruct Hbc as [k1 [k2 [H1 [H2 ->]]]].
  exists k1, (k2 ++ ac). split; [symmetry; apply app_assoc|].
  eapply Forall2_trans_rows; eassumption.
Qed.

Lemma rows_extend_weaken (R R' : row -> row -> Prop) (a b : list row) :
  (forall x y, R x y -> R' x y) -> rows_extend R a b -> rows_extend R' a b.
Proof.
  intros H [k [ad [-> HF]]]. exists k, ad. split; [reflexivity|].
  eapply Forall2_impl; eassumption.
Qed.

Lemma map_keys_preserved (f : row -> row) (ws : list row) :
  (forall r, row_key (f r) = row_key r) ->
  map row_key (map f ws) = map row_key ws.
Proof.
  intros H. rewrite map_map. apply map_ext. exact H.
Qed.

Lemma key_match_false_not_in (w : str) (l : Z) (ws : list row) :
  existsb (key_match w l) ws = false -> ~ In (w, l) (map row_key ws).
Proof.
  intros H Hin. apply in_map_iff in Hin. destruct Hin as [r [Hk Hr]].
  assert (Ht : existsb (key_match w l) ws = true).
  { apply existsb_exists. exists r. split; [exact Hr|].
    unfold row_key in Hk. injection Hk as <- <-.
    unfold key_match. rewrite str_eqb_refl, Z.eqb_refl. reflexivity. }
  congruence.
Qed.

Lemma link_self_value_extends (ws : list row) (w1 : row) (s : str) :
  r_assoc w1 = Some s -> s <> [] ->
  nonempty_list (missing_homophones ws w1) = true ->
  exists suffix, link_self_value ws w1 = Some (s ++ suffix).
Proof.
  unfold link_self_value. intros -> Hs Hm.
  destruct s as [|c s]; [contradiction|].
  destruct (missing_homophones ws w1) as [|m ms] eqn:Hmiss; [discriminate|].
  destruct (contains _HOMOPHONE_SECTION_SEPARATOR (c :: s));
    unfold pg_string_agg, pg_concat; eexists; rewrite <- app_assoc;
    reflexivity.
Qed.

Lemma link_others_value_extends (word : str) (w : row) (s : str) :
  r_assoc w = Some s -> s <> [] ->
  exists suffix, link_others_value word w = Some (s ++ suffix).
Proof.
  unfold link_others_value. intros -> Hs.
  destruct s as [|c s]; [contradiction|].
  destruct (contains _HOMOPHONE_SECTION_SEPARATOR (c :: s)); eexists;
    reflexivity.
Qed.

(** What one statement does to the table. *)
Lemma exec_stmt_rows (db : database) (q : stmt) :
  rows_extend row_step (words db) (words (exec_stmt db q))
  /\ (keys_unique (words db) -> keys_unique (words (exec_stmt db q)))
  /\ registries (exec_stmt db q) = registries db.
Proof.
  destruct q as [g w a l i | g i w l | repair g a w l | l w i | l w i];
    simpl.
  - destruct (guard_passes db g w && negb (existsb (key_match w l) (words db)))
      eqn:Hc; simpl.
    + split; [|split; [|reflexivity]].
      * eexists (words db), _. split; [reflexivity|].
        apply Forall2_same, row_step_refl.
      * unfold keys_unique. intros Hu. rewrite map_app. simpl.
        apply andb_true_iff in Hc. destruct Hc as [_ Hc].
        apply negb_true_iff in Hc. apply key_match_false_not_in in Hc.
        apply NoDup_app; [exact Hu | repeat constructor; intros [] | ].
        intros x Hx [<- | []]. contradiction.
    + split; [|split; [auto | reflexivity]].
      apply rows_extend_refl. apply row_step_refl.
  - split; [|split; [|reflexivity]].
    + eexists _, []. split; [symmetry; apply app_nil_r|].
      apply Forall2_refl_map. intros r.
      destruct (key_match w l r
                && match r_ipa r with None => true | Some _ => false end
                && guard_passes db g w) eqn:Hc; [|apply row_step_refl].
      apply andb_true_iff in Hc. destruct Hc as [Hc _].
      apply andb_true_iff in Hc. destruct Hc as [_ Hc].
      destruct (r_ipa r) eqn:Hi; [discriminate|].
      split; [unfold row_kept; simpl; repeat split; congruence|].
      simpl. intros s Hs _ _. exists []. rewrite app_nil_r. exact Hs.
    + unfold keys_unique. rewrite map_keys_preserved; [auto|].
      intros r. destruct (_ && _); reflexivity.
  - split; [|split; [|reflexivity]].
    + eexists _, []. split; [symmetry; apply app_nil_r|].
      apply Forall2_refl_map. intros r.
      destruct (key_match w l r && assoc_updatable repair (r_assoc r)
                && guard_passes db g w) eqn:Hc; [|apply row_step_refl].
      apply andb_true_iff in Hc. destruct Hc as [Hc _].
      apply andb_true_iff in Hc. destruct Hc as [_ Hc].
      split; [unfold row_kept; simpl; auto|].
      simpl. intros s Hs Hne Hl. rewrite Hs in Hc. simpl in Hc.
      destruct s; [contradiction|]. rewrite Hl, andb_false_r in Hc.
      discriminate.
    + unfold keys_unique. rewrite map_keys_preserved; [auto|].
      intros r. destruct (_ && _); reflexivity.
  - split; [|split; [|reflexivity]].
    + eexists _, []. split; [symmetry; apply app_nil_r|].
      apply Forall2_refl_map. intros r.
      destruct (key_match w l r && opt_str_eqb (r_ipa r) (Some i)
                && nonempty_list (missing_homophones (words db) r)) eqn:Hc;
        [|apply row_step_refl].
      apply andb_true_iff in Hc. destruct Hc as [_ Hc].
      split; [unfold row_kept; simpl; auto|].
      simpl. intros s Hs Hne _.
      eapply link_self_value_extends; eassumption.
    + unfold keys_unique. rewrite map_keys_preserved; [auto|].
      intros r. destruct (_ && _); reflexivity.
  - split; [|split; [|reflexivity]].
    + eexists _, []. split; [symmetry; apply app_nil_r|].
      apply Forall2_refl_map. intros r.
      destruct (Z.eqb (r_list r) l && opt_str_eqb (r_ipa r) (Some i)
                && negb (str_eqb (r_word r) w) && lexical_word (r_word r)
                && negb (mem_str w (pg_section_items (r_assoc r)))) eqn:Hc;
        [|apply row_step_refl].
      split; [unfold row_kept; simpl; auto|].
      simpl. intros s Hs Hne _.
      eapply link_others_value_extends; eassumption.
    + unfold keys_unique. rewrite map_keys_preserved; [auto|].
      intros r. destruct (_ && _); reflexivity.
Qed.

Lemma exec_all_rows (qs : list stmt) (db : database) :
  rows_extend row_kept (words db) (words (exec_all db qs))
  /\ (keys_unique (words db) -> keys_unique (words (exec_all db qs))).
Proof.
  unfold exec_all. revert db. induction qs as [|q qs IH]; intros db; simpl.
  - split; [apply rows_extend_refl, row_kept_refl | auto].
  - destruct (exec_stmt_rows db q) as [Hs [Hu _]].
    destruct (IH (exec_stmt db q)) as [Hs' Hu'].
    split; [|auto].
    eapply rows_extend_trans; [apply row_kept_trans | | exact Hs'].
    eapply rows_extend_weaken; [|exact Hs]. intros x y H. apply H.
Qed.

(** C1 (amended): executing the compiled statement sequence twice never
    creates a second row for a key [(word, list_id)] and never changes
    a transcription that is not [NULL]; and no statement of the
    sequence, in whatever state it runs, replaces a non-empty
    association unless that association contains two commas (the
    repair path of the association update): such an association is
    kept, possibly followed by a homophone suffix. *)
Theorem compiled_statements_conflict_safe
    env srv palabra list_id language user_id rejected_words_table
    expand_verbs a :
  prepare_word_actions env srv palabra list_id language user_id
    rejected_words_table expand_verbs = Ok a ->
  forall db,
    keys_unique (words db) ->
    keys_unique (words (exec_all (exec_all db (a_queries a)) (a_queries a)))
    /\ rows_extend row_kept (words db)
         (words (exec_all (exec_all db (a_queries a)) (a_queries a)))
    /\ (forall q db', In q (a_queries a) ->
           rows_extend row_step (words db') (words (exec_stmt db' q))).
Proof.
  intros _ db Hu.
  destruct (exec_all_rows (a_queries a) db) as [H1 U1].
  destruct (exec_all_rows (a_queries a) (exec_all db (a_queries a)))
    as [H2 U2].
  split; [auto|]. split.
  - eapply rows_extend_trans; [apply row_kept_trans | exact H1 | exact H2].
  - intros q db' _. apply exec_stmt_rows.
Qed.

Lemma compiled_statements_conflict_safe_witness :
  prepare_word_actions sample_env sample_service (u8 "ami") 22 lang_fr
    (Some user_123) None true = Ok ami_actions
  /\ keys_unique (words legacy_db)
  /\ keys_unique
       (words (exec_all (exec_all legacy_db (a_queries ami_actions))
                        (a_queries ami_actions)))
  /\ rows_extend row_kept (words legacy_db)
       (words (exec_all (exec_all legacy_db (a_queries ami_actions))
                        (a_queries ami_actions)))
  /\ (forall q db', In q (a_queries ami_actions) ->
         rows_extend row_step (words db') (words (exec_stmt db' q))).
Proof.
  assert (H : prepare_word_actions sample_env sample_service (u8 "ami") 22
                lang_fr (Some user_123) None true = Ok ami_actions)
    by (vm_compute; reflexivity).
  assert (Hu : keys_unique (words legacy_db))
    by (repeat constructor; intros []).
  split; [exact H|]. split; [exact Hu|].
  exact (compiled_statements_conflict_safe sample_env sample_service
           (u8 "ami") 22 lang_fr (Some user_123) None true ami_actions H
           legacy_db Hu).
Defined.

(** C1 as stated fails: the association update of the single token
    [ami] replaces the non-empty association of the existing row,
    because that association contains two commas. *)
Lemma association_overwritten_counterexample :
  prepare_word_actions sample_env sample_service (u8 "ami") 22 lang_fr
    (Some user_123) None true = Ok ami_actions
  /\ map r_assoc (words legacy_db) = [Some (u8 "l'ami, amigo, ami")]
  /\ map r_assoc (words (exec_all legacy_db (a_queries ami_actions)))
     = [Some (u8 "l'ami (m), amigo")].
Proof. repeat split; vm_compute; reflexivity. Qed.

(* ===================================================================== *)
(** * 15. Stripping, white space and lower case                           *)
(* ===================================================================== *)

Lemma small_chars_in (c : char) : (c < 8000)%N -> In c small_chars.
Proof.
  intros H. unfold small_chars. apply in_map_iff.
  exists (N.to_nat c). split; [apply N2Nat.id|].
  apply in_seq. lia.
Qed.

Lemma lower_char_large (c : char) : (8000 <= c)%N -> lower_char c = c.
Proof.
  intros H. unfold lower_char.
  replace (c <=? 90)%N with false by (symmetry; apply N.leb_gt; lia).
  replace (c <=? 222)%N with false by (symmetry; apply N.leb_gt; lia).
  replace (c =? 338)%N with false by (symmetry; apply N.eqb_neq; lia).
  replace (c =? 376)%N with false by (symmetry; apply N.eqb_neq; lia).
  replace (c =? 7838)%N with false by (symmetry; apply N.eqb_neq; lia).
  rewrite !andb_false_r. reflexivity.
Qed.

Lemma char_cases (P : char -> bool) :
  forallb P small_chars = true ->
  (forall c, (8000 <= c)%N -> P c = true) ->
  forall c, P c = true.
Proof.
  intros Hs Hl c. destruct (N.lt_ge_cases c 8000) as [H | H].
  - rewrite forallb_forall in Hs. apply Hs, small_chars_in, H.
  - apply Hl, H.
Qed.

Lemma lower_char_idempotent (c : char) :
  lower_char (lower_char c) = lower_char c.
Proof.
  apply N.eqb_eq. revert c.
  apply (char_cases (fun c => N.eqb (lower_char (lower_char c)) (lower_char c))).
  - vm_compute. reflexivity.
  - intros c H. rewrite (lower_char_large c H).
    rewrite (lower_char_large c H). apply N.eqb_refl.
Qed.

Lemma lower_idempotent (s : str) : lower (lower s) = lower s.
Proof.
  unfold lower. rewrite map_map. apply map_ext. apply lower_char_idempotent.
Qed.

Lemma lower_char_space (c : char) : is_space (lower_char c) = is_space c.
Proof.
  apply eqb_prop. revert c.
  apply (char_cases (fun c => Bool.eqb (is_space (lower_char c)) (is_space c))).
  - vm_compute. reflexivity.
  - intros c H. rewrite lower_char_large by exact H. apply eqb_reflx.
Qed.

Lemma lstrip_by_incl (p : char -> bool) (s : str) (c : char) :
  In c (lstrip_by p s) -> In c s.
Proof.
  induction s as [|x s IH]; simpl; [auto|].
  destruct (p x); [right; apply IH; assumption | auto].
Qed.

Lemma strip_by_incl (p : char -> bool) (s : str) (c : char) :
  In c (strip_by p s) -> In c s.
Proof.
  unfold strip_by, rstrip_by. intros H. apply in_rev in H.
  apply lstrip_by_incl in H. apply in_rev in H.
  eapply lstrip_by_incl, H.
Qed.

Lemma lstrip_by_idempotent (p : char -> bool) (s : str) :
  lstrip_by p (lstrip_by p s) = lstrip_by p s.
Proof.
  induction s as [|x s IH]; simpl; [reflexivity|].
  destruct (p x) eqn:Hx; [exact IH | simpl; rewrite Hx; reflexivity].
Qed.

Lemma lstrip_by_snoc (p : char -> bool) (s : str) (c : char) :
  p c = false -> lstrip_by p (s ++ [c]) = lstrip_by p s ++ [c].
Proof.
  intros Hc. induction s as [|x s IH]; simpl.
  - rewrite Hc. reflexivity.
  - destruct (p x); [exact IH | reflexivity].
Qed.

Lemma lstrip_by_head (p : char -> bool) (s : str) :
  match lstrip_by p s with
  | [] => True
  | c :: _ => p c = false
  end.
Proof.
  induction s as [|x s IH]; simpl; [exact I|].
  destruct (p x) eqn:Hx; [exact IH | exact Hx].
Qed.

Lemma lstrip_by_fixed (p : char -> bool) (c : char) (s : str) :
  p c = false -> lstrip_by p (c :: s) = c :: s.
Proof. intros H. simpl. rewrite H. reflexivity. Qed.

(** A stripped text starts and ends with a character outside the
    class, and stripping it again changes nothing. *)
Lemma strip_by_head (p : char -> bool) (s : str) :
  match strip_by p s with
  | [] => True
  | c :: _ => p c = false
  end.
Proof.
  unfold strip_by, rstrip_by.
  pose proof (lstrip_by_head p s) as H.
  destruct (lstrip_by p s) as [|c r]; [exact I|].
  simpl rev. rewrite lstrip_by_snoc by exact H.
  rewrite rev_app_distr. simpl. exact H.
Qed.

Lemma strip_by_last (p : char -> bool) (s : str) :
  match rev (strip_by p s) with
  | [] => True
  | c :: _ => p c = false
  end.
Proof.
  unfold strip_by, rstrip_by. rewrite rev_involutive.
  apply lstrip_by_head.
Qed.

Lemma strip_by_idempotent (p : char -> bool) (s : str) :
  strip_by p (strip_by p s) = strip_by p s.
Proof.
  pose proof (strip_by_head p s) as Hh.
  pose proof (strip_by_last p s) as Hl.
  destruct (strip_by p s) as [|c r] eqn:Hs; [reflexivity|].
  unfold strip_by at 1. rewrite lstrip_by_fixed by exact Hh.
  unfold rstrip_by.
  destruct (rev (c :: r)) as [|d t] eqn:Hr.
  - apply (f_equal (@rev char)) in Hr. rewrite rev_involutive in Hr.
    discriminate.
  - rewrite lstrip_by_fixed by exact Hl. rewrite <- Hr.
    apply rev_involutive.
Qed.

Lemma strip_idempotent (s : str) : strip (strip s) = strip s.
Proof. apply strip_by_idempotent. Qed.

Lemma no_space_existsb (s : str) : no_space s <-> existsb is_space s = false.
Proof.
  unfold no_space. split.
  - intros H. destruct (existsb is_space s) eqn:He; [|reflexivity].
    apply existsb_exists in He. destruct He as [c [Hin Hc]].
    rewrite H in Hc by exact Hin. discriminate.
  - intros H c Hin. destruct (is_space c) eqn:Hc; [|reflexivity].
    assert (existsb is_space s = true)
      by (apply existsb_exists; exists c; auto).
    congruence.
Qed.

Lemma no_space_strip_by (p : char -> bool) (s : str) :
  no_space s -> no_space (strip_by p s).
Proof. intros H c Hin. apply H. eapply strip_by_incl, Hin. Qed.

Lemma lstrip_by_none (p : char -> bool) (s : str) :
  (forall c, In c s -> p c = false) -> lstrip_by p s = s.
Proof.
  destruct s as [|x s]; simpl; [reflexivity|].
  intros H. rewrite H by (left; reflexivity). reflexivity.
Qed.

Lemma strip_no_space (s : str) : no_space s -> strip s = s.
Proof.
  intros H. unfold strip, strip_by, rstrip_by.
  rewrite (lstrip_by_none is_space s) by exact H.
  rewrite lstrip_by_none; [apply rev_involutive|].
  intros c Hin. apply H. apply in_rev. exact Hin.
Qed.

Lemma collapse_ws_no_space (b : bool) (s : str) :
  no_space s -> collapse_ws_from b s = s.
Proof.
  revert b. induction s as [|x s IH]; simpl; intros b H; [reflexivity|].
  rewrite (H x) by (left; reflexivity). f_equal.
  apply IH. intros c Hin. apply H. right. exact Hin.
Qed.

Lemma no_space_lower (s : str) : no_space s -> no_space (lower s).
Proof.
  intros H c Hin. unfold lower in Hin. apply in_map_iff in Hin.
  destruct Hin as [x [<- Hx]]. rewrite lower_char_space. apply H, Hx.
Qed.

Lemma no_space_normalize_apostrophes (s : str) :
  no_space s -> no_space (_normalize_apostrophes s).
Proof.
  intros H c Hin. unfold _normalize_apostrophes in Hin.
  apply in_map_iff in Hin. destruct Hin as [x [<- Hx]].
  destruct (mem_char x _UNICODE_APOSTROPHES); [reflexivity | apply H, Hx].
Qed.

Lemma no_space_normalize_user_text (language s : str) :
  no_space s -> no_space (_normalize_user_text language s).
Proof.
  intros H. unfold _normalize_user_text, _strip_edge_punctuation.
  apply no_space_normalize_apostrophes in H.
  apply (no_space_strip_by is_space) in H. fold (strip (_normalize_apostrophes s)) in H.
  assert (H2 : no_space
                 (match strip (_normalize_apostrophes s) with
                  | [] => []
                  | _ :: _ =>
                    strip_chars edge_strip_chars
                      (strip (_normalize_apostrophes s))
                  end)).
  { destruct (strip (_normalize_apostrophes s)) eqn:Hs;
      [intros c [] | rewrite <- Hs in *; apply no_space_strip_by, H]. }
  unfold collapse_ws. rewrite collapse_ws_no_space by exact H2.
  rewrite strip_no_space by exact H2.
  destruct (is_fr_or_de (lower language)); [apply no_space_lower|]; exact H2.
Qed.

(* ===================================================================== *)
(** * 16. Tokens are single tokens                                        *)
(* ===================================================================== *)

Lemma re_split_runs_pieces (p : char -> bool) (b : bool) (cur s piece : str) :
  (forall c, In c cur -> p c = false) ->
  In piece (re_split_runs_from p b cur s) ->
  forall c, In c piece -> p c = false.
Proof.
  revert b cur. induction s as [|x s IH]; simpl; intros b cur Hcur Hin.
  - destruct Hin as [<- | []]. intros c Hc. apply Hcur, in_rev, Hc.
  - destruct (p x) eqn:Hx.
    + destruct b.
      * eapply IH; eassumption.
      * destruct Hin as [<- | Hin].
        -- intros c Hc. apply Hcur, in_rev, Hc.
        -- eapply IH; [|exact Hin]. intros c [].
    + eapply IH; [|exact Hin]. intros c [<- | Hc]; auto.
Qed.

Lemma match_contraction_incl (w g2 : str) (c : char) :
  match_contraction w = Some g2 -> In c g2 -> In c w.
Proof.
  unfold match_contraction. destruct w as [|c0 [|c1 rest]]; try discriminate.
  destruct (_ && _); [|discriminate].
  destruct (split_once [10%N] rest) as [[a b]|] eqn:Hs.
  - destruct (nonempty a && negb (nonempty b)); [|discriminate].
    intros H Hin. injection H as <-. apply split_once_spec in Hs.
    right. right. rewrite Hs. apply in_or_app. left. exact Hin.
  - destruct (nonempty rest); [|discriminate].
    intros H Hin. injection H as <-. right. right. exact Hin.
Qed.

Lemma drop_contraction_prefix_incl (token : str) (c : char) :
  In c (_fr_drop_contraction_prefix token) -> In c token.
Proof.
  unfold _fr_drop_contraction_prefix.
  destruct (strip token) as [|x w] eqn:Hw; [intros []|].
  rewrite <- Hw.
  destruct (match_contraction (strip token)) as [g2|] eqn:Hm.
  - destruct (strip g2) as [|y r] eqn:Hg.
    + intros H. eapply strip_by_incl, H.
    + rewrite <- Hg. intros H. apply strip_by_incl in H.
      eapply match_contraction_incl in H; [|exact Hm].
      eapply strip_by_incl, H.
  - intros H. eapply strip_by_incl, H.
Qed.

Lemma tokenize_part_no_space (language part tok : str) :
  no_space part -> tokenize_part language part = Some tok -> no_space tok.
Proof.
  intros Hp. unfold tokenize_part.
  destruct (_normalize_apostrophes (strip part)) as [|x r] eqn:Hn;
    [discriminate|]. rewrite <- Hn.
  assert (H1 : no_space (strip_chars token_strip_chars
                           (_normalize_apostrophes (strip part)))).
  { apply no_space_strip_by, no_space_normalize_apostrophes.
    apply no_space_strip_by, Hp. }
  destruct (strip_chars token_strip_chars (_normalize_apostrophes (strip part)))
    as [|y r'] eqn:Hs; [discriminate|]. rewrite <- Hs in *.
  intros H. injection H as <-.
  set (t1 := if is_fr_or_de (lower language)
             then lower (strip_chars token_strip_chars
                           (_normalize_apostrophes (strip part)))
             else strip_chars token_strip_chars
                    (_normalize_apostrophes (strip part))).
  assert (H2 : no_space t1).
  { unfold t1. destruct (is_fr_or_de (lower language));
      [apply no_space_lower|]; exact H1. }
  destruct (str_eqb (lower language) lang_fr); [|exact H2].
  intros c Hc. apply H2. eapply drop_contraction_prefix_incl, Hc.
Qed.

Lemma tokenize_phrase_no_space (language phrase tok : str) :
  In tok (_tokenize_phrase language phrase) -> no_space tok.
Proof.
  unfold _tokenize_phrase.
  destruct (_normalize_user_text language phrase) as [|x r] eqn:Hn;
    [intros []|]. rewrite <- Hn.
  rewrite in_filter_map. intros [part [Hin Hp]].
  eapply tokenize_part_no_space; [|exact Hp].
  intros c Hc. unfold re_split_ws, re_split_runs in Hin.
  eapply re_split_runs_pieces; [|exact Hin|exact Hc]. intros c' [].
Qed.

Lemma dedupe_tokens_incl (seen tokens : list str) (tok : str) :
  In tok (dedupe_tokens seen tokens) -> In tok tokens.
Proof.
  revert seen. induction tokens as [|t r IH]; simpl; intros seen; [auto|].
  destruct (mem_str (lower t) seen).
  - intros H. right. eapply IH, H.
  - intros [<- | H]; [left; reflexivity | right; eapply IH, H].
Qed.

(** A token is never a phrase: the call of [prepare_word_actions] on a
    token does not enter the phrase mode again. *)
Lemma token_is_not_phrase (language phrase tok : str) :
  In tok (dedupe_tokens [] (_tokenize_phrase language phrase)) ->
  is_phrase_input (_normalize_user_text language tok) = false.
Proof.
  intros H. apply dedupe_tokens_incl, tokenize_phrase_no_space in H.
  apply (no_space_normalize_user_text language) in H.
  apply no_space_existsb in H. unfold is_phrase_input.
  rewrite H, andb_false_r. reflexivity.
Qed.

Lemma resolve_config_some (uid : str) (t : option str) (language : str) :
  _resolve_rejected_words_config (Some uid) t language
  = Ok (uid, effective_table t, lower (strip language)).
Proof.
  unfold _resolve_rejected_words_config, effective_table.
  destruct t as [t|]; simpl opt_get; [|reflexivity].
  destruct (strip t); reflexivity.
Qed.

Lemma effective_table_stripped (t : option str) :
  strip (effective_table t) = effective_table t
  /\ nonempty (effective_table t) = true.
Proof.
  unfold effective_table.
  destruct (strip (opt_get t)) as [|c r] eqn:Hs.
  - split; vm_compute; reflexivity.
  - rewrite <- Hs. rewrite strip_idempotent. rewrite Hs. auto.
Qed.

Lemma effective_table_idempotent (t : option str) :
  effective_table (Some (effective_table t)) = effective_table t.
Proof.
  destruct (effective_table_stripped t) as [Hs Hn].
  unfold effective_table at 1. simpl opt_get. rewrite Hs.
  destruct (effective_table t); [discriminate | reflexivity].
Qed.

Lemma compile_guard_resolved (uid : str) (t : option str) (ln : str) :
  compile_guard (Some uid) (Some (effective_table t)) ln
  = if is_table_identifier (effective_table t)
    then Ok (Some {| g_table := effective_table t; g_user := uid;
                     g_lang := ln |})
    else Err InvalidRejectedWordsTable.
Proof.
  destruct (effective_table_stripped t) as [Hs Hn].
  unfold compile_guard. simpl opt_get. rewrite Hs, Hn. simpl.
  destruct (is_table_identifier (effective_table t)); reflexivity.
Qed.

Lemma prepare_single_token_guard env srv p l lang u t ln ev :
  prepare_single_token env srv p l lang u t ln ev
  = match compile_guard u t ln with
    | Ok g => prepare_single_token env srv p l lang u t ln ev
    | Err e => Err e
    end.
Proof.
  destruct (compile_guard u t ln) as [g|e] eqn:Hg; [reflexivity|].
  unfold prepare_single_token.
  match goal with
  | |- context [let '(x, y) := ?E in _] => destruct E as [assoc ipa]
  end.
  rewrite Hg. reflexivity.
Qed.

Lemma compile_guard_error u t ln e :
  compile_guard u t ln = Err e -> e = InvalidRejectedWordsTable.
Proof.
  unfold compile_guard.
  destruct (nonempty (strip (opt_get t))), u; simpl; try discriminate.
  destruct (is_table_identifier (strip (opt_get t))); simpl;
    [discriminate | congruence].
Qed.

Lemma prepare_single_token_error env srv p l lang u t ln ev e :
  prepare_single_token env srv p l lang u t ln ev = Err e ->
  compile_guard u t ln = Err e.
Proof.
  unfold prepare_single_token.
  match goal with
  | |- context [let '(x, y) := ?E in _] => destruct E as [assoc ipa]
  end.
  destruct (compile_guard u t ln) as [g|e']; simpl;
    [discriminate | intros H; injection H as <-; reflexivity].
Qed.

Lemma token_queries_error per_token tokens e :
  token_queries per_token tokens = Err e ->
  exists tok, In tok tokens /\ per_token tok = Err e.
Proof.
  induction tokens as [|tok r IH]; simpl; [discriminate|].
  destruct (negb (nonempty tok) || mem_char 32%N tok).
  - intros H. destruct (IH H) as [t [Hin Ht]]. eauto.
  - destruct (per_token tok) as [a|e'] eqn:Ha; simpl.
    + destruct (token_queries per_token r) as [rest|e''] eqn:Hr; simpl;
        [discriminate|].
      intros H. injection H as <-.
      destruct (IH eq_refl) as [t [Hin Ht]]. eauto.
    + intros H. injection H as <-. eauto.
Qed.

(* ===================================================================== *)
(** * 17. The rejected-words guard                                        *)
(* ===================================================================== *)

Lemma prepare_word_actions_at_0 env srv p l lang u t ev :
  prepare_word_actions_at 0 env srv p l lang u t ev =
  (cfg <- _resolve_rejected_words_config u t lang ;;
   let '(uid, table, language_norm) := cfg in
   let clean := _normalize_user_text lang p in
   if is_phrase_input clean then Err NestedPhrase
   else
     let palabra :=
       match clean with
       | [] => p
       | _ =>
         if str_eqb (lower lang) lang_fr
         then _fr_drop_contraction_prefix clean else clean
       end in
     prepare_single_token env srv palabra l lang
       (Some uid) (Some table) language_norm ev).
Proof. reflexivity. Qed.

Lemma link_queries_not_insert enabled l w i g w' a' l' i' :
  In (InsertWord g w' a' l' i') (_append_homophone_link_queries enabled l w i)
  -> False.
Proof.
  unfold _append_homophone_link_queries.
  destruct i as [[|c i]|]; try (intros []).
  destruct (negb (_should_link_homophones_for_word enabled w)); [intros []|].
  destruct (strip (c :: i)); simpl; [intros []|].
  intros [H | [H | []]]; discriminate.
Qed.

Lemma compile_word_queries_inserts link g p l a i v nv ex ve :
  inserts_guarded_by g (compile_word_queries link g p l a i v nv ex ve).
Proof.
  intros g' w' a' l' i' Hin.
  pose proof (compile_word_queries_guard _ _ _ _ _ _ _ _ _ _ _ Hin) as Hg.
  simpl in Hg. destruct Hg as [Hg | Hg]; [exact Hg|].
  subst g'.
  revert Hin. unfold compile_word_queries, extra_inserts, verb_inserts.
  destruct (negb v && negb nv); [|destruct nv];
    rewrite ?in_app_iff; simpl;
    rewrite ?in_app_iff, ?in_filter_map; intros H;
    repeat match goal with
           | H : _ \/ _ |- _ => destruct H as [H | H]
           | H : False |- _ => destruct H
           | H : InsertWord _ _ _ _ _ = InsertWord _ _ _ _ _ |- _ =>
             congruence
           | H : In _ (update_queries _ _ _ _ _ _) |- _ =>
             apply update_queries_guard in H; simpl in H; congruence
           | H : In _ (_append_homophone_link_queries _ _ _ _) |- _ =>
             apply link_queries_not_insert in H; destruct H
           | H : exists _ : verb_entry, _ |- _ =>
             let e := fresh "e" in
             destruct H as [e [_ H]];
             destruct (strip (ve_phrase e)); [discriminate | congruence]
           | H : exists _ : (str * option str * option str)%type, _ |- _ =>
             let w0 := fresh "w" in
             destruct H as [[[w0 ?] ?] [_ H]];
             destruct (strip w0); [discriminate | congruence]
           end.
Qed.

Lemma inserts_guarded_by_app g a b :
  inserts_guarded_by g a -> inserts_guarded_by g b ->
  inserts_guarded_by g (a ++ b).
Proof.
  intros Ha Hb g' w x l i Hin. apply in_app_or in Hin.
  destruct Hin; [eapply Ha | eapply Hb]; eassumption.
Qed.

(** The outcome of a call with a user identity: the registry name is
    the effective one, and it decides between the two outcomes. *)
Lemma single_token_outcome env srv p l lang uid t ev :
  let et := effective_table t in
  let ln := lower (strip lang) in
  if is_table_identifier et then
    exists a,
      prepare_single_token env srv p l lang (Some uid) (Some et) ln ev = Ok a
      /\ inserts_guarded_by (Some (attached_guard uid t lang)) (a_queries a)
  else
    prepare_single_token env srv p l lang (Some uid) (Some et) ln ev
    = Err InvalidRejectedWordsTable.
Proof.
  intros et ln.
  destruct (is_table_identifier et) eqn:Hid.
  - destruct (prepare_single_token env srv p l lang (Some uid) (Some et) ln ev)
      as [a|e] eqn:H.
    + exists a. split; [reflexivity|].
      apply prepare_single_token_shape in H.
      destruct H as [g [ex [ve [Hg [_ [_ [_ Hq]]]]]]].
      unfold et in Hg. rewrite compile_guard_resolved in Hg.
      fold et in Hg. rewrite Hid in Hg. injection Hg as <-.
      rewrite Hq. apply compile_word_queries_inserts.
    + apply prepare_single_token_error in H.
      unfold et in H. rewrite compile_guard_resolved in H.
      fold et in H. rewrite Hid in H. discriminate.
  - rewrite prepare_single_token_guard.
    unfold et. rewrite compile_guard_resolved. fold et. rewrite Hid.
    reflexivity.
Qed.

Lemma token_run_outcome env srv tok l lang uid t :
  is_phrase_input (_normalize_user_text lang tok) = false ->
  let et := effective_table t in
  if is_table_identifier et then
    exists a,
      prepare_word_actions_at 0 env srv tok l lang (Some uid) (Some et) true
      = Ok a
      /\ inserts_guarded_by (Some (attached_guard uid t lang)) (a_queries a)
  else
    prepare_word_actions_at 0 env srv tok l lang (Some uid) (Some et) true
    = Err InvalidRejectedWordsTable.
Proof.
  intros Hp et. rewrite prepare_word_actions_at_0.
  rewrite resolve_config_some. unfold bind. cbv zeta. rewrite Hp.
  unfold et. rewrite effective_table_idempotent.
  pose proof (single_token_outcome env srv
                match _normalize_user_text lang tok with
                | [] => tok
                | _ :: _ =>
                  if str_eqb (lower lang) lang_fr
                  then _fr_drop_contraction_prefix
                         (_normalize_user_text lang tok)
                  else _normalize_user_text lang tok
                end l lang uid t true) as H.
  cbv zeta in H. exact H.
Qed.

Lemma token_queries_outcome per_token tokens g :
  (forall tok, In tok tokens ->
     exists a, per_token tok = Ok a /\ inserts_guarded_by g (a_queries a)) ->
  exists tq, token_queries per_token tokens = Ok tq
             /\ inserts_guarded_by g tq.
Proof.
  induction tokens as [|tok r IH]; simpl; intros H.
  - exists []. split; [reflexivity | intros ? ? ? ? ? []].
  - destruct IH as [rest [Hr Hg]]; [intros t0 Ht; apply H; right; exact Ht|].
    destruct (negb (nonempty tok) || mem_char 32%N tok); [eauto|].
    destruct (H tok (or_introl eq_refl)) as [a [Ha Hga]].
    rewrite Ha, Hr. simpl. eexists. split; [reflexivity|].
    apply inserts_guarded_by_app; assumption.
Qed.

Lemma token_queries_all_fail per_token tokens e :
  (forall tok, In tok tokens -> per_token tok = Err e) ->
  token_queries per_token tokens = Err e
  \/ token_queries per_token tokens = Ok [].
Proof.
  induction tokens as [|tok r IH]; simpl; intros H; [auto|].
  destruct (negb (nonempty tok) || mem_char 32%N tok).
  - apply IH. intros t0 Ht. apply H. right. exact Ht.
  - rewrite (H tok (or_introl eq_refl)). auto.
Qed.

Lemma update_queries_inserts repair g g0 w l a i :
  inserts_guarded_by g0 (update_queries repair g w l a i).
Proof.
  intros g' w' a' l' i' Hin. apply update_queries_target in Hin.
  destruct Hin as [Hin _]. discriminate.
Qed.

Lemma prepare_word_actions_outcome env srv p l lang uid t ev :
  if is_table_identifier (effective_table t) then
    exists a,
      prepare_word_actions env srv p l lang (Some uid) t ev = Ok a
      /\ inserts_guarded_by (Some (attached_guard uid t lang)) (a_queries a)
  else
    prepare_word_actions env srv p l lang (Some uid) t ev
    = Err InvalidRejectedWordsTable.
Proof.
  rewrite prepare_word_actions_unfold, resolve_config_some.
  cbn [bind]. cbv zeta.
  destruct (is_phrase_input (_normalize_user_text lang p)) eqn:Hph.
  - unfold _prepare_phrase_actions. cbv zeta.
    set (tokens := dedupe_tokens []
                     (_tokenize_phrase lang
                        (_normalize_user_text lang
                           (_normalize_user_text lang p)))).
    set (per_token := fun token =>
                        prepare_word_actions_at 0 env srv token l lang
                          (Some uid) (Some (effective_table t)) true).
    assert (Htok : forall tok, In tok tokens ->
                     is_phrase_input (_normalize_user_text lang tok) = false).
    { intros tok Hin. eapply token_is_not_phrase, Hin. }
    destruct (is_table_identifier (effective_table t)) eqn:Hid.
    + destruct (token_queries_outcome per_token tokens
                  (Some (attached_guard uid t lang))) as [tq [Htq Hg]].
      { intros tok Hin.
        pose proof (token_run_outcome env srv tok l lang uid t (Htok tok Hin))
          as H.
        cbv zeta in H. rewrite Hid in H. exact H. }
      eexists. split.
      { rewrite Htq. cbn [bind].
        rewrite resolve_config_some. cbn [bind].
        rewrite effective_table_idempotent, compile_guard_resolved, Hid.
        cbn [bind]. reflexivity. }
      cbn [a_queries].
      apply inserts_guarded_by_app; [exact Hg|].
      apply inserts_guarded_by_app; [|apply update_queries_inserts].
      destruct (_already_inserts_word tq _ l).
      * intros ? ? ? ? ? [].
      * intros g' w' a' l' i' [H | []]. injection H as <-. reflexivity.
    + destruct (token_queries_all_fail per_token tokens
                  InvalidRejectedWordsTable) as [Htq | Htq].
      { intros tok Hin.
        pose proof (token_run_outcome env srv tok l lang uid t (Htok tok Hin))
          as H.
        cbv zeta in H. rewrite Hid in H. exact H. }
      * rewrite Htq. reflexivity.
      * rewrite Htq. cbn [bind].
        rewrite resolve_config_some. cbn [bind].
        rewrite effective_table_idempotent, compile_guard_resolved, Hid.
        reflexivity.
  - apply (single_token_outcome env srv _ l lang uid t ev).
Qed.

(** C6 (amended): a call of [prepare_word_actions] or [add_word] with a
    missing user identity raises an error immediately.  With a user
    identity the NOT-EXISTS guard is attached to every compiled insert
    statement, whether or not the caller supplies a registry name: a
    missing or blank name stands for [palabras_rechazadas].  A name
    that does not match the identifier pattern raises an error and no
    statement is compiled. *)
Theorem rejected_words_guard_enforced :
  (forall env srv palabra list_id language rejected_words_table expand_verbs,
      prepare_word_actions env srv palabra list_id language None
        rejected_words_table expand_verbs = Err UserIdRequired)
  /\ (forall env srv db palabra list_id language rejected_words_table,
         add_word env srv db palabra list_id language None
           rejected_words_table
         = Err (match list_id, language with
                | Some _, Some _ => UserIdRequired
                | _, _ => AddWordRequiresListAndLanguage
                end))
  /\ (forall env srv palabra list_id language uid rejected_words_table
              expand_verbs,
         if is_table_identifier (effective_table rejected_words_table) then
           exists a,
             prepare_word_actions env srv palabra list_id language (Some uid)
               rejected_words_table expand_verbs = Ok a
             /\ inserts_guarded_by
                  (Some (attached_guard uid rejected_words_table language))
                  (a_queries a)
         else
           prepare_word_actions env srv palabra list_id language (Some uid)
             rejected_words_table expand_verbs
           = Err InvalidRejectedWordsTable)
  /\ effective_table None = palabras_rechazadas
  /\ is_table_identifier palabras_rechazadas = true.
Proof.
  split; [|split; [|split; [|split]]].
  - reflexivity.
  - intros env srv db palabra [l|] [lang|] t; reflexivity.
  - intros. apply prepare_word_actions_outcome.
  - reflexivity.
  - reflexivity.
Qed.

(** C6 as stated fails: the caller supplies a user identity and no
    registry name, and the insert statement carries the guard on
    [palabras_rechazadas]. *)
Lemma guard_attached_without_registry_name :
  prepare_word_actions sample_env sample_service (u8 "ami") 22 lang_fr
    (Some user_123) None true = Ok ami_actions
  /\ map stmt_guard (filter is_insert (a_queries ami_actions))
     = [Some {| g_table := palabras_rechazadas; g_user := user_123;
                g_lang := lang_fr |}].
Proof. split; vm_compute; reflexivity. Qed.

(** The recursion of the phrase mode into itself never happens. *)
Lemma nested_phrase_unreachable env srv p l lang u t ev :
  prepare_word_actions env srv p l lang u t ev <> Err NestedPhrase.
Proof.
  destruct u as [uid|].
  - pose proof (prepare_word_actions_outcome env srv p l lang uid t ev) as H.
    destruct (is_table_identifier (effective_table t)).
    + destruct H as [a [-> _]]. discriminate.
    + rewrite H. discriminate.
  - discriminate.
Qed.

(* ===================================================================== *)
(** * 18. Plural nouns                                                    *)
(* ===================================================================== *)

Lemma lower_fixed (s : str) :
  (forall c, In c s -> lower_char c = c) -> lower s = s.
Proof.
  induction s as [|x s IH]; simpl; intros H; [reflexivity|].
  rewrite H by (left; reflexivity). f_equal. apply IH.
  intros c Hc. apply H. right. exact Hc.
Qed.

Lemma lower_chars_fixed (s : str) (c : char) :
  In c (lower s) -> lower_char c = c.
Proof.
  unfold lower. intros H. apply in_map_iff in H.
  destruct H as [x [<- _]]. apply lower_char_idempotent.
Qed.

Lemma no_space_of_lower (s : str) : no_space (lower s) -> no_space s.
Proof.
  intros H c Hc. rewrite <- lower_char_space. apply H.
  unfold lower. apply in_map. exact Hc.
Qed.

Lemma french_tag (language : str) :
  lower language = lang_fr ->
  lower (strip language) = lang_fr /\ is_fr_or_de (lower language) = true.
Proof.
  intros H. split.
  - rewrite strip_no_space; [exact H|].
    apply no_space_of_lower. rewrite H. intros c Hc.
    repeat (destruct Hc as [<- | Hc]; [reflexivity|]). destruct Hc.
  - rewrite H. reflexivity.
Qed.

Lemma removelast_length (s : str) :
  length (removelast s) = pred (length s).
Proof.
  rewrite removelast_firstn_len, length_firstn. lia.
Qed.

Lemma singular_candidate_token (token : str) :
  no_space token -> lower token = token -> token <> [] ->
  _fr_singular_candidate_for_plural_noun token
  = if matches_plural_rule token then Some (drop_last token) else None.
Proof.
  intros Hns Hl Hne. unfold _fr_singular_candidate_for_plural_noun.
  rewrite strip_no_space by exact Hns.
  destruct token as [|c r] eqn:Ht; [contradiction|]. rewrite <- Ht in *.
  apply no_space_existsb in Hns. rewrite Hns, Hl.
  unfold matches_plural_rule.
  destruct (endswith str_eaux token && (4 <? length token)%nat);
    [reflexivity|].
  destruct (endswith str_s token && (3 <? length token)%nat); reflexivity.
Qed.

Lemma noun_plural_step_token (language : str) (c : classification)
    (token : str) :
  lower (strip language) = lang_fr ->
  is_noun c = true -> is_verb c = false ->
  no_space token -> lower token = token -> token <> [] ->
  noun_plural_step language c token
  = if matches_plural_rule token then drop_last token else token.
Proof.
  intros Hfr Hn Hv Hns Hl Hne. unfold noun_plural_step.
  rewrite Hfr, Hn, Hv. simpl.
  rewrite strip_no_space by exact Hns.
  rewrite singular_candidate_token by assumption.
  destruct (matches_plural_rule token) eqn:Hm; [|reflexivity].
  assert (Hlen : (3 < length token)%nat).
  { unfold matches_plural_rule in Hm. apply orb_true_iff in Hm.
    destruct Hm as [Hm | Hm]; apply andb_true_iff in Hm; destruct Hm as [_ Hm];
      apply Nat.ltb_lt in Hm; lia. }
  pose proof (removelast_length token) as Hr. unfold drop_last.
  destruct (removelast token) as [|x r] eqn:Hrm; [simpl in Hr; lia|].
  simpl nonempty.
  replace (str_eqb (x :: r) token) with false; [reflexivity|].
  symmetry. apply str_eqb_neq. intros Heq. rewrite Heq in Hr. lia.
Qed.

Lemma prepare_single_token_flags env srv p l lang u t ln ev a :
  prepare_single_token env srv p l lang u t ln ev = Ok a ->
  a_is_verb a = is_verb (token_classification env srv p)
  /\ a_is_noun_and_verb a
     = is_noun (token_classification env srv p)
       && is_verb (token_classification env srv p)
  /\ (env_api_key env = true ->
      a_pos a = dt_pos (srv_details srv (a_word a)
                          (token_classification env srv p))).
Proof.
  unfold prepare_single_token, token_classification.
  intros H.
  match type of H with
  | context [let '(x, y) := ?E in _] => destruct E as [assoc ipa]
  end.
  apply bind_ok in H. destruct H as [g [Hg H]].
  injection H as <-. cbn. repeat split.
  intros ->. reflexivity.
Qed.

(* ===================================================================== *)
(** * 19. Accepted transcriptions                                         *)
(* ===================================================================== *)

Lemma forallb_rev {A} (f : A -> bool) (l : list A) :
  forallb f (rev l) = forallb f l.
Proof.
  induction l as [|x l IH]; [reflexivity|].
  simpl. rewrite forallb_app, IH. simpl. rewrite andb_true_r. apply andb_comm.
Qed.

Lemma single_segment_format (raw : str) :
  is_single_segment raw = true ->
  exists inside,
    raw = slash :: inside ++ [slash] /\ inside <> []
    /\ ~ In slash inside /\ interior raw = inside.
Proof.
  unfold is_single_segment. destruct raw as [|c r]; [discriminate|].
  intros H. apply andb_true_iff in H. destruct H as [Hc H].
  apply N.eqb_eq in Hc. subst c.
  destruct (rev r) as [|e mid] eqn:Hr; [discriminate|].
  apply andb_true_iff in H. destruct H as [H Hmid].
  apply andb_true_iff in H. destruct H as [He Hne].
  apply N.eqb_eq in He. subst e.
  assert (Hr' : r = rev mid ++ [slash]).
  { rewrite <- (rev_involutive r), Hr. reflexivity. }
  exists (rev mid). repeat split.
  - rewrite Hr'. reflexivity.
  - destruct mid; [discriminate|]. simpl. intros Hn.
    apply app_eq_nil in Hn. destruct Hn; discriminate.
  - intros Hin. apply in_rev in Hin. rewrite forallb_forall in Hmid.
    apply Hmid in Hin. rewrite N.eqb_refl in Hin. discriminate.
  - unfold interior, drop_last. simpl tl. rewrite Hr'.
    apply removelast_last.
Qed.

Lemma contains_cons (p : str) (c : char) (s : str) :
  contains p (c :: s) = startswith p (c :: s) || contains p s.
Proof. reflexivity. Qed.

Lemma startswith_cons_ne (a : char) (p : str) (c : char) (s : str) :
  a <> c -> startswith (a :: p) (c :: s) = false.
Proof.
  intros H. simpl. replace (N.eqb a c) with false; [reflexivity|].
  symmetry. apply N.eqb_neq. exact H.
Qed.

Lemma no_double_slash_tail (s : str) :
  ~ In slash s -> contains [slash; slash] (s ++ [slash]) = false.
Proof.
  induction s as [|c s IH]; intros Hs; [reflexivity|].
  change ((c :: s) ++ [slash]) with (c :: (s ++ [slash])).
  rewrite contains_cons, IH by (intros H; apply Hs; right; exact H).
  rewrite startswith_cons_ne; [reflexivity|].
  intros <-. apply Hs. left. reflexivity.
Qed.

Lemma no_double_slash (inside : str) :
  inside <> [] -> ~ In slash inside ->
  contains [slash; slash] (slash :: inside ++ [slash]) = false.
Proof.
  intros Hne Hin.
  rewrite contains_cons, no_double_slash_tail by exact Hin.
  destruct inside as [|c s]; [contradiction|].
  change ((c :: s) ++ [slash]) with (c :: (s ++ [slash])).
  change (startswith [slash; slash] (slash :: c :: s ++ [slash]))
    with (N.eqb slash slash && startswith [slash] (c :: s ++ [slash])).
  rewrite startswith_cons_ne; [rewrite andb_false_r; reflexivity|].
  intros <-. apply Hin. left. reflexivity.
Qed.

Lemma simple_ipa_format (content t : str) :
  _simple_ipa_from_text content = Some t ->
  t = strip content /\ ipa_format t /\ contains [slash; slash] t = false.
Proof.
  unfold _simple_ipa_from_text, _normalize_ipa_wrapping.
  rewrite strip_idempotent.
  destruct (strip content) as [|c r] eqn:Hs; [discriminate|].
  rewrite <- Hs.
  destruct (is_single_segment (strip content)) eqn:Hseg; [|discriminate].
  apply single_segment_format in Hseg.
  destruct Hseg as [inside [Hraw [Hne [Hsl Hint]]]].
  rewrite Hint.
  destruct (mem_char 91%N inside || mem_char 93%N inside) eqn:Hb;
    [discriminate|].
  apply orb_false_iff in Hb. destruct Hb as [Hb1 Hb2].
  intros H. injection H as <-. split; [reflexivity|]. split.
  - exists inside. repeat split; try assumption.
    + intros Hin. apply mem_char_In in Hin. congruence.
    + intros Hin. apply mem_char_In in Hin. congruence.
  - rewrite Hraw. apply no_double_slash; assumption.
Qed.

(* ===================================================================== *)
(** * 20. Transcription of a phrase                                       *)
(* ===================================================================== *)

Lemma phrase_check_counts_segments (language phrase : str) (ipa : option str) :
  strip (lower language) = lang_fr ->
  (2 <= length (_tokenize_phrase lang_fr phrase))%nat ->
  _ipa_is_reasonably_well_formed_for_phrase language phrase ipa = true ->
  length (ipa_segments (opt_get ipa))
  = length (_tokenize_phrase lang_fr phrase).
Proof.
  intros Hl Hn. unfold _ipa_is_reasonably_well_formed_for_phrase.
  rewrite Hl.
  destruct (negb (_ipa_is_reasonably_well_formed ipa)); [discriminate|].
  rewrite str_eqb_refl. simpl negb. cbv iota.
  destruct (_tokenize_phrase lang_fr phrase) as [|t0 r] eqn:Ht;
    [simpl in Hn; lia|].
  destruct (length (t0 :: r) <=? 1)%nat eqn:Hle.
  - apply Nat.leb_le in Hle. lia.
  - intros H. apply Nat.eqb_eq in H. exact H.
Qed.

Lemma phrase_actions_ipa env srv palabra l lang u t ev a :
  prepare_word_actions env srv palabra l lang u t ev = Ok a ->
  a_is_phrase a = true ->
  a_ipa_word a
  = if env_api_key env
    then _get_phrase_ipa
           (srv_phrase_ipa srv
              (_normalize_user_text lang (_normalize_user_text lang palabra)))
    else None.
Proof.
  rewrite prepare_word_actions_unfold. intros H Hp.
  apply bind_ok in H. destruct H as [[[uid table] ln] [_ H]].
  cbv zeta in H.
  destruct (is_phrase_input (_normalize_user_text lang palabra)).
  - apply prepare_phrase_shape in H.
    destruct H as [tq [g [_ [_ [_ [_ [Hi _]]]]]]]. exact Hi.
  - apply single_token_ordered in H. destruct H as [_ [_ H]]. congruence.
Qed.

(** C5 (amended): the segment check
    [_ipa_is_reasonably_well_formed_for_phrase] accepts a transcription
    of a French phrase of two or more tokens only if its interior,
    split on spaces and liaison markers, has as many segments as the
    phrase has tokens; but the phrase pipeline does not apply it: the
    phrase-level transcription it accepts is the one [_get_phrase_ipa]
    returns, that is every reply that passes the wrapping check of
    [_simple_ipa_from_text]. *)
Theorem phrase_transcription_acceptance :
  (forall language phrase ipa,
      strip (lower language) = lang_fr ->
      (2 <= length (_tokenize_phrase lang_fr phrase))%nat ->
      _ipa_is_reasonably_well_formed_for_phrase language phrase ipa = true ->
      length (ipa_segments (opt_get ipa))
      = length (_tokenize_phrase lang_fr phrase))
  /\ (forall env srv palabra list_id language user_id rejected_words_table
              expand_verbs a,
         prepare_word_actions env srv palabra list_id language user_id
           rejected_words_table expand_verbs = Ok a ->
         a_is_phrase a = true ->
         a_ipa_word a
         = if env_api_key env
           then _get_phrase_ipa
                  (srv_phrase_ipa srv
                     (_normalize_user_text language
                        (_normalize_user_text language palabra)))
           else None).
Proof.
  split.
  - apply phrase_check_counts_segments.
  - intros. eapply phrase_actions_ipa; eassumption.
Qed.

Lemma phrase_transcription_acceptance_witness :
  (strip (lower lang_fr) = lang_fr
   /\ (2 <= length (_tokenize_phrase lang_fr mes_amis))%nat
   /\ _ipa_is_reasonably_well_formed_for_phrase lang_fr mes_amis
        (Some mes_amis_ipa) = true
   /\ length (ipa_segments mes_amis_ipa)
      = length (_tokenize_phrase lang_fr mes_amis))
  /\ (prepare_word_actions sample_env sample_service nous_avons 22 lang_fr
        (Some user_123) None true = Ok nous_avons_actions
      /\ a_is_phrase nous_avons_actions = true
      /\ a_ipa_word nous_avons_actions
         = _get_phrase_ipa
             (srv_phrase_ipa sample_service
                (_normalize_user_text lang_fr
                   (_normalize_user_text lang_fr nous_avons)))).
Proof.
  assert (H1 : strip (lower lang_fr) = lang_fr) by (vm_compute; reflexivity).
  assert (H2 : (2 <= length (_tokenize_phrase lang_fr mes_amis))%nat)
    by (vm_compute; lia).
  assert (H3 : _ipa_is_reasonably_well_formed_for_phrase lang_fr mes_amis
                 (Some mes_amis_ipa) = true) by (vm_compute; reflexivity).
  assert (H4 : prepare_word_actions sample_env sample_service nous_avons 22
                 lang_fr (Some user_123) None true = Ok nous_avons_actions)
    by (vm_compute; reflexivity).
  assert (H5 : a_is_phrase nous_avons_actions = true) by reflexivity.
  split.
  - repeat (split; [assumption|]).
    exact (proj1 phrase_transcription_acceptance lang_fr mes_amis
             (Some mes_amis_ipa) H1 H2 H3).
  - repeat (split; [assumption|]).
    exact (proj2 phrase_transcription_acceptance sample_env sample_service
             nous_avons 22%Z lang_fr (Some user_123) None true
             nous_avons_actions H4 H5).
Defined.

(** C5 as stated fails: the phrase [nous avons] has two tokens, the
    reply has three segments, and the transcription is accepted. *)
Lemma phrase_ipa_segment_mismatch_accepted :
  prepare_word_actions sample_env sample_service nous_avons 22 lang_fr
    (Some user_123) None true = Ok nous_avons_actions
  /\ a_ipa_word nous_avons_actions = Some nous_avons_ipa
  /\ length (_tokenize_phrase lang_fr nous_avons) = 2
  /\ length (ipa_segments nous_avons_ipa) = 3
  /\ _ipa_is_reasonably_well_formed_for_phrase lang_fr nous_avons
       (Some nous_avons_ipa) = false.
Proof. repeat split; vm_compute; reflexivity. Qed.

(* ===================================================================== *)
(** * 21. Ambiguous pronouns                                              *)
(* ===================================================================== *)

Lemma key_eqb_eq (a b : pron_key) : key_eqb a b = true <-> a = b.
Proof.
  destruct a as [a1 a2], b as [b1 b2]. unfold key_eqb. simpl.
  rewrite andb_true_iff, !str_eqb_eq. split.
  - intros [-> ->]. reflexivity.
  - intros H. injection H as -> ->. auto.
Qed.

Lemma has_key_In (k : pron_key) (m : merged_map) :
  has_key k m = true <-> In k (map fst m).
Proof.
  unfold has_key. rewrite existsb_exists, in_map_iff. split.
  - intros [kv [Hin Hk]]. apply key_eqb_eq in Hk. exists kv. auto.
  - intros [kv [Hk Hin]]. exists kv. split; [exact Hin|].
    apply key_eqb_eq. auto.
Qed.

Lemma fill_translation_keys (k : pron_key) (tr : str) (m : merged_map) :
  map fst (fill_translation k tr m) = map fst m.
Proof.
  induction m as [|[k' e] m IH]; simpl; [reflexivity|].
  destruct (key_eqb k k'); simpl; [reflexivity | rewrite IH; reflexivity].
Qed.

Lemma fill_translation_keeps (k k' : pron_key) (tr : str) (m : merged_map)
    (v : verb_entry) :
  In (k, v) m -> nonempty (strip (ve_translation v)) = true ->
  In (k, v) (fill_translation k' tr m).
Proof.
  induction m as [|[k0 e0] m IH]; simpl; [auto|].
  intros [H | H] Hv.
  - injection H as -> ->. destruct (key_eqb k' k).
    + rewrite Hv. left. reflexivity.
    + left. reflexivity.
  - destruct (key_eqb k' k0); [right; exact H | right; apply IH; assumption].
Qed.

(** The keys after one iteration: unchanged, or one new key at the
    end. *)
Lemma group_step_keys (lang : str) (m : merged_map) (e : verb_entry) :
  map fst (group_step lang m e) = map fst m
  \/ exists k, has_key k m = false
               /\ map fst (group_step lang m e) = map fst m ++ [k].
Proof.
  unfold group_step. cbv zeta.
  destruct (strip (ve_phrase e)) as [|c r] eqn:Hp; [left; reflexivity|].
  destruct (split_once [32%N] (c :: r)) as [[p0 p1]|];
    [destruct (group_map lang (lower (strip p0))) as [group|]|];
    match goal with
    | |- context [has_key ?k m] => destruct (has_key k m) eqn:Hk
    end;
    try (left; first [apply fill_translation_keys | reflexivity]);
    right; eexists; (split; [exact Hk|]); rewrite map_app; reflexivity.
Qed.

Lemma group_fold_keys (lang : str) (es : list verb_entry) (m : merged_map) :
  NoDup (map fst m) ->
  NoDup (map fst (fold_left (group_step lang) es m)).
Proof.
  revert m. induction es as [|e es IH]; simpl; intros m Hm; [exact Hm|].
  apply IH. destruct (group_step_keys lang m e) as [-> | [k [Hk ->]]];
    [exact Hm|].
  apply NoDup_app; [exact Hm | repeat constructor; intros [] |].
  intros x Hx [<- | []]. apply has_key_In in Hx. congruence.
Qed.

Lemma group_step_keeps (lang : str) (m : merged_map) (e : verb_entry)
    (k : pron_key) (v : verb_entry) :
  In (k, v) m -> nonempty (strip (ve_translation v)) = true ->
  In (k, v) (group_step lang m e).
Proof.
  intros Hin Hv. unfold group_step. cbv zeta.
  destruct (strip (ve_phrase e)) as [|c r]; [exact Hin|].
  destruct (split_once [32%N] (c :: r)) as [[p0 p1]|];
    [destruct (group_map lang (lower (strip p0))) as [group|]|];
    match goal with
    | |- context [has_key ?k m] => destruct (has_key k m)
    end;
    first [ exact Hin
          | apply fill_translation_keeps; assumption
          | apply in_or_app; left; exact Hin ].
Qed.

Lemma group_fold_keeps (lang : str) (es : list verb_entry) (m : merged_map)
    (k : pron_key) (v : verb_entry) :
  In (k, v) m -> nonempty (strip (ve_translation v)) = true ->
  In (k, v) (fold_left (group_step lang) es m).
Proof.
  revert m. induction es as [|e es IH]; simpl; intros m Hin Hv; [exact Hin|].
  apply IH; [apply group_step_keeps; assumption | exact Hv].
Qed.

Lemma grouped_entry_key (lang : str) (e : verb_entry) (group : str)
    (k : pron_key) :
  entry_group lang e = Some group -> entry_key lang e = Some k ->
  fst k = group
  /\ exists p0 p1, split_once [32%N] (strip (ve_phrase e)) = Some (p0, p1)
                   /\ group_map lang (lower (strip p0)) = Some group
                   /\ snd k = strip p1.
Proof.
  unfold entry_group, entry_key.
  destruct (split_once [32%N] (strip (ve_phrase e))) as [[p0 p1]|] eqn:Hs;
    [|discriminate].
  intros Hg. destruct (strip (ve_phrase e)) as [|c r]; [discriminate|].
  rewrite Hg. intros H. injection H as <-. simpl. eauto 6.
Qed.

Lemma verb_entries_pronouns srv language translation es :
  map ve_pronoun
    (map (resolve_entry_association translation)
       (map (resolve_entry_ipa srv language) es))
  = map ve_pronoun es.
Proof.
  rewrite !map_map. apply map_ext. intros e.
  unfold resolve_entry_association, resolve_entry_ipa. simpl.
  destruct (strip (ve_phrase e)); [reflexivity|].
  destruct (ir_parsed _) as [[? ?]|]; reflexivity.
Qed.

Lemma group_step_new (lang : str) (m : merged_map) (e : verb_entry)
    (group : str) (k : pron_key) :
  entry_group lang e = Some group -> entry_key lang e = Some k ->
  has_key k m = false ->
  group_step lang m e
  = m ++ [(k, {| ve_pronoun := group;
                 ve_phrase := group ++ [32%N] ++ snd k;
                 ve_translation := ve_translation e;
                 ve_ipa := None;
                 ve_association := ve_association e |})].
Proof.
  intros Hg Hk Hnew.
  destruct (grouped_entry_key lang e group k Hg Hk)
    as [Hfst [p0 [p1 [Hs [Hgm Hsnd]]]]].
  destruct k as [k1 k2]. simpl in Hfst, Hsnd. subst k1 k2.
  unfold group_step. cbv zeta.
  destruct (strip (ve_phrase e)) as [|c r] eqn:Hp.
  - unfold entry_key in Hk. rewrite Hp in Hk. discriminate.
  - rewrite Hs, Hgm, Hnew. reflexivity.
Qed.

Lemma group_step_seen (lang : str) (m : merged_map) (e : verb_entry)
    (group : str) (k : pron_key) :
  entry_group lang e = Some group -> entry_key lang e = Some k ->
  has_key k m = true ->
  group_step lang m e = fill_translation k (strip (ve_translation e)) m.
Proof.
  intros Hg Hk Hseen.
  destruct (grouped_entry_key lang e group k Hg Hk)
    as [Hfst [p0 [p1 [Hs [Hgm Hsnd]]]]].
  destruct k as [k1 k2]. simpl in Hfst, Hsnd. subst k1 k2.
  unfold group_step. cbv zeta.
  destruct (strip (ve_phrase e)) as [|c r] eqn:Hp.
  - unfold entry_key in Hk. rewrite Hp in Hk. discriminate.
  - rewrite Hs, Hgm, Hseen. reflexivity.
Qed.

(* ===================================================================== *)
(** * 22. Linking homophones twice                                        *)
(* ===================================================================== *)

(** C2: [vers] and [verre] share the list and the transcription, and
    [verre] has no association yet.  Linking [vers] puts [verre] in the
    suffix of [vers] and makes the bare word [vers] the association of
    [verre] (no suffix section); linking [vers] a second time then
    appends a suffix that names [vers] again.  The live path and the
    compiled statements behave alike. *)
Theorem homophone_relink_changes_association :
  select_association sample_rows 22 str_verre = None
  /\ select_association linked_once 22 str_vers
     = Some (u8 "vers, hacia | homófonos: verre")
  /\ select_association linked_once 22 str_verre = Some (u8 "vers")
  /\ select_association linked_twice 22 str_verre
     = Some (u8 "vers | homófonos: vers")
  /\ select_association (words (exec_all sample_db link_vers_queries))
       22 str_verre
     = Some (u8 "vers")
  /\ select_association
       (words (exec_all (exec_all sample_db link_vers_queries)
                 link_vers_queries))
       22 str_verre
     = Some (u8 "vers | homófonos: vers")
  /\ _append_homophone_to_association None str_vers = str_vers
  /\ _append_homophone_to_association (Some str_vers) str_vers
     = u8 "vers | homófonos: vers".
Proof.
  repeat split; vm_compute; reflexivity.
Qed.

(* ===================================================================== *)
(** * 23. Normalizing twice                                               *)
(* ===================================================================== *)

(** C10: [_normalize_user_text] strips the punctuation of the edges
    once, before the white space is collapsed and stripped, so a
    punctuation mark that stood behind a space at the edge survives the
    first pass and is removed by the second one.  On the same input
    [_normalize_phrase_for_tts_storage] gives the same text after one
    and two passes. *)
Theorem normalize_user_text_second_pass_differs :
  _normalize_user_text lang_fr str_quoi_2 = str_quoi_1
  /\ _normalize_user_text lang_fr (_normalize_user_text lang_fr str_quoi_2)
     = str_quoi
  /\ str_eqb (_normalize_user_text lang_fr
                (_normalize_user_text lang_fr str_quoi_2))
             (_normalize_user_text lang_fr str_quoi_2) = false
  /\ _normalize_phrase_for_tts_storage lang_fr str_quoi_2 = str_quoi
  /\ _normalize_phrase_for_tts_storage lang_fr
       (_normalize_phrase_for_tts_storage lang_fr str_quoi_2)
     = str_quoi.
Proof.
  repeat split; vm_compute; reflexivity.
Qed.

(* ===================================================================== *)
(** * 24. Shape of the normalized texts                                   *)
(* ===================================================================== *)

Lemma lstrip_by_suffix (p : char -> bool) (s : str) :
  exists a, s = a ++ lstrip_by p s.
Proof.
  induction s as [|c r [a Ha]]; simpl.
  - exists []. reflexivity.
  - destruct (p c).
    + exists (c :: a). simpl. rewrite <- Ha. reflexivity.
    + exists []. reflexivity.
Qed.

Lemma strip_by_infix (p : char -> bool) (s : str) :
  exists a b, s = a ++ strip_by p s ++ b.
Proof.
  unfold strip_by, rstrip_by.
  destruct (lstrip_by_suffix p s) as [a Ha].
  destruct (lstrip_by_suffix p (rev (lstrip_by p s))) as [b Hb].
  exists a, (rev b). rewrite <- rev_app_distr, <- Hb, rev_involutive.
  exact Ha.
Qed.

Lemma strip_by_length (p : char -> bool) (s : str) :
  (length (strip_by p s) <= length s)%nat.
Proof.
  destruct (strip_by_infix p s) as [a [b H]].
  rewrite H at 2. rewrite !length_app. lia.
Qed.

Lemma strip_by_same_length (p : char -> bool) (s : str) :
  length (strip_by p s) = length s -> strip_by p s = s.
Proof.
  destruct (strip_by_infix p s) as [a [b H]]. intros Hl.
  rewrite H in Hl at 2. rewrite !length_app in Hl.
  destruct a; [|simpl in Hl; lia]. destruct b; [|simpl in Hl; lia].
  simpl in H. rewrite app_nil_r in H. symmetry. exact H.
Qed.

Lemma strip_by_unchanged (p : char -> bool) (s : str) :
  match s with [] => True | c :: _ => p c = false end ->
  match rev s with [] => True | c :: _ => p c = false end ->
  strip_by p s = s.
Proof.
  intros Hh Hl. destruct s as [|c r]; [reflexivity|].
  unfold strip_by. rewrite lstrip_by_fixed by exact Hh.
  unfold rstrip_by.
  destruct (rev (c :: r)) as [|d t] eqn:Hr.
  - apply (f_equal (@rev char)) in Hr. rewrite rev_involutive in Hr.
    discriminate.
  - rewrite lstrip_by_fixed by exact Hl. rewrite <- Hr.
    apply rev_involutive.
Qed.

Lemma collapse_ws_from_length (b : bool) (s : str) :
  (length (collapse_ws_from b s) <= length s)%nat.
Proof.
  revert b. induction s as [|c r IH]; intros b; simpl; [lia|].
  destruct (is_space c).
  - destruct b; simpl.
    + specialize (IH true). lia.
    + specialize (IH true). lia.
  - simpl. specialize (IH false). lia.
Qed.

Lemma collapse_ws_from_idempotent (b : bool) (s : str) :
  collapse_ws_from b (collapse_ws_from b s) = collapse_ws_from b s.
Proof.
  revert b. induction s as [|c r IH]; intros b; simpl; [reflexivity|].
  destruct (is_space c) eqn:Hc.
  - destruct b.
    + apply IH.
    + change (collapse_ws_from false (32%N :: collapse_ws_from true r))
        with (32%N :: collapse_ws_from true (collapse_ws_from true r)).
      rewrite IH. reflexivity.
  - simpl. rewrite Hc. rewrite IH. reflexivity.
Qed.

Lemma collapse_ws_from_skip (r : str) :
  collapse_ws_from true r <> 32%N :: r.
Proof.
  intros H. apply (f_equal (@length char)) in H. simpl in H.
  pose proof (collapse_ws_from_length true r). lia.
Qed.

Lemma collapse_fixed_cons (b : bool) (c : char) (r : str) :
  collapse_ws_from b (c :: r) = c :: r ->
  (is_space c = true /\ b = false /\ c = 32%N
   /\ collapse_ws_from true r = r)
  \/ (is_space c = false /\ collapse_ws_from false r = r).
Proof.
  simpl. destruct (is_space c) eqn:Hc.
  - destruct b.
    + intros H. exfalso.
      apply (f_equal (@length char)) in H. simpl in H.
      pose proof (collapse_ws_from_length true r). lia.
    + intros H. injection H as H1 H2. left. auto.
  - intros H. injection H as H. right. auto.
Qed.

Lemma collapse_fixed_weaken (s : str) :
  collapse_ws_from true s = s -> collapse_ws_from false s = s.
Proof.
  destruct s as [|c r]; [reflexivity|]. intros H.
  destruct (collapse_fixed_cons true c r H) as [[_ [Hb _]] | [Hc Hr]];
    [discriminate|].
  simpl. rewrite Hc, Hr. reflexivity.
Qed.

Lemma collapse_fixed_suffix (a s : str) (b : bool) :
  collapse_ws_from b (a ++ s) = a ++ s -> collapse_ws_from false s = s.
Proof.
  revert b. induction a as [|x a IH]; intros b H.
  - simpl in H. destruct b; [apply collapse_fixed_weaken|]; exact H.
  - simpl app in H.
    destruct (collapse_fixed_cons b x (a ++ s) H)
      as [[_ [_ [_ Hr]]] | [_ Hr]]; eapply IH, Hr.
Qed.

Lemma collapse_fixed_prefix (s a : str) (b : bool) :
  collapse_ws_from b (s ++ a) = s ++ a -> collapse_ws_from b s = s.
Proof.
  revert b. induction s as [|x s IH]; intros b H; [reflexivity|].
  simpl app in H.
  destruct (collapse_fixed_cons b x (s ++ a) H)
    as [[Hx [Hb [H32 Hr]]] | [Hx Hr]].
  - subst b. simpl. rewrite Hx, (IH true Hr), H32. reflexivity.
  - simpl. rewrite Hx, (IH false Hr). reflexivity.
Qed.

Lemma collapse_fixed_strip_by (p : char -> bool) (s : str) :
  collapse_ws s = s -> collapse_ws (strip_by p s) = strip_by p s.
Proof.
  unfold collapse_ws. intros H.
  destruct (strip_by_infix p s) as [a [b Hs]].
  rewrite Hs in H. apply collapse_fixed_suffix in H.
  eapply collapse_fixed_prefix, H.
Qed.

Lemma lower_char_32 : lower_char 32%N = 32%N.
Proof. reflexivity. Qed.

Lemma collapse_ws_from_lower (b : bool) (s : str) :
  collapse_ws_from b (lower s) = lower (collapse_ws_from b s).
Proof.
  revert b. induction s as [|c r IH]; intros b; [reflexivity|].
  change (lower (c :: r)) with (lower_char c :: lower r).
  simpl collapse_ws_from. rewrite lower_char_space.
  destruct (is_space c).
  - destruct b; [apply IH|].
    change (lower (32%N :: collapse_ws_from true r))
      with (32%N :: lower (collapse_ws_from true r)).
    rewrite IH. reflexivity.
  - change (lower (c :: collapse_ws_from false r))
      with (lower_char c :: lower (collapse_ws_from false r)).
    rewrite IH. reflexivity.
Qed.

Lemma lstrip_space_lower (s : str) :
  lstrip_by is_space (lower s) = lower (lstrip_by is_space s).
Proof.
  induction s as [|c r IH]; [reflexivity|].
  change (lower (c :: r)) with (lower_char c :: lower r).
  simpl lstrip_by. rewrite lower_char_space.
  destruct (is_space c); [exact IH | reflexivity].
Qed.

Lemma strip_lower (s : str) : strip (lower s) = lower (strip s).
Proof.
  unfold strip, strip_by, rstrip_by.
  rewrite lstrip_space_lower. unfold lower at 1. rewrite <- map_rev.
  fold (lower (rev (lstrip_by is_space s))).
  rewrite lstrip_space_lower. unfold lower. rewrite map_rev. reflexivity.
Qed.

Lemma collapse_ws_from_in (b : bool) (s : str) (c : char) :
  In c (collapse_ws_from b s) -> c = 32%N \/ In c s.
Proof.
  revert b. induction s as [|x r IH]; intros b; simpl; [tauto|].
  destruct (is_space x).
  - destruct b.
    + intros H. destruct (IH true H); auto.
    + intros [H | H]; [auto|]. destruct (IH true H); auto.
  - intros [H | H]; [auto|]. destruct (IH false H); auto.
Qed.

Lemma normalize_apostrophes_clean (s : str) (c : char) :
  In c (_normalize_apostrophes s) -> mem_char c _UNICODE_APOSTROPHES = false.
Proof.
  unfold _normalize_apostrophes. rewrite in_map_iff.
  intros [x [Hx _]].
  destruct (mem_char x _UNICODE_APOSTROPHES) eqn:Hm; subst c;
    [reflexivity | exact Hm].
Qed.

Lemma normalize_apostrophes_fixed (s : str) :
  (forall c, In c s -> mem_char c _UNICODE_APOSTROPHES = false) ->
  _normalize_apostrophes s = s.
Proof.
  intros H. unfold _normalize_apostrophes.
  rewrite <- (map_id s) at 2. apply map_ext_in. intros c Hc.
  rewrite (H c Hc). reflexivity.
Qed.

Lemma lower_char_apostrophes (c : char) :
  mem_char (lower_char c) _UNICODE_APOSTROPHES = true ->
  mem_char c _UNICODE_APOSTROPHES = true.
Proof.
  intros H.
  assert (Hc : negb (mem_char (lower_char c) _UNICODE_APOSTROPHES)
               || mem_char c _UNICODE_APOSTROPHES = true).
  { revert c H. intros c _. revert c.
    apply (char_cases
             (fun c => negb (mem_char (lower_char c) _UNICODE_APOSTROPHES)
                       || mem_char c _UNICODE_APOSTROPHES)).
    - vm_compute. reflexivity.
    - intros c H. rewrite (lower_char_large c H).
      destruct (mem_char c _UNICODE_APOSTROPHES); reflexivity. }
  rewrite H in Hc. exact Hc.
Qed.

Lemma strip_edge_punctuation_incl (s : str) (c : char) :
  In c (_strip_edge_punctuation s) -> In c s.
Proof.
  unfold _strip_edge_punctuation.
  destruct (strip s) as [|x r] eqn:Hs; [intros []|].
  intros H. apply strip_by_incl in H. rewrite <- Hs in H.
  eapply strip_by_incl, H.
Qed.

(** The text before the lowering step of [_normalize_user_text]. *)
Lemma normalize_user_text_unfold (language text : str) :
  _normalize_user_text language text
  = let t := strip (collapse_ws
                      (_strip_edge_punctuation (_normalize_apostrophes text))) in
    if is_fr_or_de (lower language) then lower t else t.
Proof. reflexivity. Qed.

Lemma normalize_user_text_shape (language text : str) :
  let r := _normalize_user_text language text in
  strip r = r
  /\ collapse_ws r = r
  /\ (forall c, In c r -> mem_char c _UNICODE_APOSTROPHES = false)
  /\ (is_fr_or_de (lower language) = true -> lower r = r).
Proof.
  cbv zeta. rewrite normalize_user_text_unfold. cbv zeta.
  set (u := _strip_edge_punctuation (_normalize_apostrophes text)).
  set (t := strip (collapse_ws u)).
  assert (Ht1 : strip t = t) by apply strip_idempotent.
  assert (Ht2 : collapse_ws t = t).
  { apply collapse_fixed_strip_by. apply collapse_ws_from_idempotent. }
  assert (Ht3 : forall c, In c t -> mem_char c _UNICODE_APOSTROPHES = false).
  { intros c Hc. apply strip_by_incl in Hc.
    apply collapse_ws_from_in in Hc. destruct Hc as [-> | Hc]; [reflexivity|].
    apply strip_edge_punctuation_incl in Hc.
    eapply normalize_apostrophes_clean, Hc. }
  destruct (is_fr_or_de (lower language)).
  - repeat split.
    + rewrite strip_lower, Ht1. reflexivity.
    + unfold collapse_ws. rewrite collapse_ws_from_lower.
      fold (collapse_ws t). rewrite Ht2. reflexivity.
    + intros c Hc. unfold lower in Hc. apply in_map_iff in Hc.
      destruct Hc as [x [<- Hx]].
      destruct (mem_char (lower_char x) _UNICODE_APOSTROPHES) eqn:Hm;
        [|reflexivity].
      apply lower_char_apostrophes in Hm. rewrite (Ht3 x Hx) in Hm.
      discriminate.
    + intros _. apply lower_idempotent.
  - repeat split; auto. discriminate.
Qed.

Lemma strip_edge_of_stripped (r : str) :
  strip r = r ->
  _strip_edge_punctuation r = strip_chars edge_strip_chars r.
Proof.
  intros H. unfold _strip_edge_punctuation. rewrite H.
  destruct r; reflexivity.
Qed.

Lemma length_lower (s : str) : length (lower s) = length s.
Proof. apply length_map. Qed.

Lemma normalize_pass_of_normalized (language r : str) :
  strip r = r ->
  (forall c, In c r -> mem_char c _UNICODE_APOSTROPHES = false) ->
  _normalize_user_text language r
  = let t := strip (collapse_ws (strip_chars edge_strip_chars r)) in
    if is_fr_or_de (lower language) then lower t else t.
Proof.
  intros Hs Ha. rewrite normalize_user_text_unfold.
  rewrite (normalize_apostrophes_fixed r Ha).
  rewrite (strip_edge_of_stripped r Hs). reflexivity.
Qed.

(** The second pass of [_normalize_user_text] changes its result
    exactly when the first result begins or ends with a character of
    the edge punctuation. *)
Lemma normalize_user_text_second_pass_iff (language text : str) :
  let r := _normalize_user_text language text in
  _normalize_user_text language r = r
  <-> strip_chars edge_strip_chars r = r.
Proof.
  cbv zeta.
  destruct (normalize_user_text_shape language text) as [Hs [Hc [Ha Hl]]].
  cbv zeta in Hs, Hc, Ha, Hl.
  set (r := _normalize_user_text language text) in *.
  rewrite (normalize_pass_of_normalized language r Hs Ha). cbv zeta.
  split.
  - intros H. unfold strip_chars in *. apply strip_by_same_length.
    set (x := strip_by (fun c => mem_char c edge_strip_chars) r) in *.
    pose proof (strip_by_length is_space (collapse_ws x)) as H1.
    pose proof (collapse_ws_from_length false x) as H2.
    pose proof (strip_by_length (fun c => mem_char c edge_strip_chars) r)
      as H3.
    fold x in H3. fold (strip (collapse_ws x)) in H1.
    fold (collapse_ws x) in H2.
    apply (f_equal (@length char)) in H.
    destruct (is_fr_or_de (lower language));
      [rewrite length_lower in H|]; lia.
  - intros H. rewrite H, Hc, Hs.
    destruct (is_fr_or_de (lower language)); [apply Hl|]; reflexivity.
Qed.

(* ===================================================================== *)
(** * 25. The storage form of a phrase                                    *)
(* ===================================================================== *)

Lemma tts_removed_32 : tts_removed 32%N = false.
Proof. reflexivity. Qed.

Lemma lower_char_tts_removed (c : char) :
  tts_removed c = false -> tts_removed (lower_char c) = false.
Proof.
  intros H.
  assert (Hc : negb (tts_removed (lower_char c)) || tts_removed c = true).
  { clear H. revert c.
    apply (char_cases
             (fun c => negb (tts_removed (lower_char c)) || tts_removed c)).
    - vm_compute. reflexivity.
    - intros c H. rewrite (lower_char_large c H).
      destruct (tts_removed c); reflexivity. }
  rewrite H, orb_false_r in Hc. apply negb_true_iff in Hc. exact Hc.
Qed.

Lemma replace_char_empty_in (ch : char) (s : str) (c : char) :
  In c (replace_char ch [] s) -> In c s /\ N.eqb c ch = false.
Proof.
  unfold replace_char. rewrite in_flat_map. intros [x [Hx Hc]].
  destruct (N.eqb x ch) eqn:Hxc; [destruct Hc|].
  destruct Hc as [<- | []]. auto.
Qed.

Lemma replace_char_fixed (ch : char) (by_ s : str) :
  (forall c, In c s -> N.eqb c ch = false) ->
  replace_char ch by_ s = s.
Proof.
  unfold replace_char. induction s as [|c r IH]; intros H; [reflexivity|].
  simpl. rewrite (H c) by (left; reflexivity). simpl.
  rewrite IH; [reflexivity|]. intros x Hx. apply H. right. exact Hx.
Qed.

Lemma edge_char_cases (c : char) :
  mem_char c edge_strip_chars = true ->
  tts_removed c = true \/ is_space c = true.
Proof.
  intros H. unfold edge_strip_chars, mem_char in H.
  rewrite existsb_app in H.
  apply orb_true_iff in H. destruct H as [H | H].
  - left. unfold tts_removed, mem_char.
    apply orb_true_iff. left. apply orb_true_iff. right. exact H.
  - right. simpl in H. rewrite orb_false_r in H.
    repeat (apply orb_true_iff in H; destruct H as [H | H]);
      apply N.eqb_eq in H; subst c; reflexivity.
Qed.

Lemma stripped_head (p : char -> bool) (t : str) :
  strip_by p t = t ->
  match t with [] => True | c :: _ => p c = false end.
Proof. intros H. rewrite <- H. apply strip_by_head. Qed.

Lemma stripped_last (p : char -> bool) (t : str) :
  strip_by p t = t ->
  match rev t with [] => True | c :: _ => p c = false end.
Proof. intros H. rewrite <- H. apply strip_by_last. Qed.

Lemma in_rev_head (t : str) (c : char) (r : str) :
  rev t = c :: r -> In c t.
Proof.
  intros H. apply in_rev. rewrite H. left. reflexivity.
Qed.

(** A text in storage form: stripped, single-spaced, without the
    characters removed, and in lower case where the language asks for
    it, is a fixed point of both normalizers. *)
Lemma storage_form_edge_fixed (t : str) :
  strip t = t ->
  (forall c, In c t -> tts_removed c = false) ->
  strip_chars edge_strip_chars t = t.
Proof.
  intros Hs Hc. apply strip_by_unchanged.
  - pose proof (stripped_head is_space t Hs) as Hh.
    destruct t as [|c r]; [exact I|].
    destruct (mem_char c edge_strip_chars) eqn:Hm; [|reflexivity].
    destruct (edge_char_cases c Hm) as [H | H].
    + rewrite (Hc c) in H by (left; reflexivity). discriminate.
    + rewrite Hh in H. discriminate.
  - pose proof (stripped_last is_space t Hs) as Hl.
    destruct (rev t) as [|c r] eqn:Hr; [exact I|].
    destruct (mem_char c edge_strip_chars) eqn:Hm; [|reflexivity].
    destruct (edge_char_cases c Hm) as [H | H].
    + rewrite (Hc c) in H by (eapply in_rev_head, Hr). discriminate.
    + rewrite Hl in H. discriminate.
Qed.

Lemma tts_removed_parts (c : char) :
  tts_removed c = false ->
  N.eqb c apostrophe = false
  /\ mem_char c punct_no_apostrophe = false
  /\ mem_char c _UNICODE_APOSTROPHES = false.
Proof.
  unfold tts_removed. intros H.
  apply orb_false_iff in H. destruct H as [H H3].
  apply orb_false_iff in H. destruct H as [H1 H2]. auto.
Qed.

Lemma storage_form_fixed (language t : str) :
  strip t = t ->
  collapse_ws t = t ->
  (forall c, In c t -> tts_removed c = false) ->
  (is_fr_or_de (lower (strip language)) = true -> lower t = t) ->
  _normalize_user_text (lower (strip language)) t = t
  /\ _normalize_phrase_for_tts_storage language t = t.
Proof.
  intros Hs Hc Hr Hl.
  assert (Hn : _normalize_user_text (lower (strip language)) t = t).
  { rewrite normalize_pass_of_normalized; [|exact Hs|].
    - cbv zeta. rewrite (storage_form_edge_fixed t Hs Hr), Hc, Hs.
      rewrite lower_idempotent.
      destruct (is_fr_or_de (lower (strip language)));
        [apply Hl|]; reflexivity.
    - intros c Hin. apply (tts_removed_parts c (Hr c Hin)). }
  split; [exact Hn|].
  unfold _normalize_phrase_for_tts_storage. cbv zeta. rewrite Hn.
  destruct t as [|x r] eqn:Ht; [reflexivity|]. rewrite <- Ht in *.
  rewrite replace_char_fixed
    by (intros c Hin; apply (tts_removed_parts c (Hr c Hin))).
  assert (Hm : map (fun c => if mem_char c punct_no_apostrophe
                             then 32%N else c) t = t).
  { rewrite <- (map_id t) at 2. apply map_ext_in. intros c Hin.
    destruct (tts_removed_parts c (Hr c Hin)) as [_ [H2 _]].
    rewrite H2. reflexivity. }
  rewrite Hm, Hc, Hs.
  destruct (is_fr_or_de (lower (strip language)));
    [apply Hl|]; reflexivity.
Qed.

Lemma tts_storage_shape (language phrase : str) :
  let t := _normalize_phrase_for_tts_storage language phrase in
  strip t = t
  /\ collapse_ws t = t
  /\ (forall c, In c t -> tts_removed c = false)
  /\ (is_fr_or_de (lower (strip language)) = true -> lower t = t).
Proof.
  cbv zeta. unfold _normalize_phrase_for_tts_storage. cbv zeta.
  set (L := lower (strip language)).
  destruct (normalize_user_text_shape L phrase) as [_ [_ [Ha _]]].
  cbv zeta in Ha.
  destruct (_normalize_user_text L phrase) as [|x r] eqn:Hu.
  { repeat split; auto. intros c []. }
  rewrite <- Hu in *. clear x r Hu.
  set (u := _normalize_user_text L phrase) in *.
  set (v := map (fun c => if mem_char c punct_no_apostrophe
                          then 32%N else c)
                (replace_char apostrophe [] u)).
  set (w := strip (collapse_ws v)).
  assert (Hv : forall c, In c v -> tts_removed c = false).
  { intros c Hin. unfold v in Hin. apply in_map_iff in Hin.
    destruct Hin as [y [Hy Hin]].
    apply replace_char_empty_in in Hin. destruct Hin as [Hin Hne].
    destruct (mem_char y punct_no_apostrophe) eqn:Hp; subst c;
      [reflexivity|].
    unfold tts_removed. rewrite Hne, Hp, (Ha y Hin). reflexivity. }
  assert (Hw : forall c, In c w -> tts_removed c = false).
  { intros c Hin. apply strip_by_incl in Hin.
    apply collapse_ws_from_in in Hin.
    destruct Hin as [-> | Hin]; [reflexivity | apply Hv, Hin]. }
  assert (Hw1 : strip w = w) by apply strip_idempotent.
  assert (Hw2 : collapse_ws w = w).
  { apply collapse_fixed_strip_by, collapse_ws_from_idempotent. }
  destruct (is_fr_or_de L).
  - repeat split.
    + rewrite strip_lower, Hw1. reflexivity.
    + unfold collapse_ws. rewrite collapse_ws_from_lower.
      fold (collapse_ws w). rewrite Hw2. reflexivity.
    + intros c Hin. unfold lower in Hin. apply in_map_iff in Hin.
      destruct Hin as [y [<- Hy]].
      apply lower_char_tts_removed, Hw, Hy.
    + intros _. apply lower_idempotent.
  - repeat split; auto. discriminate.
Qed.

Lemma startswith_cons_eq (a : char) (p : str) (c : char) (s : str) :
  startswith (a :: p) (c :: s) = N.eqb a c && startswith p s.
Proof. reflexivity. Qed.

Lemma collapse_fixed_spaces (b : bool) (s : str) :
  collapse_ws_from b s = s ->
  (forall c, In c s -> is_space c = true -> c = 32%N)
  /\ contains [32%N; 32%N] s = false.
Proof.
  revert b. induction s as [|x r IH]; intros b H.
  - split; [intros c []|reflexivity].
  - destruct (collapse_fixed_cons b x r H)
      as [[Hx [Hb [H32 Hr]]] | [Hx Hr]].
    + destruct (IH true Hr) as [IH1 IH2]. split.
      * intros c [<- | Hc] Hs; [exact H32 | apply IH1; assumption].
      * rewrite contains_cons, IH2, orb_false_r. subst x.
        destruct r as [|y r']; [reflexivity|].
        destruct (collapse_fixed_cons true y r' Hr)
          as [[_ [Hf _]] | [Hy _]]; [discriminate|].
        rewrite startswith_cons_eq.
        rewrite startswith_cons_ne; [apply andb_false_r|].
        intros <-. discriminate.
    + destruct (IH false Hr) as [IH1 IH2]. split.
      * intros c [<- | Hc] Hs; [congruence | apply IH1; assumption].
      * rewrite contains_cons, IH2, orb_false_r.
        apply startswith_cons_ne. intros <-. discriminate.
Qed.

Lemma fr_or_de_has_no_space (language : str) :
  is_fr_or_de (lower language) = true -> strip language = language.
Proof.
  intros H. apply strip_no_space. apply no_space_of_lower.
  unfold is_fr_or_de in H. apply orb_true_iff in H.
  destruct H as [H | H]; apply str_eqb_eq in H; rewrite H;
    intros c Hc; simpl in Hc;
    repeat (destruct Hc as [<- | Hc]; [reflexivity|]); destruct Hc.
Qed.

(** X4: the storage form is a fixed point of both normalizers: the
    storage form of a storage form is the same text, and
    [_normalize_user_text] leaves a storage form unchanged, so a stored
    phrase that is submitted again keeps its key. *)
Theorem storage_form_idempotent (language phrase : str) :
  let t := _normalize_phrase_for_tts_storage language phrase in
  _normalize_phrase_for_tts_storage language t = t
  /\ _normalize_user_text language t = t.
Proof.
  cbv zeta.
  destruct (tts_storage_shape language phrase) as [Hs [Hc [Hr Hl]]].
  cbv zeta in Hs, Hc, Hr, Hl.
  set (t := _normalize_phrase_for_tts_storage language phrase) in *.
  split.
  - apply (storage_form_fixed language t Hs Hc Hr Hl).
  - rewrite normalize_pass_of_normalized; [|exact Hs|].
    + cbv zeta. rewrite (storage_form_edge_fixed t Hs Hr), Hc, Hs.
      destruct (is_fr_or_de (lower language)) eqn:Hfd; [|reflexivity].
      apply Hl. rewrite (fr_or_de_has_no_space language Hfd). exact Hfd.
    + intros c Hin. apply (tts_removed_parts c (Hr c Hin)).
Qed.

Lemma storage_form_user_text_fixed (language phrase : str) :
  _normalize_user_text language
    (_normalize_phrase_for_tts_storage language phrase)
  = _normalize_phrase_for_tts_storage language phrase.
Proof.
  destruct (tts_storage_shape language phrase) as [Hs [Hc [Hr Hl]]].
  cbv zeta in Hs, Hc, Hr, Hl.
  set (t := _normalize_phrase_for_tts_storage language phrase) in *.
  rewrite normalize_pass_of_normalized; [|exact Hs|].
  - cbv zeta. rewrite (storage_form_edge_fixed t Hs Hr), Hc, Hs.
    destruct (is_fr_or_de (lower language)) eqn:Hfd; [|reflexivity].
    apply Hl. rewrite (fr_or_de_has_no_space language Hfd). exact Hfd.
  - intros c Hin. apply (tts_removed_parts c (Hr c Hin)).
Qed.

Lemma storage_form_twice (language phrase : str) :
  _normalize_phrase_for_tts_storage language
    (_normalize_phrase_for_tts_storage language phrase)
  = _normalize_phrase_for_tts_storage language phrase.
Proof.
  destruct (tts_storage_shape language phrase) as [Hs [Hc [Hr Hl]]].
  apply (storage_form_fixed language _ Hs Hc Hr Hl).
Qed.

(** The word of a phrase action set. *)
Lemma phrase_actions_word env srv palabra l lang u t ev a :
  prepare_word_actions env srv palabra l lang u t ev = Ok a ->
  a_is_phrase a = true ->
  a_word a
  = _normalize_phrase_for_tts_storage lang
      (_normalize_user_text lang (_normalize_user_text lang palabra)).
Proof.
  rewrite prepare_word_actions_unfold. intros H Hp.
  apply bind_ok in H. destruct H as [[[uid table] ln] [_ H]].
  cbv zeta in H.
  destruct (is_phrase_input (_normalize_user_text lang palabra)).
  - unfold _prepare_phrase_actions in H.
    apply bind_ok in H. destruct H as [tq [_ H]].
    apply bind_ok in H. destruct H as [[[uid' table'] ln'] [_ H]].
    apply bind_ok in H. destruct H as [g [_ H]].
    injection H as <-. reflexivity.
  - apply single_token_ordered in H. destruct H as [_ [_ H]]. congruence.
Qed.

(** X5: the word under which a phrase is stored is stable: when the
    stored word of a phrase action set is submitted again (whatever the
    service replies then) and is still handled as a phrase, it is
    stored under the same word. *)
Theorem stored_phrase_key_stable
    env srv palabra l lang u t ev a env' srv' l' u' t' ev' a' :
  prepare_word_actions env srv palabra l lang u t ev = Ok a ->
  a_is_phrase a = true ->
  prepare_word_actions env' srv' (a_word a) l' lang u' t' ev' = Ok a' ->
  a_is_phrase a' = true ->
  a_word a' = a_word a.
Proof.
  intros H Hp H' Hp'.
  rewrite (phrase_actions_word _ _ _ _ _ _ _ _ _ H' Hp').
  rewrite (phrase_actions_word _ _ _ _ _ _ _ _ _ H Hp).
  rewrite !storage_form_user_text_fixed. apply storage_form_twice.
Qed.

Lemma stored_phrase_key_stable_witness :
  prepare_word_actions sample_env sample_service nous_avons_typed 22
    lang_fr (Some user_123) None true = Ok nous_avons_typed_actions
  /\ a_is_phrase nous_avons_typed_actions = true
  /\ prepare_word_actions sample_env sample_service
       (a_word nous_avons_typed_actions) 22 lang_fr (Some user_123) None
       true = Ok nous_avons_actions
  /\ a_is_phrase nous_avons_actions = true
  /\ a_word nous_avons_actions = a_word nous_avons_typed_actions.
Proof.
  assert (H1 : prepare_word_actions sample_env sample_service
                 nous_avons_typed 22 lang_fr (Some user_123) None true
               = Ok nous_avons_typed_actions) by (vm_compute; reflexivity).
  assert (H2 : a_is_phrase nous_avons_typed_actions = true) by reflexivity.
  assert (H3 : prepare_word_actions sample_env sample_service
                 (a_word nous_avons_typed_actions) 22 lang_fr
                 (Some user_123) None true = Ok nous_avons_actions)
    by (vm_compute; reflexivity).
  assert (H4 : a_is_phrase nous_avons_actions = true) by reflexivity.
  repeat (split; [assumption|]).
  exact (stored_phrase_key_stable _ _ _ _ _ _ _ _ _ _ _ _ _ _ _ _
           H1 H2 H3 H4).
Defined.

(* ===================================================================== *)
(** * 26. Contraction prefixes and tokens                                 *)
(* ===================================================================== *)

Lemma lstrip_by_split (p : char -> bool) (s : str) :
  exists a, s = a ++ lstrip_by p s /\ forallb p a = true.
Proof.
  induction s as [|c r [a [Ha Hp]]]; simpl.
  - exists []. auto.
  - destruct (p c) eqn:Hc.
    + exists (c :: a). simpl. rewrite <- Ha, Hc, Hp. auto.
    + exists []. auto.
Qed.

Lemma rstrip_by_unchanged (p : char -> bool) (s : str) :
  match rev s with [] => True | c :: _ => p c = false end ->
  rstrip_by p s = s.
Proof.
  unfold rstrip_by. intros H.
  destruct (rev s) as [|d t] eqn:Hr.
  - simpl. apply (f_equal (@rev char)) in Hr.
    rewrite rev_involutive in Hr. simpl in Hr. symmetry. exact Hr.
  - rewrite lstrip_by_fixed by exact H. rewrite <- Hr.
    apply rev_involutive.
Qed.

Lemma rev_head_app (a m : str) :
  m <> [] ->
  match rev (a ++ m) with
  | [] => False
  | c :: _ => match rev m with [] => False | d :: _ => c = d end
  end.
Proof.
  intros Hm. rewrite rev_app_distr.
  destruct (rev m) as [|d t] eqn:Hr.
  - apply (f_equal (@rev char)) in Hr. rewrite rev_involutive in Hr.
    contradiction.
  - simpl. reflexivity.
Qed.

(** In a text whose last character is no white space, stripping
    removes leading white space only. *)
Lemma strip_keeps_end (s : str) :
  match rev s with [] => True | c :: _ => is_space c = false end ->
  exists a, s = a ++ strip s /\ forallb is_space a = true.
Proof.
  intros H. unfold strip, strip_by.
  destruct (lstrip_by_split is_space s) as [a [Ha Hp]].
  exists a. split; [|exact Hp].
  rewrite rstrip_by_unchanged; [exact Ha|].
  destruct (lstrip_by is_space s) as [|x m] eqn:Hm; [exact I|].
  rewrite <- Hm in *.
  assert (Hne : lstrip_by is_space s <> []) by (rewrite Hm; discriminate).
  pose proof (rev_head_app a _ Hne) as Hh. rewrite <- Ha in Hh.
  destruct (rev s) as [|c t]; [contradiction|].
  destruct (rev (lstrip_by is_space s)) as [|d t']; [contradiction|].
  subst d. exact H.
Qed.

(** The group the pattern of [match_contraction] returns for a stripped
    word: everything after the prefix. *)
Lemma match_contraction_stripped (w g2 : str) :
  strip w = w ->
  match_contraction w = Some g2 ->
  exists c, w = c :: apostrophe :: g2
            /\ mem_char c [100; 68; 108; 76]%N = true
            /\ g2 <> [].
Proof.
  intros Hs. unfold match_contraction.
  destruct w as [|c0 [|c1 rest]]; try discriminate.
  destruct (((c0 =? 100) || (c0 =? 68) || (c0 =? 108) || (c0 =? 76))%N
            && (c1 =? apostrophe)%N) eqn:Hc; [|discriminate].
  apply andb_true_iff in Hc. destruct Hc as [Hc0 Hc1].
  apply N.eqb_eq in Hc1. subst c1.
  assert (Hm : mem_char c0 [100; 68; 108; 76]%N = true).
  { unfold mem_char. simpl. rewrite orb_false_r.
    rewrite !orb_assoc. exact Hc0. }
  destruct (split_once [10%N] rest) as [[a b]|] eqn:Hsp.
  - destruct (nonempty a && negb (nonempty b)) eqn:Hab; [|discriminate].
    apply andb_true_iff in Hab. destruct Hab as [_ Hb].
    destruct b; [|discriminate].
    apply split_once_spec in Hsp. exfalso.
    pose proof (stripped_last is_space _ Hs) as Hl.
    rewrite Hsp in Hl. simpl in Hl.
    rewrite !rev_app_distr in Hl. simpl in Hl. discriminate.
  - destruct rest as [|x r]; [discriminate|].
    intros H. injection H as <-. exists c0.
    repeat split; [exact Hm | discriminate].
Qed.

Lemma rev_cons_cons_head (c0 c1 : char) (rest : str) :
  rest <> [] ->
  match rev (c0 :: c1 :: rest) with
  | [] => False
  | c :: _ => match rev rest with [] => False | d :: _ => c = d end
  end.
Proof.
  intros H. apply (rev_head_app [c0; c1] rest H).
Qed.

(** X6: [_fr_drop_contraction_prefix] returns the empty text only for a
    blank token; its result is stripped and is the end of the stripped
    token: what it removes in front is nothing, or the prefix [d'] or
    [l'] (in either case) with the white space after it. *)
Theorem drop_contraction_prefix_result (token : str) :
  let w := strip token in
  let r := _fr_drop_contraction_prefix token in
  (r = [] <-> w = [])
  /\ strip r = r
  /\ exists a,
       w = a ++ r
       /\ (a = []
           \/ exists c g, a = c :: apostrophe :: g
                          /\ mem_char c [100; 68; 108; 76]%N = true
                          /\ forallb is_space g = true).
Proof.
  cbv zeta. unfold _fr_drop_contraction_prefix.
  assert (Hs : strip (strip token) = strip token) by apply strip_idempotent.
  destruct (strip token) as [|x w'] eqn:Hw.
  { repeat split; auto. exists []. auto. }
  rewrite <- Hw in *.
  assert (Hne : strip token <> []) by (rewrite Hw; discriminate).
  destruct (match_contraction (strip token)) as [g2|] eqn:Hm.
  - destruct (match_contraction_stripped _ _ Hs Hm) as [c [Hc [Hmem Hg]]].
    destruct (strip g2) as [|y r] eqn:Hg2.
    + split; [split; intros H; contradiction|].
      split; [exact Hs|]. exists []. auto.
    + rewrite <- Hg2.
      assert (Hlast : match rev g2 with
                      | [] => True
                      | d :: _ => is_space d = false
                      end).
      { pose proof (stripped_last is_space _ Hs) as Hl.
        pose proof (rev_cons_cons_head c apostrophe g2 Hg) as Hh.
        rewrite <- Hc in Hh.
        destruct (rev (strip token)) as [|e t]; [contradiction|].
        destruct (rev g2) as [|d t']; [contradiction|].
        subst e. exact Hl. }
      destruct (strip_keeps_end g2 Hlast) as [a [Ha Hp]].
      split.
      { split; intros H; [|contradiction].
        rewrite H in Hg2. discriminate. }
      split; [apply strip_idempotent|].
      exists (c :: apostrophe :: a). split.
      * rewrite Hc. simpl. rewrite <- Ha. reflexivity.
      * right. exists c, a. auto.
  - split; [split; intros H; contradiction|].
    split; [exact Hs|]. exists []. auto.
Qed.

Lemma drop_contraction_prefix_nonempty (token : str) :
  strip token <> [] -> _fr_drop_contraction_prefix token <> [].
Proof.
  unfold _fr_drop_contraction_prefix. intros H.
  destruct (strip token) as [|x w] eqn:Hw; [contradiction|].
  destruct (match_contraction (x :: w)) as [g2|]; [|discriminate].
  destruct (strip g2) as [|y r]; discriminate.
Qed.

Lemma tokenize_part_nonempty_part (language part tok : str) :
  tokenize_part language part = Some tok -> nonempty part = true.
Proof.
  unfold tokenize_part. destruct part as [|c r]; [|reflexivity].
  discriminate.
Qed.

Lemma filter_map_length_le {A B} (f : A -> option B) (g : A -> bool)
    (l : list A) :
  (forall x y, f x = Some y -> g x = true) ->
  (length (filter_map f l) <= length (filter g l))%nat.
Proof.
  intros H. induction l as [|x l IH]; simpl; [lia|].
  destruct (f x) as [y|] eqn:Hf.
  - rewrite (H x y Hf). simpl. lia.
  - destruct (g x); simpl; lia.
Qed.

Lemma tokenize_part_shape (language part tok : str) :
  no_space part ->
  tokenize_part language part = Some tok ->
  tok <> []
  /\ lower tok = (if is_fr_or_de (lower language) then tok else lower tok).
Proof.
  intros Hp. unfold tokenize_part.
  destruct (_normalize_apostrophes (strip part)) as [|x r] eqn:Hn;
    [discriminate|]. rewrite <- Hn.
  assert (H1 : no_space (strip_chars token_strip_chars
                           (_normalize_apostrophes (strip part)))).
  { apply no_space_strip_by, no_space_normalize_apostrophes.
    apply no_space_strip_by, Hp. }
  destruct (strip_chars token_strip_chars (_normalize_apostrophes (strip part)))
    as [|y r'] eqn:Hs; [discriminate|]. rewrite <- Hs in *.
  set (p := strip_chars token_strip_chars
              (_normalize_apostrophes (strip part))) in *.
  assert (Hpne : p <> []) by (rewrite Hs; discriminate).
  intros H. injection H as <-.
  unfold is_fr_or_de.
  destruct (str_eqb (lower language) lang_fr) eqn:Hfr.
  - simpl. split.
    + apply drop_contraction_prefix_nonempty.
      rewrite strip_no_space by (apply no_space_lower, H1).
      unfold lower. destruct p; [contradiction | discriminate].
    + apply lower_fixed. intros c Hc.
      apply drop_contraction_prefix_incl in Hc.
      eapply lower_chars_fixed, Hc.
  - simpl. destruct (str_eqb (lower language) lang_de).
    + split; [|apply lower_idempotent].
      unfold lower. destruct p; [contradiction | discriminate].
    + split; [exact Hpne | reflexivity].
Qed.

Lemma re_split_ws_no_space (text part : str) :
  In part (re_split_ws text) -> no_space part.
Proof.
  unfold re_split_ws, re_split_runs. intros H c Hc.
  eapply (re_split_runs_pieces is_space false [] text part); eauto.
  intros x [].
Qed.

(* ===================================================================== *)
(** * 27. Unique tokens                                                   *)
(* ===================================================================== *)

Lemma mem_str_In (s : str) (l : list str) : mem_str s l = true <-> In s l.
Proof.
  unfold mem_str. rewrite existsb_exists. split.
  - intros [x [Hx He]]. apply str_eqb_eq in He. subst x. exact Hx.
  - intros H. exists s. split; [exact H | apply str_eqb_refl].
Qed.

Lemma dedupe_tokens_keys (seen tokens : list str) :
  NoDup (map lower (dedupe_tokens seen tokens))
  /\ (forall t, In t (dedupe_tokens seen tokens) -> ~ In (lower t) seen)
  /\ (forall t, In t tokens ->
        In (lower t) seen
        \/ In (lower t) (map lower (dedupe_tokens seen tokens))).
Proof.
  revert seen. induction tokens as [|t r IH]; intros seen; simpl.
  - repeat split; [constructor | intros t [] | intros t []].
  - destruct (mem_str (lower t) seen) eqn:Hm.
    + destruct (IH seen) as [H1 [H2 H3]]. repeat split; auto.
      intros t' [<- | Hin]; [left; apply mem_str_In, Hm | apply H3, Hin].
    + destruct (IH (lower t :: seen)) as [H1 [H2 H3]].
      assert (Hnot : ~ In (lower t) seen).
      { intros Hin. apply mem_str_In in Hin. congruence. }
      repeat split.
      * simpl. constructor; [|exact H1].
        intros Hin. apply in_map_iff in Hin. destruct Hin as [t' [He Ht']].
        apply (H2 t' Ht'). left. symmetry. exact He.
      * intros t' [<- | Hin]; [exact Hnot|].
        intros Hs. apply (H2 t' Hin). right. exact Hs.
      * intros t' [<- | Hin]; [right; left; reflexivity|].
        destruct (H3 t' Hin) as [[He | Hs] | Hd].
        -- right. left. exact He.
        -- left. exact Hs.
        -- right. right. exact Hd.
Qed.

Lemma dedupe_tokens_head (tokens : list str) :
  hd_error (dedupe_tokens [] tokens) = hd_error tokens.
Proof. destruct tokens; reflexivity. Qed.

(* ===================================================================== *)
(** * 28. Accepted transcriptions are fixed points                        *)
(* ===================================================================== *)

Lemma normalize_ipa_wrapping_result (ipa t : str) :
  _normalize_ipa_wrapping ipa = Some t -> t = strip ipa.
Proof.
  unfold _normalize_ipa_wrapping.
  destruct (strip ipa) as [|c r]; [discriminate|].
  destruct (is_single_segment (c :: r)); [|discriminate].
  destruct (_ || _); [discriminate|].
  intros H. injection H as <-. reflexivity.
Qed.

Lemma normalize_ipa_wrapping_strip (ipa : str) :
  _normalize_ipa_wrapping (strip ipa) = _normalize_ipa_wrapping ipa.
Proof.
  unfold _normalize_ipa_wrapping. rewrite strip_idempotent. reflexivity.
Qed.

(** X9: [_simple_ipa_from_text] and [_normalize_ipa_wrapping] accept the
    same texts; what they accept is the stripped text itself, and an
    accepted transcription is accepted unchanged when it is checked
    again. *)
Theorem accepted_transcription_fixed_point (content t : str) :
  _simple_ipa_from_text content = Some t ->
  _normalize_ipa_wrapping content = Some t
  /\ t = strip content
  /\ _simple_ipa_from_text t = Some t
  /\ _normalize_ipa_wrapping t = Some t.
Proof.
  unfold _simple_ipa_from_text. rewrite normalize_ipa_wrapping_strip.
  intros H. pose proof (normalize_ipa_wrapping_result _ _ H) as Ht.
  split; [exact H|]. split; [exact Ht|].
  subst t. rewrite !normalize_ipa_wrapping_strip. auto.
Qed.

Lemma accepted_transcription_fixed_point_witness :
  _simple_ipa_from_text (u8 "  /nu z‿avɔ̃/ ") = Some (u8 "/nu z‿avɔ̃/")
  /\ _normalize_ipa_wrapping (u8 "  /nu z‿avɔ̃/ ") = Some (u8 "/nu z‿avɔ̃/")
  /\ u8 "/nu z‿avɔ̃/" = strip (u8 "  /nu z‿avɔ̃/ ")
  /\ _simple_ipa_from_text (u8 "/nu z‿avɔ̃/") = Some (u8 "/nu z‿avɔ̃/")
  /\ _normalize_ipa_wrapping (u8 "/nu z‿avɔ̃/") = Some (u8 "/nu z‿avɔ̃/").
Proof.
  assert (H : _simple_ipa_from_text (u8 "  /nu z‿avɔ̃/ ")
              = Some (u8 "/nu z‿avɔ̃/")) by (vm_compute; reflexivity).
  split; [exact H|].
  exact (accepted_transcription_fixed_point _ _ H).
Defined.

(* ===================================================================== *)
(** * 29. The homophone section of an association                         *)
(* ===================================================================== *)

Lemma split_once_unfold (sep s : str) :
  split_once sep s
  = if startswith sep s then Some ([], skipn (length sep) s)
    else match s with
         | [] => None
         | c :: r =>
           match split_once sep r with
           | Some (a, b) => Some (c :: a, b)
           | None => None
           end
         end.
Proof. destruct s; reflexivity. Qed.

Lemma startswith_self_app (p s : str) : startswith p (p ++ s) = true.
Proof.
  induction p as [|c p IH]; [destruct s; reflexivity|].
  simpl. rewrite N.eqb_refl, IH. reflexivity.
Qed.

Lemma startswith_second (s0 s1 : char) (rest : str) (c : char) (s : str) :
  match s with [] => True | d :: _ => d <> s1 end ->
  startswith (s0 :: s1 :: rest) (c :: s) = false.
Proof.
  intros H. rewrite startswith_cons_eq.
  destruct s as [|d s']; [apply andb_false_r|].
  rewrite startswith_cons_ne; [apply andb_false_r|].
  intros <-. apply H. reflexivity.
Qed.

Lemma split_once_absent (s0 s1 : char) (rest s : str) :
  (forall c, In c s -> c <> s1) ->
  split_once (s0 :: s1 :: rest) s = None.
Proof.
  induction s as [|c s IH]; intros H; [reflexivity|].
  rewrite split_once_unfold.
  rewrite startswith_second.
  - rewrite IH; [reflexivity|]. intros x Hx. apply H. right. exact Hx.
  - destruct s as [|d s']; [exact I|]. apply H. right. left. reflexivity.
Qed.

Lemma split_once_first (s0 s1 : char) (rest base tail : str) :
  s0 <> s1 ->
  (forall c, In c base -> c <> s1) ->
  split_once (s0 :: s1 :: rest) (base ++ (s0 :: s1 :: rest) ++ tail)
  = Some (base, tail).
Proof.
  intros Hne. induction base as [|c base IH]; intros H.
  - change ([] ++ (s0 :: s1 :: rest) ++ tail)
      with ((s0 :: s1 :: rest) ++ tail).
    rewrite split_once_unfold.
    rewrite (startswith_self_app (s0 :: s1 :: rest) tail).
    rewrite skipn_app, skipn_all, Nat.sub_diag. reflexivity.
  - rewrite split_once_unfold.
    change ((c :: base) ++ (s0 :: s1 :: rest) ++ tail)
      with (c :: (base ++ (s0 :: s1 :: rest) ++ tail)).
    rewrite startswith_second.
    + rewrite IH; [reflexivity|]. intros x Hx. apply H. right. exact Hx.
    + destruct base as [|d base']; simpl.
      * intros He. apply Hne. exact He.
      * apply H. right. left. reflexivity.
Qed.

Lemma split_char_from_app (ch : char) (cur w s : str) :
  (forall c, In c w -> c <> ch) ->
  split_char_from ch cur (w ++ s) = split_char_from ch (rev w ++ cur) s.
Proof.
  revert cur. induction w as [|c w IH]; intros cur H; [reflexivity|].
  simpl. destruct (N.eqb_spec c ch) as [-> | Hne].
  - exfalso. apply (H ch); [left|]; reflexivity.
  - rewrite IH by (intros x Hx; apply H; right; exact Hx).
    rewrite <- app_assoc. reflexivity.
Qed.

Lemma join_cons_cons (sep x y : str) (r : list str) :
  join sep (x :: y :: r) = x ++ sep ++ join sep (y :: r).
Proof. reflexivity. Qed.

Lemma split_char_from_sep (ch : char) (cur s : str) :
  split_char_from ch cur (ch :: s) = rev cur :: split_char_from ch [] s.
Proof. simpl. rewrite N.eqb_refl. reflexivity. Qed.

Lemma split_char_from_other (ch c : char) (cur s : str) :
  c <> ch ->
  split_char_from ch cur (c :: s) = split_char_from ch (c :: cur) s.
Proof.
  intros H. simpl. destruct (N.eqb_spec c ch); [contradiction|reflexivity].
Qed.

Lemma split_char_join (ch : char) (cur w : str) (items : list str) :
  ch <> 32%N ->
  Forall (fun i => forall c, In c i -> c <> ch) (w :: items) ->
  split_char_from ch cur (join [ch; 32%N] (w :: items))
  = (rev cur ++ w) :: map (fun i => 32%N :: i) items.
Proof.
  intros Hch. revert cur w. induction items as [|i items IH];
    intros cur w H.
  - simpl join. rewrite <- (app_nil_r w) at 1.
    rewrite split_char_from_app by (inversion H; assumption).
    simpl. rewrite rev_app_distr, rev_involutive. reflexivity.
  - rewrite join_cons_cons.
    rewrite split_char_from_app by (inversion H; assumption).
    change ([ch; 32%N] ++ join [ch; 32%N] (i :: items))
      with (ch :: 32%N :: join [ch; 32%N] (i :: items)).
    rewrite split_char_from_sep.
    rewrite split_char_from_other by (intros He; apply Hch; symmetry; exact He).
    rewrite rev_app_distr, rev_involutive.
    rewrite IH by (inversion H; assumption).
    reflexivity.
Qed.

Lemma strip_cons_space (s : str) : strip (32%N :: s) = strip s.
Proof. reflexivity. Qed.

Lemma mem_char_false (ch : char) (s : str) :
  mem_char ch s = false -> forall c, In c s -> c <> ch.
Proof.
  unfold mem_char. intros H c Hc He. subst c.
  assert (existsb (N.eqb ch) s = true).
  { apply existsb_exists. exists ch. split; [exact Hc | apply N.eqb_refl]. }
  congruence.
Qed.

Lemma section_items_join (items : list str) :
  Forall homophone_item_ok items ->
  section_items (join _HOMOPHONE_ITEM_SEPARATOR items) = items.
Proof.
  intros H. destruct items as [|w items]; [reflexivity|].
  unfold section_items, split_char, _HOMOPHONE_ITEM_SEPARATOR.
  rewrite split_char_join.
  - simpl rev. simpl app. simpl map.
    inversion H as [|? ? [Hne [Hs _]] Hrest]; subst.
    rewrite Hs. destruct w as [|c w']; [contradiction|]. simpl filter.
    f_equal. clear H Hne Hs.
    induction items as [|i items IH]; [reflexivity|].
    inversion Hrest as [|? ? [Hne [Hs _]] Hrest']; subst.
    simpl map. rewrite strip_cons_space, Hs.
    destruct i as [|c' i']; [contradiction|]. simpl filter.
    f_equal. apply IH. exact Hrest'.
  - unfold semicolon. discriminate.
  - eapply Forall_impl; [|exact H].
    intros i [_ [_ Hm]]. apply mem_char_false, Hm.
Qed.

Lemma join_snoc_cons (sep x : str) (items : list str) (w : str) :
  join sep ((x :: items) ++ [w]) = x ++ sep ++ join sep (items ++ [w]).
Proof.
  simpl. destruct (items ++ [w]) as [|y r] eqn:He; [|reflexivity].
  destruct items; discriminate.
Qed.

Lemma join_last_nonempty (sep : str) (items : list str) (w : str) :
  w <> [] -> join sep (items ++ [w]) <> [].
Proof.
  intros Hw. induction items as [|x items IH]; [exact Hw|].
  rewrite join_snoc_cons. intros H.
  apply app_eq_nil in H. destruct H as [_ H].
  apply app_eq_nil in H. destruct H as [_ H]. contradiction.
Qed.

Lemma join_rev_head (sep : str) (items : list str) (w : str) :
  w <> [] ->
  match rev (join sep (items ++ [w])) with
  | [] => False
  | c :: _ => match rev w with [] => False | d :: _ => c = d end
  end.
Proof.
  intros Hw. induction items as [|x items IH].
  - simpl. destruct (rev w) as [|d t] eqn:Hr; [|reflexivity].
    apply (f_equal (@rev char)) in Hr. rewrite rev_involutive in Hr.
    contradiction.
  - rewrite join_snoc_cons, app_assoc.
    pose proof (rev_head_app (x ++ sep) (join sep (items ++ [w]))
                  (join_last_nonempty sep items w Hw)) as Hh.
    destruct (rev ((x ++ sep) ++ join sep (items ++ [w]))) as [|c t];
      [contradiction|].
    destruct (rev (join sep (items ++ [w]))) as [|c' t']; [contradiction|].
    subst c'. exact IH.
Qed.

Lemma with_homophones_stripped (base : str) (items : list str) :
  association_base_ok base -> Forall homophone_item_ok items ->
  strip (with_homophones base items) = with_homophones base items
  /\ with_homophones base items <> [].
Proof.
  intros [Hne [Hs Hb]] Hi.
  destruct items as [|w0 items0] eqn:Hit; [simpl; auto|].
  rewrite <- Hit in *.
  assert (Hlast : exists front w, items = front ++ [w]).
  { rewrite Hit. destruct (exists_last (l := w0 :: items0)) as [f [w Hf]];
      [discriminate|]. exists f, w. exact Hf. }
  destruct Hlast as [front [w Hfw]].
  assert (Hw : homophone_item_ok w).
  { rewrite Forall_forall in Hi. apply Hi. rewrite Hfw.
    apply in_or_app. right. left. reflexivity. }
  destruct Hw as [Hwne [Hws _]].
  assert (Hform : with_homophones base items
                  = base ++ _HOMOPHONE_SECTION_SEPARATOR
                      ++ join _HOMOPHONE_ITEM_SEPARATOR items).
  { rewrite Hit. reflexivity. }
  rewrite Hform. split.
  - apply strip_by_unchanged.
    + pose proof (stripped_head is_space base Hs) as Hh.
      destruct base as [|c b]; [contradiction|]. exact Hh.
    + rewrite app_assoc, Hfw.
      pose proof (rev_head_app (base ++ _HOMOPHONE_SECTION_SEPARATOR)
                    (join _HOMOPHONE_ITEM_SEPARATOR (front ++ [w]))
                    (join_last_nonempty _ front w Hwne)) as H1.
      pose proof (join_rev_head _HOMOPHONE_ITEM_SEPARATOR front w Hwne)
        as H2.
      pose proof (stripped_last is_space w Hws) as H3.
      destruct (rev ((base ++ _HOMOPHONE_SECTION_SEPARATOR)
                     ++ join _HOMOPHONE_ITEM_SEPARATOR (front ++ [w])))
        as [|c t]; [contradiction|].
      destruct (rev (join _HOMOPHONE_ITEM_SEPARATOR (front ++ [w])))
        as [|c' t']; [contradiction|].
      destruct (rev w) as [|d t'']; [contradiction|].
      subst c' c. exact H3.
  - destruct base; [contradiction | discriminate].
Qed.

Lemma with_homophones_parse (base : str) (items : list str) :
  association_base_ok base -> Forall homophone_item_ok items ->
  match split_once _HOMOPHONE_SECTION_SEPARATOR (with_homophones base items)
  with
  | Some (b, tail) => (strip b, section_items tail)
  | None => (with_homophones base items, [])
  end = (base, items).
Proof.
  intros [Hne [Hs Hb]] Hi.
  pose proof (mem_char_false _ _ Hb) as Hbar.
  destruct items as [|w items0] eqn:Hit.
  - simpl with_homophones.
    unfold _HOMOPHONE_SECTION_SEPARATOR.
    rewrite split_once_absent by exact Hbar. reflexivity.
  - rewrite <- Hit in *.
    assert (Hform : with_homophones base items
                    = base ++ _HOMOPHONE_SECTION_SEPARATOR
                        ++ join _HOMOPHONE_ITEM_SEPARATOR items).
    { rewrite Hit. reflexivity. }
    rewrite Hform. unfold _HOMOPHONE_SECTION_SEPARATOR at 1 2.
    rewrite split_once_first; [|discriminate | exact Hbar].
    rewrite Hs, section_items_join by exact Hi. reflexivity.
Qed.

Lemma append_homophone_parsed (base : str) (items : list str) (h : str) :
  association_base_ok base -> Forall homophone_item_ok items ->
  _append_homophone_to_association (Some (with_homophones base items)) h
  = if nonempty (strip h) && negb (mem_str (strip h) items)
    then with_homophones base (items ++ [strip h])
    else with_homophones base items.
Proof.
  intros Hb Hi. unfold _append_homophone_to_association. cbv zeta.
  destruct (with_homophones_stripped base items Hb Hi) as [Hs Hne].
  simpl opt_get. rewrite Hs.
  destruct (strip h) as [|c r] eqn:Hh; [reflexivity|]. rewrite <- Hh.
  destruct (with_homophones base items) as [|x a] eqn:Ha; [contradiction|].
  rewrite <- Ha. rewrite (with_homophones_parse base items Hb Hi).
  simpl nonempty. rewrite Hh. simpl andb. rewrite <- Hh.
  destruct (mem_str (strip h) items); [reflexivity|].
  simpl negb. unfold with_homophones.
  destruct (items ++ [strip h]) as [|y l] eqn:He; [|reflexivity].
  destruct items; discriminate.
Qed.

(** X10: an association of the form [base | homófonos: w1; ...; wn]
    (or a bare [base] when there is no section yet) is parsed by
    [_append_homophone_to_association] into the same base and items;
    a new word is added at the end of the section, a word already
    listed or a blank word changes nothing; so that appending the same
    word a second time changes nothing. *)
Theorem homophone_section_round_trip (base : str) (items : list str)
    (h : str) :
  association_base_ok base ->
  Forall homophone_item_ok items ->
  homophone_item_ok (strip h) ->
  let once :=
    _append_homophone_to_association (Some (with_homophones base items)) h in
  once = (if mem_str (strip h) items then with_homophones base items
          else with_homophones base (items ++ [strip h]))
  /\ _append_homophone_to_association (Some once) h = once.
Proof.
  intros Hb Hi Hh. cbv zeta.
  rewrite (append_homophone_parsed base items h Hb Hi).
  assert (Hne : nonempty (strip h) = true).
  { destruct Hh as [Hne _]. destruct (strip h); [contradiction|reflexivity]. }
  rewrite Hne. simpl andb.
  destruct (mem_str (strip h) items) eqn:Hm; simpl negb; cbv iota.
  - split; [reflexivity|].
    rewrite (append_homophone_parsed base items h Hb Hi).
    rewrite Hne, Hm. reflexivity.
  - split; [reflexivity|].
    assert (Hi' : Forall homophone_item_ok (items ++ [strip h])).
    { apply Forall_app. split; [exact Hi|]. constructor; [exact Hh|].
      constructor. }
    rewrite (append_homophone_parsed base _ h Hb Hi').
    assert (Hm' : mem_str (strip h) (items ++ [strip h]) = true).
    { apply mem_str_In. apply in_or_app. right. left. reflexivity. }
    rewrite Hne, Hm'. reflexivity.
Qed.

Lemma homophone_section_round_trip_witness :
  association_base_ok str_vers_hacia
  /\ Forall homophone_item_ok [str_verre]
  /\ homophone_item_ok (strip str_ver)
  /\ _append_homophone_to_association
       (Some (with_homophones str_vers_hacia [str_verre])) str_ver
     = with_homophones str_vers_hacia ([str_verre] ++ [strip str_ver])
  /\ _append_homophone_to_association
       (Some (_append_homophone_to_association
                (Some (with_homophones str_vers_hacia [str_verre]))
                str_ver)) str_ver
     = _append_homophone_to_association
         (Some (with_homophones str_vers_hacia [str_verre])) str_ver.
Proof.
  assert (H1 : association_base_ok str_vers_hacia).
  { split; [discriminate | split; vm_compute; reflexivity]. }
  assert (H2 : Forall homophone_item_ok [str_verre]).
  { constructor; [|constructor].
    split; [discriminate | split; vm_compute; reflexivity]. }
  assert (H3 : homophone_item_ok (strip str_ver)).
  { split; [vm_compute; discriminate | split; vm_compute; reflexivity]. }
  repeat (split; [assumption|]).
  exact (homophone_section_round_trip str_vers_hacia [str_verre] str_ver
           H1 H2 H3).
Defined.

(* ===================================================================== *)
(** * 30. The live linking and [add_word]                                 *)
(* ===================================================================== *)

Lemma association_only_refl l targets r : association_only l targets r r.
Proof. unfold association_only. auto 6. Qed.

Lemma association_only_trans l targets a b c :
  association_only l targets a b -> association_only l targets b c ->
  association_only l targets a c.
Proof.
  unfold association_only.
  intros [H1 [H2 [H3 [H4 H5]]]] [K1 [K2 [K3 [K4 K5]]]].
  repeat split; try congruence.
  destruct H5 as [-> | H5]; [exact K5|]. right. exact H5.
Qed.

Lemma update_association_only l targets ws a w :
  In w targets ->
  Forall2 (association_only l targets) ws (update_association ws a w l).
Proof.
  intros Hw. unfold update_association. apply Forall2_refl_map.
  intros r. destruct (key_match w l r) eqn:Hk.
  - unfold key_match in Hk. apply andb_true_iff in Hk.
    destruct Hk as [Hk1 Hk2]. apply str_eqb_eq in Hk1.
    apply Z.eqb_eq in Hk2.
    unfold association_only. simpl. repeat split.
    right. split; [exact Hk2 | rewrite Hk1; exact Hw].
  - apply association_only_refl.
Qed.

Lemma link_candidate_only l word targets ws0 ws cur cand :
  In word targets -> In (strip (fst cand)) targets ->
  Forall2 (association_only l targets) ws0 ws ->
  Forall2 (association_only l targets) ws0
    (fst (link_candidate l word (ws, cur) cand)).
Proof.
  intros Hw Hc H. unfold link_candidate.
  destruct cand as [other_word other_assoc]. simpl fst in Hc.
  destruct (negb (nonempty (strip other_word))
            || str_eqb (strip other_word) word); [exact H|].
  destruct (negb (str_eqb (_canonical_word_for_homophones lang_fr
                             (strip other_word)) (strip other_word)));
    [exact H|].
  cbv zeta.
  destruct (negb (str_eqb
                    (_append_homophone_to_association cur (strip other_word))
                    (strip (opt_get cur)))).
  - destruct (negb (str_eqb
                      (_append_homophone_to_association other_assoc word)
                      (strip (opt_get other_assoc)))); simpl fst.
    + eapply Forall2_trans_rows; [apply association_only_trans | |
        apply update_association_only; exact Hc].
      eapply Forall2_trans_rows; [apply association_only_trans | exact H |
        apply update_association_only; exact Hw].
    + eapply Forall2_trans_rows; [apply association_only_trans | exact H |
        apply update_association_only; exact Hw].
  - destruct (negb (str_eqb
                      (_append_homophone_to_association other_assoc word)
                      (strip (opt_get other_assoc)))); simpl fst.
    + eapply Forall2_trans_rows; [apply association_only_trans | exact H |
        apply update_association_only; exact Hc].
    + exact H.
Qed.

Lemma link_fold_only l word targets ws0 cands st :
  In word targets ->
  (forall cand, In cand cands -> In (strip (fst cand)) targets) ->
  Forall2 (association_only l targets) ws0 (fst st) ->
  Forall2 (association_only l targets) ws0
    (fst (fold_left (link_candidate l word) cands st)).
Proof.
  intros Hw. revert st. induction cands as [|cand cands IH];
    intros st Hc H; [exact H|].
  simpl fold_left. apply IH.
  - intros c Hin. apply Hc. right. exact Hin.
  - destruct st as [ws cur]. apply link_candidate_only; auto.
    apply Hc. left. reflexivity.
Qed.

Lemma live_linking_rows (ws : list row) (l : Z) (word ipa_word : str) :
  Forall2 (association_only l (link_targets ws l word ipa_word))
    ws (_link_homophones_in_db ws l word ipa_word).
Proof.
  unfold _link_homophones_in_db.
  assert (Hrefl : Forall2 (association_only l
                             (link_targets ws l word ipa_word)) ws ws).
  { apply Forall2_same. intros r. apply association_only_refl. }
  destruct ipa_word as [|c i] eqn:Hi; [exact Hrefl|]. rewrite <- Hi in *.
  destruct (negb (str_eqb (_canonical_word_for_homophones lang_fr word) word));
    [exact Hrefl|].
  destruct (strip ipa_word) as [|c' i'] eqn:Hs; [exact Hrefl|].
  rewrite <- Hs in *.
  destruct (select_candidates ws l (strip ipa_word) word) as [|cd cds] eqn:Hc;
    [exact Hrefl|]. rewrite <- Hc.
  apply link_fold_only.
  - left. reflexivity.
  - intros cand Hin. right.
    apply (in_map (fun cand => strip (fst cand))). exact Hin.
  - exact Hrefl.
Qed.

Lemma association_only_kept l targets r r' :
  association_only l targets r r' -> row_kept r r'.
Proof.
  unfold association_only, row_kept.
  intros [H1 [H2 [H3 [H4 _]]]]. repeat split; auto.
  intros t Ht. congruence.
Qed.

Lemma association_only_keys l targets ws ws' :
  Forall2 (association_only l targets) ws ws' ->
  map row_key ws' = map row_key ws.
Proof.
  induction 1 as [|r r' ws ws' H _ IH]; [reflexivity|].
  simpl. rewrite IH. f_equal.
  destruct H as [_ [H2 [H3 _]]]. unfold row_key. congruence.
Qed.

(** X11: the live linking [_link_homophones_in_db] keeps every row of
    the table, in order, with its id, word, list and transcription, so
    the keys [(word, list_id)] are those of before; the only rows whose
    association it may change are rows of the given list whose word is
    the linked word or the stripped word of a candidate (another row of
    the list with the same transcription and no space in its word). *)
Theorem live_linking_updates_associations_only
    (ws : list row) (l : Z) (word ipa_word : str) :
  Forall2 (association_only l (link_targets ws l word ipa_word))
    ws (_link_homophones_in_db ws l word ipa_word)
  /\ map row_key (_link_homophones_in_db ws l word ipa_word)
     = map row_key ws
  /\ length (_link_homophones_in_db ws l word ipa_word) = length ws.
Proof.
  pose proof (live_linking_rows ws l word ipa_word) as H.
  split; [exact H|]. split.
  - eapply association_only_keys, H.
  - symmetry. eapply Forall2_length, H.
Qed.

Lemma exec_all_registries (qs : list stmt) (db : database) :
  registries (exec_all db qs) = registries db.
Proof.
  unfold exec_all. revert db. induction qs as [|q qs IH]; intros db;
    [reflexivity|].
  simpl. rewrite IH. apply exec_stmt_rows.
Qed.

(* ===================================================================== *)
(** * 31. Statements write to the given list only                         *)
(* ===================================================================== *)

Lemma rows_added_refl (R : row -> row -> Prop) (P : row -> Prop)
    (ws : list row) :
  (forall r, R r r) -> rows_added R P ws ws.
Proof.
  intros HR. exists ws, []. split; [symmetry; apply app_nil_r|].
  split; [apply Forall2_same, HR | constructor].
Qed.

Lemma rows_added_trans (R : row -> row -> Prop) (P : row -> Prop)
    (a b c : list row) :
  (forall x y z, R x y -> R y z -> R x z) ->
  (forall x y, P x -> R x y -> P y) ->
  rows_added R P a b -> rows_added R P b c -> rows_added R P a c.
Proof.
  intros HR HP [kb [ab [-> [Hab Pab]]]] [kc [ac [-> [Hbc Pac]]]].
  apply Forall2_app_inv_l in Hbc.
  destruct Hbc as [k1 [k2 [H1 [H2 ->]]]].
  exists k1, (k2 ++ ac). split; [symmetry; apply app_assoc|].
  split; [eapply Forall2_trans_rows; eassumption|].
  apply Forall_app. split; [|exact Pac].
  clear - HP Pab H2. induction H2 as [|x y ab k2 Hxy _ IH]; [constructor|].
  inversion Pab; subst. constructor; [eapply HP; eassumption | auto].
Qed.

Lemma rows_added_map (R : row -> row -> Prop) (P : row -> Prop)
    (f : row -> row) (ws : list row) :
  (forall r, R r (f r)) -> rows_added R P ws (map f ws).
Proof.
  intros H. exists (map f ws), []. split; [symmetry; apply app_nil_r|].
  split; [apply Forall2_refl_map, H | constructor].
Qed.

Lemma other_list_row_refl l r : other_list_row l r r.
Proof. unfold other_list_row. auto. Qed.

Lemma other_list_row_trans l x y z :
  other_list_row l x y -> other_list_row l y z -> other_list_row l x z.
Proof.
  unfold other_list_row. intros [H1 H2] [K1 K2]. split; [congruence|].
  intros Hne. pose proof (H2 Hne) as Hy. subst y. apply K2. exact Hne.
Qed.

Lemma other_list_row_update l (c : bool) (f : row -> row) r :
  (c = true -> r_list r = l) -> r_list (f r) = r_list r ->
  other_list_row l r (if c then f r else r).
Proof.
  intros Hc Hf. destruct c; [|apply other_list_row_refl].
  split; [exact Hf|]. intros Hne. exfalso. apply Hne, Hc. reflexivity.
Qed.

Lemma key_match_list w l r : key_match w l r = true -> r_list r = l.
Proof.
  unfold key_match. intros H. apply andb_true_iff in H.
  destruct H as [_ H]. apply Z.eqb_eq, H.
Qed.

Lemma exec_stmt_list (db : database) (q : stmt) :
  rows_added (other_list_row (stmt_list q))
    (fun r => r_list r = stmt_list q)
    (words db) (words (exec_stmt db q)).
Proof.
  destruct q as [g w a l i | g i w l | repair g a w l | l w i | l w i];
    simpl.
  - destruct (guard_passes db g w && negb (existsb (key_match w l) (words db))).
    + simpl. eexists (words db), [_]. split; [reflexivity|].
      split; [apply Forall2_same, other_list_row_refl|].
      constructor; [reflexivity | constructor].
    + apply rows_added_refl, other_list_row_refl.
  - apply rows_added_map. intros r. apply other_list_row_update;
      [|reflexivity].
    intros H. apply andb_true_iff in H. destruct H as [H _].
    apply andb_true_iff in H. destruct H as [H _].
    eapply key_match_list, H.
  - apply rows_added_map. intros r. apply other_list_row_update;
      [|reflexivity].
    intros H. apply andb_true_iff in H. destruct H as [H _].
    apply andb_true_iff in H. destruct H as [H _].
    eapply key_match_list, H.
  - apply rows_added_map. intros r. apply other_list_row_update;
      [|reflexivity].
    intros H. apply andb_true_iff in H. destruct H as [H _].
    apply andb_true_iff in H. destruct H as [H _].
    eapply key_match_list, H.
  - apply rows_added_map. intros r. apply other_list_row_update;
      [|reflexivity].
    intros H. repeat (apply andb_true_iff in H; destruct H as [H _]).
    apply Z.eqb_eq, H.
Qed.

Lemma exec_all_list (l : Z) (qs : list stmt) (db : database) :
  Forall (fun q => stmt_list q = l) qs ->
  rows_added (other_list_row l) (fun r => r_list r = l)
    (words db) (words (exec_all db qs)).
Proof.
  unfold exec_all. revert db. induction qs as [|q qs IH]; intros db H.
  - apply rows_added_refl, other_list_row_refl.
  - inversion H as [|? ? Hq Hqs]; subst. simpl.
    eapply rows_added_trans;
      [apply other_list_row_trans | | apply exec_stmt_list | apply IH, Hqs].
    intros x y Hx [Hy _]. congruence.
Qed.

Lemma update_queries_list repair g w l a i q :
  In q (update_queries repair g w l a i) -> stmt_list q = l.
Proof.
  unfold update_queries. intros H. apply in_app_or in H.
  destruct (truthy i), (truthy a); simpl in H;
    intuition (subst; reflexivity).
Qed.

Lemma link_queries_list enabled l w i q :
  In q (_append_homophone_link_queries enabled l w i) -> stmt_list q = l.
Proof.
  unfold _append_homophone_link_queries.
  destruct i as [[|c i]|]; try (intros []).
  destruct (negb (_should_link_homophones_for_word enabled w)); [intros []|].
  destruct (strip (c :: i)); simpl; intuition (subst; reflexivity).
Qed.

Lemma compile_word_queries_list link g p l a i v nv ex ve q :
  In q (compile_word_queries link g p l a i v nv ex ve) ->
  stmt_list q = l.
Proof.
  unfold compile_word_queries, extra_inserts, verb_inserts.
  destruct (negb v && negb nv); [|destruct nv];
    rewrite ?in_app_iff; simpl;
    rewrite ?in_app_iff, ?in_filter_map; intros H;
    repeat match goal with
           | H : _ \/ _ |- _ => destruct H as [H | H]
           | H : False |- _ => destruct H
           | H : InsertWord _ _ _ _ _ = _ |- _ => subst; reflexivity
           | H : In _ (update_queries _ _ _ _ _ _) |- _ =>
             eapply update_queries_list, H
           | H : In _ (_append_homophone_link_queries _ _ _ _) |- _ =>
             eapply link_queries_list, H
           end.
  - destruct H as [[[w0 a0] i0] [_ H]].
    destruct (strip w0); [discriminate|]. injection H as <-. reflexivity.
  - destruct H as [e [_ H]].
    destruct (strip (ve_phrase e)); [discriminate|].
    injection H as <-. reflexivity.
  - destruct H as [e [_ H]].
    destruct (strip (ve_phrase e)); [discriminate|].
    injection H as <-. reflexivity.
Qed.

Lemma single_token_list env srv p l lang u t ln ev a :
  prepare_single_token env srv p l lang u t ln ev = Ok a ->
  Forall (fun q => stmt_list q = l) (a_queries a).
Proof.
  intros H. apply prepare_single_token_shape in H.
  destruct H as [g [ex [ve [_ [_ [_ [_ Hq]]]]]]].
  rewrite Hq. apply Forall_forall. intros q Hin.
  eapply compile_word_queries_list, Hin.
Qed.

Lemma prepare_word_actions_at_list depth env srv p l lang u t ev a :
  prepare_word_actions_at depth env srv p l lang u t ev = Ok a ->
  Forall (fun q => stmt_list q = l) (a_queries a).
Proof.
  revert p ev u t a. induction depth as [|d IH]; intros p ev u t a H;
    simpl in H;
    apply bind_ok in H; destruct H as [[[uid table] ln] [Hcfg H]];
    destruct (is_phrase_input (_normalize_user_text lang p)).
  - discriminate.
  - eapply single_token_list, H.
  - apply prepare_phrase_shape in H.
    destruct H as [tq [g [Htq [_ [_ [_ [_ Hq]]]]]]].
    rewrite Hq. rewrite !Forall_app. repeat split.
    + eapply token_queries_forall; [|exact Htq].
      intros tok a' Ha'. eapply IH, Ha'.
    + destruct (_already_inserts_word tq (a_word a) l); repeat constructor.
    + apply Forall_forall. intros q Hin.
      eapply update_queries_list, Hin.
  - eapply single_token_list, H.
Qed.

(** X13: every statement [prepare_word_actions] compiles carries the
    given [list_id], and executing the statements leaves every row of
    another list unchanged and adds rows to the given list only. *)
Theorem statements_write_to_given_list
    env srv palabra list_id language user_id rejected_words_table
    expand_verbs a :
  prepare_word_actions env srv palabra list_id language user_id
    rejected_words_table expand_verbs = Ok a ->
  a_list_id a = list_id
  /\ Forall (fun q => stmt_list q = list_id) (a_queries a)
  /\ forall db,
       rows_added (other_list_row list_id) (fun r => r_list r = list_id)
         (words db) (words (exec_all db (a_queries a))).
Proof.
  intros H.
  pose proof (prepare_word_actions_at_list _ _ _ _ _ _ _ _ _ _ H) as Hl.
  split; [|split; [exact Hl|]].
  - rewrite prepare_word_actions_unfold in H.
    apply bind_ok in H. destruct H as [[[uid table] ln] [_ H]].
    cbv zeta in H.
    destruct (is_phrase_input (_normalize_user_text language palabra)).
    + apply prepare_phrase_shape in H.
      destruct H as [tq [g [_ [_ [Hid _]]]]]. exact Hid.
    + apply prepare_single_token_shape in H.
      destruct H as [g [ex [ve [_ [_ [Hid _]]]]]]. exact Hid.
  - intros db. apply exec_all_list, Hl.
Qed.

Lemma statements_write_to_given_list_witness :
  prepare_word_actions sample_env sample_service mes_amis 22 lang_fr
    (Some user_123) None true = Ok mes_amis_actions
  /\ a_list_id mes_amis_actions = 22%Z
  /\ Forall (fun q => stmt_list q = 22%Z) (a_queries mes_amis_actions)
  /\ forall db,
       rows_added (other_list_row 22) (fun r => r_list r = 22%Z)
         (words db) (words (exec_all db (a_queries mes_amis_actions))).
Proof.
  assert (H : prepare_word_actions sample_env sample_service mes_amis 22
                lang_fr (Some user_123) None true = Ok mes_amis_actions)
    by (vm_compute; reflexivity).
  split; [exact H|].
  exact (statements_write_to_given_list _ _ _ _ _ _ _ _ _ H).
Defined.

(* ===================================================================== *)
(** * 32. [add_word]                                                      *)
(* ===================================================================== *)

Lemma association_only_other_list l targets r r' :
  association_only l targets r r' -> other_list_row l r r'.
Proof.
  unfold association_only, other_list_row.
  intros [_ [_ [H3 [_ [H | [H _]]]]]]; split; auto.
  intros Hne. contradiction.
Qed.

(** X12: [add_word] keeps the table consistent: the unique constraint
    on [(word, list_id)] still holds afterwards, every row that was in
    the table is still there, in order, with its id, word and list, a
    transcription that was not [NULL] is unchanged, the rows of other
    lists are unchanged and rows are added to the given list only, and
    the registries of rejected words are not written. *)
Theorem add_word_keeps_table_consistent
    env srv db palabra list_id language user_id rejected_words_table
    db' result :
  add_word env srv db palabra list_id language user_id
    rejected_words_table = Ok (db', result) ->
  keys_unique (words db) ->
  keys_unique (words db')
  /\ rows_extend row_kept (words db) (words db')
  /\ (forall l, list_id = Some l ->
        rows_added (other_list_row l) (fun r => r_list r = l)
          (words db) (words db'))
  /\ registries db' = registries db.
Proof.
  unfold add_word.
  destruct list_id as [l|]; [|discriminate].
  destruct language as [lang|]; [|discriminate].
  intros H Hu. apply bind_ok in H. destruct H as [a [Ha H]].
  cbv zeta in H. injection H as <- _.
  destruct (exec_all_rows (a_queries a) db) as [He Hk].
  simpl words. simpl registries.
  match goal with
  | |- context [_link_homophones_in_db ?w ?l0 ?p ?i] =>
    pose proof (live_linking_rows w l0 p i) as Hl;
    set (linked := _link_homophones_in_db w l0 p i) in *
  end.
  split; [|split; [|split]].
  - unfold keys_unique. erewrite association_only_keys by exact Hl.
    apply Hk, Hu.
  - eapply rows_extend_trans; [apply row_kept_trans | exact He |].
    exists linked, [].
    split; [symmetry; apply app_nil_r|].
    eapply Forall2_impl; [|exact Hl].
    intros x y. apply association_only_kept.
  - intros l' Hl'. injection Hl' as <-.
    eapply rows_added_trans;
      [apply other_list_row_trans | |
       apply exec_all_list, (prepare_word_actions_at_list _ _ _ _ _ _ _ _ _ _ Ha) |].
    + intros x y Hx [Hy _]. congruence.
    + exists linked, []. split; [symmetry; apply app_nil_r|].
      split; [|constructor].
      eapply Forall2_impl; [|exact Hl].
      intros x y. apply association_only_other_list.
  - apply exec_all_registries.
Qed.

Lemma add_word_keeps_table_consistent_witness :
  add_word sample_env sample_service sample_db (u8 "ami") (Some 22%Z)
    (Some lang_fr) (Some user_123) None
  = Ok (fst added_ami, snd added_ami)
  /\ keys_unique (words sample_db)
  /\ keys_unique (words (fst added_ami))
  /\ rows_extend row_kept (words sample_db) (words (fst added_ami))
  /\ (forall l, Some 22%Z = Some l ->
        rows_added (other_list_row l) (fun r => r_list r = l)
          (words sample_db) (words (fst added_ami)))
  /\ registries (fst added_ami) = registries sample_db.
Proof.
  assert (H : add_word sample_env sample_service sample_db (u8 "ami")
                (Some 22%Z) (Some lang_fr) (Some user_123) None
              = Ok (fst added_ami, snd added_ami))
    by (vm_compute; reflexivity).
  assert (Hu : keys_unique (words sample_db)).
  { unfold keys_unique. simpl.
    constructor; [intros [Hc | []]; discriminate|].
    constructor; [intros []|]. constructor. }
  split; [exact H|]. split; [exact Hu|].
  exact (add_word_keeps_table_consistent _ _ _ _ _ _ _ _ _ _ H Hu).
Defined.

(* ===================================================================== *)
(** * 33. Rejected words are never inserted                               *)
(* ===================================================================== *)

Lemma rows_extend_same_length (R : row -> row -> Prop) (ws ws' : list row) :
  rows_extend R ws ws' -> length ws' = length ws -> Forall2 R ws ws'.
Proof.
  intros [kept [added [-> H]]] Hl.
  pose proof (Forall2_length H) as Hk. rewrite length_app in Hl.
  destruct added; [|simpl in Hl; lia]. rewrite app_nil_r. exact H.
Qed.

Lemma is_rejected_registries (db db' : database) (g : guard) (w : str) :
  registries db' = registries db -> is_rejected db' g w = is_rejected db g w.
Proof. unfold is_rejected. intros ->. reflexivity. Qed.

Lemma exec_stmt_added (db : database) (q : stmt) (g0 : guard) :
  (forall g w a l i, q = InsertWord g w a l i -> g = Some g0) ->
  rows_added row_kept (fun r => is_rejected db g0 (r_word r) = false)
    (words db) (words (exec_stmt db q)).
Proof.
  intros Hg. destruct (exec_stmt_rows db q) as [Hs _].
  assert (Hk : rows_extend row_kept (words db) (words (exec_stmt db q))).
  { eapply rows_extend_weaken; [|exact Hs]. intros x y H. apply H. }
  destruct q as [g w a l i | g i w l | repair g a w l | l w i | l w i].
  - rewrite (Hg g w a l i eq_refl) in *. simpl.
    destruct (negb (is_rejected db g0 w)
              && negb (existsb (key_match w l) (words db))) eqn:Hc.
    + apply andb_true_iff in Hc. destruct Hc as [Hc _].
      apply negb_true_iff in Hc. simpl.
      eexists (words db), [_]. split; [reflexivity|].
      split; [apply Forall2_same, row_kept_refl|].
      constructor; [exact Hc | constructor].
    + apply rows_added_refl, row_kept_refl.
  - eexists _, []. split; [symmetry; apply app_nil_r|].
    split; [|constructor].
    apply rows_extend_same_length; [exact Hk|]. simpl. apply length_map.
  - eexists _, []. split; [symmetry; apply app_nil_r|].
    split; [|constructor].
    apply rows_extend_same_length; [exact Hk|]. simpl. apply length_map.
  - eexists _, []. split; [symmetry; apply app_nil_r|].
    split; [|constructor].
    apply rows_extend_same_length; [exact Hk|]. simpl. apply length_map.
  - eexists _, []. split; [symmetry; apply app_nil_r|].
    split; [|constructor].
    apply rows_extend_same_length; [exact Hk|]. simpl. apply length_map.
Qed.

Lemma exec_all_added (qs : list stmt) (db0 db : database) (g0 : guard) :
  registries db = registries db0 ->
  inserts_guarded_by (Some g0) qs ->
  rows_added row_kept (fun r => is_rejected db0 g0 (r_word r) = false)
    (words db) (words (exec_all db qs)).
Proof.
  unfold exec_all. revert db. induction qs as [|q qs IH]; intros db Hr Hg.
  - apply rows_added_refl, row_kept_refl.
  - simpl.
    eapply rows_added_trans; [apply row_kept_trans | | |].
    + intros x y Hx [_ [Hw _]]. rewrite Hw. exact Hx.
    + pose proof (exec_stmt_added db q g0) as H.
      destruct H as [kept [added [He [Hk Ha]]]].
      * intros g w a l i ->. eapply Hg. left. reflexivity.
      * exists kept, added. split; [exact He|]. split; [exact Hk|].
        eapply Forall_impl; [|exact Ha]. intros r Hrj.
        rewrite <- (is_rejected_registries db0 db g0 (r_word r)); auto.
    + apply IH.
      * destruct (exec_stmt_rows db q) as [_ [_ Hreg]]. congruence.
      * intros g w a l i Hin. eapply Hg. right. exact Hin.
Qed.

Lemma prepare_word_actions_guarded env srv p l lang uid t ev a :
  prepare_word_actions env srv p l lang (Some uid) t ev = Ok a ->
  inserts_guarded_by (Some (attached_guard uid t lang)) (a_queries a).
Proof.
  intros H.
  pose proof (prepare_word_actions_outcome env srv p l lang uid t ev) as Ho.
  destruct (is_table_identifier (effective_table t)).
  - destruct Ho as [a' [Ha' Hg]]. rewrite H in Ha'. injection Ha' as ->.
    exact Hg.
  - rewrite H in Ho. discriminate.
Qed.

(** X14: the rejected-words guard works: whatever the table holds,
    executing the statements compiled for a user adds no row whose word
    is registered as rejected for that user and the normalized language
    in the registry the guard names; the rows that were there stay in
    place (only the conditional updates and the linking may change
    them). *)
Theorem rejected_words_never_inserted
    env srv palabra list_id language uid rejected_words_table
    expand_verbs a :
  prepare_word_actions env srv palabra list_id language (Some uid)
    rejected_words_table expand_verbs = Ok a ->
  forall db,
    rows_added row_kept
      (fun r =>
         is_rejected db (attached_guard uid rejected_words_table language)
           (r_word r) = false)
      (words db) (words (exec_all db (a_queries a))).
Proof.
  intros H db. apply exec_all_added; [reflexivity|].
  eapply prepare_word_actions_guarded, H.
Qed.

Lemma rejected_words_never_inserted_witness :
  prepare_word_actions sample_env sample_service mes_amis 22 lang_fr
    (Some user_123) None true = Ok mes_amis_actions
  /\ forall db,
       rows_added row_kept
         (fun r =>
            is_rejected db (attached_guard user_123 None lang_fr)
              (r_word r) = false)
         (words db) (words (exec_all db (a_queries mes_amis_actions))).
Proof.
  assert (H : prepare_word_actions sample_env sample_service mes_amis 22
                lang_fr (Some user_123) None true = Ok mes_amis_actions)
    by (vm_compute; reflexivity).
  split; [exact H|].
  exact (rejected_words_never_inserted _ _ _ _ _ _ _ _ _ H).
Defined.

(* ===================================================================== *)
(** * 34. Without API key                                                 *)
(* ===================================================================== *)

Lemma prepare_single_token_offline env srv p l lang u t ln ev :
  env_api_key env = false ->
  prepare_single_token env srv p l lang u t ln ev
  = (let ipa_word :=
       match srv_dictionary srv p with
       | Some text => if nonempty text then Some text else None
       | None => None
       end in
     g <- compile_guard u t ln ;;
     Ok {| a_word := p; a_list_id := l; a_pos := [];
           a_is_phrase := false; a_is_verb := false; a_is_noun := false;
           a_is_noun_and_verb := false; a_verb_infinitive := [];
           a_tense := []; a_entries := []; a_tokens := [];
           a_association := None; a_ipa_word := ipa_word;
           a_queries :=
             [InsertWord g p None l ipa_word]
             ++ update_queries true g p l None ipa_word
             ++ _append_homophone_link_queries (env_link_homophones env)
                  l p ipa_word |}).
Proof.
  intros Hk. unfold prepare_single_token. rewrite Hk. cbn.
  destruct (srv_dictionary srv p) as [text|]; [|reflexivity].
  destruct text; reflexivity.
Qed.

Lemma token_queries_ext (f f' : str -> res actions) (tokens : list str) :
  (forall tok, f tok = f' tok) ->
  token_queries f tokens = token_queries f' tokens.
Proof.
  intros H. induction tokens as [|tok r IH]; [reflexivity|].
  simpl. rewrite IH, H. reflexivity.
Qed.

Lemma prepare_at_0_offline env srv srv' p l lang u t ev :
  env_api_key env = false ->
  (forall w, srv_dictionary srv w = srv_dictionary srv' w) ->
  prepare_word_actions_at 0 env srv p l lang u t ev
  = prepare_word_actions_at 0 env srv' p l lang u t ev.
Proof.
  intros Hk Hd. rewrite !prepare_word_actions_at_0.
  destruct (_resolve_rejected_words_config u t lang) as [[[uid tb] ln]|e];
    [|reflexivity].
  cbn [bind]. cbv zeta.
  destruct (is_phrase_input (_normalize_user_text lang p)); [reflexivity|].
  rewrite !prepare_single_token_offline by exact Hk.
  rewrite Hd. reflexivity.
Qed.

(** X15: without an API key the completion service is not consulted:
    the action set depends on the service through the dictionary
    look-up only; and a single-token input is stored as it was
    normalized, without classification, entries or association, with
    the transcription of the dictionary look-up if there is one. *)
Theorem offline_actions_ignore_the_service
    env srv srv' palabra list_id language user_id rejected_words_table
    expand_verbs :
  env_api_key env = false ->
  (forall w, srv_dictionary srv w = srv_dictionary srv' w) ->
  prepare_word_actions env srv palabra list_id language user_id
    rejected_words_table expand_verbs
  = prepare_word_actions env srv' palabra list_id language user_id
      rejected_words_table expand_verbs
  /\ forall a,
       prepare_word_actions env srv palabra list_id language user_id
         rejected_words_table expand_verbs = Ok a ->
       a_is_phrase a = false ->
       a_is_verb a = false /\ a_is_noun a = false /\ a_pos a = []
       /\ a_entries a = [] /\ a_association a = None
       /\ a_ipa_word a
          = match srv_dictionary srv (a_word a) with
            | Some text => if nonempty text then Some text else None
            | None => None
            end.
Proof.
  intros Hk Hd. split.
  - rewrite !prepare_word_actions_unfold.
    destruct (_resolve_rejected_words_config user_id rejected_words_table
                language) as [[[uid tb] ln]|e]; [|reflexivity].
    cbn [bind]. cbv zeta.
    destruct (is_phrase_input (_normalize_user_text language palabra)).
    + unfold _prepare_phrase_actions. cbv zeta. rewrite Hk.
      rewrite (token_queries_ext _
                 (fun token =>
                    prepare_word_actions_at 0 env srv' token list_id
                      language (Some uid) (Some tb) true)).
      * reflexivity.
      * intros tok. apply prepare_at_0_offline; assumption.
    + rewrite !prepare_single_token_offline by exact Hk.
      rewrite Hd. reflexivity.
  - intros a H Hp. rewrite prepare_word_actions_unfold in H.
    apply bind_ok in H. destruct H as [[[uid tb] ln] [_ H]].
    cbv zeta in H.
    destruct (is_phrase_input (_normalize_user_text language palabra)).
    + apply prepare_phrase_shape in H.
      destruct H as [tq [g [_ [_ [_ [Hph _]]]]]]. congruence.
    + rewrite prepare_single_token_offline in H by exact Hk.
      cbv zeta in H. apply bind_ok in H. destruct H as [g [_ H]].
      injection H as <-. cbn. auto 10.
Qed.

Lemma offline_actions_ignore_the_service_witness :
  env_api_key offline_env = false
  /\ (forall w, srv_dictionary sample_service w
                = srv_dictionary silent_service w)
  /\ prepare_word_actions offline_env sample_service (u8 "ami") 22 lang_fr
       (Some user_123) None true
     = prepare_word_actions offline_env silent_service (u8 "ami") 22 lang_fr
         (Some user_123) None true
  /\ prepare_word_actions offline_env sample_service (u8 "ami") 22 lang_fr
       (Some user_123) None true = Ok offline_ami_actions
  /\ a_is_verb offline_ami_actions = false
  /\ a_association offline_ami_actions = None.
Proof.
  assert (H1 : env_api_key offline_env = false) by reflexivity.
  assert (H2 : forall w, srv_dictionary sample_service w
                         = srv_dictionary silent_service w)
    by (intros w; reflexivity).
  assert (H3 : prepare_word_actions offline_env sample_service (u8 "ami") 22
                 lang_fr (Some user_123) None true = Ok offline_ami_actions)
    by (vm_compute; reflexivity).
  assert (H4 : a_is_phrase offline_ami_actions = false) by reflexivity.
  pose proof (offline_actions_ignore_the_service offline_env sample_service
                silent_service (u8 "ami") 22%Z lang_fr (Some user_123) None
                true H1 H2) as [Ha Hb].
  split; [exact H1|]. split; [exact H2|]. split; [exact Ha|].
  split; [exact H3|].
  destruct (Hb offline_ami_actions H3 H4) as [K1 [_ [_ [_ [K5 _]]]]].
  split; [exact K1 | exact K5].
Defined.

(* ===================================================================== *)
(** * 35. Articles and noun phrases                                       *)
(* ===================================================================== *)

Lemma normalize_article_in_result (allowed : list str) (article raw : str) :
  normalize_article_in allowed article raw = []
  \/ (In (lower raw) allowed
      /\ normalize_article_in allowed article raw
         = if mem_str (lower raw) [str_l_apostrophe; str_l_typographic]
           then lower raw else lower raw ++ [32%N]).
Proof.
  unfold normalize_article_in. cbv zeta.
  destruct (mem_str (lower raw) allowed) eqn:Hm; [|left; reflexivity].
  right. split; [apply mem_str_In, Hm|]. simpl negb. cbv iota.
  destruct (mem_str (lower raw) [str_l_apostrophe; str_l_typographic]);
    [reflexivity|].
  rewrite length_lower, Nat.eqb_refl, orb_true_r. reflexivity.
Qed.

Lemma normalize_article_unfold (article language : str) :
  strip article <> [] ->
  _normalize_article article language
  = if str_eqb (lower language) lang_fr
    then normalize_article_in fr_articles article (strip article)
    else if str_eqb (lower language) lang_de
         then normalize_article_in de_articles article (strip article)
         else article.
Proof.
  intros H. unfold _normalize_article.
  destruct article as [|c r]; [exfalso; apply H; reflexivity|].
  destruct (strip (c :: r)); [contradiction | reflexivity].
Qed.

Lemma normalize_article_fr (article language : str) :
  str_eqb (lower language) lang_fr = true ->
  In (_normalize_article article language)
     [[]; str_le ++ [32%N]; str_la ++ [32%N]; str_les ++ [32%N];
      str_l_apostrophe; str_l_typographic].
Proof.
  intros Hfr. destruct (strip article) as [|c r] eqn:Hs.
  - left. unfold _normalize_article. destruct article; [reflexivity|].
    rewrite Hs. reflexivity.
  - rewrite normalize_article_unfold by (rewrite Hs; discriminate).
    rewrite Hfr.
    destruct (normalize_article_in_result fr_articles article (strip article))
      as [-> | [Hin ->]]; [left; reflexivity|].
    unfold fr_articles in Hin. cbn [In] in Hin.
    repeat (destruct Hin as [<- | Hin];
            [vm_compute; repeat (first [left; reflexivity | right])|]).
    destruct Hin.
Qed.

Lemma normalize_article_de (article language : str) :
  str_eqb (lower language) lang_fr = false ->
  str_eqb (lower language) lang_de = true ->
  In (_normalize_article article language)
     ([] :: map (fun a => a ++ [32%N]) de_articles).
Proof.
  intros Hfr Hde. destruct (strip article) as [|c r] eqn:Hs.
  - left. unfold _normalize_article. destruct article; [reflexivity|].
    rewrite Hs. reflexivity.
  - rewrite normalize_article_unfold by (rewrite Hs; discriminate).
    rewrite Hfr, Hde.
    destruct (normalize_article_in_result de_articles article (strip article))
      as [-> | [Hin ->]]; [left; reflexivity|].
    unfold de_articles in Hin. cbn [In] in Hin.
    repeat (destruct Hin as [<- | Hin];
            [vm_compute; repeat (first [left; reflexivity | right])|]).
    destruct Hin.
Qed.

Lemma normalize_article_other (article language : str) :
  str_eqb (lower language) lang_fr = false ->
  str_eqb (lower language) lang_de = false ->
  _normalize_article article language
  = match strip article with [] => [] | _ => article end.
Proof.
  intros Hfr Hde. unfold _normalize_article.
  destruct article as [|c r]; [reflexivity|].
  rewrite Hfr, Hde. reflexivity.
Qed.

(** X16: for French [_normalize_article] returns the empty text or one
    of [le ], [la ], [les ] (with one space), [l'], [l’] (without), for
    German the empty text or one of [der ], [die ], [das ], [ein ],
    [eine ]; for another language it returns the article as it is
    (empty for a blank one); and normalizing its result again changes
    nothing. *)
Theorem normalize_article_closed_and_idempotent (article language : str) :
  let r := _normalize_article article language in
  (if str_eqb (lower language) lang_fr then
     In r [[]; str_le ++ [32%N]; str_la ++ [32%N]; str_les ++ [32%N];
           str_l_apostrophe; str_l_typographic]
   else if str_eqb (lower language) lang_de then
     In r ([] :: map (fun a => a ++ [32%N]) de_articles)
   else r = match strip article with [] => [] | _ => article end)
  /\ _normalize_article r language = r.
Proof.
  cbv zeta.
  destruct (str_eqb (lower language) lang_fr) eqn:Hfr.
  - pose proof (normalize_article_fr article language Hfr) as Hin.
    split; [exact Hin|].
    simpl In in Hin.
    repeat (destruct Hin as [<- | Hin];
            [unfold _normalize_article; simpl; rewrite ?Hfr; reflexivity|]).
    destruct Hin.
  - destruct (str_eqb (lower language) lang_de) eqn:Hde.
    + pose proof (normalize_article_de article language Hfr Hde) as Hin.
      split; [exact Hin|].
      simpl In in Hin.
      repeat (destruct Hin as [<- | Hin];
              [unfold _normalize_article; simpl; rewrite ?Hfr, ?Hde;
               reflexivity|]).
      destruct Hin.
    + rewrite (normalize_article_other article language Hfr Hde).
      split; [reflexivity|].
      rewrite (normalize_article_other _ language Hfr Hde).
      destruct (strip article) as [|c r] eqn:Hs; [reflexivity|].
      rewrite Hs. reflexivity.
Qed.

(** X17: with an article normalized for French or German, the noun
    phrase [_build_phrase] builds is the article directly followed by
    the word: the normalized article brings its own single space, or,
    for the elided article, none. *)
Theorem noun_phrase_of_normalized_article (article language palabra : str) :
  is_fr_or_de (lower language) = true ->
  _build_phrase (_normalize_article article language) palabra
  = _normalize_article article language ++ palabra.
Proof.
  intros H. unfold is_fr_or_de in H.
  destruct (str_eqb (lower language) lang_fr) eqn:Hfr.
  - pose proof (normalize_article_fr article language Hfr) as Hin.
    cbn [In] in Hin.
    repeat (destruct Hin as [<- | Hin]; [reflexivity|]). destruct Hin.
  - simpl in H.
    pose proof (normalize_article_de article language Hfr H) as Hin.
    unfold de_articles in Hin. cbn [In map] in Hin.
    repeat (destruct Hin as [<- | Hin]; [reflexivity|]). destruct Hin.
Qed.

Lemma noun_phrase_of_normalized_article_witness :
  is_fr_or_de (lower lang_fr) = true
  /\ _build_phrase (_normalize_article (u8 "LE") lang_fr) (u8 "livre")
     = _normalize_article (u8 "LE") lang_fr ++ u8 "livre"
  /\ _build_phrase (_normalize_article (u8 "LE") lang_fr) (u8 "livre")
     = u8 "le livre".
Proof.
  assert (H : is_fr_or_de (lower lang_fr) = true) by reflexivity.
  split; [exact H|]. split.
  - exact (noun_phrase_of_normalized_article (u8 "LE") lang_fr (u8 "livre") H).
  - vm_compute. reflexivity.
Defined.

(* ===================================================================== *)
(** * 36. The gender marker of elided noun phrases                        *)
(* ===================================================================== *)

Lemma startswith_prefix_app (q a b : str) :
  startswith q a = true -> startswith q (a ++ b) = true.
Proof.
  revert a. induction q as [|c q IH]; intros a H; [destruct (a ++ b); reflexivity|].
  destruct a as [|x a]; [discriminate|].
  simpl in *. apply andb_true_iff in H. destruct H as [H1 H2].
  rewrite H1, (IH a H2). reflexivity.
Qed.

Lemma lower_app (a b : str) : lower (a ++ b) = lower a ++ lower b.
Proof. apply map_app. Qed.

Lemma marked_phrase_stripped (p m : str) :
  p <> [] -> strip p = p ->
  strip (p ++ [32%N; 40%N] ++ m ++ [41%N]) = p ++ [32%N; 40%N] ++ m ++ [41%N].
Proof.
  intros Hne Hs. apply strip_by_unchanged.
  - pose proof (stripped_head is_space p Hs) as Hh.
    destruct p as [|c r]; [contradiction|]. exact Hh.
  - rewrite !app_assoc. rewrite rev_app_distr. reflexivity.
Qed.

Lemma marked_phrase_has_marker (p m : str) :
  m = str_m \/ m = str_f ->
  has_gender_marker (p ++ [32%N; 40%N] ++ m ++ [41%N]) = true.
Proof.
  intros Hm. unfold has_gender_marker.
  rewrite rstrip_by_unchanged.
  - destruct Hm as [-> | ->];
      rewrite rev_app_distr; reflexivity.
  - destruct Hm as [-> | ->];
      rewrite rev_app_distr; reflexivity.
Qed.

Lemma normalize_fr_gender_values (value : option str) :
  _normalize_fr_gender value = []
  \/ _normalize_fr_gender value = str_m
  \/ _normalize_fr_gender value = str_f.
Proof.
  unfold _normalize_fr_gender. destruct value as [v|]; [|auto].
  destruct (lower (strip v)); [auto|].
  destruct (mem_str _ masculine_markers); [auto|].
  destruct (mem_str _ feminine_markers); auto.
Qed.

Lemma gender_marker_fixed (language q gender : str) :
  strip q = q ->
  negb (str_eqb (lower (strip language)) lang_fr) = true
  \/ q = []
  \/ negb (startswith str_l_apostrophe (lower q)
           || startswith str_l_typographic (lower q)) = true
  \/ negb (mem_str (_normalize_fr_gender (Some gender)) [str_m; str_f])
     = true
  \/ has_gender_marker q = true ->
  _maybe_append_fr_gender_marker language q gender = q.
Proof.
  intros Hs H. unfold _maybe_append_fr_gender_marker. cbv zeta.
  rewrite Hs.
  destruct (negb (str_eqb (lower (strip language)) lang_fr));
    [reflexivity|].
  destruct q as [|c r] eqn:Hq; [reflexivity|]. rewrite <- Hq in *.
  destruct (negb (startswith str_l_apostrophe (lower q)
                  || startswith str_l_typographic (lower q)));
    [reflexivity|].
  destruct (negb (mem_str (_normalize_fr_gender (Some gender))
                    [str_m; str_f])); [reflexivity|].
  destruct (has_gender_marker q); [reflexivity|].
  destruct H as [H | [H | [H | [H | H]]]]; try discriminate.
  rewrite Hq in H. discriminate.
Qed.

(** X18: [_maybe_append_fr_gender_marker] returns the stripped phrase,
    or the stripped phrase followed by [ (m)] or [ (f)]; its result is
    stripped; and applying it again to its result (with the same
    gender) changes nothing, so that a phrase never carries two
    markers. *)
Theorem gender_marker_appended_once (language phrase gender : str) :
  let r := _maybe_append_fr_gender_marker language phrase gender in
  (r = strip phrase
   \/ r = strip phrase ++ [32%N; 40%N] ++ str_m ++ [41%N]
   \/ r = strip phrase ++ [32%N; 40%N] ++ str_f ++ [41%N])
  /\ strip r = r
  /\ _maybe_append_fr_gender_marker language r gender = r.
Proof.
  cbv zeta.
  set (r := _maybe_append_fr_gender_marker language phrase gender).
  assert (Hs : strip (strip phrase) = strip phrase)
    by apply strip_idempotent.
  assert (Hkeep :
            negb (str_eqb (lower (strip language)) lang_fr) = true
            \/ strip phrase = []
            \/ negb (startswith str_l_apostrophe (lower (strip phrase))
                     || startswith str_l_typographic (lower (strip phrase)))
               = true
            \/ negb (mem_str (_normalize_fr_gender (Some gender))
                       [str_m; str_f]) = true
            \/ has_gender_marker (strip phrase) = true ->
            r = strip phrase).
  { intros H. unfold r, _maybe_append_fr_gender_marker. cbv zeta.
    destruct (negb (str_eqb (lower (strip language)) lang_fr));
      [reflexivity|].
    destruct (strip phrase) as [|c q] eqn:Hq; [reflexivity|].
    rewrite <- Hq in *.
    destruct (negb (startswith str_l_apostrophe (lower (strip phrase))
                    || startswith str_l_typographic (lower (strip phrase))));
      [reflexivity|].
    destruct (negb (mem_str (_normalize_fr_gender (Some gender))
                      [str_m; str_f])); [reflexivity|].
    destruct (has_gender_marker (strip phrase)); [reflexivity|].
    destruct H as [H | [H | [H | [H | H]]]]; try discriminate.
    rewrite Hq in H. discriminate. }
  destruct (negb (str_eqb (lower (strip language)) lang_fr)) eqn:Hfr.
  { rewrite Hkeep by auto. split; [auto|]. split; [exact Hs|].
    apply gender_marker_fixed; auto. }
  destruct (strip phrase) as [|c0 r0] eqn:Hp.
  { rewrite Hkeep by auto. split; [auto|]. split; [reflexivity|].
    apply gender_marker_fixed; auto. }
  rewrite <- Hp in *.
  assert (Hne : strip phrase <> []) by (rewrite Hp; discriminate).
  destruct (negb (startswith str_l_apostrophe (lower (strip phrase))
                  || startswith str_l_typographic (lower (strip phrase))))
    eqn:Hl.
  { rewrite Hkeep by auto. split; [auto|]. split; [exact Hs|].
    apply gender_marker_fixed; auto. }
  destruct (negb (mem_str (_normalize_fr_gender (Some gender))
                    [str_m; str_f])) eqn:Hg.
  { rewrite Hkeep by auto. split; [auto|]. split; [exact Hs|].
    apply gender_marker_fixed; auto. }
  destruct (has_gender_marker (strip phrase)) eqn:Hm.
  { rewrite Hkeep by auto 6. split; [auto|]. split; [exact Hs|].
    apply gender_marker_fixed; auto 6. }
  clear Hkeep.
  assert (Hv : _normalize_fr_gender (Some gender) = str_m
               \/ _normalize_fr_gender (Some gender) = str_f).
  { destruct (normalize_fr_gender_values (Some gender)) as [H | H];
      [|exact H].
    rewrite H in Hg. discriminate. }
  assert (Hr : r = strip phrase ++ [32%N; 40%N]
                     ++ _normalize_fr_gender (Some gender) ++ [41%N]).
  { unfold r, _maybe_append_fr_gender_marker. cbv zeta.
    rewrite Hfr, Hp. rewrite <- Hp. rewrite Hl, Hg, Hm. reflexivity. }
  rewrite Hr.
  split; [destruct Hv as [-> | ->]; auto|].
  pose proof (marked_phrase_stripped (strip phrase)
                (_normalize_fr_gender (Some gender)) Hne Hs) as Hst.
  split; [exact Hst|].
  apply gender_marker_fixed; [exact Hst|].
  right. right. right. right.
  apply marked_phrase_has_marker, Hv.
Qed.

(* ===================================================================== *)
(** * 37. The default feminine form                                       *)
(* ===================================================================== *)

Lemma snoc_stripped (w : str) (c : char) :
  w <> [] -> strip w = w -> is_space c = false ->
  strip (w ++ [c]) = w ++ [c].
Proof.
  intros Hne Hs Hc. apply strip_by_unchanged.
  - pose proof (stripped_head is_space w Hs) as Hh.
    destruct w as [|x r]; [contradiction|]. exact Hh.
  - rewrite rev_app_distr. exact Hc.
Qed.

Lemma endswith_snoc (c : char) (w : str) :
  endswith [c] (w ++ [c]) = true.
Proof.
  unfold endswith. rewrite rev_app_distr. simpl.
  rewrite N.eqb_refl. destruct (rev w); reflexivity.
Qed.

Lemma suffix_rule_fixed (c : char) (w : str) :
  lower_char c = c -> is_space c = false ->
  w <> [] -> strip w = w ->
  let r := if endswith [c] (lower w) then w else w ++ [c] in
  r <> [] /\ strip r = r /\ endswith [c] (lower r) = true.
Proof.
  intros Hc Hsp Hne Hs. cbv zeta.
  destruct (endswith [c] (lower w)) eqn:He.
  - auto.
  - split; [destruct w; discriminate|].
    split; [apply snoc_stripped; assumption|].
    rewrite lower_app. simpl lower. rewrite Hc. apply endswith_snoc.
Qed.

Lemma default_feminine_fixed (language q : str) :
  strip q = q ->
  q = []
  \/ (str_eqb (lower (strip language)) lang_fr = true
      /\ endswith [101%N] (lower q) = true)
  \/ (str_eqb (lower (strip language)) lang_fr = false
      /\ str_eqb (lower (strip language)) lang_es = true
      /\ endswith [97%N] (lower q) = true) ->
  _default_feminine_by_suffix language q = q.
Proof.
  intros Hs H. unfold _default_feminine_by_suffix. cbv zeta. rewrite Hs.
  destruct q as [|c w] eqn:Hq; [reflexivity|]. rewrite <- Hq in *.
  destruct H as [H | [[Hfr He] | [Hfr [Hes He]]]].
  - rewrite Hq in H. discriminate.
  - rewrite Hfr, He. reflexivity.
  - rewrite Hfr, Hes, He. reflexivity.
Qed.

(** X19: [_default_feminine_by_suffix] returns the stripped adjective,
    with the letter of the language ([e] for French, [a] for Spanish)
    added unless the adjective already ends with it; the result ends
    with that letter, and applying the rule again changes nothing.  For
    another language, or a blank adjective, it returns the empty
    text. *)
Theorem default_feminine_idempotent (language adjective : str) :
  let r := _default_feminine_by_suffix language adjective in
  _default_feminine_by_suffix language r = r
  /\ strip r = r
  /\ (r = []
      \/ (str_eqb (lower (strip language)) lang_fr = true
          /\ endswith [101%N] (lower r) = true
          /\ (r = strip adjective \/ r = strip adjective ++ [101%N]))
      \/ (str_eqb (lower (strip language)) lang_es = true
          /\ endswith [97%N] (lower r) = true
          /\ (r = strip adjective \/ r = strip adjective ++ [97%N]))).
Proof.
  cbv zeta.
  set (r := _default_feminine_by_suffix language adjective).
  assert (Hs : strip (strip adjective) = strip adjective)
    by apply strip_idempotent.
  destruct (strip adjective) as [|c0 w0] eqn:Hw.
  { assert (Hr : r = []).
    { unfold r, _default_feminine_by_suffix. rewrite Hw. reflexivity. }
    rewrite Hr. repeat split; auto. }
  rewrite <- Hw in *.
  assert (Hne : strip adjective <> []) by (rewrite Hw; discriminate).
  destruct (str_eqb (lower (strip language)) lang_fr) eqn:Hfr.
  - pose proof (suffix_rule_fixed 101%N (strip adjective) eq_refl eq_refl
                  Hne Hs) as Hx. cbv zeta in Hx.
    assert (Hr : r = if endswith [101%N] (lower (strip adjective))
                     then strip adjective else strip adjective ++ [101%N]).
    { unfold r, _default_feminine_by_suffix. cbv zeta.
      rewrite Hw. rewrite <- Hw. rewrite Hfr. reflexivity. }
    assert (Hx' : r <> [] /\ strip r = r
                  /\ endswith [101%N] (lower r) = true)
      by (rewrite Hr; exact Hx).
    destruct Hx' as [H1 [H2 H3]].
    split; [apply default_feminine_fixed; auto|]. split; [exact H2|].
    right. left. split; [reflexivity|]. split; [exact H3|].
    rewrite Hr. destruct (endswith [101%N] (lower (strip adjective))); auto.
  - destruct (str_eqb (lower (strip language)) lang_es) eqn:Hes.
    + pose proof (suffix_rule_fixed 97%N (strip adjective) eq_refl eq_refl
                  Hne Hs) as Hx. cbv zeta in Hx.
      assert (Hr : r = if endswith [97%N] (lower (strip adjective))
                       then strip adjective else strip adjective ++ [97%N]).
      { unfold r, _default_feminine_by_suffix. cbv zeta.
        rewrite Hw. rewrite <- Hw. rewrite Hfr, Hes. reflexivity. }
      assert (Hx' : r <> [] /\ strip r = r
                    /\ endswith [97%N] (lower r) = true)
        by (rewrite Hr; exact Hx).
      destruct Hx' as [H1 [H2 H3]].
      split; [apply default_feminine_fixed; auto 6|]. split; [exact H2|].
      right. right. split; [reflexivity|]. split; [exact H3|].
      rewrite Hr. destruct (endswith [97%N] (lower (strip adjective))); auto.
    + assert (Hr : r = []).
      { unfold r, _default_feminine_by_suffix. cbv zeta.
        rewrite Hw, Hfr, Hes. reflexivity. }
      rewrite Hr. repeat split; auto.
Qed.

(* ===================================================================== *)
(** * 38. Linking statements                                              *)
(* ===================================================================== *)






(* ===================================================================== *)
(** * 39. The translation of a noun                                       *)
(* ===================================================================== *)

Lemma before_first_in (p : char -> bool) (s : str) (c : char) :
  In c (before_first p s) -> In c s /\ p c = false.
Proof.
  induction s as [|x r IH]; simpl; [intros []|].
  destruct (p x) eqn:Hx; [intros []|].
  intros [<- | H]; [auto|]. destruct (IH H). auto.
Qed.

Lemma scan_parenthetical_in (found : option str) (s r : str) (c : char) :
  scan_parenthetical found s = Some r -> In c r ->
  In c s \/ (found = Some r).
Proof.
  revert found. induction s as [|x s IH]; intros found; simpl.
  - intros -> _. right. reflexivity.
  - destruct (x =? 41)%N; [intros -> _; right; reflexivity|].
    destruct (x =? 40)%N.
    + intros H Hc. destruct (IH _ H Hc) as [Hin | He].
      * left. right. exact Hin.
      * injection He as <-. left. right. exact Hc.
    + intros H Hc. destruct (IH _ H Hc) as [Hin | He]; auto.
Qed.

Lemma drop_trailing_parenthetical_in (text : str) (c : char) :
  In c (drop_trailing_parenthetical text) -> In c text.
Proof.
  unfold drop_trailing_parenthetical.
  destruct (rev text) as [|x rest] eqn:Hr; [auto|].
  destruct (x =? 41)%N; [|auto].
  destruct (scan_parenthetical None rest) as [r|] eqn:Hs; [|auto].
  intros H. apply strip_by_incl in H. apply in_rev in H.
  destruct (scan_parenthetical_in None rest r c Hs H) as [Hin | He];
    [|discriminate].
  apply in_rev. rewrite Hr. right. exact Hin.
Qed.

Lemma skipn_in {A} (n : nat) (l : list A) (x : A) :
  In x (skipn n l) -> In x l.
Proof.
  revert l. induction n as [|n IH]; intros l; [auto|].
  destruct l as [|y l]; simpl; [auto|]. intros H. right. apply IH, H.
Qed.

Lemma drop_determiner_in (dets : list str) (text : str) (c : char) :
  In c (drop_determiner dets text) -> In c text.
Proof.
  induction dets as [|d r IH]; simpl; [auto|].
  match goal with
  | |- In c (if ?b then _ else _) -> _ => destruct b; [|exact IH]
  end.
  intros H. apply lstrip_by_incl in H. eapply skipn_in, H.
Qed.

(** X21: the translation [_normalize_spanish_noun_translation] returns
    never holds a comma, a semicolon or a vertical bar (the separators
    of the association): it is made of characters of the text in front
    of the first separator, with white space turned into single
    spaces; and it has no white space at its ends. *)
Theorem noun_translation_has_no_separator (translation : str) :
  let r := _normalize_spanish_noun_translation translation in
  (forall c, In c r ->
      is_note_separator c = false
      /\ (c = 32%N
          \/ In c (before_first is_note_separator (strip translation))))
  /\ strip r = r
  /\ collapse_ws r = r.
Proof.
  cbv zeta. unfold _normalize_spanish_noun_translation. cbv zeta.
  destruct (strip translation) as [|x0 t0] eqn:Ht.
  { split; [intros c [] | split; reflexivity]. }
  rewrite <- Ht. split; [|split].
  - intros c Hc.
    apply strip_by_incl in Hc. apply collapse_ws_from_in in Hc.
    destruct Hc as [-> | Hc]; [split; [reflexivity | left; reflexivity]|].
    apply strip_edge_punctuation_incl in Hc.
    apply strip_by_incl in Hc. apply drop_determiner_in in Hc.
    apply strip_by_incl in Hc. apply drop_trailing_parenthetical_in in Hc.
    apply strip_by_incl in Hc.
    destruct (before_first_in _ _ _ Hc) as [_ Hsep].
    split; [exact Hsep | right; exact Hc].
  - apply strip_idempotent.
  - apply collapse_fixed_strip_by. apply collapse_ws_from_idempotent.
Qed.

(* ===================================================================== *)
(** * 40. Verb phrases                                                    *)
(* ===================================================================== *)

Lemma accept_verb_phrase_correction_true (language original candidate : str) :
  _accept_verb_phrase_correction language original candidate = true ->
  strip candidate = strip original
  \/ (lower language = lang_fr
      /\ startswith [106; 101; 32]%N (lower (strip original)) = true
      /\ _starts_with_french_elision_sound
           (strip (skipn 3 (strip original))) = true
      /\ (strip candidate = elided_phrase apostrophe (strip original)
          \/ strip candidate = elided_phrase 8217%N (strip original))).
Proof.
  unfold _accept_verb_phrase_correction. cbv zeta.
  destruct (strip candidate) as [|c0 cand] eqn:Hc; [discriminate|].
  destruct (str_eqb (c0 :: cand) (strip original)) eqn:He.
  { intros _. left. apply str_eqb_eq. exact He. }
  destruct (str_eqb (lower language) lang_fr) eqn:Hl; [|discriminate].
  simpl negb. cbv iota.
  destruct (startswith [106; 101; 32]%N (lower (strip original))) eqn:Hs;
    [|discriminate].
  intros H. apply andb_true_iff in H. destruct H as [Hel Hor].
  right. split; [apply str_eqb_eq; exact Hl|].
  split; [reflexivity|]. split; [exact Hel|].
  apply orb_true_iff in Hor.
  destruct Hor as [H | H]; apply str_eqb_eq in H; [left | right]; exact H.
Qed.

(** X22: the transcription loop keeps the pronoun, the translation and
    the association of a verb entry, and it changes its phrase only in
    two ways: the phrase is stripped, or, in French, a phrase that
    starts with je followed by a verb with an elision sound is replaced
    by its elided form (with either apostrophe).  Whatever the service
    proposes besides that is not stored.  An entry whose phrase is
    blank is returned as it is. *)
Theorem verb_phrase_correction_only_elides_je
    (srv : service) (language : str) (entry : verb_entry) :
  let original := strip (ve_phrase entry) in
  let resolved := resolve_entry_ipa srv language entry in
  ve_pronoun resolved = ve_pronoun entry
  /\ ve_translation resolved = ve_translation entry
  /\ ve_association resolved = ve_association entry
  /\ (if nonempty original then
        ve_ipa resolved <> None
        /\ (ve_phrase resolved = original
            \/ (lower language = lang_fr
                /\ startswith [106; 101; 32]%N (lower original) = true
                /\ _starts_with_french_elision_sound
                     (strip (skipn 3 original)) = true
                /\ (ve_phrase resolved = elided_phrase apostrophe original
                    \/ ve_phrase resolved = elided_phrase 8217%N original)))
      else resolved = entry).
Proof.
  cbv zeta. unfold resolve_entry_ipa. cbv zeta.
  destruct (strip (ve_phrase entry)) as [|c0 orig] eqn:Ho.
  { repeat split; reflexivity. }
  assert (Hso : strip (c0 :: orig) = c0 :: orig)
    by (rewrite <- Ho; apply strip_idempotent).
  destruct (ir_parsed (srv_entry_ipa srv (c0 :: orig))) as [[mp mi]|].
  - match goal with
    | |- context [nonempty ?c && ?a] => destruct (nonempty c && a) eqn:Hacc
    end.
    + apply andb_true_iff in Hacc. destruct Hacc as [_ Hacc].
      apply accept_verb_phrase_correction_true in Hacc.
      rewrite strip_idempotent, Hso in Hacc.
      simpl. repeat split; try reflexivity; [discriminate|].
      destruct Hacc as [H | H]; [left | right]; exact H.
    + simpl. repeat split; try reflexivity; [discriminate|].
      left. reflexivity.
  - simpl. repeat split; try reflexivity; [discriminate|].
    left. reflexivity.
Qed.

Lemma prefix_stripped (c : char) (a w : str) :
  is_space c = false -> w <> [] -> strip w = w ->
  strip ((c :: a) ++ w) = (c :: a) ++ w.
Proof.
  intros Hc Hne Hs. apply strip_by_unchanged.
  - exact Hc.
  - pose proof (rev_head_app (c :: a) w Hne) as Hr.
    pose proof (stripped_last is_space w Hs) as Hl.
    destruct (rev ((c :: a) ++ w)) as [|x r]; [exact I|].
    destruct (rev w) as [|d r']; [contradiction|].
    rewrite Hr. exact Hl.
Qed.

Lemma normalize_fr_pronoun_nonempty (pronoun : str) :
  _normalize_fr_pronoun pronoun = str_je -> strip pronoun <> [].
Proof.
  unfold _normalize_fr_pronoun. cbv zeta. intros H He.
  rewrite He in H. discriminate.
Qed.

(** X23: in French, the phrase [_build_verb_phrase] makes of a first
    person singular pronoun (je, j, j with an apostrophe, in any case)
    and a verb form is accepted by [_accept_verb_phrase_correction] as
    a correction of the phrase je followed by the verb form: the
    builder elides exactly where the check allows it. *)
Theorem built_verb_phrase_accepted (language pronoun verb_form : str) :
  lower language = lang_fr ->
  _normalize_fr_pronoun (strip pronoun) = str_je ->
  strip verb_form <> [] ->
  _accept_verb_phrase_correction language (je_phrase (strip verb_form))
    (_build_verb_phrase language pronoun verb_form) = true.
Proof.
  intros Hl Hp Hv.
  pose proof (normalize_fr_pronoun_nonempty _ Hp) as Hpn.
  rewrite strip_idempotent in Hpn.
  assert (Hsv : strip (strip verb_form) = strip verb_form)
    by apply strip_idempotent.
  set (v := strip verb_form) in *.
  assert (Ho : strip (je_phrase v) = je_phrase v)
    by (apply prefix_stripped; [reflexivity | exact Hv | exact Hsv]).
  assert (Hb : _build_verb_phrase language pronoun verb_form
               = if _starts_with_french_elision_sound v
                 then [106%N; apostrophe] ++ v else je_phrase v).
  { unfold _build_verb_phrase. cbv zeta. fold v.
    destruct (strip pronoun) as [|p0 pr] eqn:Hsp; [contradiction|].
    destruct v as [|v0 vr] eqn:Hve; [contradiction|].
    rewrite Hl, str_eqb_refl, Hp, str_eqb_refl. simpl andb.
    destruct (_starts_with_french_elision_sound (v0 :: vr)); reflexivity. }
  rewrite Hb. unfold _accept_verb_phrase_correction. cbv zeta.
  rewrite Ho, Hl, str_eqb_refl. simpl negb. cbv iota.
  destruct (_starts_with_french_elision_sound v) eqn:Hel.
  - assert (Hc : strip ([106%N; apostrophe] ++ v) = [106%N; apostrophe] ++ v)
      by (apply prefix_stripped; [reflexivity | exact Hv | exact Hsv]).
    rewrite Hc.
    change (([106%N; apostrophe] ++ v)) with (106%N :: apostrophe :: v).
    cbv iota.
    destruct (str_eqb (106%N :: apostrophe :: v) (je_phrase v));
      [reflexivity|].
    assert (Hst : startswith [106; 101; 32]%N (lower (je_phrase v)) = true).
    { unfold je_phrase. rewrite lower_app. apply startswith_self_app. }
    rewrite Hst.
    change (skipn 3 (je_phrase v)) with v. rewrite Hsv, Hel.
    change ([106%N; apostrophe] ++ v) with (106%N :: apostrophe :: v).
    rewrite str_eqb_refl. reflexivity.
  - rewrite Ho. unfold je_phrase at 1. simpl app. cbv iota.
    change (106%N :: 101%N :: 32%N :: v) with (je_phrase v).
    rewrite str_eqb_refl. reflexivity.
Qed.

Lemma built_verb_phrase_accepted_witness :
  lower lang_fr = lang_fr
  /\ _normalize_fr_pronoun (strip (u8 "J'")) = str_je
  /\ strip (u8 "aime") <> []
  /\ _build_verb_phrase lang_fr (u8 "J'") (u8 "aime") = u8 "j'aime"
  /\ _accept_verb_phrase_correction lang_fr (je_phrase (strip (u8 "aime")))
       (_build_verb_phrase lang_fr (u8 "J'") (u8 "aime")) = true.
Proof.
  assert (H1 : lower lang_fr = lang_fr) by (vm_compute; reflexivity).
  assert (H2 : _normalize_fr_pronoun (strip (u8 "J'")) = str_je)
    by (vm_compute; reflexivity).
  assert (H3 : strip (u8 "aime") <> []) by (vm_compute; discriminate).
  split; [exact H1|]. split; [exact H2|]. split; [exact H3|].
  split; [vm_compute; reflexivity|].
  exact (built_verb_phrase_accepted lang_fr (u8 "J'") (u8 "aime") H1 H2 H3).
Defined.

(* ===================================================================== *)
(** * 41. The part of speech                                              *)
(* ===================================================================== *)

Lemma parse_pos_field_rows (pos_value : json_pos) :
  In (_parse_pos_field pos_value)
     [(false, false, true, pos_adjective); (true, true, false, pos_noun_verb);
      (true, false, false, pos_noun); (false, true, false, pos_verb);
      (false, false, false, pos_other); (false, false, false, [])].
Proof.
  unfold _parse_pos_field. cbv zeta.
  repeat match goal with
         | |- In (if ?b then _ else _) _ => destruct b
         end; simpl; tauto.
Qed.

(** X24: whatever the two replies hold, the flags and the tag that the
    part of speech stage passes on agree: an adjective is neither noun
    nor verb and is tagged adjective; noun and verb together are tagged
    noun_verb, a noun alone noun, a verb alone verb; and without any
    flag the tag is other or empty. *)
Theorem classification_flags_agree_with_tag
    (language palabra : str) (pos_field : json_pos) (lemma_field : str)
    (check : verb_check) :
  label_agrees
    (classification_stage language palabra pos_field lemma_field check)
  = true.
Proof.
  unfold classification_stage. cbv zeta.
  pose proof (parse_pos_field_rows pos_field) as Hrows.
  destruct (_parse_pos_field pos_field) as [[[n v] a] p].
  destruct (str_eqb (lower language) lang_fr);
    destruct (_is_fr_common_adverb palabra);
    destruct (_is_fr_ambiguous_noun_verb_token palabra);
    destruct (_looks_like_fr_conjugated_verb_form palabra);
    destruct (vc_is_verb check);
    simpl in Hrows;
    repeat (destruct Hrows as [Hrows | Hrows];
            [injection Hrows as <- <- <- <-; reflexivity|]);
    contradiction.
Qed.

(** X25: in French, a common adverb of the list leaves the part of
    speech stage tagged other, without any flag and without lemma,
    whatever the replies of the service say; the plural step that
    follows then keeps the word as it was typed (toujours is not turned
    into a singular). *)
Theorem common_adverb_overrides_classification
    (language palabra : str) (pos_field : json_pos) (lemma_field : str)
    (check : verb_check) :
  lower language = lang_fr ->
  _is_fr_common_adverb palabra = true ->
  let c := classification_stage language palabra pos_field lemma_field
             check in
  c = {| is_noun := false; is_verb := false; is_adjective := false;
         pos := pos_other; lemma := [] |}
  /\ noun_plural_step language c palabra = palabra.
Proof.
  intros Hl Ha. cbv zeta.
  assert (Hc : classification_stage language palabra pos_field lemma_field
                 check
               = {| is_noun := false; is_verb := false;
                    is_adjective := false; pos := pos_other;
                    lemma := [] |}).
  { unfold classification_stage. cbv zeta.
    destruct (_parse_pos_field pos_field) as [[[n v] a] p].
    rewrite Hl, Ha, str_eqb_refl. reflexivity. }
  rewrite Hc. split; [reflexivity|].
  unfold noun_plural_step. cbv zeta. simpl is_noun.
  rewrite andb_false_r. reflexivity.
Qed.

Lemma common_adverb_overrides_classification_witness :
  lower lang_fr = lang_fr
  /\ _is_fr_common_adverb (u8 "Toujours") = true
  /\ noun_plural_step lang_fr
       {| is_noun := true; is_verb := false; is_adjective := false;
          pos := pos_noun; lemma := [] |} (u8 "Toujours")
     = u8 "Toujour"
  /\ (let c := classification_stage lang_fr (u8 "Toujours")
                 (PosStr pos_noun) []
                 {| vc_is_verb := false; vc_lemma := None |} in
      c = {| is_noun := false; is_verb := false; is_adjective := false;
             pos := pos_other; lemma := [] |}
      /\ noun_plural_step lang_fr c (u8 "Toujours") = u8 "Toujours").
Proof.
  assert (H1 : lower lang_fr = lang_fr) by (vm_compute; reflexivity).
  assert (H2 : _is_fr_common_adverb (u8 "Toujours") = true)
    by (vm_compute; reflexivity).
  split; [exact H1|]. split; [exact H2|].
  split; [vm_compute; reflexivity|].
  exact (common_adverb_overrides_classification lang_fr (u8 "Toujours")
           (PosStr pos_noun) [] {| vc_is_verb := false; vc_lemma := None |}
           H1 H2).
Defined.

(* ===================================================================== *)
(** * 42. The details of a noun                                           *)
(* ===================================================================== *)

Lemma enforce_elision_fits (palabra article : str) :
  In article fr_stored_articles ->
  article_fits palabra (enforce_elision palabra article).
Proof.
  intros Hin. unfold enforce_elision.
  destruct (_starts_with_french_elision_sound palabra) eqn:He.
  - unfold fr_stored_articles in Hin. cbn [In] in Hin.
    repeat (destruct Hin as [<- | Hin];
            [split; [vm_compute; tauto
                    | intros _; split; intros Hc; vm_compute in Hc;
                      discriminate Hc]|]).
    destruct Hin.
  - rewrite andb_false_r. split; [exact Hin | congruence].
Qed.

Lemma spaced_article_stored (article : str) :
  In article fr_stored_articles ->
  In (if mem_str (lower (strip article)) [str_le; str_la]
         || mem_str (lower (strip article)) [str_le; str_la]
      then lower (strip article) ++ [32%N] else article)
     fr_stored_articles.
Proof.
  intros Hin. unfold fr_stored_articles in Hin. cbn [In] in Hin.
  repeat (destruct Hin as [<- | Hin]; [vm_compute; tauto|]).
  destruct Hin.
Qed.

Lemma empty_article_fits (palabra : str) : article_fits palabra [].
Proof.
  split; [left; reflexivity | intros _; split; intros Hc; discriminate Hc].
Qed.

Lemma gender_from_base_article_value (base : str) :
  gender_value (gender_from_base_article base).
Proof.
  unfold gender_from_base_article, gender_value.
  destruct (str_eqb base str_le); [simpl; tauto|].
  destruct (str_eqb base str_la); simpl; tauto.
Qed.

Lemma normalize_fr_gender_value (value : option str) :
  gender_value (_normalize_fr_gender value).
Proof.
  unfold gender_value.
  destruct (normalize_fr_gender_values value) as [-> | [-> | ->]];
    simpl; tauto.
Qed.

Lemma str_or_value (a b : str) :
  gender_value a -> gender_value b -> gender_value (str_or a b).
Proof. intros Ha Hb. destruct a; [exact Hb | exact Ha]. Qed.

Lemma gender_choice_value (c : bool) : gender_value (if c then str_m else str_f).
Proof. destruct c; unfold gender_value; simpl; tauto. Qed.

Lemma noun_details_stage_invariant
    (language palabra pos_label : str) (adjective : bool)
    (reply retry : option noun_reply) :
  gender_value
    (nd_gender (noun_details_stage language palabra pos_label adjective
                  reply retry))
  /\ (lower language = lang_fr ->
      article_fits palabra
        (nd_article (noun_details_stage language palabra pos_label
                       adjective reply retry))).
Proof.
  unfold noun_details_stage.
  destruct reply as [parsed_noun|];
    [|split; [left; reflexivity | intros _; apply empty_article_fits]].
  cbv zeta.
  set (a0 := _normalize_article (opt_get (nr_article parsed_noun)) language).
  pose proof (str_or_value _ _
                (gender_from_base_article_value
                   (_normalize_fr_base_article
                      (opt_or (nr_base_article parsed_noun)
                              (nr_article_base parsed_noun))))
                (normalize_fr_gender_value
                   (opt_or (nr_gender parsed_noun) (nr_genre parsed_noun))))
    as Hs0.
  revert Hs0.
  generalize (str_or
                (gender_from_base_article
                   (_normalize_fr_base_article
                      (opt_or (nr_base_article parsed_noun)
                              (nr_article_base parsed_noun))))
                (_normalize_fr_gender
                   (opt_or (nr_gender parsed_noun) (nr_genre parsed_noun)))).
  intros s0 Hs0.
  destruct (str_eqb (lower language) lang_fr) eqn:Hfr.
  - pose proof (normalize_article_fr (opt_get (nr_article parsed_noun))
                  language Hfr) as Ha0.
    fold a0 in Ha0. fold fr_stored_articles in Ha0.
    pose proof (spaced_article_stored a0 Ha0) as Hsp.
    assert (Hretry : forall r,
               In (_normalize_article (opt_get (nr_article r)) language)
                  fr_stored_articles)
      by (intros r; apply normalize_article_fr; exact Hfr).
    clearbody a0.
    repeat first
      [ progress cbv beta iota zeta
      | match goal with
        | |- context [match retry with _ => _ end] => destruct retry
        | |- context [if ?b then _ else _] => destruct b eqn:?
        end ].
    all: split;
      [ repeat first
          [ assumption | apply str_or_value
          | apply gender_from_base_article_value
          | apply normalize_fr_gender_value
          | apply gender_choice_value
          | (left; reflexivity) | (right; left; reflexivity)
          | (right; right; left; reflexivity) ]
      | intros _;
        first [ apply empty_article_fits
              | apply enforce_elision_fits;
                first [ exact Ha0 | exact Hsp | apply Hretry ] ] ].
  - cbn [andb]. cbv beta iota zeta. split.
    + match goal with
      | |- context [if ?b then _ else _] => destruct b
      end; left; reflexivity.
    + intros Hl. rewrite Hl in Hfr. vm_compute in Hfr. discriminate Hfr.
Qed.

(** X26: the gender the noun branch settles is m, f or empty; and in
    French the article it settles is empty or one of le, la, les (each
    followed by a space) and the two elided forms, and it is never le
    or la for a word that begins with a vowel or h, whatever the two
    replies of the service hold. *)
Theorem french_noun_article_respects_elision
    (language palabra pos_label : str) (adjective : bool)
    (reply retry : option noun_reply) :
  let d :=
    noun_details_stage language palabra pos_label adjective reply retry in
  In (nd_gender d) [[]; str_m; str_f]
  /\ (lower language = lang_fr ->
      In (nd_article d) fr_stored_articles
      /\ (_starts_with_french_elision_sound palabra = true ->
          nd_article d <> str_le ++ [32%N]
          /\ nd_article d <> str_la ++ [32%N])).
Proof.
  cbv zeta.
  exact (noun_details_stage_invariant language palabra pos_label adjective
           reply retry).
Qed.

Lemma accept_phrase_correction_fits
    (language phrase article palabra candidate : str) :
  (lower language = lang_fr -> article_fits palabra article) ->
  _accept_phrase_correction language phrase article palabra candidate
  = true ->
  strip candidate = phrase.
Proof.
  intros Hfit. unfold _accept_phrase_correction. cbv zeta.
  destruct (strip candidate) as [|c0 cand] eqn:Hc; [discriminate|].
  destruct (str_eqb (c0 :: cand) phrase) eqn:He.
  { intros _. apply str_eqb_eq. exact He. }
  destruct (str_eqb (lower language) lang_fr) eqn:Hl; [|discriminate].
  change (negb true) with false. cbv iota.
  apply str_eqb_eq in Hl. destruct (Hfit Hl) as [Hin Hnot].
  destruct (_starts_with_french_elision_sound palabra) eqn:Hel.
  - destruct (Hnot eq_refl) as [Hle Hla].
    unfold fr_stored_articles in Hin. cbn [In] in Hin.
    destruct Hin as [<- | Hin]; [intros H; vm_compute in H; discriminate H|].
    destruct Hin as [<- | Hin]; [contradiction Hle; reflexivity|].
    destruct Hin as [<- | Hin]; [contradiction Hla; reflexivity|].
    repeat (destruct Hin as [<- | Hin];
            [intros H; vm_compute in H; discriminate H|]).
    destruct Hin.
  - match goal with
    | |- context [negb (mem_str ?a ?b)] => destruct (negb (mem_str a b))
    end; discriminate.
Qed.

(** X27: a phrase correction proposed with the transcription of a noun
    is accepted only when, stripped, it is the phrase that was sent:
    the article the noun branch settles is already elided where the
    check would allow the change from le or la to the elided form. *)
Theorem noun_phrase_correction_keeps_phrase
    (language palabra pos_label : str) (adjective : bool)
    (reply retry : option noun_reply) (phrase candidate : str) :
  let d :=
    noun_details_stage language palabra pos_label adjective reply retry in
  _accept_phrase_correction language phrase (nd_article d) palabra candidate
  = true ->
  strip candidate = phrase.
Proof.
  cbv zeta. apply accept_phrase_correction_fits.
  apply (noun_details_stage_invariant language palabra pos_label adjective
           reply retry).
Qed.

Lemma noun_phrase_correction_keeps_phrase_witness :
  nd_article (noun_details_stage lang_fr str_ete pos_noun false
                (Some reply_le_verano) None) = str_l_apostrophe
  /\ _accept_phrase_correction lang_fr (u8 "l'été")
       (nd_article (noun_details_stage lang_fr str_ete pos_noun false
                      (Some reply_le_verano) None))
       str_ete (u8 "l'été ") = true
  /\ strip (u8 "l'été ") = u8 "l'été".
Proof.
  assert (H : _accept_phrase_correction lang_fr (u8 "l'été")
                (nd_article (noun_details_stage lang_fr str_ete pos_noun
                               false (Some reply_le_verano) None))
                str_ete (u8 "l'été ") = true)
    by (vm_compute; reflexivity).
  split; [vm_compute; reflexivity|]. split; [exact H|].
  exact (noun_phrase_correction_keeps_phrase lang_fr str_ete pos_noun false
           (Some reply_le_verano) None (u8 "l'été") (u8 "l'été ") H).
Defined.

(* ===================================================================== *)
(** * 43. Texts with exact lower case                                     *)
(* ===================================================================== *)

Lemma lower_exact_lower_char (c : char) :
  lower_exact c = true -> lower_exact (lower_char c) = true.
Proof.
  intros H. unfold lower_char.
  destruct ((65 <=? c) && (c <=? 90))%N eqn:H1.
  { apply andb_true_iff in H1. destruct H1 as [Ha Hb].
    apply N.leb_le in Ha, Hb. unfold lower_exact.
    replace (c + 32 <? 256)%N with true; [reflexivity|].
    symmetry. apply N.ltb_lt. lia. }
  destruct ((192 <=? c) && (c <=? 222) && negb (c =? 215))%N eqn:H2.
  { apply andb_true_iff in H2. destruct H2 as [H2 _].
    apply andb_true_iff in H2. destruct H2 as [Ha Hb].
    apply N.leb_le in Ha, Hb. unfold lower_exact.
    replace (c + 32 <? 256)%N with true; [reflexivity|].
    symmetry. apply N.ltb_lt. lia. }
  destruct (c =? 338)%N; [reflexivity|].
  destruct (c =? 376)%N; [reflexivity|].
  destruct (c =? 7838)%N; [reflexivity|].
  exact H.
Qed.

Lemma lower_exact_text_In (s : str) :
  lower_exact_text s = true <-> (forall c, In c s -> lower_exact c = true).
Proof. apply forallb_forall. Qed.

Lemma lower_exact_text_sub (s r : str) :
  (forall c, In c r -> c = 32%N \/ c = apostrophe \/ In c s) ->
  lower_exact_text s = true -> lower_exact_text r = true.
Proof.
  intros Hsub Hs. apply lower_exact_text_In. intros c Hc.
  destruct (Hsub c Hc) as [-> | [-> | Hin]]; [reflexivity | reflexivity |].
  eapply lower_exact_text_In; eassumption.
Qed.

Lemma lower_exact_text_lower (s : str) :
  lower_exact_text s = true -> lower_exact_text (lower s) = true.
Proof.
  intros Hs. apply lower_exact_text_In. intros c Hc.
  unfold lower in Hc. apply in_map_iff in Hc. destruct Hc as [x [<- Hx]].
  apply lower_exact_lower_char. eapply lower_exact_text_In; eassumption.
Qed.

Lemma normalize_apostrophes_in (text : str) (c : char) :
  In c (_normalize_apostrophes text) -> c = apostrophe \/ In c text.
Proof.
  unfold _normalize_apostrophes. intros H. apply in_map_iff in H.
  destruct H as [x [<- Hx]].
  destruct (mem_char x _UNICODE_APOSTROPHES); [left; reflexivity | right; exact Hx].
Qed.

Lemma normalize_user_text_exact (language text : str) :
  lower_exact_text text = true ->
  lower_exact_text (_normalize_user_text language text) = true.
Proof.
  intros H. rewrite normalize_user_text_unfold. cbv zeta.
  assert (Ht : lower_exact_text
                 (strip (collapse_ws
                    (_strip_edge_punctuation (_normalize_apostrophes text))))
               = true).
  { apply (lower_exact_text_sub text); [|exact H].
    intros c Hc. apply strip_by_incl in Hc.
    apply collapse_ws_from_in in Hc. destruct Hc as [-> | Hc]; [auto|].
    apply strip_edge_punctuation_incl in Hc.
    apply normalize_apostrophes_in in Hc. destruct Hc; auto. }
  destruct (is_fr_or_de (lower language)); [|exact Ht].
  apply lower_exact_text_lower, Ht.
Qed.

Lemma storage_form_exact (language phrase : str) :
  lower_exact_text phrase = true ->
  lower_exact_text (_normalize_phrase_for_tts_storage language phrase) = true.
Proof.
  intros H. unfold _normalize_phrase_for_tts_storage. cbv zeta.
  pose proof (normalize_user_text_exact (lower (strip language)) phrase H)
    as Hn.
  destruct (_normalize_user_text (lower (strip language)) phrase)
    as [|x r] eqn:Hs; [reflexivity|].
  rewrite <- Hs in *.
  match goal with
  | |- lower_exact_text (if _ then lower ?t else ?t) = true =>
    assert (Ht : lower_exact_text t = true)
  end.
  { apply (lower_exact_text_sub
             (_normalize_user_text (lower (strip language)) phrase));
      [|exact Hn].
    intros c Hc. apply strip_by_incl in Hc.
    apply collapse_ws_from_in in Hc. destruct Hc as [-> | Hc]; [auto|].
    apply in_map_iff in Hc. destruct Hc as [y [Hy Hin]].
    destruct (mem_char y punct_no_apostrophe); [left; auto|].
    subst y. apply replace_char_empty_in in Hin. right. right. apply Hin. }
  destruct (is_fr_or_de (lower (strip language))); [|exact Ht].
  apply lower_exact_text_lower, Ht.
Qed.

Lemma re_split_runs_from_incl (p : char -> bool) (b : bool) (cur s piece : str)
    (c : char) :
  In piece (re_split_runs_from p b cur s) -> In c piece ->
  In c cur \/ In c s.
Proof.
  revert b cur. induction s as [|x s IH]; intros b cur; simpl.
  - intros [<- | []] Hc. left. apply in_rev. exact Hc.
  - destruct (p x).
    + destruct b.
      * intros Hp Hc. destruct (IH _ _ Hp Hc); auto.
      * intros [<- | Hp] Hc; [left; apply in_rev; exact Hc|].
        destruct (IH _ _ Hp Hc) as [[] | H]. auto.
    + intros Hp Hc. destruct (IH _ _ Hp Hc) as [[<- | H] | H]; auto.
Qed.

Lemma tokenize_part_exact (language part tok : str) :
  lower_exact_text part = true ->
  tokenize_part language part = Some tok ->
  lower_exact_text tok = true.
Proof.
  intros H. unfold tokenize_part. cbv zeta.
  destruct (_normalize_apostrophes (strip part)) as [|x r] eqn:Hp;
    [discriminate|]. rewrite <- Hp.
  assert (Hq : lower_exact_text
                 (strip_chars token_strip_chars
                    (_normalize_apostrophes (strip part))) = true).
  { apply (lower_exact_text_sub part); [|exact H].
    intros c Hc. apply strip_by_incl in Hc.
    apply normalize_apostrophes_in in Hc. destruct Hc as [-> | Hc]; [auto|].
    apply strip_by_incl in Hc. auto. }
  destruct (strip_chars token_strip_chars
              (_normalize_apostrophes (strip part))) as [|y q] eqn:Hsq;
    [discriminate|]. rewrite <- Hsq in *.
  match goal with
  | |- Some (if _ then _fr_drop_contraction_prefix ?t else ?t) = _ -> _ =>
    assert (Ht : lower_exact_text t = true)
  end.
  { destruct (is_fr_or_de (lower language)); [|exact Hq].
    apply lower_exact_text_lower, Hq. }
  destruct (str_eqb (lower language) lang_fr); intros E; injection E as <-;
    [|exact Ht].
  eapply lower_exact_text_sub; [|exact Ht].
  intros c Hc. apply drop_contraction_prefix_incl in Hc. auto.
Qed.

Lemma tokenize_phrase_exact (language phrase tok : str) :
  lower_exact_text phrase = true ->
  In tok (_tokenize_phrase language phrase) ->
  lower_exact_text tok = true.
Proof.
  intros H. unfold _tokenize_phrase. cbv zeta.
  pose proof (normalize_user_text_exact language phrase H) as Hn.
  destruct (_normalize_user_text language phrase) as [|x r] eqn:Hs;
    [intros []|]. rewrite <- Hs in *.
  intros Hin. apply in_filter_map in Hin. destruct Hin as [part [Hpart Htok]].
  eapply tokenize_part_exact; [|exact Htok].
  eapply lower_exact_text_sub; [|exact Hn].
  intros c Hc. unfold re_split_ws, re_split_runs in Hpart.
  destruct (re_split_runs_from_incl _ _ _ _ _ c Hpart Hc) as [[] | Hin].
  auto.
Qed.

(** X1: for a text of code points on which [lower_char] is
    [str.lower], the text [_normalize_user_text] returns is again made
    of such code points, has no white space at its ends, its only
    white-space characters are single spaces, it holds none of the
    typographic apostrophes, and for French and German it is in lower
    case. *)
Theorem normalized_text_shape (language text : str) :
  lower_exact_text text = true ->
  let r := _normalize_user_text language text in
  lower_exact_text r = true
  /\ strip r = r
  /\ (forall c, In c r -> is_space c = true -> c = 32%N)
  /\ contains [32%N; 32%N] r = false
  /\ (forall c, In c r -> mem_char c _UNICODE_APOSTROPHES = false)
  /\ lower r = (if is_fr_or_de (lower language) then r else lower r).
Proof.
  intros Hx. cbv zeta.
  destruct (normalize_user_text_shape language text) as [Hs [Hc [Ha Hl]]].
  cbv zeta in Hs, Hc, Ha, Hl.
  destruct (collapse_fixed_spaces false _ Hc) as [H1 H2].
  split; [apply normalize_user_text_exact, Hx|].
  repeat split; auto.
  destruct (is_fr_or_de (lower language)); auto.
Qed.

Lemma normalized_text_shape_witness :
  lower_exact_text typed_ecole = true
  /\ _normalize_user_text lang_fr typed_ecole = u8 "l'école"
  /\ lower (_normalize_user_text lang_fr typed_ecole)
     = _normalize_user_text lang_fr typed_ecole.
Proof.
  assert (H : lower_exact_text typed_ecole = true) by (vm_compute; reflexivity).
  split; [exact H|]. split; [vm_compute; reflexivity|].
  exact (proj2 (proj2 (proj2 (proj2 (proj2
           (normalized_text_shape lang_fr typed_ecole H)))))).
Defined.

(** X2: for a text of code points on which [lower_char] is
    [str.lower], normalizing the normalized text again changes it
    exactly when it begins or ends with a character of the edge
    punctuation (which happens when that character stood next to a
    space): then the second pass strips it. *)
Theorem second_pass_changes_only_edge_punctuation (language text : str) :
  lower_exact_text text = true ->
  let r := _normalize_user_text language text in
  lower_exact_text r = true
  /\ (_normalize_user_text language r = r
      <-> strip_chars edge_strip_chars r = r)
  /\ _normalize_user_text language r
     = (let t := strip (collapse_ws (strip_chars edge_strip_chars r)) in
        if is_fr_or_de (lower language) then lower t else t).
Proof.
  intros Hx. cbv zeta. split; [apply normalize_user_text_exact, Hx|]. split.
  - apply normalize_user_text_second_pass_iff.
  - destruct (normalize_user_text_shape language text) as [Hs [_ [Ha _]]].
    apply normalize_pass_of_normalized; assumption.
Qed.

Lemma second_pass_changes_only_edge_punctuation_witness :
  lower_exact_text str_quoi_2 = true
  /\ _normalize_user_text lang_fr str_quoi_2 = str_quoi_1
  /\ strip_chars edge_strip_chars str_quoi_1 <> str_quoi_1
  /\ _normalize_user_text lang_fr (_normalize_user_text lang_fr str_quoi_2)
     = str_quoi.
Proof.
  assert (H : lower_exact_text str_quoi_2 = true) by (vm_compute; reflexivity).
  split; [exact H|]. split; [vm_compute; reflexivity|].
  split; [vm_compute; discriminate|].
  rewrite (proj2 (proj2
             (second_pass_changes_only_edge_punctuation lang_fr str_quoi_2 H))).
  vm_compute. reflexivity.
Defined.

(** X3: for a phrase of code points on which [lower_char] is
    [str.lower], the storage form is again made of such code points,
    holds no apostrophe (ASCII or typographic) and no punctuation
    character of the list, has no white space at its ends, its only
    white-space characters are single spaces, and for French and German
    it is in lower case. *)
Theorem storage_form_shape (language phrase : str) :
  lower_exact_text phrase = true ->
  let t := _normalize_phrase_for_tts_storage language phrase in
  lower_exact_text t = true
  /\ strip t = t
  /\ (forall c, In c t -> is_space c = true -> c = 32%N)
  /\ contains [32%N; 32%N] t = false
  /\ (forall c, In c t ->
        c <> apostrophe
        /\ mem_char c punct_no_apostrophe = false
        /\ mem_char c _UNICODE_APOSTROPHES = false)
  /\ lower t = (if is_fr_or_de (lower (strip language)) then t else lower t).
Proof.
  intros Hx. cbv zeta.
  destruct (tts_storage_shape language phrase) as [Hs [Hc [Hr Hl]]].
  cbv zeta in Hs, Hc, Hr, Hl.
  destruct (collapse_fixed_spaces false _ Hc) as [H1 H2].
  split; [apply storage_form_exact, Hx|].
  repeat split; auto.
  - destruct (tts_removed_parts c (Hr c H)) as [Ha _].
    apply N.eqb_neq. exact Ha.
  - apply (tts_removed_parts c (Hr c H)).
  - apply (tts_removed_parts c (Hr c H)).
  - destruct (is_fr_or_de (lower (strip language))); auto.
Qed.

Lemma storage_form_shape_witness :
  lower_exact_text nous_avons_typed = true
  /\ _normalize_phrase_for_tts_storage lang_fr nous_avons_typed = nous_avons
  /\ lower (_normalize_phrase_for_tts_storage lang_fr nous_avons_typed)
     = _normalize_phrase_for_tts_storage lang_fr nous_avons_typed.
Proof.
  assert (H : lower_exact_text nous_avons_typed = true)
    by (vm_compute; reflexivity).
  split; [exact H|]. split; [vm_compute; reflexivity|].
  exact (proj2 (proj2 (proj2 (proj2 (proj2
           (storage_form_shape lang_fr nous_avons_typed H)))))).
Defined.

(** X7: for a phrase of code points on which [lower_char] is
    [str.lower], the tokens are again made of such code points, are
    non-empty and hold no white space; for French and German they are
    in lower case; and there is at most one token for each white-space
    separated word of the normalized phrase. *)
Theorem tokens_shape (language phrase : str) :
  lower_exact_text phrase = true ->
  Forall (fun tok =>
            lower_exact_text tok = true
            /\ tok <> []
            /\ (forall c, In c tok -> is_space c = false)
            /\ lower tok
               = (if is_fr_or_de (lower language) then tok else lower tok))
         (_tokenize_phrase language phrase)
  /\ (length (_tokenize_phrase language phrase)
      <= length (split_ws (_normalize_user_text language phrase)))%nat.
Proof.
  intros Hx. split.
  - apply Forall_forall. intros tok Hin.
    split; [eapply tokenize_phrase_exact; eassumption|].
    revert Hin. unfold _tokenize_phrase.
    destruct (_normalize_user_text language phrase) as [|x r] eqn:Hn;
      [intros []|].
    rewrite <- Hn. intros Hin.
    apply in_filter_map in Hin. destruct Hin as [part [Hpart Htok]].
    pose proof (re_split_ws_no_space _ _ Hpart) as Hns.
    destruct (tokenize_part_shape language part tok Hns Htok) as [H1 H2].
    split; [exact H1|]. split; [|exact H2].
    exact (tokenize_part_no_space language part tok Hns Htok).
  - unfold _tokenize_phrase.
    destruct (_normalize_user_text language phrase) as [|x r] eqn:Hn;
      [simpl; lia|].
    rewrite <- Hn.
    unfold split_ws. apply filter_map_length_le.
    intros part tok. apply tokenize_part_nonempty_part.
Qed.

Lemma tokens_shape_witness :
  lower_exact_text typed_mes_amis = true
  /\ _tokenize_phrase lang_fr typed_mes_amis = [u8 "mes"; u8 "amis"]
  /\ (length (_tokenize_phrase lang_fr typed_mes_amis)
      <= length (split_ws (_normalize_user_text lang_fr typed_mes_amis)))%nat.
Proof.
  assert (H : lower_exact_text typed_mes_amis = true)
    by (vm_compute; reflexivity).
  split; [exact H|]. split; [vm_compute; reflexivity|].
  exact (proj2 (tokens_shape lang_fr typed_mes_amis H)).
Defined.

(** X8: for tokens of code points on which [lower_char] is
    [str.lower], the unique tokens of [_prepare_phrase_actions] are
    again made of such code points, are pairwise different when compared in lower case, every token of the
    phrase is represented by a unique token with the same lower-case
    form, every unique token is a token of the phrase, and the first
    token stays first. *)
Theorem unique_tokens_properties (tokens : list str) :
  forallb lower_exact_text tokens = true ->
  forallb lower_exact_text (dedupe_tokens [] tokens) = true
  /\ NoDup (map lower (dedupe_tokens [] tokens))
  /\ incl (map lower tokens) (map lower (dedupe_tokens [] tokens))
  /\ incl (dedupe_tokens [] tokens) tokens
  /\ hd_error (dedupe_tokens [] tokens) = hd_error tokens.
Proof.
  intros Hx.
  destruct (dedupe_tokens_keys [] tokens) as [H1 [_ H3]].
  split.
  { apply forallb_forall. intros t Ht. apply dedupe_tokens_incl in Ht.
    rewrite forallb_forall in Hx. apply Hx, Ht. }
  repeat split.
  - exact H1.
  - intros k Hk. apply in_map_iff in Hk. destruct Hk as [t [<- Ht]].
    destruct (H3 t Ht) as [[] | H]. exact H.
  - intros t Ht. eapply dedupe_tokens_incl, Ht.
  - apply dedupe_tokens_head.
Qed.

Lemma unique_tokens_properties_witness :
  forallb lower_exact_text repeated_tokens = true
  /\ dedupe_tokens [] repeated_tokens = [u8 "Le"; u8 "chat"]
  /\ NoDup (map lower (dedupe_tokens [] repeated_tokens)).
Proof.
  assert (H : forallb lower_exact_text repeated_tokens = true)
    by (vm_compute; reflexivity).
  split; [exact H|]. split; [vm_compute; reflexivity|].
  exact (proj1 (proj2 (unique_tokens_properties repeated_tokens H))).
Defined.

(** C8: for a French single-token input classified as noun and not as
    verb, a token matching the safe plural suffix rule is replaced by
    its singular candidate (the token without its last letter) before
    the details are resolved and the statements are compiled; a token
    that does not match the rule is left unchanged.  The input is a
    text of code points on which [lower_char] is [str.lower], and so is
    the token. *)
Theorem french_plural_noun_stored_singular
    env srv palabra list_id language user_id rejected_words_table
    expand_verbs a :
  let clean := _normalize_user_text language palabra in
  let token := _fr_drop_contraction_prefix clean in
  lower_exact_text palabra = true ->
  env_api_key env = true ->
  lower language = lang_fr ->
  clean <> [] ->
  existsb is_space clean = false ->
  is_noun (srv_classify srv token) = true ->
  is_verb (srv_classify srv token) = false ->
  prepare_word_actions env srv palabra list_id language user_id
    rejected_words_table expand_verbs = Ok a ->
  lower_exact_text token = true
  /\ a_word a = (if matches_plural_rule token then drop_last token else token)
  /\ a_pos a = dt_pos (srv_details srv (a_word a) (srv_classify srv token))
  /\ exists g,
       hd_error (a_queries a)
       = Some (InsertWord g (a_word a) (a_association a) list_id
                 (a_ipa_word a)).
Proof.
  intros clean token Hx Hkey Hlang Hne Hns Hnoun Hverb H.
  destruct (french_tag language Hlang) as [Hfr Hfd].
  rewrite prepare_word_actions_unfold in H.
  apply bind_ok in H. destruct H as [[[uid table] ln] [_ H]].
  cbv zeta in H. fold clean in H.
  assert (Hph : is_phrase_input clean = false).
  { unfold is_phrase_input. rewrite Hns, andb_false_r. reflexivity. }
  rewrite Hph, Hlang in H.
  assert (Hlf : str_eqb lang_fr lang_fr = true) by apply str_eqb_refl.
  rewrite Hlf in H.
  assert (Htok : match clean with [] => palabra | _ :: _ => token end = token).
  { destruct clean; [contradiction | reflexivity]. }
  fold token in H. rewrite Htok in H.
  assert (Hclean_ns : no_space clean) by (apply no_space_existsb, Hns).
  assert (Htns : no_space token).
  { intros c Hc. apply Hclean_ns. eapply drop_contraction_prefix_incl, Hc. }
  assert (Htl : lower token = token).
  { apply lower_fixed. intros c Hc.
    apply drop_contraction_prefix_incl in Hc.
    unfold clean, _normalize_user_text in Hc. rewrite Hfd in Hc.
    eapply lower_chars_fixed, Hc. }
  assert (Htne : token <> []).
  { unfold token, _fr_drop_contraction_prefix.
    rewrite (strip_no_space clean Hclean_ns).
    destruct clean as [|c r] eqn:Hc; [contradiction|].
    destruct (match_contraction (c :: r)) as [g2|]; [|discriminate].
    destruct (strip g2); discriminate. }
  assert (Htx : lower_exact_text token = true).
  { apply (lower_exact_text_sub clean).
    - intros c Hc. apply drop_contraction_prefix_incl in Hc. auto.
    - apply normalize_user_text_exact, Hx. }
  pose proof (prepare_single_token_shape _ _ _ _ _ _ _ _ _ _ H)
    as [g [ex [ve [_ [Hw [_ [_ Hq]]]]]]].
  pose proof (prepare_single_token_flags _ _ _ _ _ _ _ _ _ _ H)
    as [Hv [Hnv Hpos]].
  unfold stored_word, token_classification in Hw.
  unfold token_classification in Hv, Hnv, Hpos.
  rewrite Hkey in *.
  rewrite noun_plural_step_token in Hw by assumption.
  split; [exact Htx|].
  split; [exact Hw|]. split; [apply Hpos; reflexivity|].
  exists g. rewrite Hq, Hv, Hnv, Hnoun, Hverb. reflexivity.
Qed.

Lemma french_plural_noun_stored_singular_witness :
  lower_exact_text (u8 "amis") = true
  /\ env_api_key sample_env = true
  /\ lower lang_fr = lang_fr
  /\ _normalize_user_text lang_fr (u8 "amis") <> []
  /\ existsb is_space (_normalize_user_text lang_fr (u8 "amis")) = false
  /\ is_noun (srv_classify sample_service (u8 "amis")) = true
  /\ is_verb (srv_classify sample_service (u8 "amis")) = false
  /\ prepare_word_actions sample_env sample_service (u8 "amis") 22 lang_fr
       (Some user_123) None true = Ok amis_actions
  /\ a_word amis_actions = u8 "ami"
  /\ a_pos amis_actions
     = dt_pos (srv_details sample_service (a_word amis_actions)
                 (srv_classify sample_service (u8 "amis")))
  /\ exists g,
       hd_error (a_queries amis_actions)
       = Some (InsertWord g (a_word amis_actions)
                 (a_association amis_actions) 22 (a_ipa_word amis_actions)).
Proof.
  assert (H0 : lower_exact_text (u8 "amis") = true)
    by (vm_compute; reflexivity).
  assert (H1 : env_api_key sample_env = true) by reflexivity.
  assert (H2 : lower lang_fr = lang_fr) by reflexivity.
  assert (H3 : _normalize_user_text lang_fr (u8 "amis") <> [])
    by (vm_compute; discriminate).
  assert (H4 : existsb is_space (_normalize_user_text lang_fr (u8 "amis"))
               = false) by (vm_compute; reflexivity).
  assert (H5 : is_noun (srv_classify sample_service
                          (_fr_drop_contraction_prefix
                             (_normalize_user_text lang_fr (u8 "amis"))))
               = true) by (vm_compute; reflexivity).
  assert (H6 : is_verb (srv_classify sample_service
                          (_fr_drop_contraction_prefix
                             (_normalize_user_text lang_fr (u8 "amis"))))
               = false) by (vm_compute; reflexivity).
  assert (H7 : prepare_word_actions sample_env sample_service (u8 "amis") 22
                 lang_fr (Some user_123) None true = Ok amis_actions)
    by (vm_compute; reflexivity).
  repeat (split; [assumption || (vm_compute; reflexivity)|]).
  exact (proj2 (proj2 (proj2
    (french_plural_noun_stored_singular sample_env sample_service
       (u8 "amis") 22 lang_fr (Some user_123) None true amis_actions
       H0 H1 H2 H3 H4 H5 H6 H7)))).
Defined.

(* ===================================================================== *)
(** * 44. Transcriptions of the action sets                               *)
(* ===================================================================== *)

Lemma simple_ipa_checked (content t : str) :
  _simple_ipa_from_text content = Some t -> checked_format t.
Proof. intros H. apply simple_ipa_format in H. apply H. Qed.

Lemma word_ipa_checked (reply : ipa_reply) (t : str) :
  word_ipa_from_reply reply = Some t -> checked_format t.
Proof.
  unfold word_ipa_from_reply.
  destruct (ir_parsed reply) as [[ph [i|]]|]; try discriminate.
  - destruct (nonempty (strip i)); [apply simple_ipa_checked | discriminate].
  - apply simple_ipa_checked.
Qed.

Lemma phrase_ipa_checked (reply : ipa_reply) (t : str) :
  _get_phrase_ipa reply = Some t -> checked_format t.
Proof.
  unfold _get_phrase_ipa.
  destruct (ir_parsed reply) as [[ph [i|]]|]; try apply simple_ipa_checked.
  destruct (nonempty (strip i)); apply simple_ipa_checked.
Qed.

Lemma checked_format_nonempty (t : str) : checked_format t -> t <> [].
Proof. intros [[inside [-> _]] _]. discriminate. Qed.

Lemma resolve_entry_ipa_ok srv language entry :
  ve_ipa entry = None -> entry_ipa_ok (resolve_entry_ipa srv language entry).
Proof.
  intros Hn t. unfold resolve_entry_ipa.
  destruct (strip (ve_phrase entry)) as [|c r] eqn:Hph;
    [rewrite Hn; discriminate|].
  rewrite <- Hph.
  destruct (ir_parsed (srv_entry_ipa srv (strip (ve_phrase entry))))
    as [[ph [i|]]|]; cbn.
  - destruct (nonempty (strip i)).
    + destruct (_simple_ipa_from_text i) as [x|] eqn:Hx; simpl;
        intros H; injection H as <-;
        [right; eapply simple_ipa_checked, Hx | left; reflexivity].
    + simpl. intros H. injection H as <-. left. reflexivity.
  - simpl. intros H. injection H as <-. left. reflexivity.
  - destruct (_simple_ipa_from_text
                (ir_raw (srv_entry_ipa srv (strip (ve_phrase entry)))))
      as [x|] eqn:Hx; simpl; intros H; injection H as <-;
      [right; eapply simple_ipa_checked, Hx | left; reflexivity].
Qed.

Lemma resolve_entry_association_ipa translation entry :
  ve_ipa (resolve_entry_association translation entry) = ve_ipa entry.
Proof. reflexivity. Qed.

Lemma verb_branch_entries_no_ipa reply inf w :
  Forall (fun e => ve_ipa e = None) (verb_branch_entries reply inf w).
Proof.
  assert (Hf : Forall (fun e => ve_ipa e = None)
                 (filter_map entry_of_form (reply_forms reply))).
  { apply Forall_forall. intros e He. apply in_filter_map in He.
    destruct He as [item [_ He]]. unfold entry_of_form in He.
    destruct item as [it|]; [|discriminate].
    destruct (nonempty (strip (opt_get (fi_phrase it)))); [|discriminate].
    injection He as <-. reflexivity. }
  unfold verb_branch_entries. cbv zeta.
  destruct (strip inf) as [|c r].
  - destruct (filter_map entry_of_form (reply_forms reply)) as [|x xs];
      [repeat constructor | exact Hf].
  - match goal with
    | |- context [?a ++ [?x]] =>
      assert (Ha : Forall (fun e => ve_ipa e = None) (a ++ [x]))
        by (apply Forall_app; split; [exact Hf | repeat constructor]);
      destruct (a ++ [x]) as [|y ys]; [repeat constructor | exact Ha]
    end.
Qed.

Lemma resolved_entries_ok srv language translation es :
  Forall (fun e => ve_ipa e = None) es ->
  Forall entry_ipa_ok
    (map (resolve_entry_association translation)
       (map (resolve_entry_ipa srv language) es)).
Proof.
  intros H. rewrite map_map. apply Forall_forall. intros e He.
  apply in_map_iff in He. destruct He as [x [<- Hx]].
  rewrite Forall_forall in H. intros t.
  rewrite resolve_entry_association_ipa. apply resolve_entry_ipa_ok, H, Hx.
Qed.

Lemma single_token_transcriptions env srv p l lang u t ln ev a :
  prepare_single_token env srv p l lang u t ln ev = Ok a ->
  a_is_phrase a = false
  /\ (forall i, a_ipa_word a = Some i ->
        checked_format i
        \/ (a_is_verb a = false
            /\ srv_dictionary srv (a_word a) = Some i
            /\ (env_api_key env = true ->
                word_ipa_from_reply (srv_word_ipa srv (a_word a)) = None)))
  /\ Forall entry_ipa_ok (a_entries a).
Proof.
  unfold prepare_single_token. intros H.
  destruct (env_api_key env) eqn:Hkey.
  2: { cbn in H. apply bind_ok in H. destruct H as [g [_ H]].
       injection H as <-. cbn. split; [reflexivity|]. split; [|constructor].
       intros i Hi. right. split; [reflexivity|].
       split; [|discriminate].
       destruct (srv_dictionary srv p) as [text|]; [|discriminate].
       destruct (nonempty text); [exact Hi | discriminate]. }
  set (c := srv_classify srv p) in *.
  destruct (is_verb c) eqn:Hv.
  2: { cbn in H. apply bind_ok in H. destruct H as [g [_ H]].
       injection H as <-. cbn. split; [reflexivity|]. split; [|constructor].
       set (w := noun_plural_step lang c p).
       rewrite andb_false_r. simpl negb. rewrite andb_true_r.
       destruct (word_ipa_from_reply (srv_word_ipa srv w)) as [i0|] eqn:Hi0.
       - pose proof (word_ipa_checked _ _ Hi0) as Hc.
         pose proof (checked_format_nonempty _ Hc) as Hne.
         destruct i0 as [|x i0]; [contradiction|]. simpl.
         intros i Hi. injection Hi as <-. left. exact Hc.
       - simpl. intros i Hi. right. split; [reflexivity|].
         split; [|reflexivity].
         destruct (srv_dictionary srv w) as [text|]; [|discriminate].
         destruct (nonempty text); [exact Hi | discriminate]. }
  cbn in H.
  set (w := noun_plural_step lang c p) in *.
  match type of H with
  | context [match ?L with [] => _ | _ :: _ => _ end] =>
    assert (Hes : Forall entry_ipa_ok L)
      by (apply resolved_entries_ok; destruct ev;
          [apply verb_branch_entries_no_ipa | repeat constructor]);
    set (es := L) in *; clearbody es
  end.
  assert (Hwi : forall i, word_ipa_from_reply (srv_word_ipa srv w) = Some i ->
                  checked_format i)
    by (intros i; apply word_ipa_checked).
  assert (Hfirst : forall first rest i,
             Forall entry_ipa_ok (first :: rest) ->
             or_none (opt_get (ve_ipa first)) = Some i -> checked_format i).
  { intros first rest i Hf Hi. inversion Hf as [|? ? Hok _]; subst.
    destruct (ve_ipa first) as [t'|] eqn:Ht; [|discriminate].
    destruct (Hok t' Ht) as [-> | Hc]; [discriminate|].
    simpl in Hi. destruct t'; [discriminate|]. injection Hi as <-. exact Hc. }
  destruct (word_ipa_from_reply (srv_word_ipa srv w)) as [i0|].
  - pose proof (checked_format_nonempty _ (Hwi i0 eq_refl)) as Hne.
    destruct i0 as [|x i0]; [contradiction|].
    destruct (is_noun c) eqn:Hn; destruct es as [|first rest]; cbn in H;
      apply bind_ok in H; destruct H as [g [_ H]]; injection H as <-; cbn;
      (split; [reflexivity|]); (split; [|exact Hes]); intros i Hi;
      first [ left; apply Hwi; exact Hi
            | discriminate Hi
            | left; eapply Hfirst; eassumption ].
  - destruct (is_noun c) eqn:Hn; destruct es as [|first rest]; cbn in H;
      apply bind_ok in H; destruct H as [g [_ H]]; injection H as <-; cbn;
      (split; [reflexivity|]); (split; [|exact Hes]); intros i Hi;
      first [ discriminate Hi
            | left; eapply Hfirst; eassumption ].
Qed.

Lemma word_actions_transcriptions env srv palabra list_id language user_id
    rejected_words_table expand_verbs a :
  prepare_word_actions env srv palabra list_id language user_id
    rejected_words_table expand_verbs = Ok a ->
  (forall i, a_ipa_word a = Some i ->
     checked_format i
     \/ (a_is_phrase a = false /\ a_is_verb a = false
         /\ srv_dictionary srv (a_word a) = Some i
         /\ (env_api_key env = true ->
             word_ipa_from_reply (srv_word_ipa srv (a_word a)) = None)))
  /\ Forall entry_ipa_ok (a_entries a).
Proof.
  rewrite prepare_word_actions_unfold. intros H.
  apply bind_ok in H. destruct H as [[[uid table] ln] [_ H]].
  cbv zeta in H.
  destruct (is_phrase_input (_normalize_user_text language palabra)).
  - unfold _prepare_phrase_actions in H.
    apply bind_ok in H. destruct H as [tq [_ H]].
    apply bind_ok in H. destruct H as [[[uid' table'] ln'] [_ H]].
    apply bind_ok in H. destruct H as [g [_ H]].
    injection H as <-. cbn. split; [|constructor].
    intros i Hi. left. destruct (env_api_key env); [|discriminate].
    eapply phrase_ipa_checked, Hi.
  - apply single_token_transcriptions in H.
    destruct H as [Hp [Hi He]]. split; [|exact He].
    intros i H. destruct (Hi i H) as [Hc | [H1 [H2 H3]]]; [left; exact Hc|].
    right. auto.
Qed.

(** C4 (amended): every transcription [prepare_word_actions] returns as
    [ipa_word], and every transcription of a verb entry it returns that
    is not empty, is exactly one segment between two slashes with a
    non-empty interior, holds no square bracket and no double slash;
    except for an [ipa_word] taken from the dictionary look-up, which
    is the text the dictionary gives (for a single token that is not a
    verb, and for which the completion service gave no transcription).
    White space next to the liaison marker is not checked. *)
Theorem accepted_transcription_format
    env srv palabra list_id language user_id rejected_words_table
    expand_verbs a :
  prepare_word_actions env srv palabra list_id language user_id
    rejected_words_table expand_verbs = Ok a ->
  (forall t, a_ipa_word a = Some t ->
     (ipa_format t /\ contains [slash; slash] t = false)
     \/ (a_is_phrase a = false /\ a_is_verb a = false
         /\ srv_dictionary srv (a_word a) = Some t
         /\ (env_api_key env = true ->
             word_ipa_from_reply (srv_word_ipa srv (a_word a)) = None)))
  /\ Forall (fun entry =>
               forall t, ve_ipa entry = Some t ->
                 t = []
                 \/ (ipa_format t /\ contains [slash; slash] t = false))
            (a_entries a).
Proof.
  intros H.
  exact (word_actions_transcriptions env srv palabra list_id language
           user_id rejected_words_table expand_verbs a H).
Qed.

Lemma accepted_transcription_format_witness :
  prepare_word_actions sample_env sample_service str_est 22 lang_fr
    (Some user_123) None true = Ok est_actions
  /\ a_ipa_word est_actions = Some (u8 "/ɛ/")
  /\ map ve_ipa (a_entries est_actions)
     = [Some (u8 "/ɛ/"); Some (u8 "/ɛ/"); Some (u8 "/ɛ/"); Some (u8 "/ɛ/")]
  /\ (forall t, a_ipa_word est_actions = Some t ->
        (ipa_format t /\ contains [slash; slash] t = false)
        \/ (a_is_phrase est_actions = false /\ a_is_verb est_actions = false
            /\ srv_dictionary sample_service (a_word est_actions) = Some t
            /\ (env_api_key sample_env = true ->
                word_ipa_from_reply
                  (srv_word_ipa sample_service (a_word est_actions)) = None)))
  /\ Forall (fun entry =>
               forall t, ve_ipa entry = Some t ->
                 t = []
                 \/ (ipa_format t /\ contains [slash; slash] t = false))
            (a_entries est_actions).
Proof.
  assert (H : prepare_word_actions sample_env sample_service str_est 22
                lang_fr (Some user_123) None true = Ok est_actions)
    by (vm_compute; reflexivity).
  split; [exact H|]. split; [vm_compute; reflexivity|].
  split; [vm_compute; reflexivity|].
  exact (accepted_transcription_format sample_env sample_service str_est 22
           lang_fr (Some user_123) None true est_actions H).
Defined.

(** C4 as stated fails twice.  A transcription with a space before the
    liaison marker is accepted as [ipa_word] of a phrase: the check
    that rejects it, [_ipa_is_reasonably_well_formed], is not part of
    the pipeline.  And without an API key the text of the dictionary
    look-up is stored as [ipa_word] as it is, here a text between
    square brackets that [_simple_ipa_from_text] refuses. *)
Lemma unchecked_transcriptions_stored :
  (exists a,
     prepare_word_actions sample_env spaced_liaison_service nous_avons 22
       lang_fr (Some user_123) None true = Ok a
     /\ a_ipa_word a = Some spaced_liaison_ipa)
  /\ contains [32%N; liaison] spaced_liaison_ipa = true
  /\ _ipa_is_reasonably_well_formed (Some spaced_liaison_ipa) = false
  /\ (exists a,
        prepare_word_actions offline_env bracket_dictionary_service
          (u8 "ami") 22 lang_fr (Some user_123) None true = Ok a
        /\ a_ipa_word a = Some bracketed_text)
  /\ _simple_ipa_from_text bracketed_text = None
  /\ is_single_segment bracketed_text = false.
Proof.
  split; [eexists; split; vm_compute; reflexivity|].
  split; [vm_compute; reflexivity|].
  split; [vm_compute; reflexivity|].
  split; [eexists; split; vm_compute; reflexivity|].
  split; vm_compute; reflexivity.
Qed.

(* ===================================================================== *)
(** * 45. Slots of the ambiguous pronouns                                 *)
(* ===================================================================== *)

Lemma group_map_values (lang pron group : str) :
  group_map lang pron = Some group ->
  group = grp_il \/ group = grp_ils \/ group = grp_er.
Proof.
  unfold group_map.
  destruct (str_eqb lang lang_fr).
  - destruct (mem_str pron _); [intros H; injection H as <-; auto|].
    destruct (mem_str pron _); [intros H; injection H as <-; auto|].
    discriminate.
  - destruct (str_eqb lang lang_de); [|discriminate].
    destruct (mem_str pron _); [intros H; injection H as <-; auto|].
    discriminate.
Qed.

Lemma group_map_label (lang group : str) :
  group = grp_il \/ group = grp_ils \/ group = grp_er ->
  group_map lang group = None.
Proof.
  intros H. unfold group_map.
  destruct (str_eqb lang lang_fr); [|destruct (str_eqb lang lang_de)];
    destruct H as [-> | [-> | ->]]; reflexivity.
Qed.

Lemma strip_blank_spaces (s : str) : strip s = [] -> forallb is_space s = true.
Proof.
  intros H.
  destruct (existsb (fun c => negb (is_space c)) s) eqn:He.
  - apply existsb_exists in He. destruct He as [c [Hc Hn]].
    exfalso. revert H. unfold strip, strip_by, rstrip_by.
    intros H. apply (f_equal (@rev char)) in H. rewrite rev_involutive in H.
    simpl in H.
    assert (Hl : forall t, In c t -> In c (lstrip_by is_space t)).
    { intros t. induction t as [|x t IH]; simpl; [auto|].
      destruct (is_space x) eqn:Hx.
      - intros [-> | Hin]; [rewrite Hx in Hn; discriminate | apply IH, Hin].
      - auto. }
    apply Hl in Hc. apply in_rev in Hc. apply Hl in Hc. rewrite H in Hc.
    destruct Hc.
  - apply forallb_forall. intros c Hc.
    destruct (is_space c) eqn:Hs; [reflexivity|].
    assert (Hx : existsb (fun c => negb (is_space c)) s = true).
    { apply existsb_exists. exists c. rewrite Hs. auto. }
    congruence.
Qed.

Lemma split_rest_nonempty (p0 p1 : str) :
  strip (p0 ++ [32%N] ++ p1) = p0 ++ [32%N] ++ p1 -> strip p1 <> [].
Proof.
  intros Hs Hb. apply strip_blank_spaces in Hb.
  pose proof (stripped_last is_space _ Hs) as Hl.
  assert (Hall : forallb is_space ([32%N] ++ p1) = true)
    by (simpl; exact Hb).
  assert (Hne : [32%N] ++ p1 <> []) by discriminate.
  destruct (exists_last Hne) as [q [z Hq]].
  assert (Hz : is_space z = true).
  { rewrite forallb_forall in Hall. apply Hall. rewrite Hq.
    apply in_or_app. right. left. reflexivity. }
  assert (Hrev : rev (p0 ++ [32%N] ++ p1) = z :: rev (p0 ++ q)).
  { rewrite Hq, app_assoc, rev_app_distr. reflexivity. }
  rewrite Hrev in Hl. congruence.
Qed.

Lemma group_slot_key (lang group rest : str) (entry : verb_entry) (tr : str) :
  group = grp_il \/ group = grp_ils \/ group = grp_er ->
  rest <> [] -> strip rest = rest ->
  entry_key lang (group_slot group rest entry tr) = Some (group, rest).
Proof.
  intros Hg Hne Hs. unfold entry_key, group_slot. cbv zeta.
  cbn [ve_phrase].
  assert (Hst : strip (group ++ [32%N] ++ rest) = group ++ [32%N] ++ rest).
  { destruct Hg as [-> | [-> | ->]];
      match goal with
      | |- strip (?g ++ [32%N] ++ rest) = _ =>
        change (g ++ [32%N] ++ rest)
          with ((hd 0%N g :: tl g ++ [32%N]) ++ rest)
      end;
      apply prefix_stripped; (reflexivity || assumption). }
  rewrite Hst.
  assert (Hsp : split_once [32%N] (group ++ [32%N] ++ rest)
                = Some (group, rest))
    by (destruct Hg as [-> | [-> | ->]]; reflexivity).
  rewrite Hsp.
  assert (Hlow : lower (strip group) = group)
    by (destruct Hg as [-> | [-> | ->]]; reflexivity).
  rewrite Hlow, (group_map_label lang group Hg), Hs.
  destruct (group ++ [32%N] ++ rest) eqn:He; [|reflexivity].
  destruct Hg as [-> | [-> | ->]]; discriminate.
Qed.

Lemma fill_translation_keyed (lang : str) (k : pron_key) (tr : str)
    (m : merged_map) :
  Forall (fun kv => entry_key lang (snd kv) = Some (fst kv)) m ->
  Forall (fun kv => entry_key lang (snd kv) = Some (fst kv))
         (fill_translation k tr m).
Proof.
  induction m as [|[k' e] m IH]; simpl; intros H; [constructor|].
  inversion H as [|? ? He Hm]; subst. simpl in He.
  destruct (key_eqb k k').
  - constructor; [|exact Hm]. simpl.
    destruct (nonempty (strip (ve_translation e))); exact He.
  - constructor; [exact He | apply IH, Hm].
Qed.

Lemma group_step_keyed (lang : str) (m : merged_map) (e : verb_entry) :
  Forall (fun kv => entry_key lang (snd kv) = Some (fst kv)) m ->
  Forall (fun kv => entry_key lang (snd kv) = Some (fst kv))
         (group_step lang m e).
Proof.
  intros Hm. unfold group_step. cbv zeta.
  destruct (strip (ve_phrase e)) as [|c r] eqn:Hp; [exact Hm|].
  assert (Hst : strip (c :: r) = c :: r)
    by (rewrite <- Hp; apply strip_idempotent).
  destruct (split_once [32%N] (c :: r)) as [[p0 p1]|] eqn:Hs;
    [destruct (group_map lang (lower (strip p0))) as [group|] eqn:Hg|];
    match goal with
    | |- context [has_key ?k m] => destruct (has_key k m) eqn:Hk
    end;
    try exact Hm; try (apply fill_translation_keyed; exact Hm);
    (apply Forall_app; split; [exact Hm|]); constructor; try constructor;
    simpl.
  - apply split_once_spec in Hs. rewrite Hs in Hst.
    apply (group_slot_key lang group (strip p1) e (ve_translation e)).
    + eapply group_map_values, Hg.
    + apply split_rest_nonempty with (p0 := p0). exact Hst.
    + apply strip_idempotent.
  - unfold entry_key. rewrite Hp, Hs, Hg. reflexivity.
  - unfold entry_key. rewrite Hp, Hs. reflexivity.
Qed.

Lemma group_merge_keyed (lang : str) (es : list verb_entry) :
  Forall (fun kv => entry_key lang (snd kv) = Some (fst kv))
         (group_merge lang es).
Proof.
  unfold group_merge.
  assert (H : forall m,
             Forall (fun kv => entry_key lang (snd kv) = Some (fst kv)) m ->
             Forall (fun kv => entry_key lang (snd kv) = Some (fst kv))
                    (fold_left (group_step lang) es m)).
  { induction es as [|e es IH]; simpl; intros m Hm; [exact Hm|].
    apply IH, group_step_keyed, Hm. }
  apply H. constructor.
Qed.

Lemma group_merge_entry_keys (lang : str) (es : list verb_entry) :
  map (entry_key lang) (map snd (group_merge lang es))
  = map Some (map fst (group_merge lang es)).
Proof.
  pose proof (group_merge_keyed lang es) as H.
  induction (group_merge lang es) as [|kv m IH]; [reflexivity|].
  inversion H as [|? ? Hk Hm]; subst. simpl. rewrite Hk, (IH Hm).
  reflexivity.
Qed.

Lemma NoDup_map_Some {A} (l : list A) : NoDup l -> NoDup (map Some l).
Proof.
  induction 1 as [|x l Hx Hl IH]; simpl; constructor; [|exact IH].
  intros Hin. apply in_map_iff in Hin. destruct Hin as [y [Hy Hin]].
  injection Hy as ->. contradiction.
Qed.

(** A key of the map after one iteration was there before, or is the
    key of the entry. *)
Lemma group_step_key_origin (lang : str) (m : merged_map) (e : verb_entry)
    (k : pron_key) :
  In k (map fst (group_step lang m e)) ->
  In k (map fst m) \/ entry_key lang e = Some k.
Proof.
  unfold group_step, entry_key. cbv zeta.
  destruct (strip (ve_phrase e)) as [|c r] eqn:Hp; [auto|].
  destruct (split_once [32%N] (c :: r)) as [[p0 p1]|] eqn:Hs;
    [destruct (group_map lang (lower (strip p0))) as [group|] eqn:Hg|];
    match goal with
    | |- context [has_key ?k m] => destruct (has_key k m) eqn:Hk
    end;
    try (rewrite fill_translation_keys); auto;
    rewrite map_app; intros Hin; apply in_app_or in Hin;
    (destruct Hin as [Hin | [<- | []]]; [left; exact Hin | right; reflexivity]).
Qed.

Lemma group_fold_key_origin (lang : str) (es : list verb_entry)
    (m : merged_map) (k : pron_key) :
  In k (map fst (fold_left (group_step lang) es m)) ->
  In k (map fst m) \/ exists x, In x es /\ entry_key lang x = Some k.
Proof.
  revert m. induction es as [|e es IH]; simpl; intros m H; [auto|].
  destruct (IH _ H) as [Hin | [x [Hx Hk]]].
  - destruct (group_step_key_origin lang m e k Hin) as [H1 | H1]; [auto|].
    right. exists e. auto.
  - right. exists x. auto.
Qed.

Lemma fresh_key (lang : str) (es : list verb_entry) (k : pron_key) :
  (forall x, In x es -> entry_key lang x <> Some k) ->
  has_key k (group_merge lang es) = false.
Proof.
  intros H. destruct (has_key k (group_merge lang es)) eqn:Hk; [|reflexivity].
  apply has_key_In in Hk. apply group_fold_key_origin in Hk.
  destruct Hk as [[] | [x [Hx Hkx]]]. exfalso. eapply H; eassumption.
Qed.

Lemma fill_translation_other (k k' : pron_key) (tr : str) (m : merged_map)
    (v : verb_entry) :
  k <> k' -> In (k, v) m -> In (k, v) (fill_translation k' tr m).
Proof.
  intros Hne. induction m as [|[k0 e0] m IH]; simpl; [auto|].
  intros [H | H].
  - injection H as -> ->.
    destruct (key_eqb k' k) eqn:He;
      [apply key_eqb_eq in He; congruence | left; reflexivity].
  - destruct (key_eqb k' k0); [right; exact H | right; apply IH, H].
Qed.

Lemma fill_translation_same (k : pron_key) (tr : str) (m : merged_map)
    (v : verb_entry) :
  NoDup (map fst m) -> In (k, v) m ->
  In (k, if nonempty (strip (ve_translation v)) then v
         else {| ve_pronoun := ve_pronoun v; ve_phrase := ve_phrase v;
                 ve_translation := tr; ve_ipa := ve_ipa v;
                 ve_association := ve_association v |})
     (fill_translation k tr m).
Proof.
  induction m as [|[k0 e0] m IH]; simpl; [auto|].
  intros Hnd Hin. inversion Hnd as [|? ? Hk0 Hm]; subst.
  destruct (key_eqb k k0) eqn:He.
  - apply key_eqb_eq in He. subst k0.
    destruct Hin as [H | H].
    + injection H as ->. left. reflexivity.
    + exfalso. apply Hk0. apply in_map_iff. exists (k, v). auto.
  - destruct Hin as [H | H].
    + injection H as -> ->.
      assert (Hr : key_eqb k k = true) by (apply key_eqb_eq; reflexivity).
      congruence.
    + right. apply IH; assumption.
Qed.

Lemma group_step_nodup (lang : str) (m : merged_map) (e : verb_entry) :
  NoDup (map fst m) -> NoDup (map fst (group_step lang m e)).
Proof.
  intros Hm.
  destruct (group_step_keys lang m e) as [-> | [k [Hk ->]]]; [exact Hm|].
  apply NoDup_app; [exact Hm | repeat constructor; intros [] |].
  intros x Hx [<- | []]. apply has_key_In in Hx. congruence.
Qed.

(** An entry that is not filed under [k] as a member of a group leaves
    the slot of [k] as it is. *)
Lemma group_step_other (lang : str) (m : merged_map) (e : verb_entry)
    (k : pron_key) (v : verb_entry) :
  ~ grouped_under lang k e ->
  In (k, v) m -> In (k, v) (group_step lang m e).
Proof.
  intros Hnot Hin. unfold group_step. cbv zeta.
  destruct (strip (ve_phrase e)) as [|c r] eqn:Hp; [exact Hin|].
  destruct (split_once [32%N] (c :: r)) as [[p0 p1]|] eqn:Hs;
    [destruct (group_map lang (lower (strip p0))) as [group|] eqn:Hg|];
    match goal with
    | |- context [has_key ?k m] => destruct (has_key k m) eqn:Hk
    end;
    try exact Hin; try (apply in_or_app; left; exact Hin).
  apply fill_translation_other; [|exact Hin].
  intros ->. apply Hnot. unfold grouped_under, entry_group, entry_key.
  rewrite Hp, Hs, Hg. split; reflexivity.
Qed.

(** A member of the group of [k] with the same verb form fills the
    slot of [k] when the slot has no translation. *)
Lemma group_step_member (lang : str) (m : merged_map) (e : verb_entry)
    (k : pron_key) (v : verb_entry) :
  grouped_under lang k e -> NoDup (map fst m) -> In (k, v) m ->
  In (k, if nonempty (strip (ve_translation v)) then v
         else {| ve_pronoun := ve_pronoun v; ve_phrase := ve_phrase v;
                 ve_translation := strip (ve_translation e);
                 ve_ipa := ve_ipa v;
                 ve_association := ve_association v |})
     (group_step lang m e).
Proof.
  intros [Hg Hk] Hnd Hin.
  rewrite (group_step_seen lang m e (fst k) k Hg Hk).
  - apply fill_translation_same; assumption.
  - apply has_key_In. apply in_map_iff. exists (k, v). auto.
Qed.

Lemma grouped_under_dec (lang : str) (k : pron_key) (e : verb_entry) :
  grouped_under lang k e \/ ~ grouped_under lang k e.
Proof.
  unfold grouped_under.
  destruct (entry_group lang e) as [g|]; [|right; intros [H _]; discriminate].
  destruct (entry_key lang e) as [k'|]; [|right; intros [_ H]; discriminate].
  destruct (str_eqb g (fst k)) eqn:Hg.
  - apply str_eqb_eq in Hg. subst g.
    destruct (key_eqb k' k) eqn:Hk.
    + apply key_eqb_eq in Hk. subst k'. left. auto.
    + right. intros [_ H]. injection H as ->.
      assert (Hr : key_eqb k k = true) by (apply key_eqb_eq; reflexivity).
      congruence.
  - right. intros [H _]. injection H as ->.
    rewrite str_eqb_refl in Hg. discriminate.
Qed.

Lemma blank_strip (tr : str) :
  nonempty (strip tr) = false -> nonempty (strip (strip tr)) = false.
Proof. rewrite strip_idempotent. auto. Qed.

(** While the members that follow have no translation, the slot has
    none. *)
Lemma slot_stays_blank (lang : str) (xs : list verb_entry) (m : merged_map)
    (k : pron_key) (e : verb_entry) (tr : str) :
  NoDup (map fst m) ->
  In (k, group_slot (fst k) (snd k) e tr) m ->
  nonempty (strip tr) = false ->
  (forall x, In x xs -> grouped_under lang k x ->
             blank_translation x = true) ->
  exists tr',
    nonempty (strip tr') = false
    /\ In (k, group_slot (fst k) (snd k) e tr')
          (fold_left (group_step lang) xs m).
Proof.
  revert m tr. induction xs as [|x xs IH]; simpl; intros m tr Hnd Hin Hb Hxs.
  { exists tr. auto. }
  destruct (grouped_under_dec lang k x) as [Hx | Hx].
  - pose proof (group_step_member lang m x k _ Hx Hnd Hin) as Hs.
    simpl in Hs. rewrite Hb in Hs.
    apply (IH _ (strip (ve_translation x))).
    + apply group_step_nodup, Hnd.
    + exact Hs.
    + apply blank_strip.
      pose proof (Hxs x (or_introl eq_refl) Hx) as Hbx.
      unfold blank_translation in Hbx. apply negb_true_iff in Hbx. exact Hbx.
    + intros y Hy. apply Hxs. right. exact Hy.
  - apply (IH _ tr).
    + apply group_step_nodup, Hnd.
    + apply group_step_other; assumption.
    + exact Hb.
    + intros y Hy. apply Hxs. right. exact Hy.
Qed.

Lemma group_slot_created (lang : str) (es1 : list verb_entry)
    (e : verb_entry) (k : pron_key) :
  grouped_under lang k e ->
  (forall x, In x es1 -> entry_key lang x <> Some k) ->
  In (k, group_slot (fst k) (snd k) e (ve_translation e))
     (group_merge lang (es1 ++ [e])).
Proof.
  intros [Hg Hk] Hfresh. unfold group_merge. rewrite fold_left_app.
  simpl fold_left. fold (group_merge lang es1).
  rewrite (group_step_new lang _ e (fst k) k Hg Hk (fresh_key _ _ _ Hfresh)).
  apply in_or_app. right. left. reflexivity.
Qed.

Lemma group_merge_app (lang : str) (a b : list verb_entry) :
  group_merge lang (a ++ b)
  = fold_left (group_step lang) b (group_merge lang a).
Proof. unfold group_merge. apply fold_left_app. Qed.

Lemma group_merge_nodup (lang : str) (es : list verb_entry) :
  NoDup (map fst (group_merge lang es)).
Proof. apply group_fold_keys. constructor. Qed.

(** The slot of the first member of a group: it keeps the translation
    of that member, or, when that member has none, takes the stripped
    translation of the first later member that has one. *)
Lemma group_slot_translation (lang : str) (es1 es2 : list verb_entry)
    (e : verb_entry) (k : pron_key) :
  grouped_under lang k e ->
  (forall x, In x es1 -> entry_key lang x <> Some k) ->
  (blank_translation e = false ->
   In (k, group_slot (fst k) (snd k) e (ve_translation e))
      (group_merge lang (es1 ++ e :: es2)))
  /\ (blank_translation e = true ->
      forall es2a e2 es2b,
        es2 = es2a ++ e2 :: es2b ->
        grouped_under lang k e2 ->
        blank_translation e2 = false ->
        (forall x, In x es2a -> grouped_under lang k x ->
                   blank_translation x = true) ->
        In (k, group_slot (fst k) (snd k) e (strip (ve_translation e2)))
           (group_merge lang (es1 ++ e :: es2))).
Proof.
  intros He Hfresh.
  pose proof (group_slot_created lang es1 e k He Hfresh) as Hc.
  assert (Hsplit : forall t, es1 ++ e :: t = (es1 ++ [e]) ++ t)
    by (intros t; rewrite <- app_assoc; reflexivity).
  split.
  - intros Hb. unfold blank_translation in Hb. apply negb_false_iff in Hb.
    rewrite Hsplit, group_merge_app. apply group_fold_keeps; assumption.
  - intros Hb es2a e2 es2b -> He2 Hb2 Hmid.
    unfold blank_translation in Hb, Hb2.
    apply negb_true_iff in Hb. apply negb_false_iff in Hb2.
    rewrite Hsplit, group_merge_app, fold_left_app. simpl fold_left.
    destruct (slot_stays_blank lang es2a _ k e _
                (group_merge_nodup lang (es1 ++ [e])) Hc Hb Hmid)
      as [tr' [Hb' Hin]].
    set (m1 := fold_left (group_step lang) es2a
                 (group_merge lang (es1 ++ [e]))) in *.
    assert (Hnd : NoDup (map fst m1)).
    { unfold m1. rewrite <- group_merge_app. apply group_merge_nodup. }
    pose proof (group_step_member lang m1 e2 k _ He2 Hnd Hin) as Hs.
    simpl in Hs. rewrite Hb' in Hs.
    apply group_fold_keeps; [exact Hs|].
    simpl. rewrite strip_idempotent. exact Hb2.
Qed.

Lemma group_ambiguous_pronouns_merge (language : str)
    (es : list verb_entry) :
  is_fr_or_de (lower language) = true ->
  _group_ambiguous_pronouns language es
  = map snd (group_merge (lower language) es).
Proof.
  intros Hl. unfold _group_ambiguous_pronouns. cbv zeta. rewrite Hl.
  destruct es; reflexivity.
Qed.

Lemma grouped_under_slot (lang : str) (k : pron_key) (e : verb_entry)
    (tr : str) :
  grouped_under lang k e ->
  entry_key lang (group_slot (fst k) (snd k) e tr) = Some k.
Proof.
  intros [Hg Hk].
  destruct (grouped_entry_key lang e (fst k) k Hg Hk)
    as [_ [p0 [p1 [Hs [Hgm Hsnd]]]]].
  destruct k as [g rest]. simpl in *.
  apply group_slot_key.
  - eapply group_map_values, Hgm.
  - subst rest. apply split_once_spec in Hs.
    apply split_rest_nonempty with (p0 := p0).
    pose proof (strip_idempotent (ve_phrase e)) as Hx.
    rewrite Hs in Hx. exact Hx.
  - subst rest. apply strip_idempotent.
Qed.

(** The pronouns of the entries of the verb branch. *)
Lemma verb_branch_pronouns reply inf w :
  map ve_pronoun (verb_branch_entries reply inf w)
  = match strip inf, filter_map entry_of_form (reply_forms reply) with
    | [], [] => [[]]
    | [], forms => map ve_pronoun forms
    | _ :: _, forms => map ve_pronoun forms ++ [str_infinitive]
    end.
Proof.
  unfold verb_branch_entries. cbv zeta.
  destruct (strip inf) as [|c r].
  - destruct (filter_map entry_of_form (reply_forms reply)); reflexivity.
  - match goal with
    | |- context [?a ++ [?x]] =>
      destruct (a ++ [x]) as [|y ys] eqn:Happ
    end.
    + destruct (filter_map entry_of_form (reply_forms reply));
        discriminate.
    + rewrite <- Happ, map_app. reflexivity.
Qed.

Lemma verb_action_set env srv palabra list_id language user_id table ev a :
  prepare_word_actions env srv palabra list_id language user_id table ev
  = Ok a ->
  a_is_verb a = true ->
  env_api_key env = true
  /\ exists p ln u t,
       prepare_single_token env srv p list_id language u t ln ev = Ok a.
Proof.
  rewrite prepare_word_actions_unfold. intros H Hv.
  apply bind_ok in H. destruct H as [[[uid tb] ln] [_ H]].
  cbv zeta in H.
  destruct (is_phrase_input (_normalize_user_text language palabra)).
  - unfold _prepare_phrase_actions in H.
    apply bind_ok in H. destruct H as [tq [_ H]].
    apply bind_ok in H. destruct H as [[[uid' table'] ln'] [_ H]].
    apply bind_ok in H. destruct H as [g [_ H]].
    injection H as <-. discriminate Hv.
  - split; [|eauto 6].
    pose proof (prepare_single_token_flags _ _ _ _ _ _ _ _ _ _ H)
      as [Hf _].
    rewrite Hv in Hf. unfold token_classification in Hf.
    destruct (env_api_key env); [reflexivity | discriminate].
Qed.

Lemma noun_plural_step_verb (language : str) (c : classification)
    (palabra : str) :
  is_verb c = true -> noun_plural_step language c palabra = palabra.
Proof.
  intros Hv. unfold noun_plural_step. rewrite Hv. simpl.
  rewrite !andb_false_r. reflexivity.
Qed.

(** The entries of a verb action set: the entries of the verb branch,
    resolved one by one. *)
Lemma single_token_verb_entries env srv p l lang u t ln a :
  prepare_single_token env srv p l lang u t ln true = Ok a ->
  env_api_key env = true ->
  a_is_verb a = true ->
  a_entries a
  = map (fun entry =>
           resolve_entry_association
             (dt_translation
                (srv_details srv (a_word a) (srv_classify srv (a_word a))))
             (resolve_entry_ipa srv lang entry))
      (verb_branch_entries (srv_verb srv (a_word a))
         (a_verb_infinitive a) (a_word a)).
Proof.
  unfold prepare_single_token. intros H Hkey.
  match type of H with
  | context [let '(x, y) := ?E in _] => destruct E as [assoc ipa]
  end.
  apply bind_ok in H. destruct H as [g [Hg H]].
  injection H as <-. cbn. rewrite Hkey. simpl. intros Hv. rewrite Hv.
  simpl. rewrite (noun_plural_step_verb lang _ p Hv), map_map. reflexivity.
Qed.

(** C9 (amended): the helper [_group_ambiguous_pronouns] merges the
    entries of an ambiguous group that have the same verb form.  For
    French and German, and entries whose phrases are made of code
    points on which [lower_char] is [str.lower] (the pronoun is
    lowered), its result holds at most one entry for each key (group or
    pronoun, verb form).  The first member of a group with a
    verb form makes the slot of that key: the slot is labelled with the
    group, its phrase is the group followed by the verb form, and it
    keeps the translation of that member; when that member has no
    translation, the slot takes the stripped translation of the first
    later member that has one.  The verb branch of
    [prepare_word_actions] does not pass its entries through the
    helper: the emitted entries are the entries of the branch, each
    with its transcription and its association resolved, that is one
    entry for each returned form that has a phrase, under the pronoun
    of that form, followed by the infinitive entry when the lemma is
    not blank; without form and without lemma, the one entry of the
    word itself. *)
Theorem ambiguous_pronoun_grouping :
  (forall language es,
     is_fr_or_de (lower language) = true ->
     forallb (fun entry => lower_exact_text (ve_phrase entry)) es = true ->
     let lang := lower language in
     let slots := _group_ambiguous_pronouns language es in
     NoDup (map (entry_key lang) slots)
     /\ forall es1 e es2 k,
          es = es1 ++ e :: es2 ->
          grouped_under lang k e ->
          (forall x, In x es1 -> entry_key lang x <> Some k) ->
          (forall tr,
             entry_key lang (group_slot (fst k) (snd k) e tr) = Some k)
          /\ (blank_translation e = false ->
              In (group_slot (fst k) (snd k) e (ve_translation e)) slots)
          /\ (blank_translation e = true ->
              forall es2a e2 es2b,
                es2 = es2a ++ e2 :: es2b ->
                grouped_under lang k e2 ->
                blank_translation e2 = false ->
                (forall x, In x es2a -> grouped_under lang k x ->
                           blank_translation x = true) ->
                In (group_slot (fst k) (snd k) e (strip (ve_translation e2)))
                   slots))
  /\ (forall env srv palabra list_id language user_id table a,
        prepare_word_actions env srv palabra list_id language user_id
          table true = Ok a ->
        a_is_verb a = true ->
        a_entries a
        = map (fun entry =>
                 resolve_entry_association
                   (dt_translation
                      (srv_details srv (a_word a)
                         (srv_classify srv (a_word a))))
                   (resolve_entry_ipa srv language entry))
            (verb_branch_entries (srv_verb srv (a_word a))
               (a_verb_infinitive a) (a_word a))
        /\ map ve_pronoun (a_entries a)
           = match strip (a_verb_infinitive a),
                   filter_map entry_of_form
                     (reply_forms (srv_verb srv (a_word a))) with
             | [], [] => [[]]
             | [], forms => map ve_pronoun forms
             | _ :: _, forms => map ve_pronoun forms ++ [str_infinitive]
             end).
Proof.
  split.
  - intros language es Hl _ lang slots. unfold slots.
    rewrite (group_ambiguous_pronouns_merge language es Hl). fold lang.
    split.
    + rewrite group_merge_entry_keys. apply NoDup_map_Some.
      apply group_merge_nodup.
    + intros es1 e es2 k -> He Hfresh.
      destruct (group_slot_translation lang es1 es2 e k He Hfresh)
        as [H1 H2].
      split; [intros tr; apply grouped_under_slot, He|]. split.
      * intros Hb. apply in_map_iff. eexists. split; [|apply H1, Hb].
        reflexivity.
      * intros Hb es2a e2 es2b Hes He2 Hb2 Hmid.
        apply in_map_iff. eexists.
        split; [|eapply H2; eassumption]. reflexivity.
  - intros env srv palabra list_id language user_id table a H Hv.
    destruct (verb_action_set _ _ _ _ _ _ _ _ _ H Hv)
      as [Hkey [p [ln [u [t Hs]]]]].
    pose proof (single_token_verb_entries _ _ _ _ _ _ _ _ _ Hs Hkey Hv)
      as He.
    split; [exact He|].
    rewrite He, <- (map_map (resolve_entry_ipa srv language)
                      (resolve_entry_association _)).
    rewrite verb_entries_pronouns. apply verb_branch_pronouns.
Qed.

Lemma ambiguous_pronoun_grouping_witness :
  is_fr_or_de (lower lang_fr) = true
  /\ grouped_under lang_fr (grp_il, str_est) entry_il_blank
  /\ grouped_under lang_fr (grp_il, str_est) entry_elle_est
  /\ _group_ambiguous_pronouns lang_fr [entry_il_blank; entry_elle_est]
     = [group_slot grp_il str_est entry_il_blank (u8 "ella es")]
  /\ In (group_slot grp_il str_est entry_il_blank
          (strip (ve_translation entry_elle_est)))
        (_group_ambiguous_pronouns lang_fr [entry_il_blank; entry_elle_est])
  /\ map ve_pronoun (a_entries est_actions)
     = [u8 "il"; u8 "elle"; u8 "on"; str_infinitive].
Proof.
  assert (H0 : is_fr_or_de (lower lang_fr) = true) by reflexivity.
  assert (Hx : forallb (fun entry => lower_exact_text (ve_phrase entry))
                 [entry_il_blank; entry_elle_est] = true) by reflexivity.
  assert (H1 : grouped_under lang_fr (grp_il, str_est) entry_il_blank)
    by (split; reflexivity).
  assert (H2 : grouped_under lang_fr (grp_il, str_est) entry_elle_est)
    by (split; reflexivity).
  assert (H3 : prepare_word_actions sample_env sample_service str_est 22
                 lang_fr (Some user_123) None true = Ok est_actions)
    by (vm_compute; reflexivity).
  split; [exact H0|]. split; [exact H1|]. split; [exact H2|].
  split; [vm_compute; reflexivity|]. split.
  - apply (proj2 (proj2 (proj2
             (proj1 ambiguous_pronoun_grouping lang_fr
                [entry_il_blank; entry_elle_est] H0 Hx)
             [] entry_il_blank [entry_elle_est] (grp_il, str_est)
             eq_refl H1 (fun x (Hx : In x []) => match Hx with end)))
           eq_refl [] entry_elle_est [] eq_refl H2 eq_refl
           (fun x (Hx : In x []) => match Hx with end)).
  - rewrite (proj2 (proj2 ambiguous_pronoun_grouping sample_env
               sample_service str_est 22%Z lang_fr (Some user_123) None
               est_actions H3 eq_refl)).
    vm_compute. reflexivity.
Defined.

(** C9, the verb branch on the form [est]: the forms of il, elle and on
    share the group and the verb form, and are emitted as three
    entries; the helper would make one slot of them. *)
Lemma verb_forms_emitted_ungrouped :
  prepare_word_actions sample_env sample_service str_est 22 lang_fr
    (Some user_123) None true = Ok est_actions
  /\ a_is_verb est_actions = true
  /\ map (entry_key lang_fr) (firstn 3 (a_entries est_actions))
     = [Some (grp_il, str_est); Some (grp_il, str_est);
        Some (grp_il, str_est)]
  /\ map (entry_group lang_fr) (firstn 3 (a_entries est_actions))
     = [Some grp_il; Some grp_il; Some grp_il]
  /\ length (a_entries est_actions) = 4
  /\ length (_group_ambiguous_pronouns lang_fr (a_entries est_actions)) = 2.
Proof.
  repeat split; vm_compute; reflexivity.
Qed.
